(** * CADET General Rate Model: discretization layout, residual kernels,
      flux coupling and consistent initialization

    Shallow embedding of
      - [src/libcadet/model/GeneralRateModel.cpp]
      - [src/libcadet/model/ModelSystemImpl-InitialConditions.cpp]

    Conventions of the embedding.
      - [unsigned int] values are integers in [Z] and every arithmetic
        operation on them is reduced modulo [2^32] ([UInt.wrap]).
      - [double] and [active] values are real numbers ([R]); the arithmetic is
        the exact one, rounding is not modelled.
      - A heap array that is only ever addressed through an index
        ([double*], [unsigned int*], the data of a [std::vector]) is a total
        function from the index; a [std::vector] whose size is consulted is a
        list.
      - [for] loops are [for_range lo hi body], the state threaded through
        the iterations being what the loop body mutates. *)

From Stdlib Require Import ZArith List Lia Bool String.
From Stdlib Require Import Reals Lra FunctionalExtensionality.
Import ListNotations.

Local Open Scope Z_scope.

(* ===================================================================== *)
(** * Part I: the program                                                *)
(* ===================================================================== *)

(** ** Machine integers *)

Module UInt.

Definition modulus : Z := 2 ^ 32.

(** Conversion to [unsigned int]. *)
Definition wrap (z : Z) : Z := z mod modulus.

Definition add (a b : Z) : Z := wrap (a + b).
Definition sub (a b : Z) : Z := wrap (a - b).
Definition mul (a b : Z) : Z := wrap (a * b).

(** Unsigned division.  A zero divisor is undefined in the source; here it
    yields [0] as [Z.div] does. *)
Definition div (a b : Z) : Z := a / b.
Definition rem (a b : Z) : Z := a mod b.

End UInt.

(** ** Arrays and loops *)

(** Write [v] at index [i]. *)
Definition upd {A : Type} (a : Z -> A) (i : Z) (v : A) : Z -> A :=
  fun j => if Z.eqb j i then v else a j.

(** Element [i] of a [std::vector]; reading past the end is undefined in the
    source and yields the default here. *)
Definition vget {A : Type} (dflt : A) (l : list A) (i : Z) : A :=
  nth (Z.to_nat i) l dflt.

(** Element [i] of a [std::vector] overwritten; nothing happens past the end. *)
Fixpoint vset_nat {A : Type} (l : list A) (n : nat) (v : A) : list A :=
  match l, n with
  | [], _ => []
  | _ :: tl, O => v :: tl
  | hd :: tl, S n' => hd :: vset_nat tl n' v
  end.

Definition vset {A : Type} (l : list A) (i : Z) (v : A) : list A :=
  vset_nat l (Z.to_nat i) v.

Definition vsize {A : Type} (l : list A) : Z := Z.of_nat (List.length l).

(** [for (i = lo; i < hi; ++i) s = body i s;] *)
Fixpoint for_count {S : Type} (k : nat) (i : Z) (body : Z -> S -> S) (s : S) : S :=
  match k with
  | O => s
  | Datatypes.S k' => for_count k' (i + 1) body (body i s)
  end.

Definition for_range {S : Type} (lo hi : Z) (body : Z -> S -> S) (s : S) : S :=
  for_count (Z.to_nat (hi - lo)) lo body s.

(** A loop whose body may [break]: the body returns the new state and whether
    the loop is left. *)
Fixpoint for_count_break {S : Type} (k : nat) (i : Z)
    (body : Z -> S -> S * bool) (s : S) : S :=
  match k with
  | O => s
  | Datatypes.S k' =>
      let '(s', brk) := body i s in
      if brk then s' else for_count_break k' (i + 1) body s'
  end.

Definition for_range_break {S : Type} (lo hi : Z)
    (body : Z -> S -> S * bool) (s : S) : S :=
  for_count_break (Z.to_nat (hi - lo)) lo body s.

(** [std::fill(a + lo, a + hi, v)] *)
Definition fill {A : Type} (a : Z -> A) (lo hi : Z) (v : A) : Z -> A :=
  for_range lo hi (fun i a' => upd a' i v) a.

(** [std::copy_n(src.begin(), n, dst + at)] where [src] holds [int] values
    and [dst] holds [unsigned int] values. *)
Definition copy_n (src : list Z) (n : Z) (dst : Z -> Z) (at_ : Z) : Z -> Z :=
  for_range 0 n (fun i a' => upd a' (at_ + i) (UInt.wrap (vget 0 src i))) dst.

(** ** Configuration faults *)

Inductive Fault : Type :=
| InvalidParameterException (field : string).

Inductive Result (A : Type) : Type :=
| Ok (a : A)
| Throw (f : Fault).

Arguments Ok {A} a.
Arguments Throw {A} f.

Definition bindR {A B : Type} (r : Result A) (k : A -> Result B) : Result B :=
  match r with
  | Ok a => k a
  | Throw f => Throw f
  end.

Notation "x <- c1 ;; c2" := (bindR c1 (fun x => c2))
  (at level 61, c1 at next level, right associativity).

Definition throw_if (b : bool) (field : string) : Result unit :=
  if b then Throw (InvalidParameterException field) else Ok tt.

(** ** Discretization descriptor *)

Module GRM.

Record Discretization : Type := mkDisc {
  nComp : Z;
  nCol : Z;
  nParType : Z;
  nParCell : Z -> Z;
  parTypeOffset : Z -> Z;
  nParCellsBeforeType : Z -> Z;
  nBound : Z -> Z;
  boundOffset : Z -> Z;
  strideBound : Z -> Z;
  nBoundBeforeType : Z -> Z
}.

(** What [new unsigned int[n]] hands out before it is written. *)
Definition fresh : Z -> Z := fun _ => 0.

(** [GeneralRateModel::numDofs] *)
Definition numDofs (d : Discretization) : Z :=
  UInt.add
    (UInt.add
       (UInt.mul (nCol d) (UInt.mul (nComp d) (UInt.add 1 (nParType d))))
       (parTypeOffset d (nParType d)))
    (nComp d).

(** [GeneralRateModel::numPureDofs] *)
Definition numPureDofs (d : Discretization) : Z :=
  UInt.add
    (UInt.mul (nCol d) (UInt.mul (nComp d) (UInt.add 1 (nParType d))))
    (parTypeOffset d (nParType d)).

(** *** [configureModelDiscretization], lines 125-207: the descriptor *)

(** Number of shells per type, multiplexed from a single entry. *)
Definition readParCell (NPAR : list Z) (nParType_ : Z) : Z -> Z :=
  if vsize NPAR <? nParType_
  then for_range 0 nParType_
         (fun _ a => fill a 0 nParType_ (UInt.wrap (vget 0 NPAR 0))) fresh
  else copy_n NPAR nParType_ fresh 0.

(** Number of bound states per component and type, multiplexed from the
    entries of one type. *)
Definition readBound (NBOUND : list Z) (nComp_ nParType_ : Z) : Z -> Z :=
  if vsize NBOUND <? UInt.mul nComp_ nParType_
  then for_range 0 nParType_
         (fun i a => copy_n NBOUND nComp_ a (UInt.mul i nComp_)) fresh
  else copy_n NBOUND (UInt.mul nComp_ nParType_) fresh 0.

(** [std::accumulate(nBound, nBound + nComp * nParType, 0u)] *)
Definition totalBound (nBound_ : Z -> Z) (nComp_ nParType_ : Z) : Z :=
  for_range 0 (UInt.mul nComp_ nParType_)
    (fun i acc => UInt.add acc (nBound_ i)) 0.

Record BoundArrays : Type := mkBoundArrays {
  ba_boundOffset : Z -> Z;
  ba_strideBound : Z -> Z;
  ba_nBoundBeforeType : Z -> Z
}.

(** Offsets of the bound states, lines 173-193. *)
Definition boundLayout (nBound_ : Z -> Z) (nComp_ nParType_ nTotalBound : Z)
    : BoundArrays :=
  let init := mkBoundArrays fresh (upd fresh nParType_ nTotalBound) (upd fresh 0 0) in
  for_range 0 nParType_
    (fun j st =>
       let base := UInt.mul j nComp_ in
       (* ptrOffset[0] = 0 *)
       let bo0 := upd (ba_boundOffset st) (base + 0) 0 in
       (* ptrOffset[i] = ptrOffset[i - 1] + ptrBound[i - 1] *)
       let bo := for_range 1 nComp_
                   (fun i bo' =>
                      upd bo' (base + i)
                        (UInt.add (bo' (base + (i - 1))) (nBound_ (base + (i - 1)))))
                   bo0 in
       let last := UInt.sub nComp_ 1 in
       let sb := upd (ba_strideBound st) j
                   (UInt.add (bo (base + last)) (nBound_ (base + last))) in
       let nbbt :=
         if negb (j =? UInt.sub nParType_ 1)
         then upd (ba_nBoundBeforeType st) (j + 1)
                (UInt.add (ba_nBoundBeforeType st j) (sb j))
         else ba_nBoundBeforeType st in
       mkBoundArrays bo sb nbbt)
    init.

Record ParArrays : Type := mkParArrays {
  pa_parTypeOffset : Z -> Z;
  pa_nParCellsBeforeType : Z -> Z;
  pa_nTotalParCells : Z
}.

(** Offsets of the particle type blocks, lines 195-207. *)
Definition parLayout (nComp_ nCol_ nParType_ : Z) (nParCell_ strideBound_ : Z -> Z)
    : ParArrays :=
  let init := mkParArrays (upd fresh 0 0) (upd fresh 0 0) 0 in
  let st :=
    for_range 1 (UInt.add nParType_ 1)
      (fun j st =>
         mkParArrays
           (upd (pa_parTypeOffset st) j
              (UInt.add (pa_parTypeOffset st (j - 1))
                 (UInt.mul
                    (UInt.mul (UInt.add nComp_ (strideBound_ (j - 1))) (nParCell_ (j - 1)))
                    nCol_)))
           (upd (pa_nParCellsBeforeType st) j
              (UInt.add (pa_nParCellsBeforeType st (j - 1)) (nParCell_ (j - 1))))
           (UInt.add (pa_nTotalParCells st) (nParCell_ (j - 1))))
      init in
  mkParArrays (pa_parTypeOffset st)
    (upd (pa_nParCellsBeforeType st) nParType_ (pa_nTotalParCells st))
    (pa_nTotalParCells st).

(** The part of the parameter provider that the discretization reads. *)
Record DiscretizationInput : Type := mkDiscInput {
  NCOMP : Z;
  NCOL : Z;
  NPAR : list Z;
  NBOUND : list Z;
  NPARTYPE : option Z
}.

Definition configureDescriptor (p : DiscretizationInput) : Result Discretization :=
  let nComp_ := UInt.wrap (NCOMP p) in
  let nCol_ := UInt.wrap (NCOL p) in
  _ <- throw_if (vsize (NBOUND p) <? nComp_) "NBOUND" ;;
  let nParType_ :=
    match NPARTYPE p with
    | Some n => UInt.wrap n
    | None => UInt.wrap (Z.max (UInt.div (vsize (NBOUND p)) nComp_) (vsize (NPAR p)))
    end in
  _ <- throw_if ((1 <? vsize (NPAR p)) && (vsize (NPAR p) <? nParType_)) "NPAR" ;;
  let nParCell_ := readParCell (NPAR p) nParType_ in
  _ <- throw_if ((nComp_ <? vsize (NBOUND p))
                 && (vsize (NBOUND p) <? UInt.mul nComp_ nParType_)) "NBOUND" ;;
  let nBound_ := readBound (NBOUND p) nComp_ nParType_ in
  let nTotalBound := totalBound nBound_ nComp_ nParType_ in
  let ba := boundLayout nBound_ nComp_ nParType_ nTotalBound in
  let pa := parLayout nComp_ nCol_ nParType_ nParCell_ (ba_strideBound ba) in
  Ok (mkDisc nComp_ nCol_ nParType_ nParCell_
        (pa_parTypeOffset pa) (pa_nParCellsBeforeType pa)
        nBound_ (ba_boundOffset ba) (ba_strideBound ba) (ba_nBoundBeforeType ba)).

(** *** Radial discretization of the particles, lines 1687-1797 *)

Inductive ParticleDiscretizationMode : Type :=
| Equidistant
| Equivolume
| UserDefined.

(** The four per-shell arrays [_parCellSize], [_parCenterRadius],
    [_parOuterSurfAreaPerVolume] and [_parInnerSurfAreaPerVolume]. *)
Record Geometry : Type := mkGeometry {
  parCellSize : Z -> R;
  parCenterRadius : Z -> R;
  parOuterSurfAreaPerVolume : Z -> R;
  parInnerSurfAreaPerVolume : Z -> R
}.

Definition sqr (x : R) : R := (x * x)%R.

(** [pow(x, 3.0)] *)
Definition cube (x : R) : R := (x ^ 3)%R.

(** [pow(x, y)] for a real exponent.  The source yields a NaN for a negative
    base and a fractional exponent; there is no such value in [R] and the
    model yields [0] there. *)
Definition pow_real (x y : R) : R :=
  if Rlt_dec 0 x then Rpower x y else 0%R.

(** [setEquidistantRadialDisc] *)
Definition setEquidistantRadialDisc (d : Discretization)
    (parRadius parCoreRadius : Z -> R) (parType : Z) (g : Geometry) : Geometry :=
  let radius := (parRadius parType - parCoreRadius parType)%R in
  let dr := (radius / IZR (nParCell d parType))%R in
  let off := nParCellsBeforeType d parType in
  let g0 := mkGeometry (fill (parCellSize g) off (off + nParCell d parType) dr)
              (parCenterRadius g) (parOuterSurfAreaPerVolume g)
              (parInnerSurfAreaPerVolume g) in
  for_range 0 (nParCell d parType)
    (fun cell g' =>
       let r_out := (parRadius parType - IZR cell * dr)%R in
       let r_in := (parRadius parType - IZR (UInt.add cell 1) * dr)%R in
       let center := (parRadius parType - (0.5 + IZR cell) * dr)%R in
       let vol := (cube r_out - cube r_in)%R in
       mkGeometry (parCellSize g')
         (upd (parCenterRadius g') (off + cell) center)
         (upd (parOuterSurfAreaPerVolume g') (off + cell) (3 * sqr r_out / vol)%R)
         (upd (parInnerSurfAreaPerVolume g') (off + cell) (3 * sqr r_in / vol)%R))
    g0.

(** State of the loop of [setEquivolumeRadialDisc]. *)
Record EquivolumeState : Type := mkEquivolumeState {
  ev_r_out : R;
  ev_r_in : R;
  ev_geometry : Geometry
}.

(** [setEquivolumeRadialDisc] *)
Definition setEquivolumeRadialDisc (d : Discretization)
    (parRadius parCoreRadius : Z -> R) (parType : Z) (g : Geometry) : Geometry :=
  let volumePerShell :=
    ((cube (parRadius parType) - cube (parCoreRadius parType))
     / IZR (nParCell d parType))%R in
  let off := nParCellsBeforeType d parType in
  ev_geometry
    (for_range 0 (nParCell d parType)
       (fun cell st =>
          let r_out := ev_r_out st in
          let r_in :=
            if negb (cell =? UInt.sub (nParCell d parType) 1)
            then pow_real (cube r_out - volumePerShell) (1 / 3)
            else parCoreRadius parType in
          let g' := ev_geometry st in
          mkEquivolumeState r_in r_in
            (mkGeometry
               (upd (parCellSize g') (off + cell) (r_out - r_in)%R)
               (upd (parCenterRadius g') (off + cell) ((r_out + r_in) * 0.5)%R)
               (upd (parOuterSurfAreaPerVolume g') (off + cell)
                  (3 * sqr r_out / volumePerShell)%R)
               (upd (parInnerSurfAreaPerVolume g') (off + cell)
                  (3 * sqr r_in / volumePerShell)%R)))
       (mkEquivolumeState (parRadius parType) (parCoreRadius parType) g)).

(** [std::sort(first, last, std::greater<double>())] *)
Fixpoint insert_desc (x : R) (l : list R) : list R :=
  match l with
  | [] => [x]
  | y :: tl => if Rlt_dec x y then y :: insert_desc x tl else x :: l
  end.

Definition sort_desc (l : list R) : list R := fold_right insert_desc [] l.

(** [std::vector<double>(v.begin() + from, v.begin() + from + len)] *)
Definition slice (v : list R) (from len : Z) : list R :=
  firstn (Z.to_nat len) (skipn (Z.to_nat from) v).

(** The interfaces of the shells of [setUserdefinedRadialDisc], sorted,
    clamped and mapped, lines 1758-1771. *)
Definition orderedInterfaces (d : Discretization)
    (parRadius parCoreRadius : Z -> R) (parDiscVector : list R) (parType : Z)
    : list R :=
  let from := UInt.add (nParCellsBeforeType d parType) parType in
  let oi := slice parDiscVector from (nParCell d parType + 1) in
  let oi := sort_desc oi in
  (* orderedInterfaces[0] = 1.0; orderedInterfaces.back() = 0.0; *)
  let oi := vset oi 0 1%R in
  let oi := vset oi (vsize oi - 1) 0%R in
  for_range 0 (nParCell d parType)
    (fun cell oi' =>
       vset oi' cell
         (vget 0%R oi' cell * (parRadius parType - parCoreRadius parType)
          + parCoreRadius parType)%R)
    oi.

(** [setUserdefinedRadialDisc] *)
Definition setUserdefinedRadialDisc (d : Discretization)
    (parRadius parCoreRadius : Z -> R) (parDiscVector : list R) (parType : Z)
    (g : Geometry) : Geometry :=
  let off := nParCellsBeforeType d parType in
  let oi := orderedInterfaces d parRadius parCoreRadius parDiscVector parType in
  for_range 0 (nParCell d parType)
    (fun cell g' =>
       let hi := vget 0%R oi cell in
       let lo := vget 0%R oi (cell + 1) in
       let vol := (cube hi - cube lo)%R in
       mkGeometry
         (upd (parCellSize g') (off + cell) (hi - lo)%R)
         (upd (parCenterRadius g') (off + cell) ((hi + lo) * 0.5)%R)
         (upd (parOuterSurfAreaPerVolume g') (off + cell) (3 * sqr hi / vol)%R)
         (upd (parInnerSurfAreaPerVolume g') (off + cell) (3 * sqr lo / vol)%R))
    g.

(** [updateRadialDisc] *)
Definition updateRadialDisc (d : Discretization)
    (parDiscType : list ParticleDiscretizationMode)
    (parRadius parCoreRadius : Z -> R) (parDiscVector : list R)
    (g : Geometry) : Geometry :=
  for_range 0 (nParType d)
    (fun i g' =>
       match vget Equidistant parDiscType i with
       | Equidistant => setEquidistantRadialDisc d parRadius parCoreRadius i g'
       | Equivolume => setEquivolumeRadialDisc d parRadius parCoreRadius i g'
       | UserDefined =>
           setUserdefinedRadialDisc d parRadius parCoreRadius parDiscVector i g'
       end)
    g.

(** *** Surface diffusion and the bandwidths of the particle Jacobians *)

(** [v.resize(n, x)] *)
Definition resize {A : Type} (v : list A) (n : Z) (x : A) : list A :=
  firstn (Z.to_nat n) v ++ repeat x (Z.to_nat n - List.length v).

(** Lines 259-292: which particle types have surface diffusion.
    [hasSurfaceDiffusion0] is the vector before the call, which the
    constructor leaves empty. *)
Definition detectSurfaceDiffusion (d : Discretization)
    (FIX_ZERO_SURFACE_DIFFUSION : option bool)
    (PAR_SURFDIFFUSION : option (list R))
    (hasSurfaceDiffusion0 : list bool) : list bool :=
  let optimizeSurfDiffusion :=
    match FIX_ZERO_SURFACE_DIFFUSION with
    | Some b => b
    | None => false
    end in
  if optimizeSurfDiffusion
  then
    let has := resize hasSurfaceDiffusion0 (nParType d) false in
    match PAR_SURFDIFFUSION with
    | Some surfDiff =>
        for_range 0 (nParType d)
          (fun i has' =>
             for_range_break 0 (nBound d i)
               (fun j has'' =>
                  if Req_dec_T
                       (vget 0%R surfDiff (UInt.add (nBoundBeforeType d i) j)) 0%R
                  then (has'', false)
                  else (vset has'' i true, true))
               has')
          has
    | None => has
    end
  else resize hasSurfaceDiffusion0 (nParType d) true.

(** Lines 400-414: bandwidths of the Jacobian of particle type [j]. *)
Definition lowerBandwidth (d : Discretization) (j : Z) : Z :=
  UInt.add (nComp d) (strideBound d j).

Definition upperBandwidth (d : Discretization) (hasSurfaceDiffusion : list bool)
    (j : Z) : Z :=
  UInt.add (lowerBandwidth d j)
    (if vget false hasSurfaceDiffusion j then strideBound d j else 0).

(** *** State vectors, models and their collaborators *)

(** A state or residual vector seen from its base pointer. *)
Definition vec : Type := Z -> R.

(** The pointer [v + pos]. *)
Definition window (v : vec) (pos : Z) : vec := fun i => v (pos + i).

(** The [len] entries that a callee may read behind a pointer. *)
Definition clip (v : vec) (len : Z) : vec :=
  fun i => if (0 <=? i) && (i <? len) then v i else 0%R.

(** The callee hands back the [len] entries behind [v + pos]. *)
Definition write_window (v : vec) (pos len : Z) (w : vec) : vec :=
  for_range 0 len (fun i v' => upd v' (pos + i) (w i)) v.

Record ColumnPosition : Type := mkColumnPosition {
  axial : R;
  radial : R;
  particle : R
}.

(** Modelled from the spec: the Indexer, which is declared in the header of
    the unit operation.  The state vector holds the inlet entries, the bulk
    entries (cell-major), the particle blocks (type, axial cell, shell, the
    [nComp] mobile phase entries followed by the [strideBound] bound states)
    and the flux entries (type, axial cell, component).  The Indexer works
    on [int] values, which are not reduced here. *)
Module Indexer.
Definition strideColCell (d : Discretization) : Z := nComp d.
Definition strideColComp (d : Discretization) : Z := 1.
Definition strideParLiquid (d : Discretization) : Z := nComp d.
Definition strideParBound (d : Discretization) (parType : Z) : Z :=
  strideBound d parType.
Definition strideParShell (d : Discretization) (parType : Z) : Z :=
  strideParLiquid d + strideParBound d parType.
Definition strideParBlock (d : Discretization) (parType : Z) : Z :=
  nParCell d parType * strideParShell d parType.
Definition offsetC (d : Discretization) : Z := nComp d.
Definition offsetCp (d : Discretization) : Z := nComp d * nCol d + offsetC d.
Definition offsetCpType (d : Discretization) (parType : Z) : Z :=
  offsetCp d + parTypeOffset d parType.
Definition offsetCpBlock (d : Discretization) (parType colCell : Z) : Z :=
  offsetCp d + parTypeOffset d parType + strideParBlock d parType * colCell.
Definition offsetJf (d : Discretization) : Z :=
  offsetCp d + parTypeOffset d (nParType d).
Definition offsetJfType (d : Discretization) (parType : Z) : Z :=
  offsetJf d + parType * nCol d * nComp d.
Definition offsetBoundComp (d : Discretization) (parType comp : Z) : Z :=
  boundOffset d (parType * nComp d + comp).
End Indexer.

(** Modelled from the spec: [getSectionDependentSlice], a helper of the
    parameter reader.  A section dependent parameter holds one slice of
    [stride] entries per section, any other parameter a single slice. *)
Definition getSectionDependentSlice (data : list R) (stride secIdx : Z) : vec :=
  fun i => vget 0%R data ((if stride <? vsize data then secIdx * stride else 0) + i).

(** Modelled from the spec: [linalg::DoubleSparseMatrix], a list of entries
    in the order in which they are added. *)
Record SparseEntry : Type := mkEntry {
  se_row : Z;
  se_col : Z;
  se_val : R
}.

Definition SparseMatrix : Type := list SparseEntry.

Definition addElement (m : SparseMatrix) (row col : Z) (v : R) : SparseMatrix :=
  m ++ [mkEntry row col v].

(** The binding model of a particle type, as far as the unit operation asks. *)
Record BindingModel : Type := mkBindingModel {
  reactionQuasiStationarity : Z -> Z;
  hasDynamicReactions : bool
}.

(** The dynamic reaction model of the bulk volume. *)
Record BulkReactionModel : Type := mkBulkReactionModel {
  numReactionsLiquid : Z;
  (** [residualLiquidAdd(t, secIdx, colPos, y, res, factor)] yields the
      residual of the cell. *)
  residualLiquidAdd : R -> Z -> ColumnPosition -> vec -> vec -> R -> vec
}.

(** The convection dispersion operator. *)
Record ConvectionDispersionOperator : Type := mkConvDispOp {
  (** [residual(t, secIdx, y, yDot, res)] yields a status and the residual
      vector. *)
  cdo_residual : R -> Z -> vec -> option vec -> vec -> Z * vec;
  (** [multiplyWithDerivativeJacobian(simTime, sDot, ret)] *)
  cdo_multiplyWithDerivativeJacobian : R -> Z -> vec -> vec -> vec;
  cdo_columnLength : R;
  cdo_currentVelocity : R;
  (** Whether the flow direction changes at the transition to the section
      [secIdx], and the velocity from then on. *)
  cdo_flowDirectionChanges : R -> Z -> bool;
  cdo_velocityAfter : R -> Z -> R
}.

(** [ConvectionDispersionOperator::notifyDiscontinuousSectionTransition] *)
Definition cdo_notifyDiscontinuousSectionTransition
    (op : ConvectionDispersionOperator) (t : R) (secIdx : Z)
    : ConvectionDispersionOperator * bool :=
  (mkConvDispOp (cdo_residual op) (cdo_multiplyWithDerivativeJacobian op)
     (cdo_columnLength op) (cdo_velocityAfter op t secIdx)
     (cdo_flowDirectionChanges op) (cdo_velocityAfter op),
   cdo_flowDirectionChanges op t secIdx).

(** The cell kernels of [model/parts/BindingCellKernel.hpp]. *)
Record CellKernels : Type := mkCellKernels {
  (** [residualKernel(t, secIdx, colPos, y, yDot, res, params)] for the
      cell of particle type [parType] yields the residual of the cell. *)
  residualKernel :
    R -> Z -> ColumnPosition -> Z -> vec -> option vec -> vec -> vec;
  (** [multiplyWithDerivativeJacobianKernel(sDot, ret, ..., invBetaP)] for a
      cell of particle type [parType] yields the entries of [ret] of the
      cell. *)
  multiplyWithDerivativeJacobianKernel : Z -> R -> vec -> vec -> vec
}.

(** The fields of [GeneralRateModel] that the residual reads. *)
Record Model : Type := mkModel {
  disc : Discretization;
  colPorosity : R;
  parRadius : Z -> R;
  parCoreRadius : Z -> R;
  parPorosity : Z -> R;
  parTypeVolFrac : Z -> R;
  filmDiffusion : list R;
  parDiffusion : list R;
  parSurfDiffusion : list R;
  poreAccessFactor : Z -> R;
  hasSurfaceDiffusion : list bool;
  geometry : Geometry;
  binding : Z -> BindingModel;
  dynReactionBulk : option BulkReactionModel;
  convDispOp : ConvectionDispersionOperator;
  kernels : CellKernels
}.

(** The coefficients of one section and particle type. *)
Definition filmDiff (m : Model) (secIdx parType comp : Z) : R :=
  getSectionDependentSlice (filmDiffusion m)
    (UInt.mul (nComp (disc m)) (nParType (disc m))) secIdx
    (UInt.mul parType (nComp (disc m)) + comp).

Definition parDiff (m : Model) (secIdx parType comp : Z) : R :=
  getSectionDependentSlice (parDiffusion m)
    (UInt.mul (nComp (disc m)) (nParType (disc m))) secIdx
    (UInt.mul parType (nComp (disc m)) + comp).

Definition parSurfDiff (m : Model) (secIdx parType bnd : Z) : R :=
  getSectionDependentSlice (parSurfDiffusion m)
    (strideBound (disc m) (nParType (disc m))) secIdx
    (nBoundBeforeType (disc m) parType + bnd).

(** *** [residualParticle], instantiated without Jacobian *)

(** The residual vector and the positions of the pointers [y], [res] (which
    move together) and [yDot], relative to the base pointers. *)
Record ParticleCursor : Type := mkParticleCursor {
  pc_res : vec;
  pc_pos : Z;
  pc_posDot : Z
}.

(** The radial transport of one mobile phase component of one shell, the body
    of the loop of lines 1099-1197.  [pos] is where [y] and [res] point. *)
Definition mobilePhaseTransport (m : Model) (secIdx parType par comp : Z)
    (y : vec) (pos : Z) (res : vec) : vec :=
  let d := disc m in
  let g := geometry m in
  let off := nParCellsBeforeType d parType in
  let parCenterRadius_ := fun s => parCenterRadius g (off + s) in
  let outerAreaPerVolume := parOuterSurfAreaPerVolume g (off + par) in
  let innerAreaPerVolume := parInnerSurfAreaPerVolume g (off + par) in
  let stride := Indexer.strideParShell d parType in
  let nBound_ := nBound d (UInt.add (UInt.mul (nComp d) parType) comp) in
  let accIdx := UInt.add (UInt.mul (nComp d) parType) comp in
  let invBetaP :=
    ((1 - parPorosity m parType)
     / (poreAccessFactor m accIdx * parPorosity m parType))%R in
  let dp := parDiff m secIdx parType comp in
  let surf := vget false (hasSurfaceDiffusion m) parType in
  let obc := Indexer.offsetBoundComp d parType comp in
  (* flow through the outer surface *)
  let res :=
    if negb (par =? 0)
    then
      let dr := (parCenterRadius_ (UInt.sub par 1) - parCenterRadius_ par)%R in
      let gradCp := ((y (pos - stride)%Z - y pos) / dr)%R in
      let res := upd res pos (res pos - outerAreaPerVolume * dp * gradCp)%R in
      if surf
      then
        for_range 0 nBound_
          (fun i res' =>
             let curIdx := Indexer.strideParLiquid d - comp + obc + i in
             let gradQ :=
               ((y (pos - stride + curIdx)%Z - y (pos + curIdx)%Z) / dr)%R in
             upd res' pos
               (res' pos
                - outerAreaPerVolume * parSurfDiff m secIdx parType (obc + i)%Z
                  * invBetaP * gradQ)%R)
          res
      else res
    else res in
  (* flow through the inner surface *)
  if negb (par =? UInt.sub (nParCell d parType) 1)
  then
    let dr := (parCenterRadius_ par - parCenterRadius_ (UInt.add par 1))%R in
    let gradCp := ((y pos - y (pos + stride)%Z) / dr)%R in
    let res := upd res pos (res pos + innerAreaPerVolume * dp * gradCp)%R in
    if surf
    then
      for_range 0 nBound_
        (fun i res' =>
           let curIdx := Indexer.strideParLiquid d - comp + obc + i in
           let gradQ :=
             ((y (pos + curIdx)%Z - y (pos + stride + curIdx)%Z) / dr)%R in
           upd res' pos
             (res' pos
              + innerAreaPerVolume * parSurfDiff m secIdx parType (obc + i)%Z
                * invBetaP * gradQ)%R)
        res
    else res
  else res.

(** The surface diffusion of one bound state of one shell, the body of the
    loop of lines 1202-1247. *)
Definition solidPhaseTransport (m : Model) (secIdx parType par bnd : Z)
    (y : vec) (pos : Z) (res : vec) : vec :=
  let d := disc m in
  let g := geometry m in
  let off := nParCellsBeforeType d parType in
  let parCenterRadius_ := fun s => parCenterRadius g (off + s) in
  let outerAreaPerVolume := parOuterSurfAreaPerVolume g (off + par) in
  let innerAreaPerVolume := parInnerSurfAreaPerVolume g (off + par) in
  let stride := Indexer.strideParShell d parType in
  if negb (reactionQuasiStationarity (binding m parType) bnd =? 0)
  then res (* quasi-stationary bound states are skipped *)
  else
    let res :=
      if negb (par =? 0)
      then
        let dr := (parCenterRadius_ (UInt.sub par 1) - parCenterRadius_ par)%R in
        let gradQ := ((y (pos - stride)%Z - y pos) / dr)%R in
        upd res pos
          (res pos - outerAreaPerVolume * parSurfDiff m secIdx parType bnd * gradQ)%R
      else res in
    if negb (par =? UInt.sub (nParCell d parType) 1)
    then
      let dr := (parCenterRadius_ par - parCenterRadius_ (UInt.add par 1))%R in
      let gradQ := ((y pos - y (pos + stride)%Z) / dr)%R in
      upd res pos
        (res pos + innerAreaPerVolume * parSurfDiff m secIdx parType bnd * gradQ)%R
    else res.

(** One shell: the cell kernel, the mobile phase, the solid phase,
    lines 1083-1259. *)
Definition residualShell (m : Model) (t : R) (parType colCell secIdx : Z)
    (y : vec) (yDot : option vec) (par : Z) (c : ParticleCursor)
    : ParticleCursor :=
  let d := disc m in
  let z := ((0.5 + IZR colCell) / IZR (nCol d))%R in
  let stride := Indexer.strideParShell d parType in
  let colPos :=
    mkColumnPosition z 0%R
      (parCenterRadius (geometry m) (nParCellsBeforeType d parType + par)%Z
       / parRadius m parType)%R in
  (* time derivatives, binding and dynamic reactions *)
  let res :=
    write_window (pc_res c) (pc_pos c) stride
      (residualKernel (kernels m) t secIdx colPos parType
         (window y (pc_pos c))
         (option_map (fun yd => window yd (pc_posDot c)) yDot)
         (clip (window (pc_res c) (pc_pos c)) stride)) in
  (* mobile phase *)
  let c1 :=
    for_range 0 (nComp d)
      (fun comp c' =>
         mkParticleCursor
           (mobilePhaseTransport m secIdx parType par comp y (pc_pos c') (pc_res c'))
           (pc_pos c' + 1) (pc_posDot c'))
      (mkParticleCursor res (pc_pos c) (pc_posDot c)) in
  (* solid phase *)
  let c2 :=
    if vget false (hasSurfaceDiffusion m) parType
       && hasDynamicReactions (binding m parType)
    then
      for_range 0 (strideBound d parType)
        (fun bnd c' =>
           mkParticleCursor
             (solidPhaseTransport m secIdx parType par bnd y (pc_pos c') (pc_res c'))
             (pc_pos c' + 1) (pc_posDot c'))
        c1
    else
      mkParticleCursor (pc_res c1)
        (pc_pos c1 + Indexer.strideParBound d parType) (pc_posDot c1) in
  (* advance yDot over the shell *)
  mkParticleCursor (pc_res c2) (pc_pos c2) (pc_posDot c2 + stride).

(** [residualParticle<double, double, double, false>] *)
Definition residualParticle (m : Model) (t : R) (parType colCell secIdx : Z)
    (yBase : vec) (yDotBase : option vec) (resBase : vec) : Z * vec :=
  let d := disc m in
  let base := Indexer.offsetCpBlock d parType colCell in
  let c :=
    for_range 0 (nParCell d parType)
      (residualShell m t parType colCell secIdx yBase yDotBase)
      (mkParticleCursor resBase base base) in
  (0, pc_res c).

(** *** [residualFlux] and [assembleOffdiagJac] *)

(** [v[i] += x] and [v[i] -= x] *)
Definition add_at (v : vec) (i : Z) (x : R) : vec := upd v i (v i + x)%R.
Definition sub_at (v : vec) (i : Z) (x : R) : vec := upd v i (v i - x)%R.

(** The buffer [kf_FV] of the discretized film diffusion coefficients of one
    particle type, lines 1306-1311 and 1416-1420. *)
Definition discretizedFilmDiffusion (m : Model) (secIdx type : Z) : vec :=
  let d := disc m in
  let epsP := parPorosity m type in
  let absOuterShellHalfRadius :=
    (0.5 * parCellSize (geometry m) (nParCellsBeforeType d type))%R in
  for_range 0 (nComp d)
    (fun comp kf_FV =>
       upd kf_FV comp
         (1 / (absOuterShellHalfRadius / epsP
               / poreAccessFactor m (UInt.add (UInt.mul type (nComp d)) comp)
               / parDiff m secIdx type comp
               + 1 / filmDiff m secIdx type comp))%R)
    (fun _ => 0%R).

(** [eq = cell * idxr.strideColCell() + comp * idxr.strideColComp()] *)
Definition fluxEq (d : Discretization) (cell comp : Z) : Z :=
  UInt.add (UInt.mul cell (Indexer.strideColCell d))
    (UInt.mul comp (Indexer.strideColComp d)).

(** The contribution of one particle type, lines 1284-1349. *)
Definition residualFluxType (m : Model) (secIdx : Z) (yBase : vec) (type : Z)
    (res : vec) : vec :=
  let d := disc m in
  let invBetaC := (1 / colPorosity m - 1)%R in
  let offC := Indexer.offsetC d in
  let offP := Indexer.offsetCpType d type in
  let offF := Indexer.offsetJfType d type in
  let epsP := parPorosity m type in
  let surfaceToVolumeRatio := (3 / parRadius m type)%R in
  let outerAreaPerVolume :=
    parOuterSurfAreaPerVolume (geometry m) (nParCellsBeforeType d type) in
  let jacCF_val := (invBetaC * surfaceToVolumeRatio)%R in
  let jacPF_val := (- outerAreaPerVolume / epsP)%R in
  let kf_FV := discretizedFilmDiffusion m secIdx type in
  (* J_{0,f} block, adds flux to column void / bulk volume equations *)
  let res :=
    for_range 0 (UInt.mul (nCol d) (nComp d))
      (fun i res' =>
         let colCell := UInt.div i (nComp d) in
         add_at res' (offC + i)
           (jacCF_val
            * parTypeVolFrac m (UInt.add type (UInt.mul colCell (nParType d)))
            * yBase (offF + i)%Z)%R)
      res in
  (* J_{f,0} block, adds bulk volume state c_i to flux equation *)
  let res :=
    for_range 0 (nCol d)
      (fun bnd res' =>
         for_range 0 (nComp d)
           (fun comp res'' =>
              let eq := fluxEq d bnd comp in
              sub_at res'' (offF + eq) (kf_FV comp * yBase (offC + eq)%Z)%R)
           res')
      res in
  (* J_{p,f} block, implements bead boundary condition in outer bead shell equation *)
  let res :=
    for_range 0 (nCol d)
      (fun pblk res' =>
         for_range 0 (nComp d)
           (fun comp res'' =>
              let eq := fluxEq d pblk comp in
              add_at res''
                (offP + UInt.add (UInt.mul pblk (Indexer.strideParBlock d type)) comp)
                (jacPF_val
                 / poreAccessFactor m (UInt.add (UInt.mul type (nComp d)) comp)
                 * yBase (offF + eq)%Z)%R)
           res')
      res in
  (* J_{f,p} block, adds outer bead shell state c_{p,i} to flux equation *)
  for_range 0 (nCol d)
    (fun pblk res' =>
       for_range 0 (nComp d)
         (fun comp res'' =>
            let eq := fluxEq d pblk comp in
            add_at res'' (offF + eq)
              (kf_FV comp
               * yBase (offP + UInt.add comp
                                 (UInt.mul pblk (Indexer.strideParBlock d type)))%Z)%R)
         res')
    res.

(** [residualFlux<double, double, double>] *)
Definition residualFlux (m : Model) (t : R) (secIdx : Z)
    (yBase : vec) (yDotBase : option vec) (resBase : vec) : Z * vec :=
  let d := disc m in
  let offF := Indexer.offsetJf d in
  (* J_f block (identity matrix), adds flux state to flux equation *)
  let res :=
    for_range 0 (UInt.mul (UInt.mul (nComp d) (nCol d)) (nParType d))
      (fun i res' => upd res' (offF + i) (yBase (offF + i)))
      resBase in
  let res := for_range 0 (nParType d) (residualFluxType m secIdx yBase) res in
  (0, res).

(** The coupling blocks [_jacCF], [_jacFC], [_jacPF] and [_jacFP]. *)
Record OffdiagJac : Type := mkOffdiagJac {
  jacCF : SparseMatrix;
  jacFC : SparseMatrix;
  jacPF : Z -> SparseMatrix;
  jacFP : Z -> SparseMatrix
}.

(** The entries of one particle type, lines 1398-1463. *)
Definition assembleOffdiagJacType (m : Model) (secIdx : Z) (type : Z)
    (J : OffdiagJac) : OffdiagJac :=
  let d := disc m in
  let invBetaC := (1 / colPorosity m - 1)%R in
  let typeOffset := UInt.mul (UInt.mul type (nCol d)) (nComp d) in
  let epsP := parPorosity m type in
  let surfaceToVolumeRatio := (3 / parRadius m type)%R in
  let outerAreaPerVolume :=
    parOuterSurfAreaPerVolume (geometry m) (nParCellsBeforeType d type) in
  let jacCF_val := (invBetaC * surfaceToVolumeRatio)%R in
  let jacPF_val := (- outerAreaPerVolume / epsP)%R in
  let kf_FV := discretizedFilmDiffusion m secIdx type in
  let jacCF_ :=
    for_range 0 (UInt.mul (nCol d) (nComp d))
      (fun eq M =>
         let colCell := UInt.div eq (nComp d) in
         addElement M eq (UInt.add eq typeOffset)
           (jacCF_val
            * parTypeVolFrac m (UInt.add type (UInt.mul colCell (nParType d))))%R)
      (jacCF J) in
  let jacFC_ :=
    for_range 0 (nCol d)
      (fun col M =>
         for_range 0 (nComp d)
           (fun comp M' =>
              let eq := fluxEq d col comp in
              addElement M' (UInt.add eq typeOffset) eq (- kf_FV comp)%R)
           M)
      (jacFC J) in
  let blockOffset := UInt.mul type (nCol d) in
  let jacPF_ :=
    for_range 0 (nCol d)
      (fun pblk JP =>
         for_range 0 (nComp d)
           (fun comp JP' =>
              let eq := UInt.add typeOffset (fluxEq d pblk comp) in
              upd JP' (blockOffset + pblk)
                (addElement (JP' (blockOffset + pblk)) comp eq
                   (jacPF_val / poreAccessFactor m comp)%R))
           JP)
      (jacPF J) in
  let jacFP_ :=
    for_range 0 (nCol d)
      (fun pblk JP =>
         for_range 0 (nComp d)
           (fun comp JP' =>
              let eq := UInt.add typeOffset (fluxEq d pblk comp) in
              upd JP' (blockOffset + pblk)
                (addElement (JP' (blockOffset + pblk)) eq comp (kf_FV comp)))
           JP)
      (jacFP J) in
  mkOffdiagJac jacCF_ jacFC_ jacPF_ jacFP_.

(** [assembleOffdiagJac] *)
Definition assembleOffdiagJac (m : Model) (t : R) (secIdx : Z) (J : OffdiagJac)
    : OffdiagJac :=
  let d := disc m in
  (* clear the matrices for the new assembly *)
  let cleared :=
    for_range 0 (UInt.mul (nCol d) (nParType d))
      (fun pblk J' =>
         mkOffdiagJac (jacCF J') (jacFC J')
           (upd (jacPF J') pblk []) (upd (jacFP J') pblk []))
      (mkOffdiagJac [] [] (jacPF J) (jacFP J)) in
  for_range 0 (nParType d) (assembleOffdiagJacType m secIdx) cleared.

(** *** [notifyDiscontinuousSectionTransition] *)

(** What the transition leaves behind: the coupling blocks, the convection
    dispersion operator and [_jacInlet]. *)
Record TransitionState : Type := mkTransitionState {
  ts_offdiag : OffdiagJac;
  ts_convDispOp : ConvectionDispersionOperator;
  ts_jacInlet : SparseMatrix
}.

(** [filmDiffusionSectionDependent] and [parDiffusionSectionDependent] stand
    for [isSectionDependent(_filmDiffusionMode)] and
    [isSectionDependent(_parDiffusionMode)]. *)
Definition notifyDiscontinuousSectionTransition (m : Model)
    (filmDiffusionSectionDependent parDiffusionSectionDependent : bool)
    (t : R) (secIdx : Z) (J : OffdiagJac) (jacInlet : SparseMatrix)
    : TransitionState :=
  let d := disc m in
  (* flux Jacobian blocks at the beginning of the simulation or in case of
     section dependent film or particle diffusion coefficients *)
  let J :=
    if (secIdx =? 0) || filmDiffusionSectionDependent
       || parDiffusionSectionDependent
    then assembleOffdiagJac m t secIdx J
    else J in
  (* the operator tells whether the flow direction has changed *)
  let '(op, changed) :=
    cdo_notifyDiscontinuousSectionTransition (convDispOp m) t secIdx in
  if negb changed
  then mkTransitionState J op jacInlet
  else
    (* _jacInlet.clear() *)
    let jacInlet := @nil SparseEntry in
    let h := (cdo_columnLength op / IZR (nCol d))%R in
    let u := cdo_currentVelocity op in
    if Rge_dec u 0
    then
      (* forwards flow: inlet DOF to first column cell *)
      mkTransitionState J op
        (for_range 0 (nComp d)
           (fun comp M =>
              addElement M (UInt.mul comp (Indexer.strideColComp d)) comp
                (- u / h)%R)
           jacInlet)
    else
      (* backwards flow: inlet DOF to last column cell *)
      let offset := UInt.mul (UInt.sub (nCol d) 1) (Indexer.strideColCell d) in
      mkTransitionState J op
        (for_range 0 (nComp d)
           (fun comp M =>
              addElement M
                (UInt.add offset (UInt.mul comp (Indexer.strideColComp d)))
                comp (u / h)%R)
           jacInlet).

(** *** [residualBulk], [residualImpl] and [residual] *)

(** The residual vector and the position of the pointers [y] and [res] in the
    loop of [residualBulk]. *)
Record BulkCursor : Type := mkBulkCursor {
  bc_res : vec;
  bc_pos : Z
}.

(** [residualBulk<double, double, double, false>] *)
Definition residualBulk (m : Model) (t : R) (secIdx : Z)
    (yBase : vec) (yDotBase : option vec) (resBase : vec) : Z * vec :=
  let d := disc m in
  (* the status of the operator is dropped *)
  let res := snd (cdo_residual (convDispOp m) t secIdx yBase yDotBase resBase) in
  match dynReactionBulk m with
  | None => (0, res)
  | Some reaction =>
      if numReactionsLiquid reaction =? 0
      then (0, res)
      else
        let c :=
          for_range 0 (nCol d)
            (fun col c' =>
               let colPos :=
                 mkColumnPosition ((0.5 + IZR col) / IZR (nCol d))%R 0%R 0%R in
               mkBulkCursor
                 (write_window (bc_res c') (bc_pos c') (nComp d)
                    (residualLiquidAdd reaction t secIdx colPos
                       (window yBase (bc_pos c'))
                       (clip (window (bc_res c') (bc_pos c')) (nComp d))
                       (-1)%R))
                 (bc_pos c' + Indexer.strideColCell d))
            (mkBulkCursor res (Indexer.offsetC d)) in
        (0, bc_res c)
  end.

(** [residualImpl<double, double, double, false>]; the parallel loop over the
    blocks runs in the order of the blocks. *)
Definition residualImpl (m : Model) (t : R) (secIdx : Z)
    (y : vec) (yDot : option vec) (res : vec) : Z * vec :=
  let d := disc m in
  let res :=
    for_range 0 (UInt.add (UInt.mul (nCol d) (nParType d)) 1)
      (fun pblk res' =>
         if pblk =? 0
         then snd (residualBulk m t secIdx y yDot res')
         else
           let type := UInt.div (UInt.sub pblk 1) (nCol d) in
           let par := UInt.rem (UInt.sub pblk 1) (nCol d) in
           snd (residualParticle m t type par secIdx y yDot res'))
      res in
  let res := snd (residualFlux m t secIdx y yDot res) in
  (* inlet DOFs, which are simply copied to res *)
  let res := for_range 0 (nComp d) (fun i res' => upd res' i (y i)) res in
  (0, res).

(** [GeneralRateModel::residual(simTime, simState, res, threadLocalMem)] *)
Definition residual (m : Model) (t : R) (secIdx : Z)
    (vecStateY : vec) (vecStateYdot : option vec) (res : vec) : Z * vec :=
  residualImpl m t secIdx vecStateY vecStateYdot res.

(** *** [multiplyWithDerivativeJacobian] *)

Definition multiplyWithDerivativeJacobian (m : Model) (t : R) (secIdx : Z)
    (sDot : vec) (ret : vec) : vec :=
  let d := disc m in
  let ret :=
    for_range 0 (UInt.add (UInt.mul (nCol d) (nParType d)) 1)
      (fun idx ret' =>
         if idx =? 0
         then cdo_multiplyWithDerivativeJacobian (convDispOp m) t secIdx sDot ret'
         else
           let idxParLoop := UInt.sub idx 1 in
           let pblk := UInt.rem idxParLoop (nCol d) in
           let type := UInt.div idxParLoop (nCol d) in
           let invBetaP := (1 / parPorosity m type - 1)%R in
           let offsetCpType := Indexer.offsetCpBlock d type pblk in
           let stride := Indexer.strideParShell d type in
           (* particle shells *)
           for_range 0 (nParCell d type)
             (fun shell ret'' =>
                let offsetCpShell := offsetCpType + UInt.mul shell stride in
                write_window ret'' offsetCpShell stride
                  (multiplyWithDerivativeJacobianKernel (kernels m) type invBetaP
                     (window sDot offsetCpShell)
                     (clip (window ret'' offsetCpShell) stride)))
             ret')
      ret in
  (* fluxes (all algebraic) *)
  let ret :=
    fill ret (Indexer.offsetJf d)
      (Indexer.offsetJf d + UInt.mul (UInt.mul (nCol d) (nComp d)) (nParType d))
      0%R in
  (* inlet DOFs (all algebraic) *)
  fill ret 0 (nComp d) 0%R.

(** *** Inlet and outlet of the unit operation *)

(** [localOutletComponentIndex] *)
Definition localOutletComponentIndex (m : Model) (port : Z) : Z :=
  let d := disc m in
  if Rge_dec (cdo_currentVelocity (convDispOp m)) 0
  then (* forward flow: outlet is last cell *)
    UInt.add (nComp d) (UInt.mul (UInt.sub (nCol d) 1) (nComp d))
  else (* backward flow: outlet is first cell *)
    nComp d.

(** [localInletComponentIndex] *)
Definition localInletComponentIndex (m : Model) (port : Z) : Z := 0.

(** [localOutletComponentStride] *)
Definition localOutletComponentStride (m : Model) (port : Z) : Z := 1.

(** [localInletComponentStride] *)
Definition localInletComponentStride (m : Model) (port : Z) : Z := 1.

(** *** [configure]: the volume fractions of the particle types,
    lines 455-499 *)

(** [std::copy(v.begin(), v.begin() + n, v.begin() + at_)] within one
    vector. *)
Definition copy_within (v : list R) (n at_ : Z) : list R :=
  for_range 0 n (fun j v' => vset v' (at_ + j) (vget 0%R v' j)) v.

(** [std::accumulate(v.begin() + lo, v.begin() + hi, 0.0, ...)] with the
    sum as the operation. *)
Definition accumulate (v : list R) (lo hi : Z) : R :=
  for_range lo hi (fun j acc => (acc + vget 0%R v j)%R) 0%R.

(** [_parTypeVolFrac] and [_axiallyConstantParTypeVolFrac]. *)
Record VolFracState : Type := mkVolFracState {
  vf_parTypeVolFrac : list R;
  vf_axiallyConstant : bool
}.

(** The part of [configure] that reads and checks [PAR_TYPE_VOLFRAC].
    [PAR_TYPE_VOLFRAC] is the vector that [readScalarParameterOrArray]
    yields, if the field exists; [parTypeVolFrac0] is the member before the
    call; the sizes are those of [_parRadius], [_parPorosity] and
    [_parCoreRadius], which are read before. *)
Definition configureParTypeVolFrac (d : Discretization)
    (PAR_TYPE_VOLFRAC : option (list R)) (parTypeVolFrac0 : list R)
    (parRadiusSize parPorositySize parCoreRadiusSize : Z)
    : Result VolFracState :=
  (* Check whether PAR_TYPE_VOLFRAC is required or not *)
  _ <- throw_if ((1 <? nParType d)
                 && match PAR_TYPE_VOLFRAC with
                    | Some _ => false
                    | None => true
                    end) "PAR_TYPE_VOLFRAC" ;;
  let st :=
    match PAR_TYPE_VOLFRAC with
    | Some v =>
        if vsize v =? nParType d
        then
          (* Expand to all axial cells *)
          let v := resize v (UInt.mul (nCol d) (nParType d)) 1%R in
          mkVolFracState
            (for_range 1 (nCol d)
               (fun i v' => copy_within v' (nParType d) (UInt.mul (nParType d) i))
               v)
            true
        else mkVolFracState v false
    | None => mkVolFracState (resize parTypeVolFrac0 (nCol d) 1%R) false
    end in
  (* Check whether all sizes are matched *)
  _ <- throw_if (negb (nParType d =? parRadiusSize)) "PAR_RADIUS" ;;
  _ <- throw_if (negb (UInt.mul (nParType d) (nCol d)
                       =? vsize (vf_parTypeVolFrac st))) "PAR_TYPE_VOLFRAC" ;;
  _ <- throw_if (negb (nParType d =? parPorositySize)) "PAR_POROSITY" ;;
  _ <- throw_if (negb (nParType d =? parCoreRadiusSize)) "PAR_CORERADIUS" ;;
  (* Check that particle volume fractions sum to 1.0 *)
  _ <- for_range 0 (nCol d)
         (fun i r =>
            _ <- r ;;
            let volFracSum :=
              accumulate (vf_parTypeVolFrac st)
                (UInt.mul i (nParType d))
                (UInt.mul (UInt.add i 1) (nParType d)) in
            throw_if (if Rgt_dec (Rabs (1 - volFracSum)) (/ 10 ^ 10)
                      then true else false) "PAR_TYPE_VOLFRAC")
         (Ok tt) ;;
  Ok st.

End GRM.

(* ===================================================================== *)
(** ** ModelSystemImpl-InitialConditions.cpp                              *)
(* ===================================================================== *)

Module ModelSystem.

Local Abbreviation vec := GRM.vec.

(** [FullTag] and [LeanTag], which select a specialisation of
    [ConsistentInit]. *)
Inductive Tag : Type := FullTag | LeanTag.

(** The three vectors that the algorithm hands around. *)
Inductive VectorName : Type := VecStateY | VecStateYdot | TempState.

(** The calls that leave [consistentInitialConditionAlgorithm], and its two
    steps on the coupling DOFs, in the order in which they are executed. *)
Inductive Event : Type :=
| CallConsistentInitialState (unit : Z)
| CallLeanConsistentInitialState (unit : Z)
| ZeroCouplingDOFs (v : VectorName)
| CallSolveCouplingDOF (v : VectorName)
| CallResidualWithJacobian (yDotIsNull : bool) (res : VectorName)
| CallConsistentInitialTimeDerivative (unit : Z)
| CallLeanConsistentInitialTimeDerivative (unit : Z).

(** The part of [IUnitOperation] that is used.  A method that is handed
    pointers into the vectors is a function of the vectors as seen from
    the pointers, and yields the vector that it writes. *)
Record IUnitOperation : Type := mkUnitOperation {
  hasInlet : bool;
  numInletPorts : Z;
  numComponents : Z;
  localInletComponentIndex : Z -> Z;
  localInletComponentStride : Z -> Z;
  (** [consistentInitialState(simTime, vecStateY, adJac, errorTol, tls)] *)
  consistentInitialState : R -> Z -> vec -> R -> vec;
  (** [leanConsistentInitialState(simTime, vecStateY, adJac, errorTol, tls)] *)
  leanConsistentInitialState : R -> Z -> vec -> R -> vec;
  (** [consistentInitialTimeDerivative(simTime, vecStateY, vecStateYdot, tls)] *)
  consistentInitialTimeDerivative : R -> Z -> vec -> vec -> vec;
  (** [leanConsistentInitialTimeDerivative(t, vecStateY, vecStateYdot, res, tls)] *)
  leanConsistentInitialTimeDerivative : R -> vec -> vec -> vec -> vec
}.

Definition noUnit : IUnitOperation :=
  mkUnitOperation false 0 0 (fun _ => 0) (fun _ => 0)
    (fun _ _ y _ => y) (fun _ _ y _ => y)
    (fun _ _ _ yDot => yDot) (fun _ _ yDot _ => yDot).

(** The members of [ModelSystem] that are used. *)
Record System : Type := mkSystem {
  models : list IUnitOperation;
  dofOffset : list Z;
  (** [numDofs()] *)
  numDofs : Z;
  (** [_jacFN[i].multiplySubtract(x, y)] yields [y] *)
  jacFN_multiplySubtract : Z -> vec -> vec -> vec;
  (** [residualWithJacobian(simTime, simState, res, adJac)] yields the status
      and [res] *)
  residualWithJacobian : R -> Z -> vec -> option vec -> vec -> Z * vec
}.

(** The vectors, and the events so far. *)
Record State : Type := mkState {
  vecStateY : vec;
  vecStateYdot : vec;
  tempState : vec;
  events : list Event
}.

Definition emit (e : Event) (s : State) : State :=
  mkState (vecStateY s) (vecStateYdot s) (tempState s) (events s ++ [e]).

Definition getVector (v : VectorName) (s : State) : vec :=
  match v with
  | VecStateY => vecStateY s
  | VecStateYdot => vecStateYdot s
  | TempState => tempState s
  end.

Definition setVector (v : VectorName) (x : vec) (s : State) : State :=
  match v with
  | VecStateY => mkState x (vecStateYdot s) (tempState s) (events s)
  | VecStateYdot => mkState (vecStateY s) x (tempState s) (events s)
  | TempState => mkState (vecStateY s) (vecStateYdot s) x (events s)
  end.

(** What a callee that was handed [v + offset] and yields [w] leaves in
    [v]. *)
Definition through (offset : Z) (w : vec) : vec := fun i => w (i - offset).

(** The index and the vector in the second loop of [solveCouplingDOF]. *)
Record CouplingCursor : Type := mkCouplingCursor {
  cc_vec : vec;
  cc_idxCoupling : Z
}.

(** [ModelSystem::solveCouplingDOF(vec)] on the vector itself. *)
Definition solveCouplingDOF_vec (sys : System) (v : vec) : vec :=
  let finalOffset := last (dofOffset sys) 0 in
  let v :=
    for_range 0 (vsize (models sys))
      (fun i v' =>
         let offset := vget 0 (dofOffset sys) i in
         through finalOffset
           (jacFN_multiplySubtract sys i (GRM.window v' offset)
              (GRM.window v' finalOffset)))
      v in
  let c :=
    for_range 0 (vsize (models sys))
      (fun i c' =>
         let m := vget noUnit (models sys) i in
         let offset := vget 0 (dofOffset sys) i in
         if negb (hasInlet m)
         then c'
         else
           for_range 0 (numInletPorts m)
             (fun port c'' =>
                let localIndex := localInletComponentIndex m port in
                let localStride := localInletComponentStride m port in
                for_range 0 (numComponents m)
                  (fun comp c3 =>
                     mkCouplingCursor
                       (upd (cc_vec c3)
                          (UInt.add (UInt.add offset localIndex)
                             (UInt.mul comp localStride))
                          (cc_vec c3 (cc_idxCoupling c3)))
                       (UInt.add (cc_idxCoupling c3) 1))
                  c'')
             c')
      (mkCouplingCursor v finalOffset) in
  cc_vec c.

(** [solveCouplingDOF] called on one of the vectors. *)
Definition solveCouplingDOF (sys : System) (v : VectorName) (s : State) : State :=
  let s := emit (CallSolveCouplingDOF v) s in
  setVector v (solveCouplingDOF_vec sys (getVector v s)) s.

(** [std::fill(v + finalOffset, v + numDofs(), 0.0)] *)
Definition zeroCouplingDOFs (sys : System) (v : VectorName) (s : State) : State :=
  let finalOffset := last (dofOffset sys) 0 in
  let s := emit (ZeroCouplingDOFs v) s in
  setVector v (fill (getVector v s) finalOffset (numDofs sys) 0%R) s.

(** [ConsistentInit<tag_t>::state] *)
Definition ConsistentInit_state (tag : Tag) (i : Z) (m : IUnitOperation)
    (t : R) (secIdx : Z) (offset : Z) (errorTol : R) (s : State) : State :=
  match tag with
  | FullTag =>
      let s := emit (CallConsistentInitialState i) s in
      setVector VecStateY
        (through offset
           (consistentInitialState m t secIdx
              (GRM.window (vecStateY s) offset) errorTol)) s
  | LeanTag =>
      let s := emit (CallLeanConsistentInitialState i) s in
      setVector VecStateY
        (through offset
           (leanConsistentInitialState m t secIdx
              (GRM.window (vecStateY s) offset) errorTol)) s
  end.

(** [ConsistentInit<tag_t>::timeDerivative] *)
Definition ConsistentInit_timeDerivative (tag : Tag) (i : Z)
    (m : IUnitOperation) (t : R) (secIdx : Z) (offset : Z) (s : State) : State :=
  match tag with
  | FullTag =>
      let s := emit (CallConsistentInitialTimeDerivative i) s in
      setVector VecStateYdot
        (through offset
           (consistentInitialTimeDerivative m t secIdx
              (GRM.window (vecStateY s) offset)
              (GRM.window (vecStateYdot s) offset))) s
  | LeanTag =>
      let s := emit (CallLeanConsistentInitialTimeDerivative i) s in
      setVector VecStateYdot
        (through offset
           (leanConsistentInitialTimeDerivative m t
              (GRM.window (vecStateY s) offset)
              (GRM.window (vecStateYdot s) offset)
              (GRM.window (tempState s) offset))) s
  end.

(** [ConsistentInit<tag_t>::residualWithJacobian(ms, simTime, simState, res,
    temp, adJac)], called with [simState.vecStateYdot] a null pointer when
    [yDotIsNull] holds; the status is dropped by the caller. *)
Definition ConsistentInit_residualWithJacobian (tag : Tag) (sys : System)
    (t : R) (secIdx : Z) (yDotIsNull : bool) (s : State) : State :=
  let yDot := if yDotIsNull then None else Some (vecStateYdot s) in
  let target := match tag with FullTag => VecStateYdot | LeanTag => TempState end in
  let s := emit (CallResidualWithJacobian yDotIsNull target) s in
  setVector target
    (snd (residualWithJacobian sys t secIdx (vecStateY s) yDot
            (getVector target s))) s.

(** [ModelSystem::consistentInitialConditionAlgorithm<tag_t>] *)
Definition consistentInitialConditionAlgorithm (tag : Tag) (sys : System)
    (t : R) (secIdx : Z) (errorTol : R) (s : State) : State :=
  (* Phase 1: Compute algebraic state variables *)
  let s :=
    for_range 0 (vsize (models sys))
      (fun i s' =>
         let m := vget noUnit (models sys) i in
         let offset := vget 0 (dofOffset sys) i in
         if negb (hasInlet m)
         then ConsistentInit_state tag i m t secIdx offset errorTol s'
         else s')
      s in
  let s := zeroCouplingDOFs sys VecStateY s in
  let s := solveCouplingDOF sys VecStateY s in
  let s :=
    for_range 0 (vsize (models sys))
      (fun i s' =>
         let m := vget noUnit (models sys) i in
         let offset := vget 0 (dofOffset sys) i in
         if hasInlet m
         then ConsistentInit_state tag i m t secIdx offset errorTol s'
         else s')
      s in
  (* Phase 2: Calculate residual with current state *)
  let s := ConsistentInit_residualWithJacobian tag sys t secIdx true s in
  (* Phase 3: Calculate dynamic state variables yDot *)
  let s :=
    for_range 0 (vsize (models sys))
      (fun i s' =>
         let m := vget noUnit (models sys) i in
         let offset := vget 0 (dofOffset sys) i in
         ConsistentInit_timeDerivative tag i m t secIdx offset s')
      s in
  let s := zeroCouplingDOFs sys VecStateYdot s in
  solveCouplingDOF sys VecStateYdot s.



(** The members [_initState] and [_initStateDot], and for each unit
    operation its [applyInitialCondition(simState)]: a function of the two
    vectors as seen from the pointers it is handed, which yields the two
    vectors. *)
Record InitialCondition : Type := mkInitialCondition {
  initState : list R;
  initStateDot : list R;
  unit_applyInitialCondition : Z -> vec -> vec -> vec * vec
}.

(** [std::copy(src.data(), src.data() + n, dst)] *)
Definition copy (src : list R) (n : Z) (dst : vec) : vec :=
  for_range 0 n (fun i dst' => upd dst' i (vget 0%R src i)) dst.

(** [ModelSystem::applyInitialCondition(simState)] yields [vecStateY] and
    [vecStateYdot]. *)
Definition applyInitialCondition (sys : System) (ic : InitialCondition)
    (y yDot : vec) : vec * vec :=
  (* If we have the full state vector available, use that and skip unit
     operations *)
  if numDofs sys <=? vsize (initState ic)
  then
    let y := copy (initState ic) (numDofs sys) y in
    let yDot :=
      if numDofs sys <=? vsize (initStateDot ic)
      then copy (initStateDot ic) (numDofs sys) yDot
      else yDot in
    (y, yDot)
  else
    for_range 0 (vsize (models sys))
      (fun i s =>
         let offset := vget 0 (dofOffset sys) i in
         let r :=
           unit_applyInitialCondition ic i
             (GRM.window (fst s) offset) (GRM.window (snd s) offset) in
         (through offset (fst r), through offset (snd r)))
      (y, yDot).

End ModelSystem.

(** ** Vocabulary of the specification *)

(** [zsum f n] is the exact sum of [f 0], ..., [f (n - 1)]. *)
Definition zsum (f : Z -> Z) (n : Z) : Z :=
  for_range 0 n (fun i acc => acc + f i) 0.

(** Size of the block of particle type [t]: every shell of every axial cell
    holds [nComp] mobile phase and [strideBound t] solid phase entries. *)
Definition parTypeBlock (d : GRM.Discretization) (t : Z) : Z :=
  (GRM.nComp d + GRM.strideBound d t) * GRM.nParCell d t * GRM.nCol d.

(** The number of degrees of freedom as the closed-form sum. *)
Definition closedFormDofs (d : GRM.Discretization) : Z :=
  GRM.nComp d + GRM.nCol d * GRM.nComp d
  + zsum (parTypeBlock d) (GRM.nParType d)
  + GRM.nCol d * GRM.nComp d * GRM.nParType d.

(** [rsum f n] is the sum of [f 0], ..., [f (n - 1)]. *)
Definition rsum (f : Z -> R) (n : Z) : R :=
  for_range 0 n (fun i acc => (acc + f i)%R) 0%R.

(** The two faces of a shell, from its centre and its thickness. *)
Definition outerRadius (g : GRM.Geometry) (i : Z) : R :=
  (GRM.parCenterRadius g i + GRM.parCellSize g i / 2)%R.

Definition innerRadius (g : GRM.Geometry) (i : Z) : R :=
  (GRM.parCenterRadius g i - GRM.parCellSize g i / 2)%R.

(** The [n] shells stored from index [off] on do not overlap and cover
    [[Rc, Rp]], from the outside to the inside. *)
Record shells_partition (g : GRM.Geometry) (off n : Z) (Rc Rp : R) : Prop := {
  sp_outermost : outerRadius g off = Rp;
  sp_innermost : innerRadius g (off + n - 1) = Rc;
  sp_nonempty : forall s, 0 <= s < n ->
      (innerRadius g (off + s) < outerRadius g (off + s))%R;
  sp_adjacent : forall s, 0 <= s -> s + 1 < n ->
      outerRadius g (off + (s + 1)) = innerRadius g (off + s)
}.

Definition centers_decreasing (g : GRM.Geometry) (off n : Z) : Prop :=
  forall s, 0 <= s -> s + 1 < n ->
    (GRM.parCenterRadius g (off + (s + 1)) < GRM.parCenterRadius g (off + s))%R.

(** The three geometric properties of one particle type together. *)
Definition geometry_ok (g : GRM.Geometry) (off n : Z) (Rc Rp : R) : Prop :=
  rsum (fun s => GRM.parCellSize g (off + s)) n = (Rp - Rc)%R
  /\ centers_decreasing g off n
  /\ shells_partition g off n Rc Rp.

(** The radius of the outer face of shell [k] of an equivolume
    discretization, and of the inner face of shell [k - 1]. *)
Fixpoint equivolume_radius (Rp Rc V : R) (n : Z) (k : nat) : R :=
  match k with
  | O => Rp
  | Datatypes.S k' =>
      if negb (Z.of_nat k' =? UInt.sub n 1)
      then GRM.pow_real (GRM.cube (equivolume_radius Rp Rc V n k') - V) (1 / 3)
      else Rc
  end.

(** The terms of the mobile phase residual of component [c] in shell [s] of
    the particle of type [t], [row] being the index of that entry in the
    state vector. *)
Section MobilePhaseTerms.
Variable m : GRM.Model.
Variables secIdx t s c : Z.
Variable y : GRM.vec.
Variable row : Z.

Let d := GRM.disc m.
Let off := GRM.nParCellsBeforeType d t.
Let stride := GRM.Indexer.strideParShell d t.
Let a_out := GRM.parOuterSurfAreaPerVolume (GRM.geometry m) (off + s).
Let a_in := GRM.parInnerSurfAreaPerVolume (GRM.geometry m) (off + s).
Let r (i : Z) := GRM.parCenterRadius (GRM.geometry m) (off + i).
Let D_p := GRM.parDiff m secIdx t c.
Let Y (i : Z) : R := y i.

(** [- a_out * D_p * (y[s-1,c] - y[s,c]) / (r_{s-1} - r_s)] *)
Definition outerFaceFlux : R :=
  (- (a_out * D_p * (Y (row - stride) - Y row) / (r (s - 1) - r s)))%R.

(** [+ a_in * D_p * (y[s,c] - y[s+1,c]) / (r_s - r_{s+1})] *)
Definition innerFaceFlux : R :=
  (a_in * D_p * (Y row - Y (row + stride)) / (r s - r (s + 1)))%R.

Let accIdx := UInt.add (UInt.mul (GRM.nComp d) t) c.
Let invBetaP :=
  ((1 - GRM.parPorosity m t)
   / (GRM.poreAccessFactor m accIdx * GRM.parPorosity m t))%R.
Let obc := GRM.Indexer.offsetBoundComp d t c.
Let cur (i : Z) := GRM.Indexer.strideParLiquid d - c + obc + i.
Let D_s (i : Z) := GRM.parSurfDiff m secIdx t (obc + i).

(** The surface diffusion of the bound states of the component, which
    enters the mobile phase equation when the particle type has surface
    diffusion. *)
Definition surfaceDiffusionFlux : R :=
  if vget false (GRM.hasSurfaceDiffusion m) t
  then
    ((if 0 <? s
      then - rsum (fun i =>
               a_out * D_s i * invBetaP
               * ((Y (row - stride + cur i) - Y (row + cur i))
                  / (r (s - 1) - r s)))%R
             (GRM.nBound d accIdx)
      else 0)
     + (if s <? GRM.nParCell d t - 1
        then rsum (fun i =>
               a_in * D_s i * invBetaP
               * ((Y (row + cur i) - Y (row + stride + cur i))
                  / (r s - r (s + 1))))%R
             (GRM.nBound d accIdx)
        else 0))%R
  else 0%R.
End MobilePhaseTerms.

(** What the cell kernel leaves in the rows of shell [s] of the particle
    [(parType, colCell)], the residual vector on entry being [resBase]. *)
Definition cellKernelResidual (m : GRM.Model) (t : R) (parType colCell secIdx : Z)
    (y : GRM.vec) (yDot : option GRM.vec) (resBase : GRM.vec) (s : Z) : GRM.vec :=
  let d := GRM.disc m in
  let stride := GRM.Indexer.strideParShell d parType in
  let pos := GRM.Indexer.offsetCpBlock d parType colCell + s * stride in
  GRM.residualKernel (GRM.kernels m) t secIdx
    (GRM.mkColumnPosition ((0.5 + IZR colCell) / IZR (GRM.nCol d))%R 0%R
       (GRM.parCenterRadius (GRM.geometry m)
          (GRM.nParCellsBeforeType d parType + s)
        / GRM.parRadius m parType)%R)
    parType (GRM.window y pos)
    (option_map (fun yd => GRM.window yd pos) yDot)
    (GRM.clip (GRM.window resBase pos) stride).

(** The state vector of the descriptor can be addressed: no offset of the
    layout leaves the [unsigned int] range and every particle type has a
    shell. *)
Record layout_ok (d : GRM.Discretization) : Prop := {
  lo_nComp : 1 <= GRM.nComp d;
  lo_nCol : 1 <= GRM.nCol d;
  lo_nParType : 0 <= GRM.nParType d;
  lo_strideBound : forall t, 0 <= GRM.strideBound d t;
  lo_nParCell : forall t, 0 <= t < GRM.nParType d -> 1 <= GRM.nParCell d t;
  lo_parTypeOffset0 : GRM.parTypeOffset d 0 = 0;
  lo_parTypeOffset : forall t, 0 <= t < GRM.nParType d ->
      GRM.parTypeOffset d (t + 1)
      = GRM.parTypeOffset d t + GRM.Indexer.strideParBlock d t * GRM.nCol d;
  lo_fits :
    GRM.nComp d + GRM.nCol d * GRM.nComp d
    + GRM.parTypeOffset d (GRM.nParType d)
    + GRM.nCol d * GRM.nComp d * GRM.nParType d < UInt.modulus
}.

(** The indices of the bulk entry [(k, c)], of the mobile phase entry of
    component [c] in the outermost shell of the particle [(t, k)] and of the
    flux entry [(t, k, c)]. *)
Definition bulkIndex (d : GRM.Discretization) (k c : Z) : Z :=
  GRM.Indexer.offsetC d + (k * GRM.nComp d + c).

Definition outerShellIndex (d : GRM.Discretization) (t k c : Z) : Z :=
  GRM.Indexer.offsetCpType d t + (k * GRM.Indexer.strideParBlock d t + c).

Definition fluxIndex (d : GRM.Discretization) (t k c : Z) : Z :=
  GRM.Indexer.offsetJfType d t + (k * GRM.nComp d + c).

(** [k_f_FV[t,c] = 1 / ((dr_0 / 2) / (eps_p * F_acc * D_p) + 1 / k_f)] *)
Definition filmCoefficientFV (m : GRM.Model) (secIdx t c : Z) : R :=
  let d := GRM.disc m in
  let dr_0 := GRM.parCellSize (GRM.geometry m) (GRM.nParCellsBeforeType d t) in
  let eps_p := GRM.parPorosity m t in
  let F_acc := GRM.poreAccessFactor m (t * GRM.nComp d + c) in
  let D_p := GRM.parDiff m secIdx t c in
  let k_f := GRM.filmDiff m secIdx t c in
  (1 / ((dr_0 / 2) / (eps_p * F_acc * D_p) + 1 / k_f))%R.

(** The vector with a [1] at index [j]. *)
Definition unitVector (j : Z) : GRM.vec :=
  fun i => if i =? j then 1%R else 0%R.

(** The derivative of the entry [row] of the flux coupling residual with
    respect to the entry [col] of the state vector; the residual is affine in
    the state, so the derivative is the difference over a unit step. *)
Definition residualFluxDerivative (m : GRM.Model) (secIdx row col : Z) : R :=
  (snd (GRM.residualFlux m 0%R secIdx (unitVector col) None (fun _ => 0%R)) row
   - snd (GRM.residualFlux m 0%R secIdx (fun _ => 0%R) None (fun _ => 0%R)) row)%R.

(** The indices [0], ..., [n - 1]. *)
Definition zrange (n : Z) : list Z := map Z.of_nat (seq 0 (Z.to_nat n)).

(** The entries that [assembleOffdiagJac] places into the block of the
    particle [(t, k)] of [_jacPF]. *)
Definition jacPF_entries (m : GRM.Model) (t k : Z) : GRM.SparseMatrix :=
  let d := GRM.disc m in
  map (fun c =>
         GRM.mkEntry c (t * GRM.nCol d * GRM.nComp d + (k * GRM.nComp d + c))
           (- GRM.parOuterSurfAreaPerVolume (GRM.geometry m)
                (GRM.nParCellsBeforeType d t)
            / GRM.parPorosity m t
            / GRM.poreAccessFactor m c)%R)
      (zrange (GRM.nComp d)).

(** The entries of a sparse matrix that read the column [c]. *)
Definition entriesOfColumn (M : GRM.SparseMatrix) (c : Z) : GRM.SparseMatrix :=
  filter (fun e => GRM.se_col e =? c) M.

(** C5 as it is worded: at a change to a negative velocity [u] the entry of
    every component maps its inlet entry into the last bulk cell with the
    coefficient [|u| / h]. *)
Definition inlet_into_last_cell_abs (M : GRM.SparseMatrix) (nComp_ nCol_ : Z)
    (u h : R) : Prop :=
  forall c, 0 <= c < nComp_ ->
    entriesOfColumn M c
    = [GRM.mkEntry ((nCol_ - 1) * nComp_ + c) c (Rabs u / h)%R].

(** ** Models for the examples *)

(** A model over the descriptor [d] with constant parameters, the pore
    accessibility factors [F_acc] and a convection dispersion operator of
    length [2] whose flow changes its direction at every transition, to the
    velocity [velocity]. *)
Definition exampleModel (d : GRM.Discretization) (F_acc : Z -> R) (velocity : R)
    : GRM.Model :=
  GRM.mkModel d (1 / 2)%R (fun _ => 1%R) (fun _ => 0%R) (fun _ => 1%R)
    (fun _ => (1 / 2)%R) [1%R] [1%R] [] F_acc [false; false]
    (GRM.mkGeometry (fun _ => 1%R) (fun i => (2 - IZR i)%R)
       (fun _ => 1%R) (fun _ => 1%R))
    (fun _ => GRM.mkBindingModel (fun _ => 0) false) None
    (GRM.mkConvDispOp (fun _ _ _ _ res => (0, res)) (fun _ _ _ ret => ret)
       2%R 1%R (fun _ _ => true) (fun _ _ => velocity))
    (GRM.mkCellKernels (fun _ _ _ _ _ _ _ _ => 0%R) (fun _ _ _ ret => ret)).

(** No coupling block has an entry. *)
Definition emptyOffdiagJac : GRM.OffdiagJac :=
  GRM.mkOffdiagJac [] [] (fun _ => []) (fun _ => []).







(** The number of bound states of the first [c] components of the particle
    type [t]. *)
Definition boundStatesBefore (d : GRM.Discretization) (t c : Z) : Z :=
  zsum (fun c' => GRM.nBound d (t * GRM.nComp d + c')) c.

(** One of the coefficients of [PAR_SURFDIFFUSION] that the scan for the
    particle type [t] reads is not zero. *)
Definition scannedCoefficientNonzero (d : GRM.Discretization)
    (surfDiff : list R) (t : Z) : Prop :=
  exists j, 0 <= j < GRM.nBound d t
            /\ vget 0%R surfDiff (UInt.add (GRM.nBoundBeforeType d t) j) <> 0%R.

(** The factor of the flux of the particle type [t] in the bulk equation of
    the axial cell [k]: [(1 / eps_c - 1) * (3 / R_t) * volFrac[t, k]]. *)
Definition bulkFluxFactor (m : GRM.Model) (t k : Z) : R :=
  ((1 / GRM.colPorosity m - 1) * (3 / GRM.parRadius m t)
   * GRM.parTypeVolFrac m (t + k * GRM.nParType (GRM.disc m)))%R.

(** The entries that [assembleOffdiagJac] places into the block of the
    particle [(t, k)] of [_jacFP], and the entries of the particle type
    [t] in [_jacFC] and [_jacCF]; rows and columns are relative to the
    first entry of the bulk, particle or flux part they address. *)
Definition jacFP_entries (m : GRM.Model) (secIdx t k : Z) : GRM.SparseMatrix :=
  let d := GRM.disc m in
  map (fun c =>
         GRM.mkEntry (t * GRM.nCol d * GRM.nComp d + (k * GRM.nComp d + c)) c
           (filmCoefficientFV m secIdx t c))
      (zrange (GRM.nComp d)).

Definition jacFC_entries (m : GRM.Model) (secIdx t : Z) : GRM.SparseMatrix :=
  let d := GRM.disc m in
  List.concat
    (map (fun k =>
            map (fun c =>
                   GRM.mkEntry
                     (t * GRM.nCol d * GRM.nComp d + (k * GRM.nComp d + c))
                     (k * GRM.nComp d + c)
                     (- filmCoefficientFV m secIdx t c)%R)
                (zrange (GRM.nComp d)))
         (zrange (GRM.nCol d))).

Definition jacCF_entries (m : GRM.Model) (t : Z) : GRM.SparseMatrix :=
  let d := GRM.disc m in
  map (fun eq =>
         GRM.mkEntry eq (eq + t * GRM.nCol d * GRM.nComp d)
           (bulkFluxFactor m t (eq / GRM.nComp d)))
      (zrange (GRM.nCol d * GRM.nComp d)).








(** The vector after the first loop of [solveCouplingDOF]: the products
    with the blocks of [_jacFN] have been subtracted from the coupling
    DOFs. *)
Definition subtractOutlets (sys : ModelSystem.System) (v : GRM.vec) : GRM.vec :=
  let finalOffset := last (ModelSystem.dofOffset sys) 0 in
  for_range 0 (vsize (ModelSystem.models sys))
    (fun i v' =>
       let offset := vget 0 (ModelSystem.dofOffset sys) i in
       ModelSystem.through finalOffset
         (ModelSystem.jacFN_multiplySubtract sys i (GRM.window v' offset)
            (GRM.window v' finalOffset)))
    v.

(** The number of inlet DOFs of the unit [i]: one for each component of
    each inlet port; none without an inlet. *)
Definition inletDofs (sys : ModelSystem.System) (i : Z) : Z :=
  let m := vget ModelSystem.noUnit (ModelSystem.models sys) i in
  if ModelSystem.hasInlet m
  then ModelSystem.numInletPorts m * ModelSystem.numComponents m
  else 0.

(** [(i, port, comp)] is a component of an inlet port of a unit of the
    system. *)
Definition isInletDof (sys : ModelSystem.System) (i port comp : Z) : Prop :=
  let m := vget ModelSystem.noUnit (ModelSystem.models sys) i in
  0 <= i < vsize (ModelSystem.models sys)
  /\ ModelSystem.hasInlet m = true
  /\ 0 <= port < ModelSystem.numInletPorts m
  /\ 0 <= comp < ModelSystem.numComponents m.

(** The index [offset + localIndex + comp * localStride] that
    [solveCouplingDOF] writes for the component [comp] of the inlet port
    [port] of the unit [i]. *)
Definition inletIndex (sys : ModelSystem.System) (i port comp : Z) : Z :=
  let m := vget ModelSystem.noUnit (ModelSystem.models sys) i in
  UInt.add
    (UInt.add (vget 0 (ModelSystem.dofOffset sys) i)
       (ModelSystem.localInletComponentIndex m port))
    (UInt.mul comp (ModelSystem.localInletComponentStride m port)).

(** The coupling DOF of the component [comp] of the inlet port [port] of
    the unit [i]: the coupling DOFs follow [_dofOffset.back()] in the
    order of the units, of their ports and of the components. *)
Definition couplingIndex (sys : ModelSystem.System) (i port comp : Z) : Z :=
  let m := vget ModelSystem.noUnit (ModelSystem.models sys) i in
  last (ModelSystem.dofOffset sys) 0 + zsum (inletDofs sys) i
  + port * ModelSystem.numComponents m + comp.

(** The cursor of the second loop when the inlet DOFs in [D] have been
    written and the next coupling DOF is [k]. *)
Definition coupled (sys : ModelSystem.System) (v1 : GRM.vec)
    (D : Z -> Z -> Z -> Prop) (k : Z)
    (cur : ModelSystem.CouplingCursor) : Prop :=
  ModelSystem.cc_idxCoupling cur = k
  /\ (forall j,
        (forall i p c, isInletDof sys i p c -> D i p c ->
                       inletIndex sys i p c <> j) ->
        ModelSystem.cc_vec cur j = v1 j)
  /\ (forall i p c, isInletDof sys i p c -> D i p c ->
        ModelSystem.cc_vec cur (inletIndex sys i p c)
        = v1 (couplingIndex sys i p c)).

(** The inlet DOFs before [(i, p, c)] in the order of the loops. *)
Definition writtenBefore (i p c i' p' c' : Z) : Prop :=
  i' < i \/ (i' = i /\ (p' < p \/ (p' = p /\ c' < c))).

(** A source with two components that feeds a unit with one inlet port;
    the coupling DOFs follow the four DOFs of the two units. *)
Definition exampleSystem : ModelSystem.System :=
  ModelSystem.mkSystem
    [ModelSystem.mkUnitOperation false 0 2 (fun _ => 0) (fun _ => 1)
       (fun _ _ y _ => y) (fun _ _ y _ => y)
       (fun _ _ _ yDot => yDot) (fun _ _ yDot _ => yDot);
     ModelSystem.mkUnitOperation true 1 2 (fun _ => 0) (fun _ => 1)
       (fun _ _ y _ => y) (fun _ _ y _ => y)
       (fun _ _ _ yDot => yDot) (fun _ _ yDot _ => yDot)]
    [0; 2; 4] 6
    (fun _ _ y => y)
    (fun _ _ _ _ res => (0, res)).

(** Two cursors of [residualParticle] point to the same entries and their
    residual vectors agree on the indices in [W]. *)
Definition cursorsAgree (W : Z -> Prop) (a b : GRM.ParticleCursor) : Prop :=
  GRM.pc_pos a = GRM.pc_pos b
  /\ GRM.pc_posDot a = GRM.pc_posDot b
  /\ forall j, W j -> GRM.pc_res a j = GRM.pc_res b j.

(** The factor of the flux [j_f[t, k, c]] in the mobile phase equation of
    component [c] in the outermost shell of a particle of type [t]:
    [- a_out / eps_p / F_acc]. *)
Definition particleFluxFactor (m : GRM.Model) (t c : Z) : R :=
  (- GRM.parOuterSurfAreaPerVolume (GRM.geometry m)
       (GRM.nParCellsBeforeType (GRM.disc m) t)
   / GRM.parPorosity m t
   / GRM.poreAccessFactor m (t * GRM.nComp (GRM.disc m) + c))%R.

(** A complete initial state for [exampleSystem], with a time derivative
    that is too short. *)
Definition exampleInitialCondition : ModelSystem.InitialCondition :=
  ModelSystem.mkInitialCondition
    [1%R; 2%R; 3%R; 4%R; 5%R; 6%R] [1%R; 2%R]
    (fun _ y yDot => (y, yDot)).

(** The coefficient of the section [sec], the particle type [t] and the
    component [c] in a field with [nComp * nParType] entries per section,
    such as [PAR_DIFFUSION] and [FILM_DIFFUSION]: the entry
    [sec * nComp * nParType + t * nComp + c] of the field, and the entry
    [t * nComp + c] when the field holds a single section. *)
Definition coefficientAt (data : list R) (d : GRM.Discretization)
    (sec t c : Z) : R :=
  vget 0%R data
    ((if GRM.nComp d * GRM.nParType d <? vsize data
      then sec * (GRM.nComp d * GRM.nParType d) else 0)
     + (t * GRM.nComp d + c)).

(** [k_f_FV[t,c] = 1 / ((dr_0 / 2) / (eps_p[t] * F_acc[t,c] * D_p[t,c])
    + 1 / k_f[t,c])] with every coefficient taken from its field by its
    index: [dr_0] is the size of the first shell of the type, [F_acc] the
    entry [t * nComp + c] of the pore accessibility, [D_p] and [k_f] the
    entries of [PAR_DIFFUSION] and [FILM_DIFFUSION] for the section. *)
Definition filmCoefficientByIndex (m : GRM.Model) (secIdx t c : Z) : R :=
  let d := GRM.disc m in
  let dr_0 := GRM.parCellSize (GRM.geometry m) (GRM.nParCellsBeforeType d t) in
  let eps_p := GRM.parPorosity m t in
  let F_acc := GRM.poreAccessFactor m (t * GRM.nComp d + c) in
  let D_p := coefficientAt (GRM.parDiffusion m) d secIdx t c in
  let k_f := coefficientAt (GRM.filmDiffusion m) d secIdx t c in
  (1 / ((dr_0 / 2) / (eps_p * F_acc * D_p) + 1 / k_f))%R.

(* ===================================================================== *)
(** * Part II: properties                                                *)
(* ===================================================================== *)

(** ** Loops *)

Lemma for_count_snoc {S : Type} (body : Z -> S -> S) (k : nat) :
  forall (i : Z) (s : S),
    for_count (Datatypes.S k) i body s
    = body (i + Z.of_nat k) (for_count k i body s).
Proof.
  induction k as [|k IH]; intros i s.
  - simpl. now rewrite Z.add_0_r.
  - change (for_count (Datatypes.S (Datatypes.S k)) i body s)
      with (for_count (Datatypes.S k) (i + 1) body (body i s)).
    rewrite IH. simpl for_count.
    f_equal. lia.
Qed.

Lemma for_range_nil {S : Type} (body : Z -> S -> S) (lo hi : Z) (s : S) :
  hi <= lo -> for_range lo hi body s = s.
Proof.
  intros H. unfold for_range.
  replace (Z.to_nat (hi - lo)) with O by lia. reflexivity.
Qed.

Lemma for_range_succ_r {S : Type} (body : Z -> S -> S) (lo hi : Z) (s : S) :
  lo <= hi ->
  for_range lo (hi + 1) body s = body hi (for_range lo hi body s).
Proof.
  intros H. unfold for_range.
  replace (Z.to_nat (hi + 1 - lo)) with (Datatypes.S (Z.to_nat (hi - lo))) by lia.
  rewrite for_count_snoc. f_equal. lia.
Qed.

(** Loop invariants: [P i s] holds of the state [s] before iteration [i]. *)
Lemma for_range_inv {S : Type} (P : Z -> S -> Prop) (body : Z -> S -> S)
    (lo hi : Z) (s : S) :
  lo <= hi ->
  P lo s ->
  (forall i s', lo <= i < hi -> P i s' -> P (i + 1) (body i s')) ->
  P hi (for_range lo hi body s).
Proof.
  intros Hle H0 Hstep.
  assert (G : forall n : nat, lo + Z.of_nat n <= hi ->
                P (lo + Z.of_nat n) (for_range lo (lo + Z.of_nat n) body s)).
  { induction n as [|n IH]; intros Hn.
    - rewrite Z.add_0_r, for_range_nil by lia. exact H0.
    - replace (lo + Z.of_nat (Datatypes.S n)) with (lo + Z.of_nat n + 1) by lia.
      rewrite for_range_succ_r by lia.
      apply Hstep; [lia|]. apply IH. lia. }
  specialize (G (Z.to_nat (hi - lo))).
  replace (lo + Z.of_nat (Z.to_nat (hi - lo))) with hi in G by lia.
  apply G. lia.
Qed.

Lemma zsum_0 (f : Z -> Z) : zsum f 0 = 0.
Proof. reflexivity. Qed.

Lemma zsum_succ (f : Z -> Z) (n : Z) :
  0 <= n -> zsum f (n + 1) = zsum f n + f n.
Proof. intros H. unfold zsum. now rewrite for_range_succ_r. Qed.

Lemma zsum_nonneg (f : Z -> Z) (n : Z) :
  (forall i, 0 <= i < n -> 0 <= f i) -> 0 <= zsum f n.
Proof.
  intros Hf. destruct (Z_le_gt_dec 0 n) as [Hn|Hn].
  - unfold zsum.
    apply (for_range_inv (fun _ acc => 0 <= acc)); [exact Hn|lia|].
    intros i acc Hi Hacc. specialize (Hf i Hi). lia.
  - unfold zsum. rewrite for_range_nil by lia. lia.
Qed.

(** ** Unsigned arithmetic *)

Lemma wrap_range (z : Z) : 0 <= UInt.wrap z < UInt.modulus.
Proof. unfold UInt.wrap. apply Z.mod_pos_bound. reflexivity. Qed.

Lemma wrap_small (z : Z) : 0 <= z < UInt.modulus -> UInt.wrap z = z.
Proof. intros H. unfold UInt.wrap. now apply Z.mod_small. Qed.

Lemma wrap_wrap (z : Z) : UInt.wrap (UInt.wrap z) = UInt.wrap z.
Proof. unfold UInt.wrap. apply Z.mod_mod. discriminate. Qed.

Lemma wrap_add_l (a b : Z) : UInt.wrap (UInt.wrap a + b) = UInt.wrap (a + b).
Proof. unfold UInt.wrap. apply Zplus_mod_idemp_l. Qed.

Lemma wrap_add_r (a b : Z) : UInt.wrap (a + UInt.wrap b) = UInt.wrap (a + b).
Proof. unfold UInt.wrap. apply Zplus_mod_idemp_r. Qed.

Lemma wrap_mul_l (a b : Z) : UInt.wrap (UInt.wrap a * b) = UInt.wrap (a * b).
Proof. unfold UInt.wrap. apply Zmult_mod_idemp_l. Qed.

Lemma wrap_mul_r (a b : Z) : UInt.wrap (a * UInt.wrap b) = UInt.wrap (a * b).
Proof. unfold UInt.wrap. apply Zmult_mod_idemp_r. Qed.

Lemma wrap_strip_wrap (a a' : Z) :
  UInt.wrap a = UInt.wrap a' -> UInt.wrap (UInt.wrap a) = UInt.wrap a'.
Proof. intros H. now rewrite wrap_wrap. Qed.

Lemma wrap_strip_add (a b a' b' : Z) :
  UInt.wrap a = UInt.wrap a' -> UInt.wrap b = UInt.wrap b' ->
  UInt.wrap (a + b) = UInt.wrap (a' + b').
Proof.
  intros Ha Hb.
  rewrite <- (wrap_add_l a b), <- (wrap_add_r _ b), Ha, Hb.
  now rewrite wrap_add_l, wrap_add_r.
Qed.

Lemma wrap_strip_mul (a b a' b' : Z) :
  UInt.wrap a = UInt.wrap a' -> UInt.wrap b = UInt.wrap b' ->
  UInt.wrap (a * b) = UInt.wrap (a' * b').
Proof.
  intros Ha Hb.
  rewrite <- (wrap_mul_l a b), <- (wrap_mul_r _ b), Ha, Hb.
  now rewrite wrap_mul_l, wrap_mul_r.
Qed.

Lemma wrap_strip_sub (a b a' b' : Z) :
  UInt.wrap a = UInt.wrap a' -> UInt.wrap b = UInt.wrap b' ->
  UInt.wrap (a - b) = UInt.wrap (a' - b').
Proof.
  intros Ha Hb. unfold UInt.wrap in *.
  rewrite (Zminus_mod a b), (Zminus_mod a' b'). now rewrite Ha, Hb.
Qed.

Lemma wrap_join (l r l' r' : Z) :
  UInt.wrap l = UInt.wrap l' -> UInt.wrap r = UInt.wrap r' -> l' = r' ->
  UInt.wrap l = UInt.wrap r.
Proof. intros Hl Hr E. now rewrite Hl, Hr, E. Qed.

(** [strip] solves [wrap e = wrap ?e'] with [e'] being [e] without its inner
    reductions; [unwrap] proves an equation between two unsigned
    expressions that agree as polynomials. *)
Ltac strip :=
  first [ eapply wrap_strip_wrap; strip
        | eapply wrap_strip_add; strip
        | eapply wrap_strip_sub; strip
        | eapply wrap_strip_mul; strip
        | reflexivity ].

Ltac unwrap :=
  unfold UInt.add, UInt.mul, UInt.sub;
  eapply wrap_join; [strip | strip | try ring].

(** ** Arrays *)

Lemma upd_same {A : Type} (a : Z -> A) (i : Z) (v : A) : upd a i v i = v.
Proof. unfold upd. now rewrite Z.eqb_refl. Qed.

Lemma upd_other {A : Type} (a : Z -> A) (i j : Z) (v : A) :
  j <> i -> upd a i v j = a j.
Proof. intros H. unfold upd. now apply Z.eqb_neq in H as ->. Qed.

Example configure_example :
  match GRM.configureDescriptor (GRM.mkDiscInput 2 3 [4] [1; 2] None) with
  | Ok d => GRM.numDofs d = 2 + 3 * 2 + (2 + 3) * 4 * 3 + 3 * 2 * 1
            /\ GRM.strideBound d 0 = 3 /\ GRM.nParType d = 1
  | Throw _ => False
  end.
Proof. vm_compute. repeat split; reflexivity. Qed.

(** An invariant that does not depend on the iteration. *)
Lemma for_range_preserves {S : Type} (P : S -> Prop) (body : Z -> S -> S)
    (lo hi : Z) (s : S) :
  P s ->
  (forall i s', lo <= i < hi -> P s' -> P (body i s')) ->
  P (for_range lo hi body s).
Proof.
  intros H0 Hstep. destruct (Z_le_gt_dec lo hi) as [Hle|Hgt].
  - apply (for_range_inv (fun _ => P)); auto.
  - rewrite for_range_nil by lia. exact H0.
Qed.

(** ** The descriptor holds [unsigned int] values *)

Definition in_range (a : Z -> Z) : Prop :=
  forall i, 0 <= a i < UInt.modulus.

Lemma in_range_fresh : in_range GRM.fresh.
Proof. intros i. unfold GRM.fresh, UInt.modulus. lia. Qed.

Lemma in_range_upd (a : Z -> Z) (i v : Z) :
  in_range a -> 0 <= v < UInt.modulus -> in_range (upd a i v).
Proof.
  intros Ha Hv j. unfold upd. destruct (j =? i); [exact Hv|apply Ha].
Qed.

Lemma in_range_fill (a : Z -> Z) (lo hi v : Z) :
  in_range a -> 0 <= v < UInt.modulus -> in_range (fill a lo hi v).
Proof.
  intros Ha Hv. unfold fill. apply for_range_preserves; [exact Ha|].
  intros i a' _ Ha'. now apply in_range_upd.
Qed.

Lemma in_range_copy_n (src : list Z) (n : Z) (dst : Z -> Z) (at_ : Z) :
  in_range dst -> in_range (copy_n src n dst at_).
Proof.
  intros Ha. unfold copy_n. apply for_range_preserves; [exact Ha|].
  intros i a' _ Ha'. apply in_range_upd; [exact Ha'|apply wrap_range].
Qed.

Lemma in_range_readParCell (NPAR : list Z) (n : Z) :
  in_range (GRM.readParCell NPAR n).
Proof.
  unfold GRM.readParCell. destruct (vsize NPAR <? n).
  - apply for_range_preserves; [apply in_range_fresh|].
    intros i a _ Ha. apply in_range_fill; [exact Ha|apply wrap_range].
  - apply in_range_copy_n, in_range_fresh.
Qed.

Lemma in_range_readBound (NBOUND : list Z) (nc n : Z) :
  in_range (GRM.readBound NBOUND nc n).
Proof.
  unfold GRM.readBound. destruct (vsize NBOUND <? UInt.mul nc n).
  - apply for_range_preserves; [apply in_range_fresh|].
    intros i a _ Ha. now apply in_range_copy_n.
  - apply in_range_copy_n, in_range_fresh.
Qed.

Lemma totalBound_range (nb : Z -> Z) (nc n : Z) :
  0 <= GRM.totalBound nb nc n < UInt.modulus.
Proof.
  unfold GRM.totalBound.
  apply (for_range_preserves (fun acc => 0 <= acc < UInt.modulus)).
  - unfold UInt.modulus. lia.
  - intros i acc _ _. apply wrap_range.
Qed.

Lemma in_range_strideBound (nb : Z -> Z) (nc n tot : Z) :
  0 <= tot < UInt.modulus ->
  in_range (GRM.ba_strideBound (GRM.boundLayout nb nc n tot)).
Proof.
  intros Htot. unfold GRM.boundLayout.
  apply (for_range_preserves (fun st => in_range (GRM.ba_strideBound st))).
  - simpl. apply in_range_upd; [apply in_range_fresh|exact Htot].
  - intros j st _ Hst. simpl.
    apply in_range_upd; [exact Hst|apply wrap_range].
Qed.

(** ** Offsets of the particle type blocks *)

Lemma parLayout_parTypeOffset (nc ncol npt : Z) (npc sb : Z -> Z) :
  0 <= npt -> npt + 1 < UInt.modulus ->
  forall k, 0 <= k <= npt ->
    GRM.pa_parTypeOffset (GRM.parLayout nc ncol npt npc sb) k
    = UInt.wrap (zsum (fun t => (nc + sb t) * npc t * ncol) k).
Proof.
  intros Hn Hfit. unfold GRM.parLayout. simpl GRM.pa_parTypeOffset.
  set (term := fun t => (nc + sb t) * npc t * ncol).
  replace (UInt.add npt 1) with (npt + 1)
    by (unfold UInt.add; now rewrite wrap_small by lia).
  cut (forall k, 0 <= k < npt + 1 ->
         GRM.pa_parTypeOffset
           (for_range 1 (npt + 1)
              (fun j st =>
                 GRM.mkParArrays
                   (upd (GRM.pa_parTypeOffset st) j
                      (UInt.add (GRM.pa_parTypeOffset st (j - 1))
                         (UInt.mul
                            (UInt.mul (UInt.add nc (sb (j - 1))) (npc (j - 1)))
                            ncol)))
                   (upd (GRM.pa_nParCellsBeforeType st) j
                      (UInt.add (GRM.pa_nParCellsBeforeType st (j - 1)) (npc (j - 1))))
                   (UInt.add (GRM.pa_nTotalParCells st) (npc (j - 1))))
              (GRM.mkParArrays (upd GRM.fresh 0 0) (upd GRM.fresh 0 0) 0)) k
         = UInt.wrap (zsum term k)).
  { intros H k Hk. apply H. lia. }
  apply (for_range_inv
           (fun j st => forall k, 0 <= k < j ->
              GRM.pa_parTypeOffset st k = UInt.wrap (zsum term k))).
  - lia.
  - intros k Hk. assert (k = 0) as -> by lia. simpl. reflexivity.
  - intros j st Hj IH k Hk. simpl.
    destruct (Z.eq_dec k j) as [->|Hne].
    + rewrite upd_same. rewrite (IH (j - 1)) by lia.
      assert (E : zsum term j = zsum term (j - 1) + term (j - 1)).
      { replace j with ((j - 1) + 1) at 1 by lia. apply zsum_succ. lia. }
      rewrite E. unfold term at 3. unwrap.
    + rewrite upd_other by exact Hne. apply IH. lia.
Qed.

(** What a successful [configureDescriptor] has computed. *)
Lemma configureDescriptor_Ok (p : GRM.DiscretizationInput) (d : GRM.Discretization) :
  GRM.configureDescriptor p = Ok d ->
  exists npt,
    0 <= npt < UInt.modulus /\
    let nc := UInt.wrap (GRM.NCOMP p) in
    let ncol := UInt.wrap (GRM.NCOL p) in
    let npc := GRM.readParCell (GRM.NPAR p) npt in
    let nb := GRM.readBound (GRM.NBOUND p) nc npt in
    let ba := GRM.boundLayout nb nc npt (GRM.totalBound nb nc npt) in
    let pa := GRM.parLayout nc ncol npt npc (GRM.ba_strideBound ba) in
    d = GRM.mkDisc nc ncol npt npc
          (GRM.pa_parTypeOffset pa) (GRM.pa_nParCellsBeforeType pa)
          nb (GRM.ba_boundOffset ba) (GRM.ba_strideBound ba)
          (GRM.ba_nBoundBeforeType ba).
Proof.
  unfold GRM.configureDescriptor. intros H.
  destruct (throw_if _ _) in H; [|discriminate]. cbn [bindR] in H.
  destruct (throw_if _ _) in H; [|discriminate]. cbn [bindR] in H.
  destruct (throw_if _ _) in H; [|discriminate]. cbn [bindR] in H.
  injection H as <-.
  eexists. split; [|reflexivity].
  destruct (GRM.NPARTYPE p); apply wrap_range.
Qed.

Lemma configured_ranges (p : GRM.DiscretizationInput) (d : GRM.Discretization) :
  GRM.configureDescriptor p = Ok d ->
  0 <= GRM.nComp d < UInt.modulus /\
  0 <= GRM.nCol d < UInt.modulus /\
  0 <= GRM.nParType d < UInt.modulus /\
  in_range (GRM.nParCell d) /\
  in_range (GRM.nBound d) /\
  in_range (GRM.strideBound d).
Proof.
  intros H. destruct (configureDescriptor_Ok p d H) as (npt & Hnpt & ->).
  cbn [GRM.nComp GRM.nCol GRM.nParType GRM.nParCell GRM.nBound GRM.strideBound].
  repeat split; try apply wrap_range; try apply Hnpt.
  - apply in_range_readParCell.
  - apply in_range_readParCell.
  - apply in_range_readBound.
  - apply in_range_readBound.
  - apply in_range_strideBound, totalBound_range.
  - apply in_range_strideBound, totalBound_range.
Qed.

Lemma configured_parTypeOffset (p : GRM.DiscretizationInput) (d : GRM.Discretization) :
  GRM.configureDescriptor p = Ok d ->
  GRM.nParType d + 1 < UInt.modulus ->
  forall k, 0 <= k <= GRM.nParType d ->
    GRM.parTypeOffset d k = UInt.wrap (zsum (parTypeBlock d) k).
Proof.
  intros H Hfit k Hk.
  destruct (configureDescriptor_Ok p d H) as (npt & Hnpt & ->).
  cbn [GRM.nParType GRM.parTypeOffset] in *.
  rewrite parLayout_parTypeOffset by lia.
  reflexivity.
Qed.

Lemma numDofs_unsigned (d : GRM.Discretization) :
  GRM.numDofs d
  = UInt.wrap (GRM.nComp d + GRM.nCol d * GRM.nComp d
               + GRM.parTypeOffset d (GRM.nParType d)
               + GRM.nCol d * GRM.nComp d * GRM.nParType d).
Proof. unfold GRM.numDofs. unwrap. Qed.

Lemma parTypeBlock_nonneg (p : GRM.DiscretizationInput) (d : GRM.Discretization) :
  GRM.configureDescriptor p = Ok d ->
  forall t, 0 <= parTypeBlock d t.
Proof.
  intros H t.
  destruct (configured_ranges p d H) as (Hc & Hcol & _ & Hpc & _ & Hsb).
  specialize (Hpc t). specialize (Hsb t). unfold parTypeBlock.
  apply Z.mul_nonneg_nonneg; [apply Z.mul_nonneg_nonneg|]; lia.
Qed.

(** C7.  For a configured descriptor with [nComp >= 1], [nParType >= 1] and
    [nCol >= 1] (the arrays of [nParType + 1] entries being addressable),
    [numDofs] returns, in unsigned arithmetic,
    [nComp + nCol * nComp + parTypeOffset[nParType] + nCol * nComp * nParType],
    where [parTypeOffset[nParType]] is the sum over the particle types [t] of
    [(nComp + strideBound[t]) * nParCell[t] * nCol]; both equations hold
    without any reduction as soon as the closed-form sum is an
    [unsigned int]. *)
Theorem numDofs_closed_form (p : GRM.DiscretizationInput) (d : GRM.Discretization) :
  GRM.configureDescriptor p = Ok d ->
  1 <= GRM.nComp d -> 1 <= GRM.nParType d -> 1 <= GRM.nCol d ->
  GRM.nParType d + 1 < UInt.modulus ->
  GRM.numDofs d
  = UInt.wrap (GRM.nComp d + GRM.nCol d * GRM.nComp d
               + GRM.parTypeOffset d (GRM.nParType d)
               + GRM.nCol d * GRM.nComp d * GRM.nParType d)
  /\ GRM.parTypeOffset d (GRM.nParType d)
     = UInt.wrap (zsum (parTypeBlock d) (GRM.nParType d))
  /\ GRM.numDofs d = UInt.wrap (closedFormDofs d)
  /\ (closedFormDofs d < UInt.modulus ->
      GRM.parTypeOffset d (GRM.nParType d) = zsum (parTypeBlock d) (GRM.nParType d)
      /\ GRM.numDofs d = closedFormDofs d).
Proof.
  intros H Hc Ht Hcol Hfit.
  pose proof (configured_parTypeOffset p d H Hfit (GRM.nParType d) ltac:(lia)) as Hpto.
  assert (Hnum : GRM.numDofs d = UInt.wrap (closedFormDofs d)).
  { rewrite numDofs_unsigned, Hpto. unfold closedFormDofs. unwrap. }
  split; [apply numDofs_unsigned|]. split; [exact Hpto|]. split; [exact Hnum|].
  intros Hclosed.
  assert (Hs : 0 <= zsum (parTypeBlock d) (GRM.nParType d)).
  { apply zsum_nonneg. intros i _. apply (parTypeBlock_nonneg p d H). }
  assert (0 <= GRM.nCol d * GRM.nComp d) by (apply Z.mul_nonneg_nonneg; lia).
  assert (0 <= GRM.nCol d * GRM.nComp d * GRM.nParType d)
    by (apply Z.mul_nonneg_nonneg; lia).
  unfold closedFormDofs in Hclosed.
  split.
  - rewrite Hpto. apply wrap_small. lia.
  - rewrite Hnum. apply wrap_small. unfold closedFormDofs. lia.
Qed.

(** A descriptor with two components, three axial cells and one particle type
    of four shells with bound states [1; 2]. *)
Lemma numDofs_closed_form_witness :
  exists d,
    GRM.configureDescriptor (GRM.mkDiscInput 2 3 [4] [1; 2] None) = Ok d
    /\ GRM.numDofs d = UInt.wrap (closedFormDofs d)
    /\ GRM.numDofs d = 74.
Proof.
  eexists. split; [reflexivity|].
  match goal with
  | |- GRM.numDofs ?d = _ /\ _ =>
      destruct (numDofs_closed_form (GRM.mkDiscInput 2 3 [4] [1; 2] None) d)
        as (_ & _ & Hw & _);
      [ reflexivity | vm_compute; discriminate | vm_compute; discriminate
      | vm_compute; discriminate | vm_compute; reflexivity | ]
  end.
  split; [exact Hw|vm_compute; reflexivity].
Defined.

(** ** Radial discretization *)

Lemma rsum_succ (f : Z -> R) (n : Z) :
  0 <= n -> rsum f (n + 1) = (rsum f n + f n)%R.
Proof. intros H. unfold rsum. now rewrite for_range_succ_r. Qed.

Lemma rsum_ext (f g : Z -> R) (n : Z) :
  (forall i, 0 <= i < n -> f i = g i) -> rsum f n = rsum g n.
Proof.
  intros H. destruct (Z_le_gt_dec 0 n) as [Hn|Hn].
  - revert H. pattern n. apply natlike_ind; [reflexivity| |exact Hn].
    intros k Hk IH H. unfold Z.succ. rewrite !rsum_succ by lia.
    rewrite IH, H; [reflexivity|lia|]. intros i Hi. apply H. lia.
  - unfold rsum. now rewrite !for_range_nil by lia.
Qed.

Lemma rsum_const (c : R) (n : Z) :
  0 <= n -> rsum (fun _ => c) n = (IZR n * c)%R.
Proof.
  intros Hn. pattern n. apply natlike_ind; [|intros k Hk IH|exact Hn].
  - unfold rsum. rewrite for_range_nil by lia. lra.
  - unfold Z.succ. rewrite rsum_succ, IH by lia. rewrite plus_IZR. lra.
Qed.

Lemma rsum_telescope (f : Z -> R) (n : Z) :
  0 <= n -> rsum (fun s => (f s - f (s + 1)%Z)%R) n = (f 0%Z - f n)%R.
Proof.
  intros Hn. pattern n. apply natlike_ind; [|intros k Hk IH|exact Hn].
  - unfold rsum. rewrite for_range_nil by lia. lra.
  - unfold Z.succ. rewrite rsum_succ, IH by lia. lra.
Qed.

Lemma fill_get {A : Type} (a : Z -> A) (lo hi : Z) (v : A) (i : Z) :
  fill a lo hi v i = if (lo <=? i) && (i <? hi) then v else a i.
Proof.
  unfold fill. destruct (Z_le_gt_dec lo hi) as [Hle|Hgt].
  - apply (for_range_inv
             (fun j a' => a' i = if (lo <=? i) && (i <? j) then v else a i)).
    + exact Hle.
    + destruct (lo <=? i) eqn:E1, (i <? lo) eqn:E2; try reflexivity; lia.
    + intros j a' Hj IH. unfold upd.
      destruct (Z.eqb_spec i j) as [->|Hne].
      * destruct (lo <=? j) eqn:E1, (j <? j + 1) eqn:E2; try reflexivity; lia.
      * rewrite IH.
        destruct (lo <=? i) eqn:E1, (i <? j) eqn:E2, (i <? j + 1) eqn:E3;
          try reflexivity; lia.
  - rewrite for_range_nil by lia.
    destruct (lo <=? i) eqn:E1, (i <? hi) eqn:E2; try reflexivity; lia.
Qed.

Section Equidistant.
Variable d : GRM.Discretization.
Variables parRadius parCoreRadius : Z -> R.
Variable t : Z.
Variable g : GRM.Geometry.

Let n := GRM.nParCell d t.
Let off := GRM.nParCellsBeforeType d t.
Let dr := ((parRadius t - parCoreRadius t) / IZR n)%R.
Let g' := GRM.setEquidistantRadialDisc d parRadius parCoreRadius t g.

Lemma equidistant_parCellSize (s : Z) :
  0 <= s < n -> GRM.parCellSize g' (off + s) = dr.
Proof.
  intros Hs. unfold g', GRM.setEquidistantRadialDisc.
  fold n off dr.
  match goal with |- GRM.parCellSize (for_range _ _ ?body ?init) _ = _ =>
    assert (E : GRM.parCellSize (for_range 0 n body init) = GRM.parCellSize init)
  end.
  { apply (for_range_preserves (fun st => GRM.parCellSize st = _)); [reflexivity|].
    intros i st _ Hst. exact Hst. }
  rewrite E. cbn [GRM.parCellSize]. rewrite fill_get.
  destruct (off <=? off + s) eqn:E1, (off + s <? off + n) eqn:E2; try reflexivity; lia.
Qed.

Lemma equidistant_parCenterRadius (s : Z) :
  0 <= s < n ->
  GRM.parCenterRadius g' (off + s) = (parRadius t - (0.5 + IZR s) * dr)%R.
Proof.
  intros Hs. unfold g', GRM.setEquidistantRadialDisc. fold n off dr.
  assert (Hn : 0 <= n) by lia. revert s Hs.
  apply (for_range_inv
           (fun j st => forall s, 0 <= s < j ->
              GRM.parCenterRadius st (off + s)
              = (parRadius t - (0.5 + IZR s) * dr)%R)).
  - lia.
  - intros s0 Hs0. lia.
  - intros j st Hj IH s0 Hs0. cbn [GRM.parCenterRadius].
    destruct (Z.eq_dec s0 j) as [->|Hne].
    + now rewrite upd_same.
    + rewrite upd_other by lia. apply IH. lia.
Qed.

Lemma equidistant_geometry_ok :
  1 <= n -> (parCoreRadius t < parRadius t)%R ->
  geometry_ok g' off n (parCoreRadius t) (parRadius t).
Proof.
  intros Hn HR.
  assert (Hn' : (0 < IZR n)%R) by (apply IZR_lt; lia).
  assert (Hdr : (0 < dr)%R) by (apply Rdiv_lt_0_compat; lra).
  assert (Hndr : (IZR n * dr = parRadius t - parCoreRadius t)%R)
    by (unfold dr; field; lra).
  assert (Hsize : forall s, 0 <= s < n ->
            GRM.parCellSize g' (off + s) = dr)
    by exact equidistant_parCellSize.
  assert (Hcen : forall s, 0 <= s < n ->
            GRM.parCenterRadius g' (off + s)
            = (parRadius t - (0.5 + IZR s) * dr)%R)
    by exact equidistant_parCenterRadius.
  split; [|split].
  - rewrite (rsum_ext _ (fun _ => dr)) by exact Hsize.
    rewrite rsum_const by lia. exact Hndr.
  - intros s Hs Hs'. rewrite !Hcen by lia. rewrite plus_IZR. lra.
  - split.
    + unfold outerRadius. replace off with (off + 0) by lia.
      rewrite Hsize, Hcen by lia. lra.
    + unfold innerRadius. replace (off + n - 1) with (off + (n - 1)) by lia.
      rewrite Hsize, Hcen by lia. rewrite minus_IZR. lra.
    + intros s Hs. unfold innerRadius, outerRadius.
      rewrite Hsize, Hcen by lia. lra.
    + intros s Hs Hs'. unfold innerRadius, outerRadius.
      rewrite !Hsize, !Hcen by lia. rewrite plus_IZR. lra.
Qed.
End Equidistant.

Lemma cube_pow_real_third (x : R) :
  (0 < x)%R ->
  (0 < GRM.pow_real x (1 / 3))%R /\ GRM.cube (GRM.pow_real x (1 / 3)) = x.
Proof.
  intros Hx. unfold GRM.pow_real. destruct (Rlt_dec 0 x) as [_|]; [|contradiction].
  split.
  - unfold Rpower. apply exp_pos.
  - unfold GRM.cube.
    rewrite <- (Rpower_pow 3) by (unfold Rpower; apply exp_pos).
    rewrite Rpower_mult.
    replace (1 / 3 * INR 3)%R with 1%R by (simpl; field).
    now apply Rpower_1.
Qed.

Lemma cube_lt_inv (x y : R) :
  (0 <= x)%R -> (GRM.cube x < GRM.cube y)%R -> (0 <= y)%R -> (x < y)%R.
Proof.
  intros Hx Hlt Hy. destruct (Rlt_le_dec x y) as [H|H]; [exact H|].
  exfalso. unfold GRM.cube in Hlt.
  pose proof (pow_incr y x 3 (conj Hy H)). lra.
Qed.

Section Equivolume.
Variable d : GRM.Discretization.
Variables parRadius parCoreRadius : Z -> R.
Variable t : Z.
Variable g : GRM.Geometry.

Let n := GRM.nParCell d t.
Let off := GRM.nParCellsBeforeType d t.
Let V := ((GRM.cube (parRadius t) - GRM.cube (parCoreRadius t)) / IZR n)%R.
Let rho (s : Z) : R :=
  equivolume_radius (parRadius t) (parCoreRadius t) V n (Z.to_nat s).
Let g' := GRM.setEquivolumeRadialDisc d parRadius parCoreRadius t g.

Lemma rho_succ (s : Z) :
  0 <= s ->
  rho (s + 1)
  = if negb (s =? UInt.sub n 1)
    then GRM.pow_real (GRM.cube (rho s) - V) (1 / 3)
    else parCoreRadius t.
Proof.
  intros Hs. unfold rho.
  replace (Z.to_nat (s + 1)) with (Datatypes.S (Z.to_nat s)) by lia.
  cbn [equivolume_radius]. now rewrite Z2Nat.id by lia.
Qed.

Lemma equivolume_loop (s : Z) :
  0 <= s < n ->
  GRM.parCellSize g' (off + s) = (rho s - rho (s + 1))%R
  /\ GRM.parCenterRadius g' (off + s) = ((rho s + rho (s + 1)) * 0.5)%R.
Proof.
  intros Hs. assert (Hn : 0 <= n) by lia.
  unfold g', GRM.setEquivolumeRadialDisc. fold n off V.
  revert s Hs.
  match goal with
  | |- forall s, _ -> GRM.parCellSize (GRM.ev_geometry ?L) _ = _ /\ _ =>
      cut (GRM.ev_r_out L = rho n /\
           forall s, 0 <= s < n ->
             GRM.parCellSize (GRM.ev_geometry L) (off + s)
             = (rho s - rho (s + 1))%R
             /\ GRM.parCenterRadius (GRM.ev_geometry L) (off + s)
                = ((rho s + rho (s + 1)) * 0.5)%R);
      [intros [_ H]; exact H|]
  end.
  apply (for_range_inv
           (fun j st =>
              GRM.ev_r_out st = rho j /\
              forall s, 0 <= s < j ->
                GRM.parCellSize (GRM.ev_geometry st) (off + s)
                = (rho s - rho (s + 1))%R
                /\ GRM.parCenterRadius (GRM.ev_geometry st) (off + s)
                   = ((rho s + rho (s + 1)) * 0.5)%R)).
  - exact Hn.
  - split; [reflexivity|]. intros s Hs. lia.
  - intros j st Hj [Hout IH].
    cbn [GRM.ev_r_out GRM.ev_geometry GRM.parCellSize GRM.parCenterRadius].
    rewrite Hout. rewrite <- (rho_succ j) by lia.
    split; [reflexivity|].
    intros s Hs. destruct (Z.eq_dec s j) as [->|Hne].
    + now rewrite !upd_same.
    + rewrite !upd_other by lia. apply IH. lia.
Qed.

Hypothesis Hn : 1 <= n < UInt.modulus.
Hypothesis Hcore : (0 <= parCoreRadius t)%R.
Hypothesis Hradius : (parCoreRadius t < parRadius t)%R.

Lemma equivolume_V_pos : (0 < V)%R.
Proof.
  unfold V. apply Rdiv_lt_0_compat; [|apply IZR_lt; lia].
  assert (GRM.cube (parCoreRadius t) < GRM.cube (parRadius t))%R; [|lra].
  unfold GRM.cube.
  set (a := parCoreRadius t) in *. set (b := parRadius t) in *.
  assert (0 <= a * a)%R by nra. assert (0 < b * b)%R by nra.
  assert (a * a < b * b)%R by nra.
  simpl. nra.
Qed.

Lemma equivolume_sub_n : UInt.sub n 1 = n - 1.
Proof. unfold UInt.sub. apply wrap_small. lia. Qed.

Lemma equivolume_nV :
  (IZR n * V = GRM.cube (parRadius t) - GRM.cube (parCoreRadius t))%R.
Proof.
  unfold V. field. apply not_0_IZR. lia.
Qed.

Lemma cube_core_nonneg : (0 <= GRM.cube (parCoreRadius t))%R.
Proof. unfold GRM.cube. apply pow_le. exact Hcore. Qed.

Lemma rho_cube (k : Z) :
  0 <= k < n ->
  (0 < rho k)%R
  /\ GRM.cube (rho k) = (GRM.cube (parRadius t) - IZR k * V)%R.
Proof.
  intros [Hk0 Hk]. revert Hk. pattern k.
  apply natlike_ind; [| |exact Hk0]; clear k Hk0.
  - intros _. unfold rho. simpl. split; lra.
  - intros k Hk0 IH Hk. unfold Z.succ in *.
    destruct (IH ltac:(lia)) as [Hpos Hcube].
    rewrite rho_succ by lia.
    rewrite equivolume_sub_n.
    destruct (Z.eqb_spec k (n - 1)) as [E|_]; [lia|]. cbn [negb].
    pose proof equivolume_V_pos as HV.
    pose proof equivolume_nV as HnV.
    pose proof cube_core_nonneg as Hc.
    assert (Hle : (IZR (k + 1) * V <= IZR (n - 1) * V)%R).
    { apply Rmult_le_compat_r; [lra|]. apply IZR_le. lia. }
    rewrite minus_IZR in Hle. rewrite plus_IZR in Hle |- *.
    assert (Hx : (0 < GRM.cube (rho k) - V)%R) by (rewrite Hcube; lra).
    destruct (cube_pow_real_third _ Hx) as [Hp Hc3].
    split; [exact Hp|]. rewrite Hc3, Hcube. lra.
Qed.

Lemma rho_n : rho n = parCoreRadius t.
Proof.
  replace n with ((n - 1) + 1) at 1 by lia.
  rewrite rho_succ by lia. rewrite equivolume_sub_n.
  now rewrite Z.eqb_refl.
Qed.

Lemma rho_decreasing (s : Z) :
  0 <= s < n -> (rho (s + 1) < rho s)%R.
Proof.
  intros Hs. destruct (rho_cube s Hs) as [Hpos Hcube].
  pose proof equivolume_V_pos as HV.
  pose proof equivolume_nV as HnV.
  destruct (Z.eq_dec (s + 1) n) as [E|Hne].
  - rewrite E, rho_n. apply cube_lt_inv; [exact Hcore| |lra].
    rewrite Hcube. replace s with (n - 1) by lia.
    rewrite minus_IZR. lra.
  - destruct (rho_cube (s + 1) ltac:(lia)) as [Hpos' Hcube'].
    apply cube_lt_inv; [lra| |lra].
    rewrite Hcube, Hcube', plus_IZR. lra.
Qed.

Lemma equivolume_geometry_ok :
  geometry_ok g' off n (parCoreRadius t) (parRadius t).
Proof.
  assert (Hsize : forall s, 0 <= s < n ->
            GRM.parCellSize g' (off + s) = (rho s - rho (s + 1))%R)
    by (intros s Hs; apply (equivolume_loop s Hs)).
  assert (Hcen : forall s, 0 <= s < n ->
            GRM.parCenterRadius g' (off + s) = ((rho s + rho (s + 1)) * 0.5)%R)
    by (intros s Hs; apply (equivolume_loop s Hs)).
  assert (H0 : rho 0 = parRadius t) by reflexivity.
  split; [|split].
  - rewrite (rsum_ext _ (fun s => (rho s - rho (s + 1))%R)) by exact Hsize.
    rewrite rsum_telescope by lia. now rewrite rho_n, H0.
  - intros s Hs Hs'. rewrite !Hcen by lia.
    pose proof (rho_decreasing s ltac:(lia)).
    pose proof (rho_decreasing (s + 1) ltac:(lia)). lra.
  - split.
    + unfold outerRadius. replace off with (off + 0) by lia.
      rewrite Hsize, Hcen by lia. rewrite H0. lra.
    + unfold innerRadius. replace (off + n - 1) with (off + (n - 1)) by lia.
      rewrite Hsize, Hcen by lia.
      replace (n - 1 + 1) with n by lia. rewrite rho_n. lra.
    + intros s Hs. unfold innerRadius, outerRadius.
      rewrite Hsize, Hcen by lia.
      pose proof (rho_decreasing s Hs). lra.
    + intros s Hs Hs'. unfold innerRadius, outerRadius.
      rewrite !Hsize, !Hcen by lia. lra.
Qed.
End Equivolume.

(** *** Vectors *)

Lemma vset_nat_length {A : Type} (l : list A) (n : nat) (v : A) :
  List.length (vset_nat l n v) = List.length l.
Proof.
  revert n. induction l as [|x l IH]; intros [|n]; simpl; auto.
Qed.

Lemma vsize_vset {A : Type} (l : list A) (i : Z) (v : A) :
  vsize (vset l i v) = vsize l.
Proof. unfold vsize, vset. now rewrite vset_nat_length. Qed.

Lemma nth_vset_nat_same {A : Type} (dflt : A) (l : list A) (n : nat) (v : A) :
  (n < List.length l)%nat -> nth n (vset_nat l n v) dflt = v.
Proof.
  revert n. induction l as [|x l IH]; intros [|n] H; simpl in *; try lia; auto.
  apply IH. lia.
Qed.

Lemma nth_vset_nat_other {A : Type} (dflt : A) (l : list A) (n m : nat) (v : A) :
  n <> m -> nth m (vset_nat l n v) dflt = nth m l dflt.
Proof.
  revert n m. induction l as [|x l IH]; intros [|n] [|m] H; simpl; auto; try lia.
Qed.

Lemma vget_vset_same {A : Type} (dflt : A) (l : list A) (i : Z) (v : A) :
  0 <= i < vsize l -> vget dflt (vset l i v) i = v.
Proof.
  intros H. unfold vget, vset, vsize in *. apply nth_vset_nat_same. lia.
Qed.

Lemma vget_vset_other {A : Type} (dflt : A) (l : list A) (i j : Z) (v : A) :
  0 <= i -> 0 <= j -> i <> j -> vget dflt (vset l i v) j = vget dflt l j.
Proof.
  intros Hi Hj H. unfold vget, vset. apply nth_vset_nat_other. lia.
Qed.

Lemma insert_desc_length (x : R) (l : list R) :
  List.length (GRM.insert_desc x l) = Datatypes.S (List.length l).
Proof.
  induction l as [|y l IH]; simpl; [reflexivity|].
  destruct (Rlt_dec x y); simpl; auto.
Qed.

Lemma sort_desc_length (l : list R) :
  List.length (GRM.sort_desc l) = List.length l.
Proof.
  induction l as [|x l IH]; simpl; [reflexivity|].
  now rewrite insert_desc_length, IH.
Qed.

Section Userdefined.
Variable d : GRM.Discretization.
Variables parRadius parCoreRadius : Z -> R.
Variable parDiscVector : list R.
Variable t : Z.
Variable g : GRM.Geometry.

Let n := GRM.nParCell d t.
Let off := GRM.nParCellsBeforeType d t.
Let oi := GRM.orderedInterfaces d parRadius parCoreRadius parDiscVector t.
Let g' := GRM.setUserdefinedRadialDisc d parRadius parCoreRadius parDiscVector t g.

Lemma userdefined_loop (s : Z) :
  0 <= s < n ->
  GRM.parCellSize g' (off + s) = (vget 0 oi s - vget 0 oi (s + 1))%R
  /\ GRM.parCenterRadius g' (off + s)
     = ((vget 0 oi s + vget 0 oi (s + 1)) * 0.5)%R.
Proof.
  intros Hs. assert (Hn : 0 <= n) by lia.
  unfold g', GRM.setUserdefinedRadialDisc. fold n off oi.
  revert s Hs.
  apply (for_range_inv
           (fun j st =>
              forall s, 0 <= s < j ->
                GRM.parCellSize st (off + s)
                = (vget 0 oi s - vget 0 oi (s + 1))%R
                /\ GRM.parCenterRadius st (off + s)
                   = ((vget 0 oi s + vget 0 oi (s + 1)) * 0.5)%R)).
  - exact Hn.
  - intros s Hs. lia.
  - intros j st Hj IH s Hs.
    cbn [GRM.parCellSize GRM.parCenterRadius].
    destruct (Z.eq_dec s j) as [->|Hne].
    + now rewrite !upd_same.
    + rewrite !upd_other by lia. apply IH. lia.
Qed.

(** The supplied vector holds the [n + 1] interfaces of this type. *)
Hypothesis Hn : 1 <= n.
Hypothesis Hvector :
  vsize (GRM.slice parDiscVector
           (UInt.add (GRM.nParCellsBeforeType d t) t) (n + 1)) = n + 1.

Lemma orderedInterfaces_ends :
  vget 0%R oi 0 = parRadius t /\ vget 0%R oi n = 0%R.
Proof.
  unfold oi, GRM.orderedInterfaces. fold n.
  set (sl := GRM.slice parDiscVector _ _) in *.
  set (o1 := vset (vset (GRM.sort_desc sl) 0 1%R) _ 0%R).
  assert (Hlen : vsize o1 = n + 1).
  { unfold o1. rewrite !vsize_vset. unfold vsize.
    rewrite sort_desc_length. exact Hvector. }
  assert (Hfirst : vget 0%R o1 0 = 1%R).
  { unfold o1. rewrite vsize_vset.
    assert (E : vsize (GRM.sort_desc sl) = n + 1)
      by (unfold vsize; rewrite sort_desc_length; exact Hvector).
    rewrite E. rewrite vget_vset_other by lia.
    apply vget_vset_same. lia. }
  assert (Hlast : vget 0%R o1 n = 0%R).
  { unfold o1. rewrite vsize_vset.
    assert (E : vsize (GRM.sort_desc sl) = n + 1)
      by (unfold vsize; rewrite sort_desc_length; exact Hvector).
    rewrite E. replace (n + 1 - 1) with n by lia.
    apply vget_vset_same. rewrite vsize_vset. lia. }
  cut (vsize (for_range 0 n
                (fun cell oi' =>
                   vset oi' cell
                     (vget 0 oi' cell * (parRadius t - parCoreRadius t)
                      + parCoreRadius t)%R) o1) = n + 1
       /\ (forall i, 0 <= i < n ->
             vget 0%R (for_range 0 n
                (fun cell oi' =>
                   vset oi' cell
                     (vget 0 oi' cell * (parRadius t - parCoreRadius t)
                      + parCoreRadius t)%R) o1) i
             = (vget 0 o1 i * (parRadius t - parCoreRadius t)
                + parCoreRadius t)%R)
       /\ (forall i, n <= i ->
             vget 0%R (for_range 0 n
                (fun cell oi' =>
                   vset oi' cell
                     (vget 0 oi' cell * (parRadius t - parCoreRadius t)
                      + parCoreRadius t)%R) o1) i
             = vget 0%R o1 i)).
  { intros (_ & Hlo & Hhi). split.
    - rewrite Hlo by lia. rewrite Hfirst. lra.
    - rewrite Hhi by lia. exact Hlast. }
  apply (for_range_inv
           (fun j o =>
              vsize o = n + 1
              /\ (forall i, 0 <= i < j ->
                    vget 0%R o i
                    = (vget 0 o1 i * (parRadius t - parCoreRadius t)
                       + parCoreRadius t)%R)
              /\ (forall i, j <= i -> vget 0%R o i = vget 0%R o1 i))).
  - lia.
  - split; [exact Hlen|]. split; [intros; lia|reflexivity].
  - intros j o Hj (Hl & Hlo & Hhi). split; [|split].
    + now rewrite vsize_vset.
    + intros i Hi. destruct (Z.eq_dec i j) as [->|Hne].
      * rewrite vget_vset_same by lia. now rewrite Hhi by lia.
      * rewrite vget_vset_other by lia. apply Hlo. lia.
    + intros i Hi. rewrite vget_vset_other by lia. apply Hhi. lia.
Qed.

(** The shells of a user-defined discretization add up to the particle
    radius, whatever the core radius is. *)
Lemma userdefined_parCellSize_sum :
  rsum (fun s => GRM.parCellSize g' (off + s)) n = parRadius t.
Proof.
  rewrite (rsum_ext _ (fun s => (vget 0 oi s - vget 0 oi (s + 1))%R))
    by (intros s Hs; apply (userdefined_loop s Hs)).
  rewrite rsum_telescope by lia.
  destruct orderedInterfaces_ends as [-> ->]. lra.
Qed.

Lemma userdefined_innermost_face :
  innerRadius g' (off + n - 1) = 0%R.
Proof.
  unfold innerRadius. replace (off + n - 1) with (off + (n - 1)) by lia.
  destruct (userdefined_loop (n - 1) ltac:(lia)) as [-> ->].
  replace (n - 1 + 1) with n by lia.
  destruct orderedInterfaces_ends as [_ ->]. lra.
Qed.
End Userdefined.

Lemma for_range_one {S : Type} (body : Z -> S -> S) (lo : Z) (s : S) :
  for_range lo (lo + 1) body s = body lo s.
Proof.
  unfold for_range. replace (Z.to_nat (lo + 1 - lo)) with 1%nat by lia.
  reflexivity.
Qed.

(** C4, at a user-defined discretization with a core.  One particle type of
    radius [2] and core radius [1] with two shells and the interfaces
    [1, 1/2, 0]: the loop that maps the interfaces into
    [[core radius, particle radius]] stops before the last interface, which
    stays at [0].  The shell sizes add up to [2] instead of
    [R - R_core = 1] and the innermost shell reaches down to the radius [0],
    below the core. *)
Theorem updateRadialDisc_userdefined_core :
  match GRM.configureDescriptor (GRM.mkDiscInput 1 1 [2] [0] None) with
  | Ok d =>
      let g :=
        GRM.updateRadialDisc d [GRM.UserDefined] (fun _ => 2%R) (fun _ => 1%R)
          [1%R; (1 / 2)%R; 0%R]
          (GRM.mkGeometry (fun _ => 0%R) (fun _ => 0%R) (fun _ => 0%R) (fun _ => 0%R)) in
      GRM.nParType d = 1 /\ GRM.nParCell d 0 = 2
      /\ GRM.nParCellsBeforeType d 0 = 0
      /\ rsum (fun s => GRM.parCellSize g (0 + s)) 2 = 2%R
      /\ innerRadius g 1 = 0%R
      /\ ~ geometry_ok g 0 2 1%R 2%R
  | Throw _ => False
  end.
Proof.
  destruct (GRM.configureDescriptor _) as [d|f] eqn:H; [|discriminate].
  assert (Hd : GRM.nParType d = 1 /\ GRM.nParCell d 0 = 2
               /\ GRM.nParCellsBeforeType d 0 = 0).
  { injection H as <-. vm_compute. auto. }
  destruct Hd as (Hnpt & Hn & Hoff).
  cbv zeta. unfold GRM.updateRadialDisc. rewrite Hnpt.
  rewrite (for_range_one _ 0).
  change (vget GRM.Equidistant [GRM.UserDefined] 0) with GRM.UserDefined.
  cbv iota beta.
  set (g0 := GRM.mkGeometry _ _ _ _).
  assert (Hv : vsize (GRM.slice [1%R; (1 / 2)%R; 0%R]
                        (UInt.add (GRM.nParCellsBeforeType d 0) 0)
                        (GRM.nParCell d 0 + 1))
               = GRM.nParCell d 0 + 1).
  { rewrite Hn, Hoff. reflexivity. }
  pose proof (userdefined_parCellSize_sum d (fun _ => 2%R) (fun _ => 1%R)
                [1%R; (1 / 2)%R; 0%R] 0 g0 ltac:(lia) Hv) as Hsum.
  pose proof (userdefined_innermost_face d (fun _ => 2%R) (fun _ => 1%R)
                [1%R; (1 / 2)%R; 0%R] 0 g0 ltac:(lia) Hv) as Hin.
  rewrite Hn, Hoff in Hsum, Hin. cbv beta in Hsum.
  repeat split; auto.
  intros (Hs & _ & _). rewrite Hsum in Hs. lra.
Qed.

(** ** Surface diffusion flags *)

(** C6, at two components with one bound state each.  The surface diffusion
    coefficients of the only particle type are [0; 5]: the second one is
    not zero, yet the type is marked as having no surface diffusion, because
    the scan runs over [nBound[0] = 1] coefficients and not over
    [strideBound[0] = 2]; the upper bandwidth then lacks the
    [strideBound[0]] entries of the surface diffusion band. *)
Theorem detectSurfaceDiffusion_misses_coefficient :
  match GRM.configureDescriptor (GRM.mkDiscInput 2 1 [1] [1; 1] None) with
  | Ok d =>
      let surfDiff := [0%R; 5%R] in
      let has := GRM.detectSurfaceDiffusion d (Some true) (Some surfDiff) [] in
      GRM.nParType d = 1 /\ GRM.strideBound d 0 = 2 /\ GRM.nBound d 0 = 1
      /\ GRM.nBoundBeforeType d 0 = 0
      /\ vget 0%R surfDiff (GRM.nBoundBeforeType d 0 + 1) <> 0%R
      /\ has = [false]
      /\ GRM.upperBandwidth d has 0 = GRM.lowerBandwidth d 0
  | Throw _ => False
  end.
Proof.
  destruct (GRM.configureDescriptor _) as [d|f] eqn:H; [|discriminate].
  assert (Hd : GRM.nParType d = 1 /\ GRM.strideBound d 0 = 2
               /\ GRM.nBound d 0 = 1 /\ GRM.nBoundBeforeType d 0 = 0
               /\ GRM.nComp d = 2).
  { injection H as <-. vm_compute. auto 6. }
  destruct Hd as (Hnpt & Hsb & Hnb & Hbt & Hnc).
  cbv zeta.
  assert (Hhas : GRM.detectSurfaceDiffusion d (Some true) (Some [0%R; 5%R]) []
                 = [false]).
  { unfold GRM.detectSurfaceDiffusion. rewrite Hnpt.
    rewrite (for_range_one _ 0). rewrite Hnb, Hbt.
    unfold for_range_break.
    change (Z.to_nat (1 - 0)) with 1%nat. cbn [for_count_break].
    change (vget 0%R [0%R; 5%R] (UInt.add 0 0)) with 0%R.
    change (GRM.resize [] 1 false) with [false].
    destruct (Req_dec_T 0 0) as [_|Hne]; [reflexivity|now elim Hne]. }
  rewrite Hhas, Hbt.
  repeat split; auto.
  - change (vget 0%R [0%R; 5%R] (0 + 1)) with 5%R. lra.
  - unfold GRM.upperBandwidth, GRM.lowerBandwidth. rewrite Hnc, Hsb. reflexivity.
Qed.

(** ** The particle residual *)

Lemma write_window_get (v : GRM.vec) (pos len : Z) (w : GRM.vec) (j : Z) :
  GRM.write_window v pos len w j
  = if (pos <=? j) && (j <? pos + len) then w (j - pos) else v j.
Proof.
  unfold GRM.write_window. destruct (Z_le_gt_dec 0 len) as [Hle|Hgt].
  - apply (for_range_inv
             (fun k v' => v' j = if (pos <=? j) && (j <? pos + k)
                                 then w (j - pos) else v j)).
    + exact Hle.
    + destruct (pos <=? j) eqn:E1, (j <? pos + 0) eqn:E2; try reflexivity; lia.
    + intros k v' Hk IH. unfold upd.
      destruct (Z.eqb_spec j (pos + k)) as [->|Hne].
      * replace (pos + k - pos) with k by lia.
        destruct (pos <=? pos + k) eqn:E1, (pos + k <? pos + (k + 1)) eqn:E2;
          try reflexivity; lia.
      * rewrite IH.
        destruct (pos <=? j) eqn:E1, (j <? pos + k) eqn:E2,
                 (j <? pos + (k + 1)) eqn:E3; try reflexivity; lia.
  - rewrite for_range_nil by lia.
    destruct (pos <=? j) eqn:E1, (j <? pos + len) eqn:E2; try reflexivity; lia.
Qed.

(** A loop that keeps adding to one entry. *)
Lemma accumulate_get (f : Z -> R) (pos n : Z) (res : GRM.vec) (j : Z) :
  for_range 0 n (fun i res' => upd res' pos (res' pos + f i)%R) res j
  = if j =? pos then (res pos + rsum f n)%R else res j.
Proof.
  destruct (Z_le_gt_dec 0 n) as [Hle|Hgt].
  - apply (for_range_inv
             (fun k res' => res' j = if j =? pos then (res pos + rsum f k)%R
                                     else res j)).
    + exact Hle.
    + unfold rsum. rewrite for_range_nil by lia.
      destruct (j =? pos) eqn:E; [apply Z.eqb_eq in E; subst; lra|reflexivity].
    + intros k res' Hk IH. unfold upd.
      destruct (Z.eqb_spec j pos) as [->|Hne].
      * rewrite rsum_succ by lia. rewrite IH. lra.
      * exact IH.
  - rewrite for_range_nil by lia. unfold rsum. rewrite for_range_nil by lia.
    destruct (j =? pos) eqn:E; [apply Z.eqb_eq in E; subst; lra|reflexivity].
Qed.

Lemma accumulate_sub_get (f : Z -> R) (pos n : Z) (res : GRM.vec) (j : Z) :
  for_range 0 n (fun i res' => upd res' pos (res' pos - f i)%R) res j
  = if j =? pos then (res pos - rsum f n)%R else res j.
Proof.
  destruct (Z_le_gt_dec 0 n) as [Hle|Hgt].
  - apply (for_range_inv
             (fun k res' => res' j = if j =? pos then (res pos - rsum f k)%R
                                     else res j)).
    + exact Hle.
    + unfold rsum. rewrite for_range_nil by lia.
      destruct (j =? pos) eqn:E; [apply Z.eqb_eq in E; subst; lra|reflexivity].
    + intros k res' Hk IH. unfold upd.
      destruct (Z.eqb_spec j pos) as [->|Hne].
      * rewrite rsum_succ by lia. rewrite IH. lra.
      * exact IH.
  - rewrite for_range_nil by lia. unfold rsum. rewrite for_range_nil by lia.
    destruct (j =? pos) eqn:E; [apply Z.eqb_eq in E; subst; lra|reflexivity].
Qed.

Lemma rsum_opp (f : Z -> R) (n : Z) :
  rsum (fun i => (- f i)%R) n = (- rsum f n)%R.
Proof.
  destruct (Z_le_gt_dec 0 n) as [Hle|Hgt].
  - pattern n. apply natlike_ind; [|intros k Hk IH|exact Hle].
    + unfold rsum. rewrite !for_range_nil by lia. lra.
    + unfold Z.succ. rewrite !rsum_succ, IH by lia. lra.
  - unfold rsum. rewrite !for_range_nil by lia. lra.
Qed.

Section MobilePhase.
Variable m : GRM.Model.
Variables secIdx parType : Z.
Variable y : GRM.vec.

Let d := GRM.disc m.
Let n := GRM.nParCell d parType.
Let stride := GRM.Indexer.strideParShell d parType.

Lemma mobilePhaseTransport_other (par comp pos : Z) (res : GRM.vec) (j : Z) :
  j <> pos ->
  GRM.mobilePhaseTransport m secIdx parType par comp y pos res j = res j.
Proof.
  intros Hj. unfold GRM.mobilePhaseTransport. cbv zeta.
  assert (Hacc : forall (f : Z -> GRM.vec -> R) nb (r0 : GRM.vec), j <> pos ->
            for_range 0 nb (fun i res' => upd res' pos (f i res')) r0 j = r0 j).
  { intros f nb r0 _. apply (for_range_preserves (fun r' => r' j = r0 j)).
    - reflexivity.
    - intros i r' _ Hr'. now rewrite upd_other. }
  destruct (negb (par =? UInt.sub _ 1)), (negb (par =? 0)),
           (vget false (GRM.hasSurfaceDiffusion m) parType);
    repeat first [ rewrite Hacc by exact Hj | rewrite upd_other by exact Hj ];
    reflexivity.
Qed.

Hypothesis Hn : 1 <= n < UInt.modulus.

Lemma mobilePhaseTransport_at (par comp pos : Z) (res : GRM.vec) :
  0 <= par < n ->
  GRM.mobilePhaseTransport m secIdx parType par comp y pos res pos
  = (res pos
     + (if 0 <? par then outerFaceFlux m secIdx parType par comp y pos else 0)
     + (if par <? n - 1 then innerFaceFlux m secIdx parType par comp y pos else 0)
     + surfaceDiffusionFlux m secIdx parType par comp y pos)%R.
Proof.
  intros Hpar. unfold GRM.mobilePhaseTransport. cbv zeta.
  fold d. fold n.
  replace (UInt.sub n 1) with (n - 1)
    by (unfold UInt.sub; now rewrite wrap_small by lia).
  unfold surfaceDiffusionFlux, outerFaceFlux, innerFaceFlux. cbv zeta.
  fold d. fold n.
  destruct (Z.eqb_spec par 0) as [E0|E0];
    destruct (Z.eqb_spec par (n - 1)) as [E1|E1];
    destruct (Z.ltb_spec 0 par) as [L0|L0]; try lia;
    destruct (Z.ltb_spec par (n - 1)) as [L1|L1]; try lia;
    cbn [negb];
    destruct (vget false (GRM.hasSurfaceDiffusion m) parType).
  all: try replace (UInt.sub par 1) with (par - 1)
         by (unfold UInt.sub; now rewrite wrap_small by lia).
  all: try replace (UInt.add par 1) with (par + 1)
         by (unfold UInt.add; now rewrite wrap_small by lia).
  all: rewrite ?accumulate_get, ?accumulate_sub_get, ?Z.eqb_refl, ?upd_same.
  all: rewrite ?accumulate_get, ?accumulate_sub_get, ?Z.eqb_refl, ?upd_same.
  all: try (unfold Rdiv; ring).
Qed.

Lemma solidPhaseTransport_other (par bnd pos : Z) (res : GRM.vec) (j : Z) :
  j <> pos ->
  GRM.solidPhaseTransport m secIdx parType par bnd y pos res j = res j.
Proof.
  intros Hj. unfold GRM.solidPhaseTransport. cbv zeta.
  destruct (negb (GRM.reactionQuasiStationarity _ bnd =? 0)); [reflexivity|].
  destruct (negb (par =? UInt.sub _ 1)), (negb (par =? 0));
    repeat rewrite upd_other by exact Hj; reflexivity.
Qed.

(** The mobile phase terms of component [comp] of shell [par]. *)
Let fluxes (par comp row : Z) : R :=
  ((if 0 <? par then outerFaceFlux m secIdx parType par comp y row else 0)
   + (if par <? n - 1 then innerFaceFlux m secIdx parType par comp y row else 0)
   + surfaceDiffusionFlux m secIdx parType par comp y row)%R.

Lemma mobile_loop (par pos0 pd : Z) (res : GRM.vec) :
  0 <= par < n -> 0 <= GRM.nComp d ->
  let c1 :=
    for_range 0 (GRM.nComp d)
      (fun comp c' =>
         GRM.mkParticleCursor
           (GRM.mobilePhaseTransport m secIdx parType par comp y
              (GRM.pc_pos c') (GRM.pc_res c'))
           (GRM.pc_pos c' + 1) (GRM.pc_posDot c'))
      (GRM.mkParticleCursor res pos0 pd) in
  GRM.pc_pos c1 = pos0 + GRM.nComp d
  /\ GRM.pc_posDot c1 = pd
  /\ (forall comp, 0 <= comp < GRM.nComp d ->
        GRM.pc_res c1 (pos0 + comp)
        = (res (pos0 + comp)%Z + fluxes par comp (pos0 + comp))%R)
  /\ (forall j, ~ pos0 <= j < pos0 + GRM.nComp d -> GRM.pc_res c1 j = res j).
Proof.
  intros Hpar Hnc. cbv zeta.
  cut (let c1 := for_range 0 (GRM.nComp d)
      (fun comp c' =>
         GRM.mkParticleCursor
           (GRM.mobilePhaseTransport m secIdx parType par comp y
              (GRM.pc_pos c') (GRM.pc_res c'))
           (GRM.pc_pos c' + 1) (GRM.pc_posDot c'))
      (GRM.mkParticleCursor res pos0 pd) in
    GRM.pc_pos c1 = pos0 + GRM.nComp d
    /\ GRM.pc_posDot c1 = pd
    /\ (forall comp, 0 <= comp < GRM.nComp d ->
          GRM.pc_res c1 (pos0 + comp)
          = (res (pos0 + comp)%Z + fluxes par comp (pos0 + comp))%R)
    /\ (forall j, ~ pos0 <= j < pos0 + GRM.nComp d -> GRM.pc_res c1 j = res j)
    /\ (forall j, pos0 + GRM.nComp d <= j -> GRM.pc_res c1 j = res j)).
  { cbv zeta. intros (H1 & H2 & H3 & H4 & _). auto. }
  cbv zeta.
  apply (for_range_inv
           (fun k c1 =>
              GRM.pc_pos c1 = pos0 + k
              /\ GRM.pc_posDot c1 = pd
              /\ (forall comp, 0 <= comp < k ->
                    GRM.pc_res c1 (pos0 + comp)
                    = (res (pos0 + comp)%Z + fluxes par comp (pos0 + comp))%R)
              /\ (forall j, ~ pos0 <= j < pos0 + k -> GRM.pc_res c1 j = res j)
              /\ (forall j, pos0 + k <= j -> GRM.pc_res c1 j = res j))).
  - exact Hnc.
  - cbn. repeat split; try lia; auto.
  - intros k c1 Hk (Hp & Hd & Hin & Hout & Hhi).
    cbn [GRM.pc_pos GRM.pc_posDot GRM.pc_res]. rewrite Hp.
    split; [lia|]. split; [exact Hd|]. split; [|split].
    + intros comp Hc. destruct (Z.eq_dec comp k) as [->|Hne].
      * rewrite mobilePhaseTransport_at by exact Hpar.
        rewrite (Hhi (pos0 + k)) by lia. unfold fluxes. lra.
      * rewrite mobilePhaseTransport_other by lia. apply Hin. lia.
    + intros j Hj. rewrite mobilePhaseTransport_other by lia. apply Hout. lia.
    + intros j Hj. rewrite mobilePhaseTransport_other by lia. apply Hhi. lia.
Qed.

Lemma solid_loop (par : Z) (c1 : GRM.ParticleCursor) :
  0 <= GRM.strideBound d parType ->
  let c2 :=
    for_range 0 (GRM.strideBound d parType)
      (fun bnd c' =>
         GRM.mkParticleCursor
           (GRM.solidPhaseTransport m secIdx parType par bnd y
              (GRM.pc_pos c') (GRM.pc_res c'))
           (GRM.pc_pos c' + 1) (GRM.pc_posDot c'))
      c1 in
  GRM.pc_pos c2 = GRM.pc_pos c1 + GRM.strideBound d parType
  /\ GRM.pc_posDot c2 = GRM.pc_posDot c1
  /\ (forall j, ~ GRM.pc_pos c1 <= j < GRM.pc_pos c1 + GRM.strideBound d parType ->
        GRM.pc_res c2 j = GRM.pc_res c1 j).
Proof.
  intros Hsb. cbv zeta.
  apply (for_range_inv
           (fun k c2 =>
              GRM.pc_pos c2 = GRM.pc_pos c1 + k
              /\ GRM.pc_posDot c2 = GRM.pc_posDot c1
              /\ (forall j, ~ GRM.pc_pos c1 <= j < GRM.pc_pos c1 + k ->
                    GRM.pc_res c2 j = GRM.pc_res c1 j))).
  - exact Hsb.
  - repeat split; try lia.
  - intros k c2 Hk (Hp & Hd & Hout).
    cbn [GRM.pc_pos GRM.pc_posDot GRM.pc_res]. rewrite Hp.
    split; [lia|]. split; [exact Hd|].
    intros j Hj. rewrite solidPhaseTransport_other by lia. apply Hout. lia.
Qed.
End MobilePhase.

Section ParticleResidual.
Variable m : GRM.Model.
Variable t : R.
Variables parType colCell secIdx : Z.
Variable y : GRM.vec.
Variable yDot : option GRM.vec.

Let d := GRM.disc m.
Let n := GRM.nParCell d parType.
Let stride := GRM.Indexer.strideParShell d parType.

Hypothesis Hn : 1 <= n < UInt.modulus.
Hypothesis Hnc : 0 <= GRM.nComp d.
Hypothesis Hsb : 0 <= GRM.strideBound d parType.

Lemma residualShell_spec (par : Z) (c : GRM.ParticleCursor) :
  0 <= par < n ->
  let c' := GRM.residualShell m t parType colCell secIdx y yDot par c in
  let K :=
    GRM.residualKernel (GRM.kernels m) t secIdx
      (GRM.mkColumnPosition ((0.5 + IZR colCell) / IZR (GRM.nCol d))%R 0%R
         (GRM.parCenterRadius (GRM.geometry m)
            (GRM.nParCellsBeforeType d parType + par)
          / GRM.parRadius m parType)%R)
      parType (GRM.window y (GRM.pc_pos c))
      (option_map (fun yd => GRM.window yd (GRM.pc_posDot c)) yDot)
      (GRM.clip (GRM.window (GRM.pc_res c) (GRM.pc_pos c)) stride) in
  GRM.pc_pos c' = GRM.pc_pos c + stride
  /\ GRM.pc_posDot c' = GRM.pc_posDot c + stride
  /\ (forall comp, 0 <= comp < GRM.nComp d ->
        GRM.pc_res c' (GRM.pc_pos c + comp)
        = (K comp
           + (if 0 <? par
              then outerFaceFlux m secIdx parType par comp y (GRM.pc_pos c + comp)
              else 0)
           + (if par <? n - 1
              then innerFaceFlux m secIdx parType par comp y (GRM.pc_pos c + comp)
              else 0)
           + surfaceDiffusionFlux m secIdx parType par comp y (GRM.pc_pos c + comp))%R)
  /\ (forall j, ~ GRM.pc_pos c <= j < GRM.pc_pos c + stride ->
        GRM.pc_res c' j = GRM.pc_res c j).
Proof.
  intros Hpar. cbv zeta. unfold GRM.residualShell. cbv zeta.
  fold d. fold stride.
  set (K := GRM.residualKernel _ _ _ _ _ _ _ _).
  set (resK := GRM.write_window _ _ _ K).
  assert (Hstride : stride = GRM.nComp d + GRM.strideBound d parType)
    by reflexivity.
  destruct (mobile_loop m secIdx parType y Hn par (GRM.pc_pos c)
              (GRM.pc_posDot c) resK Hpar Hnc) as (Hp1 & Hd1 & Hin1 & Hout1).
  fold d in Hp1, Hd1, Hin1, Hout1. fold n in Hin1.
  set (c1 := for_range 0 (GRM.nComp d) _ _) in *.
  assert (HK : forall comp, 0 <= comp < GRM.nComp d ->
            resK (GRM.pc_pos c + comp) = K comp).
  { intros comp Hc. unfold resK. rewrite write_window_get.
    replace (GRM.pc_pos c + comp - GRM.pc_pos c) with comp by lia.
    destruct (GRM.pc_pos c <=? GRM.pc_pos c + comp) eqn:E1,
             (GRM.pc_pos c + comp <? GRM.pc_pos c + stride) eqn:E2;
      try reflexivity; lia. }
  assert (HKout : forall j, ~ GRM.pc_pos c <= j < GRM.pc_pos c + stride ->
            resK j = GRM.pc_res c j).
  { intros j Hj. unfold resK. rewrite write_window_get.
    destruct (GRM.pc_pos c <=? j) eqn:E1,
             (j <? GRM.pc_pos c + stride) eqn:E2; try reflexivity; lia. }
  destruct (vget false (GRM.hasSurfaceDiffusion m) parType
            && GRM.hasDynamicReactions (GRM.binding m parType)).
  - destruct (solid_loop m secIdx parType y par c1 Hsb) as (Hp2 & Hd2 & Hout2).
    fold d in Hp2, Hd2, Hout2.
    set (c2 := for_range 0 (GRM.strideBound d parType) _ c1) in *.
    cbn [GRM.pc_pos GRM.pc_posDot GRM.pc_res].
    split; [lia|]. split; [lia|]. split.
    + intros comp Hc. rewrite Hout2 by lia. rewrite Hin1 by lia.
      rewrite HK by lia. lra.
    + intros j Hj. rewrite Hout2 by lia. rewrite Hout1 by lia.
      apply HKout. exact Hj.
  - cbn [GRM.pc_pos GRM.pc_posDot GRM.pc_res].
    unfold GRM.Indexer.strideParBound. fold d.
    split; [lia|]. split; [lia|]. split.
    + intros comp Hc. rewrite Hin1 by lia. rewrite HK by lia. lra.
    + intros j Hj. rewrite Hout1 by lia. apply HKout. exact Hj.
Qed.

Variable resBase : GRM.vec.
Let base := GRM.Indexer.offsetCpBlock d parType colCell.

Lemma residualParticle_rows (s c : Z) :
  0 <= s < n -> 0 <= c < GRM.nComp d ->
  let row := base + s * stride + c in
  snd (GRM.residualParticle m t parType colCell secIdx y yDot resBase) row
  = (cellKernelResidual m t parType colCell secIdx y yDot resBase s c
     + (if 0 <? s then outerFaceFlux m secIdx parType s c y row else 0)
     + (if s <? n - 1 then innerFaceFlux m secIdx parType s c y row else 0)
     + surfaceDiffusionFlux m secIdx parType s c y row)%R.
Proof.
  intros Hs Hc. cbv zeta. unfold GRM.residualParticle. cbv zeta.
  cbn [snd]. fold d. fold n. fold base.
  revert s c Hs Hc.
  cut (let cur := for_range 0 n
                    (GRM.residualShell m t parType colCell secIdx y yDot)
                    (GRM.mkParticleCursor resBase base base) in
       GRM.pc_pos cur = base + n * stride
       /\ GRM.pc_posDot cur = base + n * stride
       /\ (forall s c, 0 <= s < n -> 0 <= c < GRM.nComp d ->
             GRM.pc_res cur (base + s * stride + c)
             = (cellKernelResidual m t parType colCell secIdx y yDot resBase s c
                + (if 0 <? s
                   then outerFaceFlux m secIdx parType s c y (base + s * stride + c)
                   else 0)
                + (if s <? n - 1
                   then innerFaceFlux m secIdx parType s c y (base + s * stride + c)
                   else 0)
                + surfaceDiffusionFlux m secIdx parType s c y
                    (base + s * stride + c))%R)
       /\ (forall j, base + n * stride <= j -> GRM.pc_res cur j = resBase j)).
  { cbv zeta. intros (_ & _ & H & _). exact H. }
  cbv zeta.
  assert (Hst : GRM.nComp d <= stride)
    by (unfold stride, GRM.Indexer.strideParShell, GRM.Indexer.strideParLiquid,
          GRM.Indexer.strideParBound; fold d; lia).
  apply (for_range_inv
           (fun k cur =>
              GRM.pc_pos cur = base + k * stride
              /\ GRM.pc_posDot cur = base + k * stride
              /\ (forall s c, 0 <= s < k -> 0 <= c < GRM.nComp d ->
                    GRM.pc_res cur (base + s * stride + c)
                    = (cellKernelResidual m t parType colCell secIdx y yDot resBase s c
                       + (if 0 <? s
                          then outerFaceFlux m secIdx parType s c y
                                 (base + s * stride + c)
                          else 0)
                       + (if s <? n - 1
                          then innerFaceFlux m secIdx parType s c y
                                 (base + s * stride + c)
                          else 0)
                       + surfaceDiffusionFlux m secIdx parType s c y
                           (base + s * stride + c))%R)
              /\ (forall j, base + k * stride <= j ->
                    GRM.pc_res cur j = resBase j))).
  - lia.
  - cbn. repeat split; try lia.
  - intros k cur Hk (Hp & Hd & Hin & Hhi).
    destruct (residualShell_spec k cur Hk) as (Hp' & Hd' & Hin' & Hout').
    split; [rewrite Hp', Hp; ring|]. split; [rewrite Hd', Hd; ring|].
    split.
    + intros s c Hs Hc. destruct (Z.eq_dec s k) as [->|Hne].
      * replace (base + k * stride + c) with (GRM.pc_pos cur + c) by lia.
        rewrite Hin' by exact Hc. rewrite Hp, Hd.
        unfold cellKernelResidual. cbv zeta. fold d. fold stride. fold base.
        replace (GRM.clip (GRM.window (GRM.pc_res cur) (base + k * stride)) stride)
          with (GRM.clip (GRM.window resBase (base + k * stride)) stride).
        { reflexivity. }
        apply functional_extensionality. intros i.
        unfold GRM.clip, GRM.window.
        destruct ((0 <=? i) && (i <? stride)) eqn:E; [|reflexivity].
        symmetry. apply Hhi. lia.
      * assert (s * stride + c < k * stride) by nia.
        rewrite Hout' by lia. apply Hin; lia.
    + intros j Hj. rewrite Hout' by nia. apply Hhi. nia.
Qed.
End ParticleResidual.

(** ** The coefficients by their indices *)

Lemma getSectionDependentSlice_coefficientAt (data : list R)
    (d : GRM.Discretization) (secIdx t c : Z) :
  0 <= t < GRM.nParType d -> 0 <= c < GRM.nComp d ->
  GRM.nComp d * GRM.nParType d < UInt.modulus ->
  GRM.getSectionDependentSlice data
    (UInt.mul (GRM.nComp d) (GRM.nParType d)) secIdx
    (UInt.mul t (GRM.nComp d) + c)
  = coefficientAt data d secIdx t c.
Proof.
  intros Ht Hc Hfit.
  assert (E1 : UInt.mul (GRM.nComp d) (GRM.nParType d)
               = GRM.nComp d * GRM.nParType d)
    by (unfold UInt.mul; apply wrap_small; nia).
  assert (E2 : UInt.mul t (GRM.nComp d) = t * GRM.nComp d)
    by (unfold UInt.mul; apply wrap_small; nia).
  unfold GRM.getSectionDependentSlice, coefficientAt.
  rewrite E1, E2. reflexivity.
Qed.

Lemma parDiff_coefficientAt (m : GRM.Model) (secIdx t c : Z) :
  0 <= t < GRM.nParType (GRM.disc m) -> 0 <= c < GRM.nComp (GRM.disc m) ->
  GRM.nComp (GRM.disc m) * GRM.nParType (GRM.disc m) < UInt.modulus ->
  GRM.parDiff m secIdx t c
  = coefficientAt (GRM.parDiffusion m) (GRM.disc m) secIdx t c.
Proof.
  intros Ht Hc Hfit. unfold GRM.parDiff.
  now apply getSectionDependentSlice_coefficientAt.
Qed.

Lemma filmDiff_coefficientAt (m : GRM.Model) (secIdx t c : Z) :
  0 <= t < GRM.nParType (GRM.disc m) -> 0 <= c < GRM.nComp (GRM.disc m) ->
  GRM.nComp (GRM.disc m) * GRM.nParType (GRM.disc m) < UInt.modulus ->
  GRM.filmDiff m secIdx t c
  = coefficientAt (GRM.filmDiffusion m) (GRM.disc m) secIdx t c.
Proof.
  intros Ht Hc Hfit. unfold GRM.filmDiff.
  now apply getSectionDependentSlice_coefficientAt.
Qed.

Lemma filmCoefficientFV_byIndex (m : GRM.Model) (secIdx t c : Z) :
  0 <= t < GRM.nParType (GRM.disc m) -> 0 <= c < GRM.nComp (GRM.disc m) ->
  GRM.nComp (GRM.disc m) * GRM.nParType (GRM.disc m) < UInt.modulus ->
  filmCoefficientFV m secIdx t c = filmCoefficientByIndex m secIdx t c.
Proof.
  intros Ht Hc Hfit. unfold filmCoefficientFV, filmCoefficientByIndex.
  cbv zeta.
  rewrite parDiff_coefficientAt, filmDiff_coefficientAt by assumption.
  reflexivity.
Qed.

(** C1.  In the residual of the particle [(t, k)], the mobile phase entry of
    component [c] in shell [s] holds what the cell kernel left there, the
    radial diffusion through the outer face
    [- a_out * D_p * (y[s-1,c] - y[s,c]) / (r_{s-1} - r_s)] exactly when
    [s > 0], the radial diffusion through the inner face
    [+ a_in * D_p * (y[s,c] - y[s+1,c]) / (r_s - r_{s+1})] exactly when
    [s < nParCell[t] - 1], and the surface diffusion of the bound states of
    the component.  [D_p] is the entry of [PAR_DIFFUSION] for the section,
    the particle type [t] and the component [c]; [a_out], [a_in] and the
    centres [r] are those of the shell in the geometry arrays; [y[s-1,c]]
    and [y[s+1,c]] lie one shell stride before and behind the entry. *)
Theorem residualParticle_radial_diffusion
    (p : GRM.DiscretizationInput) (m : GRM.Model) (time : R)
    (t k secIdx : Z) (y : GRM.vec) (yDot : option GRM.vec) (resBase : GRM.vec)
    (s c : Z) :
  GRM.configureDescriptor p = Ok (GRM.disc m) ->
  GRM.nComp (GRM.disc m) * GRM.nParType (GRM.disc m) < UInt.modulus ->
  0 <= t < GRM.nParType (GRM.disc m) ->
  0 <= s < GRM.nParCell (GRM.disc m) t ->
  0 <= c < GRM.nComp (GRM.disc m) ->
  let d := GRM.disc m in
  let stride := GRM.Indexer.strideParShell d t in
  let row := GRM.Indexer.offsetCpBlock d t k + s * stride + c in
  let off := GRM.nParCellsBeforeType d t in
  let a_out := GRM.parOuterSurfAreaPerVolume (GRM.geometry m) (off + s) in
  let a_in := GRM.parInnerSurfAreaPerVolume (GRM.geometry m) (off + s) in
  let r := fun i => GRM.parCenterRadius (GRM.geometry m) (off + i) in
  let D_p := coefficientAt (GRM.parDiffusion m) d secIdx t c in
  snd (GRM.residualParticle m time t k secIdx y yDot resBase) row
  = (cellKernelResidual m time t k secIdx y yDot resBase s c
     + (if 0 <? s
        then - (a_out * D_p * (y (row - stride)%Z - y row) / (r (s - 1)%Z - r s))
        else 0)
     + (if s <? GRM.nParCell d t - 1
        then a_in * D_p * (y row - y (row + stride)%Z) / (r s - r (s + 1)%Z)
        else 0)
     + surfaceDiffusionFlux m secIdx t s c y row)%R.
Proof.
  intros Hcfg Hfit Ht Hs Hc. cbv zeta.
  destruct (configured_ranges p _ Hcfg) as (Hnc & _ & _ & Hpc & _ & Hsb).
  specialize (Hpc t). specialize (Hsb t).
  rewrite <- (parDiff_coefficientAt m secIdx t c Ht Hc Hfit).
  apply residualParticle_rows; lia.
Qed.

(** One component, one axial cell, two particle types with two shells each
    and no bound state; [PAR_DIFFUSION] is [3] for the first type and [5]
    for the second.  The inner shell of the second type has the outer face
    term, with the coefficient [5], and no inner face term. *)
Lemma residualParticle_radial_diffusion_witness :
  exists d,
    GRM.configureDescriptor (GRM.mkDiscInput 1 1 [2; 2] [0; 0] None) = Ok d
    /\ let m :=
         GRM.mkModel d 1%R (fun _ => 1%R) (fun _ => 0%R) (fun _ => 1%R)
           (fun _ => (1 / 2)%R) [1%R; 1%R] [3%R; 5%R] [] (fun _ => 1%R)
           [false; false]
           (GRM.mkGeometry (fun _ => 1%R) (fun i => (4 - IZR i)%R)
              (fun _ => 1%R) (fun _ => 1%R))
           (fun _ => GRM.mkBindingModel (fun _ => 0) false) None
           (GRM.mkConvDispOp (fun _ _ _ _ res => (0, res)) (fun _ _ _ ret => ret)
              1%R 1%R (fun _ _ => false) (fun _ _ => 1%R))
           (GRM.mkCellKernels (fun _ _ _ _ _ _ _ _ => 0%R) (fun _ _ _ ret => ret)) in
       let y : GRM.vec := fun i => IZR i in
       coefficientAt (GRM.parDiffusion m) d 0 1 0 = 5%R
       /\ GRM.Indexer.offsetCpBlock d 1 0 + 1 * GRM.Indexer.strideParShell d 1 + 0
          = 5
       /\ snd (GRM.residualParticle m 0%R 1 0 0 y None (fun _ => 0%R)) 5
          = (cellKernelResidual m 0%R 1 0 0 y None (fun _ => 0%R) 1 0%Z
             + - (GRM.parOuterSurfAreaPerVolume (GRM.geometry m) (2 + 1)%Z
                  * 5 * (y 4%Z - y 5%Z)
                  / (GRM.parCenterRadius (GRM.geometry m) (2 + 0)%Z
                     - GRM.parCenterRadius (GRM.geometry m) (2 + 1)%Z))
             + 0
             + surfaceDiffusionFlux m 0 1 1 0 y 5)%R.
Proof.
  eexists. split; [reflexivity|]. intros m y.
  split; [reflexivity|]. split; [reflexivity|].
  assert (Hfit : GRM.nComp (GRM.disc m) * GRM.nParType (GRM.disc m)
                 < UInt.modulus) by (vm_compute; reflexivity).
  assert (Ht : 0 <= 1 < GRM.nParType (GRM.disc m))
    by (vm_compute; split; [discriminate|reflexivity]).
  assert (Hs : 0 <= 1 < GRM.nParCell (GRM.disc m) 1)
    by (vm_compute; split; [discriminate|reflexivity]).
  assert (Hc : 0 <= 0 < GRM.nComp (GRM.disc m))
    by (vm_compute; split; [discriminate|reflexivity]).
  exact (residualParticle_radial_diffusion
           (GRM.mkDiscInput 1 1 [2; 2] [0; 0] None) m 0%R 1 0 0 y None
           (fun _ => 0%R) 1 0 eq_refl Hfit Ht Hs Hc).
Defined.

(** ** Loops that scatter into a vector *)

Lemma for_range_ext {S : Type} (body body' : Z -> S -> S) (lo hi : Z) (s : S) :
  (forall i s', lo <= i < hi -> body i s' = body' i s') ->
  for_range lo hi body s = for_range lo hi body' s.
Proof.
  intros H. destruct (Z_le_gt_dec lo hi) as [Hle|Hgt].
  - apply (for_range_inv (fun k s' => s' = for_range lo k body' s)).
    + exact Hle.
    + now rewrite for_range_nil by lia.
    + intros i s' Hi ->. rewrite for_range_succ_r by lia. now apply H.
  - now rewrite !for_range_nil by lia.
Qed.

Lemma sub_at_add_at (v : GRM.vec) (i : Z) (x : R) :
  GRM.sub_at v i x = GRM.add_at v i (- x)%R.
Proof. reflexivity. Qed.

Lemma add_at_same (v : GRM.vec) (i : Z) (x : R) :
  GRM.add_at v i x i = (v i + x)%R.
Proof. unfold GRM.add_at. apply upd_same. Qed.

Lemma add_at_other (v : GRM.vec) (i j : Z) (x : R) :
  j <> i -> GRM.add_at v i x j = v j.
Proof. intros H. unfold GRM.add_at. now apply upd_other. Qed.

Section Scatter.
Variable idx : Z -> Z.
Variable val : Z -> R.
Variable n : Z.
Variable res : GRM.vec.

Let out := for_range 0 n (fun i r => GRM.add_at r (idx i) (val i)) res.

Lemma scatter_frame (j : Z) :
  (forall i, 0 <= i < n -> idx i <> j) -> out j = res j.
Proof.
  intros H. unfold out. destruct (Z_le_gt_dec 0 n) as [Hle|Hgt].
  - cut (forall k, 0 <= k <= n ->
           for_range 0 k (fun i r => GRM.add_at r (idx i) (val i)) res j = res j).
    { intros G. apply G. lia. }
    intros k Hk. apply (for_range_inv (fun _ r => r j = res j)); [lia|reflexivity|].
    intros i r Hi Hr. rewrite add_at_other; [exact Hr|].
    intros E. apply (H i); [lia|now symmetry].
  - now rewrite for_range_nil by lia.
Qed.

Hypothesis idx_inj :
  forall i i', 0 <= i < n -> 0 <= i' < n -> idx i = idx i' -> i = i'.

Lemma scatter_hit (i : Z) :
  0 <= i < n -> out (idx i) = (res (idx i) + val i)%R.
Proof.
  intros Hi. unfold out.
  cut (forall k, 0 <= k <= n ->
         for_range 0 k (fun i r => GRM.add_at r (idx i) (val i)) res (idx i)
         = if i <? k then (res (idx i) + val i)%R else res (idx i)).
  { intros G. rewrite (G n) by lia.
    destruct (Z.ltb_spec i n); [reflexivity|lia]. }
  intros k Hk.
  apply (for_range_inv
           (fun k r => r (idx i)
                       = if i <? k then (res (idx i) + val i)%R else res (idx i))).
  - lia.
  - destruct (Z.ltb_spec i 0); [lia|reflexivity].
  - intros i' r Hi' Hr.
    destruct (Z.eq_dec i i') as [<-|Hne].
    + rewrite add_at_same, Hr.
      destruct (Z.ltb_spec i i); [lia|].
      destruct (Z.ltb_spec i (i + 1)); [reflexivity|lia].
    + rewrite add_at_other.
      * rewrite Hr. destruct (Z.ltb_spec i i'), (Z.ltb_spec i (i' + 1));
          try reflexivity; lia.
      * intros E. apply Hne. apply idx_inj; auto; lia.
Qed.
End Scatter.

Section Scatter2.
Variable idx : Z -> Z -> Z.
Variable val : Z -> Z -> R.
Variables K C : Z.
Variable res : GRM.vec.

Let out :=
  for_range 0 K
    (fun k r => for_range 0 C (fun c r' => GRM.add_at r' (idx k c) (val k c)) r)
    res.

Lemma scatter2_frame (j : Z) :
  (forall k c, 0 <= k < K -> 0 <= c < C -> idx k c <> j) -> out j = res j.
Proof.
  intros H. unfold out.
  apply (for_range_preserves (fun r => r j = res j)); [reflexivity|].
  intros k r Hk Hr. rewrite scatter_frame; [exact Hr|].
  intros c Hc. now apply H.
Qed.

Hypothesis idx_inj :
  forall k c k' c', 0 <= k < K -> 0 <= c < C -> 0 <= k' < K -> 0 <= c' < C ->
    idx k c = idx k' c' -> k = k' /\ c = c'.

Lemma scatter2_hit (k c : Z) :
  0 <= k < K -> 0 <= c < C -> out (idx k c) = (res (idx k c) + val k c)%R.
Proof.
  intros Hk Hc. unfold out.
  cut (forall k0, 0 <= k0 <= K ->
         for_range 0 k0
           (fun k r => for_range 0 C
                         (fun c r' => GRM.add_at r' (idx k c) (val k c)) r)
           res (idx k c)
         = if k <? k0 then (res (idx k c) + val k c)%R else res (idx k c)).
  { intros G. rewrite (G K) by lia.
    destruct (Z.ltb_spec k K); [reflexivity|lia]. }
  intros k0 Hk0.
  apply (for_range_inv
           (fun k0 r => r (idx k c)
                        = if k <? k0 then (res (idx k c) + val k c)%R
                          else res (idx k c))).
  - lia.
  - destruct (Z.ltb_spec k 0); [lia|reflexivity].
  - intros k' r Hk' Hr.
    destruct (Z.eq_dec k k') as [<-|Hne].
    + rewrite (scatter_hit (idx k) (val k) C r).
      * rewrite Hr. destruct (Z.ltb_spec k k); [lia|].
        destruct (Z.ltb_spec k (k + 1)); [reflexivity|lia].
      * intros i i' Hi Hi' E. apply (idx_inj k i k i'); auto.
      * exact Hc.
    + rewrite scatter_frame.
      * rewrite Hr. destruct (Z.ltb_spec k k'), (Z.ltb_spec k (k' + 1));
          try reflexivity; lia.
      * intros c' Hc' E. apply Hne.
        destruct (idx_inj k' c' k c) as [E' _]; auto; lia.
Qed.
End Scatter2.

(** ** The flux residual *)

Section Layout.
Variable d : GRM.Discretization.
Hypothesis L : layout_ok d.

Local Abbreviation nc := (GRM.nComp d).
Local Abbreviation ncol := (GRM.nCol d).
Local Abbreviation npt := (GRM.nParType d).
Local Abbreviation spb := (GRM.Indexer.strideParBlock d).
Local Abbreviation pto := (GRM.parTypeOffset d).

Lemma layout_spb (t : Z) : 0 <= t < npt -> nc <= spb t.
Proof.
  intros Ht. unfold GRM.Indexer.strideParBlock, GRM.Indexer.strideParShell,
    GRM.Indexer.strideParLiquid, GRM.Indexer.strideParBound.
  pose proof (lo_nParCell d L t Ht). pose proof (lo_strideBound d L t).
  pose proof (lo_nComp d L). nia.
Qed.

Lemma layout_pto_mono (t t' : Z) :
  0 <= t -> t <= t' -> t' <= npt -> pto t <= pto t'.
Proof.
  intros Ht Hle Ht'.
  replace t' with (t + (t' - t)) by lia.
  assert (H : 0 <= t' - t) by lia. revert H.
  assert (Hb : t + (t' - t) <= npt) by lia. revert Hb.
  generalize (t' - t). intros k Hb Hk. revert Hb. pattern k.
  apply natlike_ind; [| |exact Hk].
  - intros _. rewrite Z.add_0_r. lia.
  - intros j Hj IH Hb. unfold Z.succ in *.
    replace (t + (j + 1)) with (t + j + 1) by lia.
    rewrite (lo_parTypeOffset d L) by lia.
    pose proof (layout_spb (t + j) ltac:(lia)).
    pose proof (lo_nComp d L). pose proof (lo_nCol d L).
    specialize (IH ltac:(lia)).
    nia.
Qed.

Lemma layout_pto_nonneg (t : Z) : 0 <= t <= npt -> 0 <= pto t.
Proof.
  intros Ht. pose proof (layout_pto_mono 0 t ltac:(lia) ltac:(lia) ltac:(lia)).
  rewrite (lo_parTypeOffset0 d L) in H. exact H.
Qed.

Lemma layout_pto_block (t t' : Z) :
  0 <= t -> t < t' -> t' <= npt -> pto t + spb t * ncol <= pto t'.
Proof.
  intros Ht Hlt Ht'.
  pose proof (layout_pto_mono (t + 1) t' ltac:(lia) ltac:(lia) ltac:(lia)) as H.
  rewrite (lo_parTypeOffset d L) in H by lia.
  exact H.
Qed.

Lemma layout_fluxEq (k c : Z) :
  0 <= k < ncol -> 0 <= c < nc -> GRM.fluxEq d k c = k * nc + c.
Proof.
  intros Hk Hc. unfold GRM.fluxEq, GRM.Indexer.strideColCell,
    GRM.Indexer.strideColComp.
  pose proof (lo_fits d L) as F.
  pose proof (layout_pto_nonneg npt ltac:(pose proof (lo_nParType d L); lia)).
  pose proof (lo_nParType d L). pose proof (lo_nComp d L).
  pose proof (lo_nCol d L).
  assert (0 <= ncol * nc) by nia.
  assert (0 <= ncol * nc * npt) by nia.
  assert (k * nc + c < ncol * nc) by nia.
  unfold UInt.add, UInt.mul.
  rewrite (wrap_small (k * nc)) by nia.
  rewrite (wrap_small (c * 1)) by nia.
  rewrite wrap_small by nia. lia.
Qed.

Lemma layout_accIdx (t c : Z) :
  0 <= t < npt -> 0 <= c < nc -> UInt.add (UInt.mul t nc) c = t * nc + c.
Proof.
  intros Ht Hc.
  pose proof (lo_fits d L) as F.
  pose proof (layout_pto_nonneg npt ltac:(lia)).
  pose proof (lo_nCol d L). pose proof (lo_nComp d L).
  assert (t * nc + c < npt * nc) by nia.
  assert (npt * nc <= ncol * nc * npt) by nia.
  unfold UInt.add, UInt.mul.
  rewrite (wrap_small (t * nc)) by nia.
  rewrite wrap_small by nia. reflexivity.
Qed.

Lemma layout_parIdx (t k c : Z) :
  0 <= t < npt -> 0 <= k < ncol -> 0 <= c < nc ->
  UInt.add (UInt.mul k (spb t)) c = k * spb t + c
  /\ UInt.add c (UInt.mul k (spb t)) = k * spb t + c
  /\ pto t + (k * spb t + c) < pto npt.
Proof.
  intros Ht Hk Hc.
  pose proof (lo_fits d L) as F.
  pose proof (layout_spb t Ht).
  pose proof (layout_pto_block t npt ltac:(lia) ltac:(lia) ltac:(lia)).
  pose proof (layout_pto_nonneg t ltac:(lia)).
  pose proof (lo_nComp d L). pose proof (lo_nCol d L).
  assert (0 <= ncol * nc) by nia.
  assert (0 <= ncol * nc * npt) by nia.
  assert (k * spb t + c < spb t * ncol) by nia.
  assert (0 <= k * spb t) by nia.
 
  unfold UInt.add, UInt.mul.
  rewrite (wrap_small (k * spb t)) by nia.
  rewrite !wrap_small by nia. repeat split; lia.
Qed.
End Layout.

Section ScatterVariants.
Variables idx idx' : Z -> Z -> Z.
Variables val val' : Z -> Z -> R.
Variables K C : Z.
Variable res : GRM.vec.

Hypothesis same :
  forall k c, 0 <= k < K -> 0 <= c < C ->
    idx' k c = idx k c /\ val' k c = val k c.

Let out' :=
  for_range 0 K
    (fun k r => for_range 0 C (fun c r' => GRM.add_at r' (idx' k c) (val' k c)) r)
    res.

Lemma scatter2_canonical :
  out' = for_range 0 K
           (fun k r => for_range 0 C
                         (fun c r' => GRM.add_at r' (idx k c) (val k c)) r)
           res.
Proof.
  unfold out'. apply for_range_ext. intros k r Hk.
  apply for_range_ext. intros c r' Hc.
  destruct (same k c Hk Hc) as [-> ->]. reflexivity.
Qed.

Lemma scatter2_frame' (j : Z) :
  (forall k c, 0 <= k < K -> 0 <= c < C -> idx k c <> j) -> out' j = res j.
Proof. rewrite scatter2_canonical. apply scatter2_frame. Qed.

Lemma scatter2_hit' (k c : Z) :
  (forall k c k' c', 0 <= k < K -> 0 <= c < C -> 0 <= k' < K -> 0 <= c' < C ->
     idx k c = idx k' c' -> k = k' /\ c = c') ->
  0 <= k < K -> 0 <= c < C -> out' (idx k c) = (res (idx k c) + val k c)%R.
Proof. intros Hinj. rewrite scatter2_canonical. now apply scatter2_hit. Qed.
End ScatterVariants.

Lemma divmod_unique (n k c k' c' : Z) :
  0 <= c < n -> 0 <= c' < n -> k * n + c = k' * n + c' -> k = k' /\ c = c'.
Proof.
  intros Hc Hc' E.
  assert (k = k').
  { destruct (Z.lt_trichotomy k k') as [H|[H|H]]; [|exact H|].
    - assert ((k + 1) * n <= k' * n) by (apply Z.mul_le_mono_nonneg_r; lia). lia.
    - assert ((k' + 1) * n <= k * n) by (apply Z.mul_le_mono_nonneg_r; lia). lia. }
  subst. split; [reflexivity|lia].
Qed.

Lemma tabulate_get (f : Z -> R) (n : Z) (a0 : GRM.vec) (c : Z) :
  0 <= c < n -> for_range 0 n (fun i a => upd a i (f i)) a0 c = f c.
Proof.
  intros Hc.
  cut (forall k, 0 <= k <= n ->
         for_range 0 k (fun i a => upd a i (f i)) a0 c
         = if c <? k then f c else a0 c).
  { intros G. rewrite (G n) by lia. destruct (Z.ltb_spec c n); [reflexivity|lia]. }
  intros k Hk.
  apply (for_range_inv (fun k a => a c = if c <? k then f c else a0 c)).
  - lia.
  - destruct (Z.ltb_spec c 0); [lia|reflexivity].
  - intros i a Hi Ha. unfold upd. destruct (Z.eqb_spec c i) as [->|Hne].
    + destruct (Z.ltb_spec i (i + 1)); [reflexivity|lia].
    + rewrite Ha. destruct (Z.ltb_spec c i), (Z.ltb_spec c (i + 1));
        try reflexivity; lia.
Qed.

Section FluxResidual.
Variable m : GRM.Model.
Variable secIdx : Z.
Variable y : GRM.vec.

Local Abbreviation d := (GRM.disc m).
Local Abbreviation nc := (GRM.nComp d).
Local Abbreviation ncol := (GRM.nCol d).
Local Abbreviation npt := (GRM.nParType d).
Local Abbreviation spb := (GRM.Indexer.strideParBlock d).
Local Abbreviation pto := (GRM.parTypeOffset d).

Hypothesis L : layout_ok d.

Lemma discretizedFilmDiffusion_get (t c : Z) :
  0 <= t < npt -> 0 <= c < nc ->
  GRM.discretizedFilmDiffusion m secIdx t c = filmCoefficientFV m secIdx t c.
Proof.
  intros Ht Hc. unfold GRM.discretizedFilmDiffusion. cbv zeta.
  rewrite tabulate_get by exact Hc.
  rewrite (layout_accIdx d L) by assumption.
  unfold filmCoefficientFV. cbv zeta.
  replace 0.5%R with (/ 2)%R by lra.
  unfold Rdiv. rewrite !Rinv_mult. f_equal. f_equal. f_equal. ring.
Qed.

Lemma fluxIndex_inj (t k c k' c' : Z) :
  0 <= c < nc -> 0 <= c' < nc ->
  fluxIndex d t k c = fluxIndex d t k' c' -> k = k' /\ c = c'.
Proof.
  unfold fluxIndex. intros Hc Hc' E.
  apply (divmod_unique nc); auto. lia.
Qed.

Lemma outerShellIndex_inj (t k c k' c' : Z) :
  0 <= t < npt -> 0 <= c < nc -> 0 <= c' < nc ->
  outerShellIndex d t k c = outerShellIndex d t k' c' -> k = k' /\ c = c'.
Proof.
  unfold outerShellIndex. intros Ht Hc Hc' E.
  pose proof (layout_spb d L t Ht).
  apply (divmod_unique (spb t)); auto; lia.
Qed.

(** The three index families do not meet. *)
Lemma bulk_below_particles (i t k c : Z) :
  0 <= i < ncol * nc -> 0 <= t < npt -> 0 <= k < ncol -> 0 <= c < nc ->
  GRM.Indexer.offsetC d + i < outerShellIndex d t k c.
Proof.
  intros Hi Ht Hk Hc. unfold outerShellIndex, GRM.Indexer.offsetCpType,
    GRM.Indexer.offsetCp.
  pose proof (layout_pto_nonneg d L t ltac:(lia)).
  pose proof (layout_spb d L t Ht). pose proof (lo_nComp d L).
  assert (0 <= k * spb t) by nia. lia.
Qed.

Lemma particles_below_flux (t k c t' k' c' : Z) :
  0 <= t < npt -> 0 <= k < ncol -> 0 <= c < nc ->
  0 <= t' -> 0 <= k' -> 0 <= c' ->
  outerShellIndex d t k c < fluxIndex d t' k' c'.
Proof.
  intros Ht Hk Hc Ht' Hk' Hc'. unfold outerShellIndex, fluxIndex,
    GRM.Indexer.offsetCpType, GRM.Indexer.offsetJfType, GRM.Indexer.offsetJf.
  destruct (layout_parIdx d L t k c Ht Hk Hc) as (_ & _ & H).
  pose proof (lo_nComp d L). pose proof (lo_nCol d L).
  assert (0 <= t' * ncol * nc) by nia. assert (0 <= k' * nc) by nia. lia.
Qed.

Lemma fluxIndex_types (t k c t' k' c' : Z) :
  0 <= k < ncol -> 0 <= c < nc -> 0 <= k' < ncol -> 0 <= c' < nc ->
  fluxIndex d t k c = fluxIndex d t' k' c' -> t = t'.
Proof.
  intros Hk Hc Hk' Hc'. unfold fluxIndex, GRM.Indexer.offsetJfType. intros E.
  assert (0 <= k * nc + c < ncol * nc) by nia.
  assert (0 <= k' * nc + c' < ncol * nc) by nia.
  nia.
Qed.

Lemma outerShellIndex_types (t k c t' k' c' : Z) :
  0 <= t < npt -> 0 <= t' < npt ->
  0 <= k < ncol -> 0 <= c < nc -> 0 <= k' < ncol -> 0 <= c' < nc ->
  outerShellIndex d t k c = outerShellIndex d t' k' c' -> t = t'.
Proof.
  intros Ht Ht' Hk Hc Hk' Hc'. unfold outerShellIndex, GRM.Indexer.offsetCpType.
  intros E.
  destruct (layout_parIdx d L t k c Ht Hk Hc) as (_ & _ & H1).
  destruct (layout_parIdx d L t' k' c' Ht' Hk' Hc') as (_ & _ & H2).
  pose proof (layout_spb d L t Ht). pose proof (layout_spb d L t' Ht').
  assert (0 <= k * spb t + c < spb t * ncol) by nia.
  assert (0 <= k' * spb t' + c' < spb t' * ncol) by nia.
  destruct (Z.lt_trichotomy t t') as [Hlt|[E'|Hgt]]; [|exact E'|].
  - pose proof (layout_pto_block d L t t' ltac:(lia) Hlt ltac:(lia)). lia.
  - pose proof (layout_pto_block d L t' t ltac:(lia) ltac:(lia) ltac:(lia)). lia.
Qed.

Lemma layout_bulk_size : UInt.mul ncol nc = ncol * nc.
Proof.
  pose proof (lo_fits d L). pose proof (lo_nComp d L). pose proof (lo_nCol d L).
  pose proof (lo_nParType d L).
  pose proof (layout_pto_nonneg d L npt ltac:(lia)).
  assert (0 <= ncol * nc) by nia. assert (0 <= ncol * nc * npt) by nia.
  unfold UInt.mul. apply wrap_small. lia.
Qed.

Lemma residualFluxType_effect (t : Z) (res : GRM.vec) :
  0 <= t < npt ->
  let out := GRM.residualFluxType m secIdx y t res in
  (forall k c, 0 <= k < ncol -> 0 <= c < nc ->
     out (fluxIndex d t k c)
     = (res (fluxIndex d t k c)
        - filmCoefficientFV m secIdx t c * y (bulkIndex d k c)
        + filmCoefficientFV m secIdx t c * y (outerShellIndex d t k c))%R)
  /\ (forall k c, 0 <= k < ncol -> 0 <= c < nc ->
        out (outerShellIndex d t k c)
        = (res (outerShellIndex d t k c)
           + - GRM.parOuterSurfAreaPerVolume (GRM.geometry m)
                 (GRM.nParCellsBeforeType d t)
             / GRM.parPorosity m t
             / GRM.poreAccessFactor m (t * nc + c)
             * y (fluxIndex d t k c))%R)
  /\ (forall j,
        ~ GRM.Indexer.offsetC d <= j < GRM.Indexer.offsetC d + ncol * nc ->
        (forall k c, 0 <= k < ncol -> 0 <= c < nc -> fluxIndex d t k c <> j) ->
        (forall k c, 0 <= k < ncol -> 0 <= c < nc -> outerShellIndex d t k c <> j) ->
        out j = res j).
Proof.
  intros Ht. cbv zeta. unfold GRM.residualFluxType. cbv zeta.
  rewrite layout_bulk_size.
  set (kf := GRM.discretizedFilmDiffusion m secIdx t).
  set (jacPF_val := (- GRM.parOuterSurfAreaPerVolume _ _ / GRM.parPorosity m t)%R).
  set (rA := for_range 0 (ncol * nc) _ res).
  set (rB := for_range 0 ncol _ rA).
  set (rC := for_range 0 ncol _ rB).
  (* the bulk loop *)
  assert (HA : forall j,
            ~ GRM.Indexer.offsetC d <= j < GRM.Indexer.offsetC d + ncol * nc ->
            rA j = res j).
  { intros j Hj. unfold rA.
    apply (scatter_frame (fun i => GRM.Indexer.offsetC d + i)).
    intros i Hi. lia. }
  (* the loop of the block J_{f,0} *)
  assert (HBsame : forall k c, 0 <= k < ncol -> 0 <= c < nc ->
            GRM.Indexer.offsetJfType d t + GRM.fluxEq d k c = fluxIndex d t k c
            /\ (- (kf c * y (GRM.Indexer.offsetC d + GRM.fluxEq d k c)%Z))%R
               = (- (filmCoefficientFV m secIdx t c * y (bulkIndex d k c)))%R).
  { intros k c Hk Hc. rewrite (layout_fluxEq d L) by assumption.
    unfold kf. rewrite discretizedFilmDiffusion_get by assumption.
    split; reflexivity. }
  assert (HBhit : forall k c, 0 <= k < ncol -> 0 <= c < nc ->
            rB (fluxIndex d t k c)
            = (rA (fluxIndex d t k c)
               + - (filmCoefficientFV m secIdx t c * y (bulkIndex d k c)))%R).
  { intros k c Hk Hc. unfold rB.
    apply (scatter2_hit' (fluxIndex d t)
             (fun k c => GRM.Indexer.offsetJfType d t + GRM.fluxEq d k c)
             (fun k c => (- (filmCoefficientFV m secIdx t c * y (bulkIndex d k c)))%R)
             (fun k c => (- (kf c * y (GRM.Indexer.offsetC d + GRM.fluxEq d k c)%Z))%R)
             ncol nc rA HBsame); auto.
    intros k1 c1 k2 c2 _ H1 _ H2. now apply fluxIndex_inj. }
  assert (HBframe : forall j,
            (forall k c, 0 <= k < ncol -> 0 <= c < nc -> fluxIndex d t k c <> j) ->
            rB j = rA j).
  { intros j Hj. unfold rB.
    apply (scatter2_frame' (fluxIndex d t)
             (fun k c => GRM.Indexer.offsetJfType d t + GRM.fluxEq d k c)
             (fun k c => (- (filmCoefficientFV m secIdx t c * y (bulkIndex d k c)))%R)
             (fun k c => (- (kf c * y (GRM.Indexer.offsetC d + GRM.fluxEq d k c)%Z))%R)
             ncol nc rA HBsame); auto. }
  (* the loop of the block J_{p,f} *)
  assert (HCsame : forall k c, 0 <= k < ncol -> 0 <= c < nc ->
            GRM.Indexer.offsetCpType d t + UInt.add (UInt.mul k (spb t)) c
            = outerShellIndex d t k c
            /\ (jacPF_val / GRM.poreAccessFactor m (UInt.add (UInt.mul t nc) c)
                * y (GRM.Indexer.offsetJfType d t + GRM.fluxEq d k c)%Z)%R
               = (jacPF_val / GRM.poreAccessFactor m (t * nc + c)
                  * y (fluxIndex d t k c))%R).
  { intros k c Hk Hc. rewrite (layout_fluxEq d L) by assumption.
    rewrite (layout_accIdx d L) by assumption.
    destruct (layout_parIdx d L t k c Ht Hk Hc) as (-> & _ & _).
    split; reflexivity. }
  assert (HChit : forall k c, 0 <= k < ncol -> 0 <= c < nc ->
            rC (outerShellIndex d t k c)
            = (rB (outerShellIndex d t k c)
               + jacPF_val / GRM.poreAccessFactor m (t * nc + c)
                 * y (fluxIndex d t k c))%R).
  { intros k c Hk Hc. unfold rC.
    apply (scatter2_hit' (outerShellIndex d t)
             (fun k c => GRM.Indexer.offsetCpType d t + UInt.add (UInt.mul k (spb t)) c)
             (fun k c => (jacPF_val / GRM.poreAccessFactor m (t * nc + c)
                          * y (fluxIndex d t k c))%R)
             (fun k c => (jacPF_val
                          / GRM.poreAccessFactor m (UInt.add (UInt.mul t nc) c)
                          * y (GRM.Indexer.offsetJfType d t + GRM.fluxEq d k c)%Z)%R)
             ncol nc rB HCsame); auto.
    intros k1 c1 k2 c2 _ H1 _ H2. now apply outerShellIndex_inj. }
  assert (HCframe : forall j,
            (forall k c, 0 <= k < ncol -> 0 <= c < nc -> outerShellIndex d t k c <> j) ->
            rC j = rB j).
  { intros j Hj. unfold rC.
    apply (scatter2_frame' (outerShellIndex d t)
             (fun k c => GRM.Indexer.offsetCpType d t + UInt.add (UInt.mul k (spb t)) c)
             (fun k c => (jacPF_val / GRM.poreAccessFactor m (t * nc + c)
                          * y (fluxIndex d t k c))%R)
             (fun k c => (jacPF_val
                          / GRM.poreAccessFactor m (UInt.add (UInt.mul t nc) c)
                          * y (GRM.Indexer.offsetJfType d t + GRM.fluxEq d k c)%Z)%R)
             ncol nc rB HCsame); auto. }
  (* the loop of the block J_{f,p} *)
  assert (HDsame : forall k c, 0 <= k < ncol -> 0 <= c < nc ->
            GRM.Indexer.offsetJfType d t + GRM.fluxEq d k c = fluxIndex d t k c
            /\ (kf c * y (GRM.Indexer.offsetCpType d t + UInt.add c (UInt.mul k (spb t)))%Z)%R
               = (filmCoefficientFV m secIdx t c * y (outerShellIndex d t k c))%R).
  { intros k c Hk Hc. rewrite (layout_fluxEq d L) by assumption.
    unfold kf. rewrite discretizedFilmDiffusion_get by assumption.
    destruct (layout_parIdx d L t k c Ht Hk Hc) as (_ & -> & _).
    split; reflexivity. }
  set (valD := fun k c => (filmCoefficientFV m secIdx t c
                           * y (outerShellIndex d t k c))%R).
  set (valD' := fun k c => (kf c * y (GRM.Indexer.offsetCpType d t + UInt.add c (UInt.mul k (spb t)))%Z)%R).
  set (idxD' := fun k c => GRM.Indexer.offsetJfType d t + GRM.fluxEq d k c).
  split; [|split].
  - intros k c Hk Hc.
    rewrite (scatter2_hit' (fluxIndex d t) idxD' valD valD' ncol nc rC HDsame); auto.
    + rewrite HCframe.
      * rewrite HBhit by assumption. rewrite HA; [unfold valD; lra|].
        unfold fluxIndex, GRM.Indexer.offsetJfType, GRM.Indexer.offsetJf,
          GRM.Indexer.offsetCp.
        pose proof (layout_pto_nonneg d L npt
                      ltac:(pose proof (lo_nParType d L); lia)).
        pose proof (lo_nComp d L). pose proof (lo_nCol d L).
        assert (0 <= t * ncol * nc) by nia. assert (0 <= k * nc) by nia. lia.
      * intros k' c' Hk' Hc'.
        pose proof (particles_below_flux t k' c' t k c). lia.
    + intros k1 c1 k2 c2 _ H1 _ H2. now apply fluxIndex_inj.
  - intros k c Hk Hc.
    rewrite (scatter2_frame' (fluxIndex d t) idxD' valD valD' ncol nc rC HDsame).
    + rewrite HChit by assumption. rewrite HBframe.
      * rewrite HA; [unfold jacPF_val; lra|].
        pose proof (bulk_below_particles (ncol * nc - 1) t k c).
        pose proof (lo_nComp d L). pose proof (lo_nCol d L).
        assert (1 <= ncol * nc) by nia.
        unfold outerShellIndex, GRM.Indexer.offsetCpType, GRM.Indexer.offsetCp in *.
        pose proof (layout_pto_nonneg d L t ltac:(lia)).
        pose proof (layout_spb d L t Ht).
        assert (0 <= k * spb t) by nia. lia.
      * intros k' c' Hk' Hc'.
        pose proof (particles_below_flux t k c t k' c'). lia.
    + intros k' c' Hk' Hc'.
      pose proof (particles_below_flux t k c t k' c'). lia.
  - intros j Hbulk Hflux Hpar.
    rewrite (scatter2_frame' (fluxIndex d t) idxD' valD valD' ncol nc rC HDsame)
      by exact Hflux.
    rewrite HCframe by exact Hpar. rewrite HBframe by exact Hflux.
    apply HA. exact Hbulk.
Qed.

Lemma layout_flux_size : UInt.mul (UInt.mul nc ncol) npt = nc * ncol * npt.
Proof.
  pose proof (lo_fits d L). pose proof (lo_nComp d L). pose proof (lo_nCol d L).
  pose proof (lo_nParType d L).
  pose proof (layout_pto_nonneg d L npt ltac:(lia)).
  assert (0 <= nc * ncol) by nia. assert (0 <= nc * ncol * npt) by nia.
  unfold UInt.mul. rewrite (wrap_small (nc * ncol)) by nia.
  apply wrap_small. nia.
Qed.

Lemma fluxIndex_not_bulk (t k c : Z) :
  0 <= t -> 0 <= k -> 0 <= c ->
  ~ GRM.Indexer.offsetC d <= fluxIndex d t k c
      < GRM.Indexer.offsetC d + ncol * nc.
Proof.
  intros Ht Hk Hc. unfold fluxIndex, GRM.Indexer.offsetJfType,
    GRM.Indexer.offsetJf, GRM.Indexer.offsetCp.
  pose proof (layout_pto_nonneg d L npt ltac:(pose proof (lo_nParType d L); lia)).
  pose proof (lo_nComp d L). pose proof (lo_nCol d L).
  assert (0 <= t * ncol * nc) by nia. assert (0 <= k * nc) by nia. lia.
Qed.

Lemma outerShellIndex_not_bulk (t k c : Z) :
  0 <= t < npt -> 0 <= k -> 0 <= c ->
  ~ GRM.Indexer.offsetC d <= outerShellIndex d t k c
      < GRM.Indexer.offsetC d + ncol * nc.
Proof.
  intros Ht Hk Hc. unfold outerShellIndex, GRM.Indexer.offsetCpType,
    GRM.Indexer.offsetCp.
  pose proof (layout_pto_nonneg d L t ltac:(lia)).
  pose proof (layout_spb d L t Ht). pose proof (lo_nComp d L).
  assert (0 <= k * spb t) by nia. lia.
Qed.

Variable time : R.
Variable yDot : option GRM.vec.
Variable resBase : GRM.vec.

Lemma residualFlux_rows :
  let out := snd (GRM.residualFlux m time secIdx y yDot resBase) in
  (forall t k c, 0 <= t < npt -> 0 <= k < ncol -> 0 <= c < nc ->
     out (fluxIndex d t k c)
     = (y (fluxIndex d t k c)
        - filmCoefficientFV m secIdx t c * y (bulkIndex d k c)
        + filmCoefficientFV m secIdx t c * y (outerShellIndex d t k c))%R)
  /\ (forall t k c, 0 <= t < npt -> 0 <= k < ncol -> 0 <= c < nc ->
        out (outerShellIndex d t k c)
        = (resBase (outerShellIndex d t k c)
           + - GRM.parOuterSurfAreaPerVolume (GRM.geometry m)
                 (GRM.nParCellsBeforeType d t)
             / GRM.parPorosity m t
             / GRM.poreAccessFactor m (t * nc + c)
             * y (fluxIndex d t k c))%R).
Proof.
  cbv zeta. unfold GRM.residualFlux. cbv zeta. cbn [snd].
  rewrite layout_flux_size.
  set (r1 := for_range 0 (nc * ncol * npt)
               (fun (i : Z) (res' : Z -> R) =>
                  upd res' (GRM.Indexer.offsetJf d + i)
                    (y (GRM.Indexer.offsetJf d + i)))
               resBase).
  assert (H1 : forall j,
            r1 j = if (GRM.Indexer.offsetJf d <=? j)
                      && (j <? GRM.Indexer.offsetJf d + nc * ncol * npt)
                   then y j else resBase j).
  { intros j. unfold r1.
    change (for_range 0 (nc * ncol * npt)
              (fun i res' =>
                 upd res' (GRM.Indexer.offsetJf d + i)
                   (y (GRM.Indexer.offsetJf d + i))) resBase)
      with (GRM.write_window resBase (GRM.Indexer.offsetJf d) (nc * ncol * npt)
              (GRM.window y (GRM.Indexer.offsetJf d))).
    rewrite write_window_get. unfold GRM.window.
    replace (GRM.Indexer.offsetJf d + (j - GRM.Indexer.offsetJf d)) with j by lia.
    reflexivity. }
  assert (H1f : forall t k c, 0 <= t < npt -> 0 <= k < ncol -> 0 <= c < nc ->
            r1 (fluxIndex d t k c) = y (fluxIndex d t k c)).
  { intros t k c Ht Hk Hc. rewrite H1.
    unfold fluxIndex, GRM.Indexer.offsetJfType.
    pose proof (lo_nComp d L). pose proof (lo_nCol d L).
    assert (0 <= k * nc + c < ncol * nc) by nia.
    assert (0 <= t * ncol * nc) by nia.
    assert (t * ncol * nc + ncol * nc <= nc * ncol * npt) by nia.
    destruct (Z.leb_spec (GRM.Indexer.offsetJf d)
                (GRM.Indexer.offsetJf d + t * ncol * nc + (k * nc + c)));
      [|lia].
    destruct (Z.ltb_spec (GRM.Indexer.offsetJf d + t * ncol * nc + (k * nc + c))
                (GRM.Indexer.offsetJf d + nc * ncol * npt)); [reflexivity|lia]. }
  assert (H1p : forall t k c, 0 <= t < npt -> 0 <= k < ncol -> 0 <= c < nc ->
            r1 (outerShellIndex d t k c) = resBase (outerShellIndex d t k c)).
  { intros t k c Ht Hk Hc. rewrite H1.
    pose proof (particles_below_flux t k c 0 0 0 Ht Hk Hc
                  ltac:(lia) ltac:(lia) ltac:(lia)) as Hlt.
    unfold fluxIndex, GRM.Indexer.offsetJfType in Hlt.
    destruct (Z.leb_spec (GRM.Indexer.offsetJf d) (outerShellIndex d t k c));
      [lia|reflexivity]. }
  cut (forall j, 0 <= j <= npt ->
         let r := for_range 0 j (GRM.residualFluxType m secIdx y) r1 in
         (forall t k c, 0 <= t < npt -> 0 <= k < ncol -> 0 <= c < nc ->
            r (fluxIndex d t k c)
            = if t <? j
              then (y (fluxIndex d t k c)
                    - filmCoefficientFV m secIdx t c * y (bulkIndex d k c)
                    + filmCoefficientFV m secIdx t c
                      * y (outerShellIndex d t k c))%R
              else y (fluxIndex d t k c))
         /\ (forall t k c, 0 <= t < npt -> 0 <= k < ncol -> 0 <= c < nc ->
               r (outerShellIndex d t k c)
               = if t <? j
                 then (resBase (outerShellIndex d t k c)
                       + - GRM.parOuterSurfAreaPerVolume (GRM.geometry m)
                             (GRM.nParCellsBeforeType d t)
                         / GRM.parPorosity m t
                         / GRM.poreAccessFactor m (t * nc + c)
                         * y (fluxIndex d t k c))%R
                 else resBase (outerShellIndex d t k c))).
  { intros G. pose proof (lo_nParType d L).
    destruct (G npt ltac:(lia)) as [Gf Gp]. split.
    - intros t k c Ht Hk Hc. rewrite Gf by assumption.
      destruct (Z.ltb_spec t npt); [reflexivity|lia].
    - intros t k c Ht Hk Hc. rewrite Gp by assumption.
      destruct (Z.ltb_spec t npt); [reflexivity|lia]. }
  intros j Hj. cbv zeta.
  apply (for_range_inv
           (fun j r =>
              (forall t k c, 0 <= t < npt -> 0 <= k < ncol -> 0 <= c < nc ->
                 r (fluxIndex d t k c)
                 = if t <? j
                   then (y (fluxIndex d t k c)
                         - filmCoefficientFV m secIdx t c * y (bulkIndex d k c)
                         + filmCoefficientFV m secIdx t c
                           * y (outerShellIndex d t k c))%R
                   else y (fluxIndex d t k c))
              /\ (forall t k c, 0 <= t < npt -> 0 <= k < ncol -> 0 <= c < nc ->
                    r (outerShellIndex d t k c)
                    = if t <? j
                      then (resBase (outerShellIndex d t k c)
                            + - GRM.parOuterSurfAreaPerVolume (GRM.geometry m)
                                  (GRM.nParCellsBeforeType d t)
                              / GRM.parPorosity m t
                              / GRM.poreAccessFactor m (t * nc + c)
                              * y (fluxIndex d t k c))%R
                      else resBase (outerShellIndex d t k c)))).
  - lia.
  - split; intros t k c Ht Hk Hc.
    + destruct (Z.ltb_spec t 0); [lia|]. now apply H1f.
    + destruct (Z.ltb_spec t 0); [lia|]. now apply H1p.
  - intros i r Hi [IHf IHp].
    destruct (residualFluxType_effect i r ltac:(lia)) as (Ef & Ep & Eframe).
    split; intros t k c Ht Hk Hc.
    + destruct (Z.eq_dec t i) as [->|Hne].
      * rewrite Ef by assumption. rewrite IHf by assumption.
        destruct (Z.ltb_spec i i); [lia|].
        destruct (Z.ltb_spec i (i + 1)); [reflexivity|lia].
      * rewrite Eframe.
        -- rewrite IHf by assumption.
           destruct (Z.ltb_spec t i), (Z.ltb_spec t (i + 1)); try reflexivity; lia.
        -- apply fluxIndex_not_bulk; lia.
        -- intros k' c' Hk' Hc' E. apply Hne. symmetry.
           now apply (fluxIndex_types i k' c' t k c).
        -- intros k' c' Hk' Hc'.
           pose proof (particles_below_flux i k' c' t k c). lia.
    + destruct (Z.eq_dec t i) as [->|Hne].
      * rewrite Ep by assumption. rewrite IHp by assumption.
        destruct (Z.ltb_spec i i); [lia|].
        destruct (Z.ltb_spec i (i + 1)); [reflexivity|lia].
      * rewrite Eframe.
        -- rewrite IHp by assumption.
           destruct (Z.ltb_spec t i), (Z.ltb_spec t (i + 1)); try reflexivity; lia.
        -- apply outerShellIndex_not_bulk; lia.
        -- intros k' c' Hk' Hc'.
           pose proof (particles_below_flux t k c i k' c'). lia.
        -- intros k' c' Hk' Hc' E. apply Hne. symmetry.
           apply (outerShellIndex_types i k' c' t k c); auto; lia.
Qed.
End FluxResidual.

(** ** Configured descriptors are laid out *)

Lemma zsum_mono (f : Z -> Z) (a b : Z) :
  (forall i, 0 <= i < b -> 0 <= f i) -> 0 <= a <= b -> zsum f a <= zsum f b.
Proof.
  intros Hf [Ha Hab].
  replace b with (a + (b - a)) in * by lia.
  assert (Hk : 0 <= b - a) by lia. revert Hk Hf.
  generalize (b - a). intros k Hk. pattern k.
  apply natlike_ind; [| |exact Hk].
  - intros _. rewrite Z.add_0_r. lia.
  - intros j Hj IH Hf. unfold Z.succ in *.
    replace (a + (j + 1)) with (a + j + 1) by lia.
    rewrite zsum_succ by lia.
    assert (0 <= f (a + j)) by (apply Hf; lia).
    assert (zsum f a <= zsum f (a + j)) by (apply IH; intros i Hi; apply Hf; lia).
    lia.
Qed.

Lemma configured_layout_ok (p : GRM.DiscretizationInput) (d : GRM.Discretization) :
  GRM.configureDescriptor p = Ok d ->
  1 <= GRM.nComp d -> 1 <= GRM.nCol d ->
  (forall t, 0 <= t < GRM.nParType d -> 1 <= GRM.nParCell d t) ->
  closedFormDofs d < UInt.modulus ->
  layout_ok d.
Proof.
  intros H Hnc Hcol Hshell Hfit.
  destruct (configured_ranges p d H) as (_ & _ & Hnpt & Hpc & _ & Hsb).
  pose proof (parTypeBlock_nonneg p d H) as Hblk.
  assert (Hsum : 0 <= zsum (parTypeBlock d) (GRM.nParType d))
    by (apply zsum_nonneg; intros; apply Hblk).
  assert (Hcn : 1 <= GRM.nCol d * GRM.nComp d) by nia.
  assert (Hprod : GRM.nParType d <= GRM.nCol d * GRM.nComp d * GRM.nParType d).
  { assert (0 <= (GRM.nCol d * GRM.nComp d - 1) * GRM.nParType d)
      by (apply Z.mul_nonneg_nonneg; lia).
    nia. }
  unfold closedFormDofs in Hfit.
  assert (Hroom : GRM.nParType d + 1 < UInt.modulus) by lia.
  assert (Hpto : forall k, 0 <= k <= GRM.nParType d ->
            GRM.parTypeOffset d k = zsum (parTypeBlock d) k).
  { intros k Hk. rewrite (configured_parTypeOffset p d H Hroom k Hk).
    apply wrap_small. split.
    - apply zsum_nonneg. intros; apply Hblk.
    - pose proof (zsum_mono (parTypeBlock d) k (GRM.nParType d)
                    ltac:(intros; apply Hblk) Hk). lia. }
  constructor; try assumption; try lia.
  - intros t. apply Hsb.
  - rewrite Hpto by lia. reflexivity.
  - intros t Ht. rewrite !Hpto by lia. rewrite zsum_succ by lia.
    unfold parTypeBlock, GRM.Indexer.strideParBlock, GRM.Indexer.strideParShell,
      GRM.Indexer.strideParLiquid, GRM.Indexer.strideParBound. ring.
  - rewrite Hpto by lia. lia.
Qed.

Lemma layout_coefficients_fit (d : GRM.Discretization) :
  layout_ok d -> GRM.nComp d * GRM.nParType d < UInt.modulus.
Proof.
  intros L. pose proof (lo_fits d L). pose proof (lo_nComp d L).
  pose proof (lo_nCol d L). pose proof (lo_nParType d L).
  pose proof (layout_pto_nonneg d L (GRM.nParType d) ltac:(lia)).
  assert (GRM.nComp d * GRM.nParType d
          <= GRM.nCol d * GRM.nComp d * GRM.nParType d) by nia.
  lia.
Qed.

(** C2.  For a configured descriptor whose state vector can be addressed
    and whose particle types all have a shell, the residual of the flux
    equation [(t, k, c)] is
    [j_f[t,k,c] - k_f_FV[t,c] * c_bulk[k,c] + k_f_FV[t,c] * c_p[t,k,s=0,c]]
    with
    [k_f_FV[t,c] = 1 / ((dr_0 / 2) / (eps_p[t] * F_acc[t,c] * D_p[t,c])
                        + 1 / k_f[t,c])],
    where [dr_0] is the size of the outermost shell of the type, and
    [F_acc[t,c]], [D_p[t,c]] and [k_f[t,c]] are the entries of the pore
    accessibility, of [PAR_DIFFUSION] and of [FILM_DIFFUSION] for the type
    and the component (and the section); the buffer [kf_FV] of the source
    holds exactly these coefficients. *)
Theorem residualFlux_flux_equation
    (p : GRM.DiscretizationInput) (m : GRM.Model) (time : R) (secIdx : Z)
    (y : GRM.vec) (yDot : option GRM.vec) (resBase : GRM.vec) (t k c : Z) :
  GRM.configureDescriptor p = Ok (GRM.disc m) ->
  closedFormDofs (GRM.disc m) < UInt.modulus ->
  (forall t', 0 <= t' < GRM.nParType (GRM.disc m) ->
     1 <= GRM.nParCell (GRM.disc m) t') ->
  0 <= t < GRM.nParType (GRM.disc m) ->
  0 <= k < GRM.nCol (GRM.disc m) ->
  0 <= c < GRM.nComp (GRM.disc m) ->
  let d := GRM.disc m in
  let dr_0 := GRM.parCellSize (GRM.geometry m) (GRM.nParCellsBeforeType d t) in
  let eps_p := GRM.parPorosity m t in
  let F_acc := GRM.poreAccessFactor m (t * GRM.nComp d + c) in
  let D_p := coefficientAt (GRM.parDiffusion m) d secIdx t c in
  let k_f := coefficientAt (GRM.filmDiffusion m) d secIdx t c in
  let k_f_FV := (1 / ((dr_0 / 2) / (eps_p * F_acc * D_p) + 1 / k_f))%R in
  snd (GRM.residualFlux m time secIdx y yDot resBase) (fluxIndex d t k c)
  = (y (fluxIndex d t k c)
     - k_f_FV * y (bulkIndex d k c)
     + k_f_FV * y (outerShellIndex d t k c))%R
  /\ GRM.discretizedFilmDiffusion m secIdx t c = k_f_FV.
Proof.
  intros Hcfg Hfit Hshell Ht Hk Hc. cbv zeta.
  assert (L : layout_ok (GRM.disc m))
    by (apply (configured_layout_ok p);
        [exact Hcfg|lia|lia|exact Hshell|exact Hfit]).
  pose proof (filmCoefficientFV_byIndex m secIdx t c Ht Hc
                (layout_coefficients_fit _ L)) as E.
  unfold filmCoefficientByIndex in E. cbv zeta in E. rewrite <- E.
  split.
  - now apply (residualFlux_rows m secIdx y L time yDot resBase).
  - now apply discretizedFilmDiffusion_get.
Qed.

(** One component, one axial cell and two particle types with a single
    shell and no bound state: the state vector is
    [inlet; bulk; particle 0; particle 1; flux 0; flux 1].  The fields
    [PAR_DIFFUSION = [3; 5]] and [FILM_DIFFUSION = [7; 11]] give
    [D_p = 5] and [k_f = 11] for the second type. *)
Lemma residualFlux_flux_equation_witness :
  exists d,
    GRM.configureDescriptor (GRM.mkDiscInput 1 1 [1; 1] [0; 0] None) = Ok d
    /\ let m :=
         GRM.mkModel d (1 / 2)%R (fun _ => 1%R) (fun _ => 0%R) (fun _ => 1%R)
           (fun _ => (1 / 2)%R) [7%R; 11%R] [3%R; 5%R] [] (fun _ => 1%R)
           [false; false]
           (GRM.mkGeometry (fun _ => 1%R) (fun _ => (1 / 2)%R)
              (fun _ => 3%R) (fun _ => 0%R))
           (fun _ => GRM.mkBindingModel (fun _ => 0) false) None
           (GRM.mkConvDispOp (fun _ _ _ _ res => (0, res)) (fun _ _ _ ret => ret)
              1%R 1%R (fun _ _ => false) (fun _ _ => 1%R))
           (GRM.mkCellKernels (fun _ _ _ _ _ _ _ _ => 0%R) (fun _ _ _ ret => ret)) in
       let y : GRM.vec := fun i => IZR i in
       let k_f_FV := (1 / ((1 / 2) / (1 * 1 * 5) + 1 / 11))%R in
       coefficientAt (GRM.parDiffusion m) d 0 1 0 = 5%R
       /\ coefficientAt (GRM.filmDiffusion m) d 0 1 0 = 11%R
       /\ snd (GRM.residualFlux m 0%R 0 y None (fun _ => 0%R)) (fluxIndex d 1 0 0)
          = (y (fluxIndex d 1 0 0)
             - k_f_FV * y (bulkIndex d 0 0)
             + k_f_FV * y (outerShellIndex d 1 0 0))%R
       /\ GRM.discretizedFilmDiffusion m 0 1 0 = k_f_FV.
Proof.
  eexists. split; [reflexivity|]. intros m y k_f_FV.
  split; [reflexivity|]. split; [reflexivity|].
  assert (Hfit : closedFormDofs (GRM.disc m) < UInt.modulus)
    by (vm_compute; reflexivity).
  assert (Hshell : forall t', 0 <= t' < GRM.nParType (GRM.disc m) ->
            1 <= GRM.nParCell (GRM.disc m) t').
  { intros t' Ht'. change (GRM.nParType (GRM.disc m)) with 2 in Ht'.
    assert (Et : t' = 0 \/ t' = 1) by lia.
    destruct Et as [->| ->]; vm_compute; discriminate. }
  assert (Ht : 0 <= 1 < GRM.nParType (GRM.disc m))
    by (vm_compute; split; [discriminate|reflexivity]).
  assert (Hr : 0 <= 0 < 1) by lia.
  exact (residualFlux_flux_equation
           (GRM.mkDiscInput 1 1 [1; 1] [0; 0] None) m 0%R 0 y None
           (fun _ => 0%R) 1 0 0 eq_refl Hfit Hshell Ht Hr Hr).
Defined.

Lemma residualFlux_coupling_derivative (m : GRM.Model) (secIdx t k c : Z) :
  layout_ok (GRM.disc m) ->
  0 <= t < GRM.nParType (GRM.disc m) ->
  0 <= k < GRM.nCol (GRM.disc m) ->
  0 <= c < GRM.nComp (GRM.disc m) ->
  let d := GRM.disc m in
  residualFluxDerivative m secIdx (outerShellIndex d t k c) (fluxIndex d t k c)
  = (- GRM.parOuterSurfAreaPerVolume (GRM.geometry m)
         (GRM.nParCellsBeforeType d t)
     / GRM.parPorosity m t
     / GRM.poreAccessFactor m (t * GRM.nComp d + c))%R.
Proof.
  intros L Ht Hk Hc. cbv zeta. unfold residualFluxDerivative.
  destruct (residualFlux_rows m secIdx (unitVector (fluxIndex (GRM.disc m) t k c))
              L 0%R None (fun _ => 0%R)) as [_ H1].
  destruct (residualFlux_rows m secIdx (fun _ => 0%R)
              L 0%R None (fun _ => 0%R)) as [_ H0].
  rewrite H1, H0 by assumption.
  unfold unitVector. rewrite Z.eqb_refl. lra.
Qed.

(** ** The coupling blocks *)

Lemma zrange_succ (n : Z) : 0 <= n -> zrange (n + 1) = zrange n ++ [n].
Proof.
  intros Hn. unfold zrange.
  replace (Z.to_nat (n + 1)) with (Z.to_nat n + 1)%nat by lia.
  rewrite seq_app, map_app. cbn [seq map]. f_equal. f_equal. lia.
Qed.

Section Append.
Variables row col : Z -> Z.
Variable val : Z -> R.

Lemma addElement_loop (n : Z) (M : GRM.SparseMatrix) :
  0 <= n ->
  for_range 0 n (fun c M' => GRM.addElement M' (row c) (col c) (val c)) M
  = M ++ map (fun c => GRM.mkEntry (row c) (col c) (val c)) (zrange n).
Proof.
  intros Hn.
  apply (for_range_inv
           (fun k M' =>
              M' = M ++ map (fun c => GRM.mkEntry (row c) (col c) (val c))
                          (zrange k))).
  - exact Hn.
  - cbn. now rewrite app_nil_r.
  - intros k M' Hk ->. unfold GRM.addElement.
    rewrite zrange_succ by lia. now rewrite map_app, app_assoc.
Qed.

Lemma addElement_block_loop (n i : Z) (JP : Z -> GRM.SparseMatrix) (b : Z) :
  0 <= n ->
  for_range 0 n
    (fun c JP' => upd JP' i (GRM.addElement (JP' i) (row c) (col c) (val c))) JP b
  = if b =? i
    then JP i ++ map (fun c => GRM.mkEntry (row c) (col c) (val c)) (zrange n)
    else JP b.
Proof.
  intros Hn.
  apply (for_range_inv
           (fun k JP' =>
              JP' b
              = if b =? i
                then JP i ++ map (fun c => GRM.mkEntry (row c) (col c) (val c))
                               (zrange k)
                else JP b)).
  - exact Hn.
  - cbn. rewrite app_nil_r. now destruct (b =? i) eqn:E; [apply Z.eqb_eq in E; subst|].
  - intros k JP' Hk IH. unfold upd.
    destruct (Z.eqb_spec b i) as [->|Hne].
    + rewrite IH. unfold GRM.addElement.
      rewrite zrange_succ by lia. now rewrite map_app, app_assoc.
    + exact IH.
Qed.
End Append.

Lemma in_zrange (n c : Z) : In c (zrange n) -> 0 <= c < n.
Proof.
  unfold zrange. rewrite in_map_iff. intros (k & <- & Hk).
  apply in_seq in Hk. lia.
Qed.

Section CouplingBlocks.
Variable m : GRM.Model.
Variable secIdx : Z.

Local Abbreviation d := (GRM.disc m).
Local Abbreviation nc := (GRM.nComp d).
Local Abbreviation ncol := (GRM.nCol d).
Local Abbreviation npt := (GRM.nParType d).

Hypothesis L : layout_ok d.

Lemma layout_blocks (t k c : Z) :
  0 <= t < npt -> 0 <= k < ncol -> 0 <= c < nc ->
  UInt.mul t ncol = t * ncol
  /\ UInt.mul ncol npt = ncol * npt
  /\ UInt.add (UInt.mul (UInt.mul t ncol) nc) (GRM.fluxEq d k c)
     = t * ncol * nc + (k * nc + c).
Proof.
  intros Ht Hk Hc.
  pose proof (lo_fits d L). pose proof (lo_nComp d L). pose proof (lo_nCol d L).
  pose proof (layout_pto_nonneg d L npt ltac:(lia)).
  assert (0 <= t * ncol) by nia.
  assert (t * ncol + ncol <= ncol * npt) by nia.
  assert (ncol * npt <= ncol * nc * npt) by nia.
  assert (0 <= k * nc + c < ncol * nc) by nia.
  assert (t * ncol * nc + ncol * nc <= ncol * nc * npt) by nia.
  assert (0 <= t * ncol * nc) by nia.
  rewrite (layout_fluxEq d L) by assumption.
  unfold UInt.add, UInt.mul.
  rewrite (wrap_small (t * ncol)) by lia.
  rewrite (wrap_small (t * ncol * nc)) by lia.
  rewrite !wrap_small by lia. auto.
Qed.

Lemma assembleOffdiagJacType_jacPF (t : Z) (J : GRM.OffdiagJac) (b : Z) :
  0 <= t < npt ->
  GRM.jacPF (GRM.assembleOffdiagJacType m secIdx t J) b
  = if (t * ncol <=? b) && (b <? t * ncol + ncol)
    then GRM.jacPF J b ++ jacPF_entries m t (b - t * ncol)
    else GRM.jacPF J b.
Proof.
  intros Ht. unfold GRM.assembleOffdiagJacType. cbv zeta. cbn [GRM.jacPF].
  pose proof (lo_nComp d L) as Hnc. pose proof (lo_nCol d L) as Hncol.
  destruct (layout_blocks t 0 0 Ht ltac:(lia) ltac:(lia)) as (-> & _ & _).
  cut (forall K, 0 <= K <= ncol ->
         for_range 0 K
           (fun pblk JP =>
              for_range 0 nc
                (fun comp JP' =>
                   upd JP' (t * ncol + pblk)
                     (GRM.addElement (JP' (t * ncol + pblk)) comp
                        (UInt.add (UInt.mul (t * ncol) nc) (GRM.fluxEq d pblk comp))
                        (- GRM.parOuterSurfAreaPerVolume (GRM.geometry m)
                             (GRM.nParCellsBeforeType d t)
                         / GRM.parPorosity m t
                         / GRM.poreAccessFactor m comp)%R))
                JP)
           (GRM.jacPF J) b
         = if (t * ncol <=? b) && (b <? t * ncol + K)
           then GRM.jacPF J b ++ jacPF_entries m t (b - t * ncol)
           else GRM.jacPF J b).
  { intros G. apply G. lia. }
  intros K HK.
  apply (for_range_inv
           (fun K JP =>
              JP b = if (t * ncol <=? b) && (b <? t * ncol + K)
                     then GRM.jacPF J b ++ jacPF_entries m t (b - t * ncol)
                     else GRM.jacPF J b)).
  - lia.
  - destruct (Z.leb_spec (t * ncol) b), (Z.ltb_spec b (t * ncol + 0));
      try reflexivity; lia.
  - intros k JP Hk IH.
    rewrite (addElement_block_loop (fun c => c)
               (fun c => UInt.add (UInt.mul (t * ncol) nc) (GRM.fluxEq d k c))
               (fun c => (- GRM.parOuterSurfAreaPerVolume (GRM.geometry m)
                              (GRM.nParCellsBeforeType d t)
                          / GRM.parPorosity m t
                          / GRM.poreAccessFactor m c)%R)
               nc (t * ncol + k) JP b) by lia.
    destruct (Z.eqb_spec b (t * ncol + k)) as [->|Hne].
    + assert (E : JP (t * ncol + k) = GRM.jacPF J (t * ncol + k)).
      { rewrite IH.
        destruct (Z.leb_spec (t * ncol) (t * ncol + k)),
                 (Z.ltb_spec (t * ncol + k) (t * ncol + k));
          try reflexivity; lia. }
      rewrite E.
      destruct (Z.leb_spec (t * ncol) (t * ncol + k)),
               (Z.ltb_spec (t * ncol + k) (t * ncol + (k + 1))); try lia.
      cbn [andb]. f_equal. unfold jacPF_entries. cbv zeta.
      apply map_ext_in. intros c Hc. apply in_zrange in Hc.
      destruct (layout_blocks t k c Ht ltac:(lia) Hc) as (E1 & _ & E2).
      rewrite E1 in E2. rewrite E2.
      replace (t * ncol + k - t * ncol) with k by lia. reflexivity.
    + rewrite IH.
      destruct (Z.leb_spec (t * ncol) b), (Z.ltb_spec b (t * ncol + k)),
               (Z.ltb_spec b (t * ncol + (k + 1))); try reflexivity; lia.
Qed.

Lemma assembleOffdiagJac_cleared (J : GRM.OffdiagJac) (n b : Z) :
  0 <= n ->
  GRM.jacPF
    (for_range 0 n
       (fun pblk J' =>
          GRM.mkOffdiagJac (GRM.jacCF J') (GRM.jacFC J')
            (upd (GRM.jacPF J') pblk []) (upd (GRM.jacFP J') pblk []))
       (GRM.mkOffdiagJac [] [] (GRM.jacPF J) (GRM.jacFP J))) b
  = if (0 <=? b) && (b <? n) then [] else GRM.jacPF J b.
Proof.
  intros Hn.
  apply (for_range_inv
           (fun k J' =>
              GRM.jacPF J' b = if (0 <=? b) && (b <? k) then [] else GRM.jacPF J b)).
  - exact Hn.
  - cbn [GRM.jacPF].
    destruct (Z.leb_spec 0 b), (Z.ltb_spec b 0); try reflexivity; lia.
  - intros k J' Hk IH. cbn [GRM.jacPF]. unfold upd.
    destruct (Z.eqb_spec b k) as [->|Hne].
    + destruct (Z.leb_spec 0 k), (Z.ltb_spec k (k + 1)); try reflexivity; lia.
    + rewrite IH.
      destruct (Z.leb_spec 0 b), (Z.ltb_spec b k), (Z.ltb_spec b (k + 1));
        try reflexivity; lia.
Qed.

(** What [assembleOffdiagJac] leaves in the block of the particle [(t, k)]. *)
Lemma assembleOffdiagJac_jacPF (time : R) (J : GRM.OffdiagJac) (t k : Z) :
  0 <= t < npt -> 0 <= k < ncol ->
  GRM.jacPF (GRM.assembleOffdiagJac m time secIdx J) (t * ncol + k)
  = jacPF_entries m t k.
Proof.
  intros Ht Hk. unfold GRM.assembleOffdiagJac. cbv zeta.
  pose proof (lo_nComp d L) as Hnc. pose proof (lo_nCol d L) as Hncol.
  destruct (layout_blocks t 0 0 Ht ltac:(lia) ltac:(lia)) as (_ & -> & _).
  set (cleared := for_range 0 (ncol * npt) _ _).
  assert (Hcl : GRM.jacPF cleared (t * ncol + k) = []).
  { unfold cleared. rewrite assembleOffdiagJac_cleared by nia.
    assert (0 <= t * ncol) by nia.
    assert (t * ncol + ncol <= ncol * npt) by nia.
    destruct (Z.leb_spec 0 (t * ncol + k)),
             (Z.ltb_spec (t * ncol + k) (ncol * npt)); try reflexivity; lia. }
  cut (forall j, 0 <= j <= npt ->
         GRM.jacPF (for_range 0 j (GRM.assembleOffdiagJacType m secIdx) cleared)
           (t * ncol + k)
         = if t <? j then jacPF_entries m t k else []).
  { intros G. rewrite (G npt) by lia.
    destruct (Z.ltb_spec t npt); [reflexivity|lia]. }
  intros j Hj.
  apply (for_range_inv
           (fun j J' =>
              GRM.jacPF J' (t * ncol + k)
              = if t <? j then jacPF_entries m t k else [])).
  - lia.
  - destruct (Z.ltb_spec t 0); [lia|exact Hcl].
  - intros i J' Hi IH.
    rewrite assembleOffdiagJacType_jacPF by lia. rewrite IH.
    destruct (Z.eq_dec t i) as [->|Hne].
    + destruct (Z.leb_spec (i * ncol) (i * ncol + k)),
               (Z.ltb_spec (i * ncol + k) (i * ncol + ncol)); try lia.
      cbn [andb].
      destruct (Z.ltb_spec i i); [lia|].
      destruct (Z.ltb_spec i (i + 1)); [|lia].
      replace (i * ncol + k - i * ncol) with k by lia. reflexivity.
    + assert (~ (i * ncol <= t * ncol + k < i * ncol + ncol)) by nia.
      destruct (Z.leb_spec (i * ncol) (t * ncol + k)),
               (Z.ltb_spec (t * ncol + k) (i * ncol + ncol));
        cbn [andb]; try lia;
        destruct (Z.ltb_spec t i), (Z.ltb_spec t (i + 1)); try reflexivity; lia.
Qed.
End CouplingBlocks.

Lemma for_range_two {S : Type} (body : Z -> S -> S) (s : S) :
  for_range 0 2 body s = body 1 (body 0 s).
Proof. reflexivity. Qed.

(** C3, at two particle types with pore accessibility factors [1] and [2] of
    the single component.  The entry of [_jacPF] for the second type is
    [-(a_out / eps_p) / F_acc[0,0] = -1], whereas the flux coupling residual
    adds [-(a_out / eps_p) / F_acc[1,0] * j_f] to that row, whose derivative
    with respect to the flux is [-1/2]: [assembleOffdiagJac] reads
    [_poreAccessFactor[comp]] where [residualFlux] reads
    [_poreAccessFactor[type * nComp + comp]]. *)
Theorem assembleOffdiagJac_pore_accessibility :
  match GRM.configureDescriptor (GRM.mkDiscInput 1 1 [1] [0] (Some 2)) with
  | Ok d =>
      let m :=
        GRM.mkModel d (1 / 2)%R (fun _ => 1%R) (fun _ => 0%R) (fun _ => 1%R)
          (fun _ => (1 / 2)%R) [1%R] [1%R] []
          (fun i => if i =? 0 then 1%R else 2%R) [false; false]
          (GRM.mkGeometry (fun _ => 1%R) (fun _ => (1 / 2)%R)
             (fun _ => 1%R) (fun _ => 0%R))
          (fun _ => GRM.mkBindingModel (fun _ => 0) false) None
          (GRM.mkConvDispOp (fun _ _ _ _ res => (0, res)) (fun _ _ _ ret => ret)
             1%R 1%R (fun _ _ => false) (fun _ _ => 1%R))
          (GRM.mkCellKernels (fun _ _ _ _ _ _ _ _ => 0%R) (fun _ _ _ ret => ret)) in
      let J :=
        GRM.assembleOffdiagJac m 0%R 0
          (GRM.mkOffdiagJac [] [] (fun _ => []) (fun _ => [])) in
      GRM.nParType d = 2 /\ GRM.nComp d = 1 /\ GRM.nCol d = 1
      /\ fluxIndex d 1 0 0 - GRM.Indexer.offsetJf d = 1
      /\ GRM.jacPF J (1 * GRM.nCol d + 0) = [GRM.mkEntry 0 1 (- 1 / 1 / 1)%R]
      /\ residualFluxDerivative m 0 (outerShellIndex d 1 0 0) (fluxIndex d 1 0 0)
         = (- 1 / 1 / 2)%R
      /\ (- 1 / 1 / 1 <> - 1 / 1 / 2)%R
  | Throw _ => False
  end.
Proof.
  destruct (GRM.configureDescriptor _) as [d|f] eqn:H; [|discriminate].
  assert (Hd : GRM.nParType d = 2 /\ GRM.nComp d = 1 /\ GRM.nCol d = 1
               /\ GRM.nParCell d 0 = 1 /\ GRM.nParCell d 1 = 1
               /\ closedFormDofs d < UInt.modulus).
  { injection H as <-. vm_compute. auto 7. }
  destruct Hd as (Hnpt & Hnc & Hncol & Hpc0 & Hpc1 & Hfit).
  assert (L : layout_ok d).
  { apply (configured_layout_ok _ d H); try lia.
    intros t Ht. assert (t = 0 \/ t = 1) as [-> | ->] by lia; lia. }
  cbv zeta.
  set (m := GRM.mkModel d _ _ _ _ _ _ _ _ _ _ _ _ _ _ _).
  change d with (GRM.disc m) in L, Hnpt, Hnc, Hncol |- *.
  split; [exact Hnpt|]. split; [exact Hnc|]. split; [exact Hncol|].
  split; [|split; [|split]].
  - unfold fluxIndex, GRM.Indexer.offsetJfType. rewrite Hnc, Hncol. lia.
  - rewrite (assembleOffdiagJac_jacPF m 0 L) by lia.
    unfold jacPF_entries. cbv zeta. rewrite Hnc, Hncol.
    reflexivity.
  - rewrite (residualFlux_coupling_derivative m 0 1 0 0 L) by lia.
    rewrite Hnc. reflexivity.
  - lra.
Qed.

(** ** The inlet block after a section transition *)

Lemma entriesOfColumn_tabulated (row : Z -> Z) (v : R) (n c : Z) :
  0 <= c < n ->
  entriesOfColumn (map (fun c' => GRM.mkEntry (row c') c' v) (zrange n)) c
  = [GRM.mkEntry (row c) c v].
Proof.
  intros Hc.
  cut (forall k, 0 <= k ->
         entriesOfColumn (map (fun c' => GRM.mkEntry (row c') c' v) (zrange k)) c
         = if c <? k then [GRM.mkEntry (row c) c v] else []).
  { intros G. rewrite (G n) by lia. destruct (Z.ltb_spec c n); [reflexivity|lia]. }
  intros k Hk. pattern k. apply natlike_ind; [| |exact Hk].
  - destruct (Z.ltb_spec c 0); [lia|reflexivity].
  - intros j Hj IH. unfold Z.succ. rewrite zrange_succ by lia.
    unfold entriesOfColumn in *. rewrite map_app, filter_app, IH.
    cbn [map filter GRM.se_col].
    destruct (Z.eqb_spec j c) as [->|Hne].
    + destruct (Z.ltb_spec c c); [lia|].
      destruct (Z.ltb_spec c (c + 1)); [reflexivity|lia].
    + destruct (Z.ltb_spec c j), (Z.ltb_spec c (j + 1)); try lia;
        now rewrite ?app_nil_r.
Qed.

Section InletBlock.
Variable m : GRM.Model.
Variables filmDep parDep : bool.
Variable t : R.
Variable secIdx : Z.
Variable J : GRM.OffdiagJac.
Variable jacInlet0 : GRM.SparseMatrix.

Local Abbreviation d := (GRM.disc m).
Local Abbreviation op := (GRM.convDispOp m).
Local Abbreviation u := (GRM.cdo_velocityAfter op t secIdx).
Local Abbreviation h := (GRM.cdo_columnLength op / IZR (GRM.nCol d))%R.
Local Abbreviation after :=
  (GRM.notifyDiscontinuousSectionTransition m filmDep parDep t secIdx J jacInlet0).

Hypothesis Hchanged : GRM.cdo_flowDirectionChanges op t secIdx = true.

Lemma notify_velocity :
  GRM.cdo_currentVelocity (GRM.ts_convDispOp after) = u.
Proof.
  unfold GRM.notifyDiscontinuousSectionTransition.
  unfold GRM.cdo_notifyDiscontinuousSectionTransition. cbv zeta.
  rewrite Hchanged. cbn [negb GRM.cdo_currentVelocity].
  destruct (Rge_dec _ 0); reflexivity.
Qed.

Lemma notify_forwards :
  (u >= 0)%R ->
  GRM.ts_jacInlet after
  = map (fun c => GRM.mkEntry (UInt.mul c 1) c (- u / h)%R)
      (zrange (GRM.nComp d)).
Proof.
  intros Hu. unfold GRM.notifyDiscontinuousSectionTransition.
  unfold GRM.cdo_notifyDiscontinuousSectionTransition. cbv zeta.
  rewrite Hchanged. cbn [negb GRM.cdo_currentVelocity GRM.cdo_columnLength].
  destruct (Rge_dec u 0) as [_|Hn]; [|contradiction].
  cbn [GRM.ts_jacInlet]. unfold GRM.Indexer.strideColComp.
  destruct (Z_le_gt_dec 0 (GRM.nComp d)) as [Hle|Hgt].
  - now rewrite (addElement_loop (fun c => UInt.mul c 1) (fun c => c)
                   (fun _ => (- u / h)%R)) by exact Hle.
  - rewrite for_range_nil by lia. unfold zrange.
    replace (Z.to_nat (GRM.nComp d)) with O by lia. reflexivity.
Qed.

Lemma notify_backwards :
  (u < 0)%R ->
  GRM.ts_jacInlet after
  = map (fun c =>
           GRM.mkEntry
             (UInt.add (UInt.mul (UInt.sub (GRM.nCol d) 1) (GRM.nComp d))
                (UInt.mul c 1))
             c (u / h)%R)
      (zrange (GRM.nComp d)).
Proof.
  intros Hu. unfold GRM.notifyDiscontinuousSectionTransition.
  unfold GRM.cdo_notifyDiscontinuousSectionTransition. cbv zeta.
  rewrite Hchanged. cbn [negb GRM.cdo_currentVelocity GRM.cdo_columnLength].
  destruct (Rge_dec u 0) as [Hge|_]; [lra|].
  cbn [GRM.ts_jacInlet].
  unfold GRM.Indexer.strideColComp, GRM.Indexer.strideColCell.
  destruct (Z_le_gt_dec 0 (GRM.nComp d)) as [Hle|Hgt].
  - now rewrite (addElement_loop
                   (fun c => UInt.add
                               (UInt.mul (UInt.sub (GRM.nCol d) 1) (GRM.nComp d))
                               (UInt.mul c 1))
                   (fun c => c) (fun _ => (u / h)%R)) by exact Hle.
  - rewrite for_range_nil by lia. unfold zrange.
    replace (Z.to_nat (GRM.nComp d)) with O by lia. reflexivity.
Qed.
End InletBlock.

Section InletEntries.
Variable m : GRM.Model.
Variables filmDep parDep : bool.
Variable t : R.
Variable secIdx : Z.
Variable J : GRM.OffdiagJac.
Variable jacInlet0 : GRM.SparseMatrix.

Local Abbreviation d := (GRM.disc m).
Local Abbreviation op := (GRM.convDispOp m).
Local Abbreviation u := (GRM.cdo_velocityAfter op t secIdx).
Local Abbreviation h := (GRM.cdo_columnLength op / IZR (GRM.nCol d))%R.
Local Abbreviation after :=
  (GRM.notifyDiscontinuousSectionTransition m filmDep parDep t secIdx J jacInlet0).

Hypothesis Hchanged : GRM.cdo_flowDirectionChanges op t secIdx = true.
Hypothesis Hnc : 0 <= GRM.nComp d.
Hypothesis Hncol : 1 <= GRM.nCol d.
Hypothesis Hfit : GRM.nCol d * GRM.nComp d < UInt.modulus.

Lemma inlet_row_forwards (c : Z) :
  0 <= c < GRM.nComp d -> UInt.mul c 1 = c.
Proof.
  intros Hc. unfold UInt.mul. rewrite Z.mul_1_r. apply wrap_small. nia.
Qed.

Lemma inlet_row_backwards (c : Z) :
  0 <= c < GRM.nComp d ->
  UInt.add (UInt.mul (UInt.sub (GRM.nCol d) 1) (GRM.nComp d)) (UInt.mul c 1)
  = (GRM.nCol d - 1) * GRM.nComp d + c.
Proof.
  intros Hc. rewrite inlet_row_forwards by exact Hc.
  assert (0 <= (GRM.nCol d - 1) * GRM.nComp d) by nia.
  assert ((GRM.nCol d - 1) * GRM.nComp d + c < GRM.nCol d * GRM.nComp d) by nia.
  assert (GRM.nCol d < UInt.modulus) by nia.
  unfold UInt.add, UInt.mul, UInt.sub.
  rewrite (wrap_small (GRM.nCol d - 1)) by lia.
  rewrite (wrap_small ((GRM.nCol d - 1) * GRM.nComp d)) by lia.
  apply wrap_small. lia.
Qed.

Lemma notify_forwards_entries :
  (u >= 0)%R ->
  GRM.ts_jacInlet after
  = map (fun c => GRM.mkEntry c c (- u / h)%R) (zrange (GRM.nComp d)).
Proof.
  intros Hu. rewrite notify_forwards by assumption.
  apply map_ext_in. intros c Hc. apply in_zrange in Hc.
  now rewrite inlet_row_forwards.
Qed.

Lemma notify_backwards_entries :
  (u < 0)%R ->
  GRM.ts_jacInlet after
  = map (fun c =>
           GRM.mkEntry ((GRM.nCol d - 1) * GRM.nComp d + c) c (u / h)%R)
      (zrange (GRM.nComp d)).
Proof.
  intros Hu. rewrite notify_backwards by assumption.
  apply map_ext_in. intros c Hc. apply in_zrange in Hc.
  now rewrite inlet_row_backwards.
Qed.
End InletEntries.

Lemma configured_nComp_nonneg (p : GRM.DiscretizationInput) (d : GRM.Discretization) :
  GRM.configureDescriptor p = Ok d -> 0 <= GRM.nComp d.
Proof. intros H. destruct (configured_ranges p d H) as (Hc & _). lia. Qed.

(** C5, amended.  After a transition at which the flow direction changes,
    [_jacInlet] holds exactly one entry per component.  At a velocity
    [u >= 0] it maps the inlet entry of the component into the first bulk
    cell with the coefficient [- u / h], [h = L / nCol].  At a velocity
    [u < 0] it maps it into the last bulk cell, at the offset
    [(nCol - 1) * strideColCell], with the coefficient [u / h], which is
    [- |u| / h]; no entry then maps into the first bulk cell when there is
    more than one cell. *)
Theorem notify_jacInlet_entries
    (p : GRM.DiscretizationInput) (m : GRM.Model) (filmDep parDep : bool)
    (t : R) (secIdx : Z) (J : GRM.OffdiagJac) (jacInlet0 : GRM.SparseMatrix) :
  GRM.configureDescriptor p = Ok (GRM.disc m) ->
  1 <= GRM.nCol (GRM.disc m) ->
  GRM.nCol (GRM.disc m) * GRM.nComp (GRM.disc m) < UInt.modulus ->
  GRM.cdo_flowDirectionChanges (GRM.convDispOp m) t secIdx = true ->
  let d := GRM.disc m in
  let after :=
    GRM.notifyDiscontinuousSectionTransition m filmDep parDep t secIdx J jacInlet0 in
  let u := GRM.cdo_currentVelocity (GRM.ts_convDispOp after) in
  let h := (GRM.cdo_columnLength (GRM.ts_convDispOp after) / IZR (GRM.nCol d))%R in
  ((u >= 0)%R ->
   forall c, 0 <= c < GRM.nComp d ->
     entriesOfColumn (GRM.ts_jacInlet after) c = [GRM.mkEntry c c (- u / h)%R])
  /\ ((u < 0)%R ->
      (forall c, 0 <= c < GRM.nComp d ->
         entriesOfColumn (GRM.ts_jacInlet after) c
         = [GRM.mkEntry ((GRM.nCol d - 1) * GRM.nComp d + c) c (u / h)%R])
      /\ (u / h = - (Rabs u / h))%R
      /\ (1 < GRM.nCol d ->
          forall e, In e (GRM.ts_jacInlet after) -> GRM.nComp d <= GRM.se_row e)).
Proof.
  intros Hcfg Hncol Hfit Hchanged. cbv zeta.
  pose proof (configured_nComp_nonneg p _ Hcfg) as Hnc.
  rewrite (notify_velocity m filmDep parDep t secIdx J jacInlet0 Hchanged).
  assert (HL : GRM.cdo_columnLength
                 (GRM.ts_convDispOp
                    (GRM.notifyDiscontinuousSectionTransition m filmDep parDep
                       t secIdx J jacInlet0))
               = GRM.cdo_columnLength (GRM.convDispOp m)).
  { unfold GRM.notifyDiscontinuousSectionTransition,
      GRM.cdo_notifyDiscontinuousSectionTransition. cbv zeta.
    rewrite Hchanged. cbn [negb]. destruct (Rge_dec _ 0); reflexivity. }
  rewrite HL. split.
  - intros Hu c Hc.
    rewrite (notify_forwards_entries m filmDep parDep t secIdx J jacInlet0)
      by assumption.
    now apply (entriesOfColumn_tabulated (fun c => c)).
  - intros Hu. split; [|split].
    + intros c Hc.
      rewrite (notify_backwards_entries m filmDep parDep t secIdx J jacInlet0)
        by assumption.
      now apply (entriesOfColumn_tabulated
                   (fun c => (GRM.nCol (GRM.disc m) - 1) * GRM.nComp (GRM.disc m) + c)).
    + rewrite (Rabs_left _ Hu). unfold Rdiv. ring.
    + intros Hmany e He.
      rewrite (notify_backwards_entries m filmDep parDep t secIdx J jacInlet0)
        in He by assumption.
      apply in_map_iff in He. destruct He as (c & <- & Hc).
      apply in_zrange in Hc. cbn [GRM.se_row]. nia.
Qed.

(** One component and two axial cells; the flow turns to the velocity [-1]
    over a column of length [2], so [h = 1]. *)
Lemma notify_jacInlet_entries_witness :
  exists d,
    GRM.configureDescriptor (GRM.mkDiscInput 1 2 [1] [0] None) = Ok d
    /\ let after :=
         GRM.notifyDiscontinuousSectionTransition
           (exampleModel d (fun _ => 1%R) (-1)%R) false false 0%R 1
           emptyOffdiagJac [] in
       let u := GRM.cdo_currentVelocity (GRM.ts_convDispOp after) in
       let h :=
         (GRM.cdo_columnLength (GRM.ts_convDispOp after) / IZR (GRM.nCol d))%R in
       (u < 0)%R
       /\ entriesOfColumn (GRM.ts_jacInlet after) 0 = [GRM.mkEntry 1 0 (u / h)%R].
Proof.
  eexists. split; [reflexivity|].
  set (m := exampleModel _ (fun _ => 1%R) (-1)%R).
  assert (Hncol : 1 <= GRM.nCol (GRM.disc m)) by (vm_compute; discriminate).
  assert (Hfit : GRM.nCol (GRM.disc m) * GRM.nComp (GRM.disc m) < UInt.modulus)
    by (vm_compute; reflexivity).
  assert (Hc : 0 <= 0 < GRM.nComp (GRM.disc m))
    by (vm_compute; split; [discriminate|reflexivity]).
  assert (Hchanged : GRM.cdo_flowDirectionChanges (GRM.convDispOp m) 0%R 1 = true)
    by reflexivity.
  destruct (notify_jacInlet_entries
              (GRM.mkDiscInput 1 2 [1] [0] None) m false false 0%R 1
              emptyOffdiagJac [] eq_refl Hncol Hfit Hchanged) as [_ T].
  intros after u h.
  assert (Hu : (u < 0)%R).
  { unfold u, after.
    rewrite (notify_velocity m false false 0%R 1 emptyOffdiagJac [] Hchanged).
    cbn. lra. }
  split; [exact Hu|].
  exact (proj1 (T Hu) 0 Hc).
Defined.

(** C5 as it is worded fails at the same transition: the coefficient of the
    entry is [u / h = -1], not [|u| / h = 1]. *)
Lemma notify_jacInlet_abs_counterexample :
  match GRM.configureDescriptor (GRM.mkDiscInput 1 2 [1] [0] None) with
  | Ok d =>
      let m := exampleModel d (fun _ => 1%R) (-1)%R in
      let after :=
        GRM.notifyDiscontinuousSectionTransition m false false 0%R 1
          emptyOffdiagJac [] in
      let u := GRM.cdo_currentVelocity (GRM.ts_convDispOp after) in
      let h :=
        (GRM.cdo_columnLength (GRM.ts_convDispOp after) / IZR (GRM.nCol d))%R in
      GRM.cdo_flowDirectionChanges (GRM.convDispOp m) 0%R 1 = true
      /\ u = (-1)%R /\ h = (2 / 2)%R
      /\ GRM.ts_jacInlet after = [GRM.mkEntry 1 0 (-1 / (2 / 2))%R]
      /\ ~ inlet_into_last_cell_abs (GRM.ts_jacInlet after)
             (GRM.nComp d) (GRM.nCol d) u h
  | Throw _ => False
  end.
Proof.
  destruct (GRM.configureDescriptor _) as [d|f] eqn:H; [|discriminate].
  assert (Hd : GRM.nComp d = 1 /\ GRM.nCol d = 2).
  { injection H as <-. vm_compute. auto. }
  destruct Hd as (Hnc & Hncol). cbv zeta.
  set (m := exampleModel d (fun _ => 1%R) (-1)%R).
  assert (Hchanged : GRM.cdo_flowDirectionChanges (GRM.convDispOp m) 0%R 1 = true)
    by reflexivity.
  assert (Hu : GRM.cdo_velocityAfter (GRM.convDispOp m) 0%R 1 = (-1)%R)
    by reflexivity.
  assert (Hneg : (GRM.cdo_velocityAfter (GRM.convDispOp m) 0%R 1 < 0)%R)
    by (rewrite Hu; lra).
  assert (HM : GRM.ts_jacInlet
                 (GRM.notifyDiscontinuousSectionTransition m false false 0%R 1
                    emptyOffdiagJac [])
               = [GRM.mkEntry 1 0 (-1 / (2 / 2))%R]).
  { rewrite (notify_backwards_entries m false false 0%R 1 emptyOffdiagJac []
               Hchanged).
    - change (GRM.disc m) with d. rewrite Hnc, Hncol. reflexivity.
    - change (GRM.disc m) with d. lia.
    - change (GRM.disc m) with d. lia.
    - change (GRM.disc m) with d. rewrite Hnc, Hncol. reflexivity.
    - exact Hneg. }
  assert (Hvel : GRM.cdo_currentVelocity
                   (GRM.ts_convDispOp
                      (GRM.notifyDiscontinuousSectionTransition m false false
                         0%R 1 emptyOffdiagJac []))
                 = (-1)%R).
  { rewrite (notify_velocity m false false 0%R 1 emptyOffdiagJac [] Hchanged).
    exact Hu. }
  assert (Hh : (GRM.cdo_columnLength
                  (GRM.ts_convDispOp
                     (GRM.notifyDiscontinuousSectionTransition m false false
                        0%R 1 emptyOffdiagJac []))
                / IZR (GRM.nCol d))%R
               = (2 / 2)%R).
  { unfold GRM.notifyDiscontinuousSectionTransition,
      GRM.cdo_notifyDiscontinuousSectionTransition. cbv zeta.
    rewrite Hchanged. cbn [negb].
    destruct (Rge_dec _ 0); cbn [GRM.ts_convDispOp GRM.cdo_columnLength];
      now rewrite Hncol. }
  split; [exact Hchanged|]. split; [exact Hvel|]. split; [exact Hh|].
  split; [exact HM|].
  intros Habs. specialize (Habs 0 ltac:(lia)).
  rewrite HM, Hvel, Hh, Hnc, Hncol in Habs.
  cbn [entriesOfColumn filter GRM.se_col Z.eqb] in Habs.
  injection Habs as Hval.
  rewrite Rabs_left in Hval by lra. lra.
Qed.

(** ** Status of the residual *)

(** C10.  [residual] returns [0] at every evaluation point, and so do
    [residualImpl], [residualBulk], [residualParticle] and [residualFlux]:
    no status of the residual path is negative or positive. *)
Theorem residual_status_zero (m : GRM.Model) (t : R) (secIdx : Z)
    (y : GRM.vec) (yDot : option GRM.vec) (res : GRM.vec) :
  fst (GRM.residual m t secIdx y yDot res) = 0
  /\ fst (GRM.residualImpl m t secIdx y yDot res) = 0
  /\ fst (GRM.residualBulk m t secIdx y yDot res) = 0
  /\ (forall parType colCell,
        fst (GRM.residualParticle m t parType colCell secIdx y yDot res) = 0)
  /\ fst (GRM.residualFlux m t secIdx y yDot res) = 0.
Proof.
  repeat split.
  - unfold GRM.residualBulk.
    destruct (GRM.dynReactionBulk m) as [reaction|]; [|reflexivity].
    destruct (GRM.numReactionsLiquid reaction =? 0); reflexivity.
Qed.

(** ** The time derivative Jacobian on the algebraic entries *)

(** C8.  The vector that [multiplyWithDerivativeJacobian] writes is zero at
    the [nComp] inlet entries and at the flux entries; there are
    [nCol * nComp * nParType] of them, counted as the source counts them,
    in [unsigned int]. *)
Theorem multiplyWithDerivativeJacobian_algebraic (m : GRM.Model) (t : R)
    (secIdx : Z) (sDot ret : GRM.vec) :
  let d := GRM.disc m in
  let out := GRM.multiplyWithDerivativeJacobian m t secIdx sDot ret in
  (forall i, 0 <= i < GRM.nComp d -> out i = 0%R)
  /\ (forall i,
        0 <= i < UInt.mul (UInt.mul (GRM.nCol d) (GRM.nComp d)) (GRM.nParType d) ->
        out (GRM.Indexer.offsetJf d + i) = 0%R)
  /\ (0 <= GRM.nCol d * GRM.nComp d ->
      0 <= GRM.nCol d * GRM.nComp d * GRM.nParType d < UInt.modulus ->
      forall i, 0 <= i < GRM.nCol d * GRM.nComp d * GRM.nParType d ->
        out (GRM.Indexer.offsetJf d + i) = 0%R).
Proof.
  cbv zeta. unfold GRM.multiplyWithDerivativeJacobian. cbv zeta.
  set (X := for_range 0 _ _ ret).
  assert (Hflux : forall i,
            0 <= i < UInt.mul (UInt.mul (GRM.nCol (GRM.disc m))
                                 (GRM.nComp (GRM.disc m)))
                       (GRM.nParType (GRM.disc m)) ->
            fill (fill X (GRM.Indexer.offsetJf (GRM.disc m))
                    (GRM.Indexer.offsetJf (GRM.disc m)
                     + UInt.mul (UInt.mul (GRM.nCol (GRM.disc m))
                                   (GRM.nComp (GRM.disc m)))
                         (GRM.nParType (GRM.disc m))) 0%R)
              0 (GRM.nComp (GRM.disc m)) 0%R
              (GRM.Indexer.offsetJf (GRM.disc m) + i) = 0%R).
  { intros i Hi. rewrite !fill_get.
    destruct ((0 <=? _) && (_ <? GRM.nComp _)); [reflexivity|].
    destruct (Z.leb_spec (GRM.Indexer.offsetJf (GRM.disc m))
                (GRM.Indexer.offsetJf (GRM.disc m) + i)); [|lia].
    destruct (Z.ltb_spec (GRM.Indexer.offsetJf (GRM.disc m) + i)
                (GRM.Indexer.offsetJf (GRM.disc m)
                 + UInt.mul (UInt.mul (GRM.nCol (GRM.disc m))
                               (GRM.nComp (GRM.disc m)))
                     (GRM.nParType (GRM.disc m)))); [reflexivity|lia]. }
  split; [|split].
  - intros i Hi. rewrite fill_get.
    destruct (Z.leb_spec 0 i), (Z.ltb_spec i (GRM.nComp (GRM.disc m)));
      try reflexivity; lia.
  - exact Hflux.
  - intros Hcn Hfit i Hi. apply Hflux.
    assert (GRM.nParType (GRM.disc m) < 0 \/ 0 <= GRM.nParType (GRM.disc m))
      as [Hneg|Hpos] by lia; [nia|].
    assert (GRM.nCol (GRM.disc m) * GRM.nComp (GRM.disc m) = 0
            \/ 1 <= GRM.nCol (GRM.disc m) * GRM.nComp (GRM.disc m))
      as [Hz|Hp] by lia.
    + rewrite Hz in Hi. lia.
    + assert (GRM.nParType (GRM.disc m) = 0 \/ 1 <= GRM.nParType (GRM.disc m))
        as [Hz|Hq] by lia.
      * rewrite Hz in Hi. lia.
      * assert (GRM.nCol (GRM.disc m) * GRM.nComp (GRM.disc m)
                <= GRM.nCol (GRM.disc m) * GRM.nComp (GRM.disc m)
                   * GRM.nParType (GRM.disc m)) by nia.
        unfold UInt.mul.
        rewrite (wrap_small (GRM.nCol (GRM.disc m) * GRM.nComp (GRM.disc m)))
          by lia.
        rewrite wrap_small by lia. exact Hi.
Qed.

(** ** Order of the phases of the consistent initialization *)

Section InitializationTrace.

Import ModelSystem.

Lemma events_emit (e : Event) (s : State) : events (emit e s) = events s ++ [e].
Proof. reflexivity. Qed.








End InitializationTrace.


(* ===================================================================== *)
(** * Part III: further properties of the code                            *)
(* ===================================================================== *)

(** ** The offsets of the descriptor are prefix sums *)

Lemma parLayout_cells (nc ncol npt : Z) (npc sb : Z -> Z) :
  0 <= npt -> npt + 1 < UInt.modulus ->
  let st :=
    for_range 1 (npt + 1)
      (fun j st =>
         GRM.mkParArrays
           (upd (GRM.pa_parTypeOffset st) j
              (UInt.add (GRM.pa_parTypeOffset st (j - 1))
                 (UInt.mul
                    (UInt.mul (UInt.add nc (sb (j - 1))) (npc (j - 1)))
                    ncol)))
           (upd (GRM.pa_nParCellsBeforeType st) j
              (UInt.add (GRM.pa_nParCellsBeforeType st (j - 1)) (npc (j - 1))))
           (UInt.add (GRM.pa_nTotalParCells st) (npc (j - 1))))
      (GRM.mkParArrays (upd GRM.fresh 0 0) (upd GRM.fresh 0 0) 0) in
  (forall k, 0 <= k <= npt ->
     GRM.pa_nParCellsBeforeType st k = UInt.wrap (zsum npc k))
  /\ GRM.pa_nTotalParCells st = UInt.wrap (zsum npc npt).
Proof.
  intros Hn Hfit. cbv zeta.
  cut (let st := for_range 1 (npt + 1)
      (fun j st =>
         GRM.mkParArrays
           (upd (GRM.pa_parTypeOffset st) j
              (UInt.add (GRM.pa_parTypeOffset st (j - 1))
                 (UInt.mul
                    (UInt.mul (UInt.add nc (sb (j - 1))) (npc (j - 1)))
                    ncol)))
           (upd (GRM.pa_nParCellsBeforeType st) j
              (UInt.add (GRM.pa_nParCellsBeforeType st (j - 1)) (npc (j - 1))))
           (UInt.add (GRM.pa_nTotalParCells st) (npc (j - 1))))
      (GRM.mkParArrays (upd GRM.fresh 0 0) (upd GRM.fresh 0 0) 0) in
       (forall k, 0 <= k < npt + 1 ->
          GRM.pa_nParCellsBeforeType st k = UInt.wrap (zsum npc k))
       /\ GRM.pa_nTotalParCells st = UInt.wrap (zsum npc (npt + 1 - 1))).
  { cbv zeta. intros [H1 H2]. split.
    - intros k Hk. apply H1. lia.
    - rewrite H2. f_equal. f_equal. lia. }
  cbv zeta.
  apply (for_range_inv
           (fun j st =>
              (forall k, 0 <= k < j ->
                 GRM.pa_nParCellsBeforeType st k = UInt.wrap (zsum npc k))
              /\ GRM.pa_nTotalParCells st = UInt.wrap (zsum npc (j - 1)))).
  - lia.
  - split.
    + intros k Hk. assert (k = 0) as -> by lia. reflexivity.
    + reflexivity.
  - intros j st Hj [IH1 IH2]. cbn [GRM.pa_nParCellsBeforeType GRM.pa_nTotalParCells].
    assert (E : zsum npc j = zsum npc (j - 1) + npc (j - 1)).
    { replace j with ((j - 1) + 1) at 1 by lia. apply zsum_succ. lia. }
    split.
    + intros k Hk. destruct (Z.eq_dec k j) as [->|Hne].
      * rewrite upd_same, (IH1 (j - 1)) by lia. rewrite E. unwrap.
      * rewrite upd_other by exact Hne. apply IH1. lia.
    + rewrite IH2. replace (j + 1 - 1) with j by lia. rewrite E. unwrap.
Qed.

Lemma parLayout_nParCellsBeforeType (nc ncol npt : Z) (npc sb : Z -> Z) :
  0 <= npt -> npt + 1 < UInt.modulus ->
  forall k, 0 <= k <= npt ->
    GRM.pa_nParCellsBeforeType (GRM.parLayout nc ncol npt npc sb) k
    = UInt.wrap (zsum npc k).
Proof.
  intros Hn Hfit k Hk. unfold GRM.parLayout.
  replace (UInt.add npt 1) with (npt + 1)
    by (unfold UInt.add; now rewrite wrap_small by lia).
  destruct (parLayout_cells nc ncol npt npc sb Hn Hfit) as [H1 H2].
  cbv zeta in H1, H2. cbn [GRM.pa_nParCellsBeforeType].
  destruct (Z.eq_dec k npt) as [->|Hne].
  - rewrite upd_same. exact H2.
  - rewrite upd_other by exact Hne. apply H1. lia.
Qed.

Lemma configured_nParCellsBeforeType (p : GRM.DiscretizationInput)
    (d : GRM.Discretization) :
  GRM.configureDescriptor p = Ok d ->
  GRM.nParType d + 1 < UInt.modulus ->
  forall k, 0 <= k <= GRM.nParType d ->
    GRM.nParCellsBeforeType d k = UInt.wrap (zsum (GRM.nParCell d) k).
Proof.
  intros H Hfit k Hk.
  destruct (configureDescriptor_Ok p d H) as (npt & Hnpt & ->).
  cbn [GRM.nParType GRM.nParCellsBeforeType GRM.nParCell] in *.
  now rewrite parLayout_nParCellsBeforeType by lia.
Qed.

Lemma wrap_zsum (f : Z -> Z) (n : Z) :
  UInt.wrap (zsum (fun i => UInt.wrap (f i)) n) = UInt.wrap (zsum f n).
Proof.
  destruct (Z_le_gt_dec 0 n) as [Hn|Hn].
  - pattern n. apply natlike_ind; [reflexivity| |exact Hn].
    intros k Hk IH. unfold Z.succ. rewrite !zsum_succ by lia.
    rewrite <- wrap_add_l, IH, wrap_add_l, wrap_add_r. reflexivity.
  - unfold zsum. now rewrite !for_range_nil by lia.
Qed.

Lemma zsum_ext (f g : Z -> Z) (n : Z) :
  (forall i, 0 <= i < n -> f i = g i) -> zsum f n = zsum g n.
Proof.
  intros H. destruct (Z_le_gt_dec 0 n) as [Hn|Hn].
  - revert H. pattern n. apply natlike_ind; [reflexivity| |exact Hn].
    intros k Hk IH H. unfold Z.succ. rewrite !zsum_succ by lia.
    rewrite IH by (intros; apply H; lia). rewrite H by lia. reflexivity.
  - unfold zsum. now rewrite !for_range_nil by lia.
Qed.

Lemma totalBound_sum (nb : Z -> Z) (nc npt : Z) :
  0 <= nc * npt < UInt.modulus ->
  GRM.totalBound nb nc npt = UInt.wrap (zsum nb (nc * npt)).
Proof.
  intros Hfit. unfold GRM.totalBound, UInt.mul. rewrite wrap_small by exact Hfit.
  apply (for_range_inv (fun k acc => acc = UInt.wrap (zsum nb k))).
  - lia.
  - reflexivity.
  - intros i acc Hi ->. rewrite zsum_succ by lia. unwrap.
Qed.

Section BoundLayout.
Variable nb : Z -> Z.
Variables nc npt tot : Z.
Hypothesis Hnc : 1 <= nc.
Hypothesis Hnpt : 0 <= npt.
Hypothesis Hfit : nc * npt < UInt.modulus.

(** Number of bound states of the first [i] components of type [j]. *)
Let rowsum (j i : Z) : Z := zsum (fun c => nb (j * nc + c)) i.

Lemma boundLayout_base (j : Z) : 0 <= j < npt -> UInt.mul j nc = j * nc.
Proof. intros Hj. unfold UInt.mul. apply wrap_small. nia. Qed.

Lemma boundLayout_row (j : Z) (bo0 : Z -> Z) :
  0 <= j < npt ->
  let bo :=
    for_range 1 nc
      (fun i bo' =>
         upd bo' (j * nc + i)
           (UInt.add (bo' (j * nc + (i - 1))) (nb (j * nc + (i - 1)))))
      (upd bo0 (j * nc + 0) 0) in
  (forall i, 0 <= i < nc -> bo (j * nc + i) = UInt.wrap (rowsum j i))
  /\ (forall x, x < j * nc -> bo x = bo0 x).
Proof.
  intros Hj. cbv zeta.
  apply (for_range_inv
           (fun k bo =>
              (forall i, 0 <= i < k -> bo (j * nc + i) = UInt.wrap (rowsum j i))
              /\ (forall x, x < j * nc -> bo x = bo0 x))).
  - lia.
  - split.
    + intros i Hi. assert (i = 0) as -> by lia. now rewrite upd_same.
    + intros x Hx. apply upd_other. lia.
  - intros k bo Hk [IH1 IH2]. split.
    + intros i Hi. destruct (Z.eq_dec i k) as [->|Hne].
      * rewrite upd_same, (IH1 (k - 1)) by lia. unfold rowsum.
        replace k with ((k - 1) + 1) at 3 by lia.
        rewrite zsum_succ by lia. unwrap.
      * rewrite upd_other by lia. apply IH1. lia.
    + intros x Hx. rewrite upd_other by lia. now apply IH2.
Qed.

Lemma boundLayout_spec :
  0 <= tot < UInt.modulus ->
  let ba := GRM.boundLayout nb nc npt tot in
  (forall j i, 0 <= j < npt -> 0 <= i < nc ->
     GRM.ba_boundOffset ba (j * nc + i) = UInt.wrap (rowsum j i))
  /\ (forall j, 0 <= j < npt ->
        GRM.ba_strideBound ba j = UInt.wrap (rowsum j nc))
  /\ GRM.ba_strideBound ba npt = tot
  /\ (forall k, 0 <= k < npt ->
        GRM.ba_nBoundBeforeType ba k
        = UInt.wrap (zsum (fun t => rowsum t nc) k)).
Proof.
  intros Htot. cbv zeta. unfold GRM.boundLayout.
  cut (let ba := for_range 0 npt
    (fun j st =>
       let base := UInt.mul j nc in
       let bo0 := upd (GRM.ba_boundOffset st) (base + 0) 0 in
       let bo := for_range 1 nc
                   (fun i bo' =>
                      upd bo' (base + i)
                        (UInt.add (bo' (base + (i - 1))) (nb (base + (i - 1)))))
                   bo0 in
       let last := UInt.sub nc 1 in
       let sb := upd (GRM.ba_strideBound st) j
                   (UInt.add (bo (base + last)) (nb (base + last))) in
       let nbbt :=
         if negb (j =? UInt.sub npt 1)
         then upd (GRM.ba_nBoundBeforeType st) (j + 1)
                (UInt.add (GRM.ba_nBoundBeforeType st j) (sb j))
         else GRM.ba_nBoundBeforeType st in
       GRM.mkBoundArrays bo sb nbbt)
    (GRM.mkBoundArrays GRM.fresh (upd GRM.fresh npt tot) (upd GRM.fresh 0 0)) in
       (forall j i, 0 <= j < npt -> 0 <= i < nc ->
          GRM.ba_boundOffset ba (j * nc + i) = UInt.wrap (rowsum j i))
       /\ (forall j, 0 <= j < npt ->
             GRM.ba_strideBound ba j = UInt.wrap (rowsum j nc))
       /\ GRM.ba_strideBound ba npt = tot
       /\ (forall k, 0 <= k <= npt -> k <= npt - 1 \/ k = 0 ->
             GRM.ba_nBoundBeforeType ba k
             = UInt.wrap (zsum (fun t => rowsum t nc) k))).
  { cbv zeta. intros (H1 & H2 & H3 & H4). repeat split; auto.
    intros k Hk. apply H4; lia. }
  cbv zeta.
  apply (for_range_inv
           (fun n st =>
              (forall j i, 0 <= j < n -> 0 <= i < nc ->
                 GRM.ba_boundOffset st (j * nc + i) = UInt.wrap (rowsum j i))
              /\ (forall j, 0 <= j < n ->
                    GRM.ba_strideBound st j = UInt.wrap (rowsum j nc))
              /\ GRM.ba_strideBound st npt = tot
              /\ (forall k, 0 <= k <= n -> k <= npt - 1 \/ k = 0 ->
                    GRM.ba_nBoundBeforeType st k
                    = UInt.wrap (zsum (fun t => rowsum t nc) k)))).
  - exact Hnpt.
  - cbn. repeat split; try (intros; lia).
    + now rewrite upd_same.
    + intros k Hk _. assert (k = 0) as -> by lia. now rewrite upd_same.
  - intros j st Hj (IH1 & IH2 & IH3 & IH4).
    rewrite (boundLayout_base j Hj).
    assert (Hlast : UInt.sub nc 1 = nc - 1).
    { unfold UInt.sub. apply wrap_small. nia. }
    assert (Hlastn : UInt.sub npt 1 = npt - 1).
    { unfold UInt.sub. apply wrap_small. nia. }
    rewrite Hlast, Hlastn.
    destruct (boundLayout_row j (GRM.ba_boundOffset st) Hj) as [R1 R2].
    cbv zeta in R1, R2.
    cbn [GRM.ba_boundOffset GRM.ba_strideBound GRM.ba_nBoundBeforeType].
    assert (Hsb : UInt.add
                    (for_range 1 nc
                       (fun i bo' =>
                          upd bo' (j * nc + i)
                            (UInt.add (bo' (j * nc + (i - 1)))
                               (nb (j * nc + (i - 1)))))
                       (upd (GRM.ba_boundOffset st) (j * nc + 0) 0)
                       (j * nc + (nc - 1)))
                    (nb (j * nc + (nc - 1)))
                  = UInt.wrap (rowsum j nc)).
    { rewrite R1 by lia. unfold rowsum.
      pose proof (zsum_succ (fun c => nb (j * nc + c)) (nc - 1) ltac:(lia)) as E.
      replace (nc - 1 + 1) with nc in E by lia. rewrite E. unwrap. }
    repeat split.
    + intros j' i Hj' Hi. destruct (Z.eq_dec j' j) as [->|Hne].
      * apply R1. exact Hi.
      * rewrite R2 by nia. apply IH1; lia.
    + intros j' Hj'. destruct (Z.eq_dec j' j) as [->|Hne].
      * rewrite upd_same. exact Hsb.
      * rewrite upd_other by exact Hne. apply IH2. lia.
    + rewrite upd_other by lia. exact IH3.
    + intros k Hk Hk'. rewrite upd_same, Hsb.
      destruct (Z.eqb_spec j (npt - 1)) as [E|E]; cbn [negb].
      * apply IH4; lia.
      * destruct (Z.eq_dec k (j + 1)) as [->|Hne].
        -- rewrite upd_same, IH4 by lia. rewrite zsum_succ by lia. unwrap.
        -- rewrite upd_other by exact Hne. apply IH4; lia.
Qed.

End BoundLayout.

(** ** What the descriptor holds of the input *)

Lemma copy_n_get (src : list Z) (n : Z) (dst : Z -> Z) (at_ j : Z) :
  copy_n src n dst at_ j
  = if (at_ <=? j) && (j <? at_ + n)
    then UInt.wrap (vget 0 src (j - at_)) else dst j.
Proof.
  unfold copy_n. destruct (Z_le_gt_dec 0 n) as [Hle|Hgt].
  - apply (for_range_inv
             (fun k a' => a' j = if (at_ <=? j) && (j <? at_ + k)
                                 then UInt.wrap (vget 0 src (j - at_))
                                 else dst j)).
    + exact Hle.
    + destruct (at_ <=? j) eqn:E1, (j <? at_ + 0) eqn:E2; try reflexivity; lia.
    + intros k a' Hk IH. unfold upd.
      destruct (Z.eqb_spec j (at_ + k)) as [->|Hne].
      * replace (at_ + k - at_) with k by lia.
        destruct (at_ <=? at_ + k) eqn:E1, (at_ + k <? at_ + (k + 1)) eqn:E2;
          try reflexivity; lia.
      * rewrite IH.
        destruct (at_ <=? j) eqn:E1, (j <? at_ + k) eqn:E2,
                 (j <? at_ + (k + 1)) eqn:E3; try reflexivity; lia.
  - rewrite for_range_nil by lia.
    destruct (at_ <=? j) eqn:E1, (j <? at_ + n) eqn:E2; try reflexivity; lia.
Qed.

Lemma readParCell_get (NPAR : list Z) (npt t : Z) :
  0 <= t < npt ->
  GRM.readParCell NPAR npt t
  = UInt.wrap (vget 0 NPAR (if vsize NPAR <? npt then 0 else t)).
Proof.
  intros Ht. unfold GRM.readParCell. destruct (vsize NPAR <? npt).
  - apply (for_range_inv
             (fun k a => 1 <= k -> a t = UInt.wrap (vget 0 NPAR 0)));
      [lia|lia| |lia].
    intros k a Hk _ _. rewrite fill_get.
    destruct (Z.leb_spec 0 t), (Z.ltb_spec t npt); try reflexivity; lia.
  - rewrite copy_n_get.
    destruct (Z.leb_spec 0 t), (Z.ltb_spec t (0 + npt)); try lia.
    cbn [andb]. now rewrite Z.sub_0_r.
Qed.

Lemma readBound_get (NBOUND : list Z) (nc npt t c : Z) :
  0 <= nc -> nc * npt < UInt.modulus ->
  0 <= t < npt -> 0 <= c < nc ->
  GRM.readBound NBOUND nc npt (t * nc + c)
  = UInt.wrap (vget 0 NBOUND
                 (if vsize NBOUND <? nc * npt then c else t * nc + c)).
Proof.
  intros Hnc Hfit Ht Hc. unfold GRM.readBound.
  assert (Hmul : UInt.mul nc npt = nc * npt).
  { unfold UInt.mul. apply wrap_small. nia. }
  rewrite Hmul. destruct (vsize NBOUND <? nc * npt).
  - cut (forall k, 0 <= k <= npt ->
           forall t' c', 0 <= t' < k -> 0 <= c' < nc ->
             for_range 0 k
               (fun i a => copy_n NBOUND nc a (UInt.mul i nc)) GRM.fresh
               (t' * nc + c')
             = UInt.wrap (vget 0 NBOUND c')).
    { intros H. apply (H npt); lia. }
    intros k Hk.
    apply (for_range_inv
             (fun k a => forall t' c', 0 <= t' < k -> 0 <= c' < nc ->
                a (t' * nc + c') = UInt.wrap (vget 0 NBOUND c'))); [lia|lia|].
    intros i a Hi IH t' c' Ht' Hc'. rewrite copy_n_get.
    assert (Hb : UInt.mul i nc = i * nc).
    { unfold UInt.mul. apply wrap_small. nia. }
    rewrite Hb.
    destruct (Z.eq_dec t' i) as [->|Hne].
    + destruct (Z.leb_spec (i * nc) (i * nc + c')),
               (Z.ltb_spec (i * nc + c') (i * nc + nc)); try lia.
      cbn [andb]. f_equal. f_equal. lia.
    + assert (t' * nc + c' < i * nc) by nia.
      destruct (Z.leb_spec (i * nc) (t' * nc + c')); try lia.
      cbn [andb]. apply IH; lia.
  - rewrite copy_n_get.
    assert (0 <= t * nc + c < nc * npt) by nia.
    destruct (Z.leb_spec 0 (t * nc + c)),
             (Z.ltb_spec (t * nc + c) (0 + nc * npt)); try lia.
    cbn [andb]. now rewrite Z.sub_0_r.
Qed.

(** The number of particle types that a successful configuration has
    settled on. *)
Lemma configured_nParType (p : GRM.DiscretizationInput) (d : GRM.Discretization) :
  GRM.configureDescriptor p = Ok d ->
  GRM.nComp d = UInt.wrap (GRM.NCOMP p)
  /\ GRM.nCol d = UInt.wrap (GRM.NCOL p)
  /\ GRM.nParType d
     = match GRM.NPARTYPE p with
       | Some n => UInt.wrap n
       | None =>
           UInt.wrap (Z.max (UInt.div (vsize (GRM.NBOUND p)) (GRM.nComp d))
                        (vsize (GRM.NPAR p)))
       end
  /\ GRM.nParCell d = GRM.readParCell (GRM.NPAR p) (GRM.nParType d)
  /\ GRM.nBound d
     = GRM.readBound (GRM.NBOUND p) (GRM.nComp d) (GRM.nParType d)
  /\ (let ba := GRM.boundLayout (GRM.nBound d) (GRM.nComp d) (GRM.nParType d)
                  (GRM.totalBound (GRM.nBound d) (GRM.nComp d) (GRM.nParType d)) in
      GRM.boundOffset d = GRM.ba_boundOffset ba
      /\ GRM.strideBound d = GRM.ba_strideBound ba
      /\ GRM.nBoundBeforeType d = GRM.ba_nBoundBeforeType ba).
Proof.
  unfold GRM.configureDescriptor. intros H.
  destruct (throw_if _ _) in H; [|discriminate]. cbn [bindR] in H.
  destruct (throw_if _ _) in H; [|discriminate]. cbn [bindR] in H.
  destruct (throw_if _ _) in H; [|discriminate]. cbn [bindR] in H.
  injection H as <-. cbn. repeat split; reflexivity.
Qed.

(** X1.  The arrays [nParCellsBeforeType] and [parTypeOffset] of a
    configured descriptor hold, at every index [k <= nParType], the number
    of shells and the number of particle entries of the types before [k],
    in unsigned arithmetic, and exactly when the totals are
    [unsigned int] values. *)
Theorem configured_offsets_prefix_sums (p : GRM.DiscretizationInput)
    (d : GRM.Discretization) (k : Z) :
  GRM.configureDescriptor p = Ok d ->
  GRM.nParType d + 1 < UInt.modulus ->
  0 <= k <= GRM.nParType d ->
  GRM.nParCellsBeforeType d k = UInt.wrap (zsum (GRM.nParCell d) k)
  /\ GRM.parTypeOffset d k = UInt.wrap (zsum (parTypeBlock d) k)
  /\ (zsum (GRM.nParCell d) (GRM.nParType d) < UInt.modulus ->
      GRM.nParCellsBeforeType d k = zsum (GRM.nParCell d) k)
  /\ (zsum (parTypeBlock d) (GRM.nParType d) < UInt.modulus ->
      GRM.parTypeOffset d k = zsum (parTypeBlock d) k).
Proof.
  intros H Hfit Hk.
  pose proof (configured_nParCellsBeforeType p d H Hfit k Hk) as Hc.
  pose proof (configured_parTypeOffset p d H Hfit k Hk) as Ho.
  destruct (configured_ranges p d H) as (_ & _ & _ & Hpc & _ & _).
  repeat split; try assumption.
  - intros Htot. rewrite Hc. apply wrap_small. split.
    + apply zsum_nonneg. intros i _. apply Hpc.
    + pose proof (zsum_mono (GRM.nParCell d) k (GRM.nParType d)
                    ltac:(intros; apply Hpc) ltac:(lia)). lia.
  - intros Htot. rewrite Ho. apply wrap_small. split.
    + apply zsum_nonneg. intros i _. apply (parTypeBlock_nonneg p d H).
    + pose proof (zsum_mono (parTypeBlock d) k (GRM.nParType d)
                    ltac:(intros; apply (parTypeBlock_nonneg p d H))
                    ltac:(lia)). lia.
Qed.

Lemma configured_offsets_prefix_sums_witness :
  exists d,
    GRM.configureDescriptor (GRM.mkDiscInput 2 3 [4; 5] [1; 2] None) = Ok d
    /\ GRM.nParCellsBeforeType d 2 = UInt.wrap (zsum (GRM.nParCell d) 2)
    /\ GRM.nParCellsBeforeType d 2 = 9.
Proof.
  eexists. split; [reflexivity|].
  match goal with
  | |- GRM.nParCellsBeforeType ?d 2 = _ /\ _ =>
      destruct (configured_offsets_prefix_sums
                  (GRM.mkDiscInput 2 3 [4; 5] [1; 2] None) d 2)
        as (Hw & _);
      [ reflexivity | vm_compute; reflexivity
      | vm_compute; split; discriminate | ]
  end.
  split; [exact Hw|vm_compute; reflexivity].
Defined.

(** X2.  In a configured descriptor with at least one component,
    [boundOffset] holds for every component of every particle type the
    number of bound states of the components before it, [strideBound] the
    number of bound states of each type and, in its last entry, of all
    types, and [nBoundBeforeType] the number of bound states of the types
    before (all in unsigned arithmetic). *)
Theorem configured_bound_layout (p : GRM.DiscretizationInput)
    (d : GRM.Discretization) :
  GRM.configureDescriptor p = Ok d ->
  1 <= GRM.nComp d ->
  GRM.nComp d * GRM.nParType d < UInt.modulus ->
  (forall t c, 0 <= t < GRM.nParType d -> 0 <= c < GRM.nComp d ->
     GRM.boundOffset d (t * GRM.nComp d + c)
     = UInt.wrap (boundStatesBefore d t c))
  /\ (forall t, 0 <= t < GRM.nParType d ->
        GRM.strideBound d t = UInt.wrap (boundStatesBefore d t (GRM.nComp d)))
  /\ GRM.strideBound d (GRM.nParType d)
     = UInt.wrap (zsum (GRM.nBound d) (GRM.nComp d * GRM.nParType d))
  /\ (forall t, 0 <= t < GRM.nParType d ->
        GRM.nBoundBeforeType d t = UInt.wrap (zsum (GRM.strideBound d) t)).
Proof.
  intros H Hnc Hfit.
  destruct (configured_ranges p d H) as (_ & _ & Hnpt & _ & _ & _).
  destruct (configured_nParType p d H) as (_ & _ & _ & _ & _ & Hbo & Hsb & Hbt).
  cbv zeta in Hbo, Hsb, Hbt.
  pose proof (boundLayout_spec (GRM.nBound d) (GRM.nComp d) (GRM.nParType d)
                (GRM.totalBound (GRM.nBound d) (GRM.nComp d) (GRM.nParType d))
                Hnc ltac:(lia) Hfit (totalBound_range _ _ _))
    as (B1 & B2 & B3 & B4).
  rewrite <- Hbo, <- Hsb, <- Hbt in *. unfold boundStatesBefore.
  repeat split.
  - exact B1.
  - exact B2.
  - rewrite B3. apply totalBound_sum. nia.
  - intros t Ht. rewrite B4 by exact Ht.
    rewrite <- wrap_zsum. f_equal. apply zsum_ext.
    intros i Hi. cbv beta. symmetry. apply B2. lia.
Qed.

Lemma configured_bound_layout_witness :
  exists d,
    GRM.configureDescriptor (GRM.mkDiscInput 2 3 [4; 5] [1; 2; 3; 4] None) = Ok d
    /\ GRM.strideBound d 1 = UInt.wrap (boundStatesBefore d 1 (GRM.nComp d))
    /\ GRM.strideBound d 1 = 7.
Proof.
  eexists. split; [reflexivity|].
  match goal with
  | |- GRM.strideBound ?d 1 = _ /\ _ =>
      destruct (configured_bound_layout
                  (GRM.mkDiscInput 2 3 [4; 5] [1; 2; 3; 4] None) d)
        as (_ & Hw & _);
      [ reflexivity | vm_compute; discriminate | vm_compute; reflexivity | ]
  end.
  split; [apply Hw; vm_compute; split; [discriminate|reflexivity]
         |vm_compute; reflexivity].
Defined.

(** X3.  A configured descriptor takes the number of shells of the type
    [t] from entry [t] of [NPAR], or from its first entry when [NPAR] has
    fewer entries than there are types, and the number of bound states of
    component [c] of type [t] from entry [t * nComp + c] of [NBOUND], or
    from entry [c] when [NBOUND] has fewer than [nComp * nParType]
    entries. *)
Theorem configured_multiplexing (p : GRM.DiscretizationInput)
    (d : GRM.Discretization) (t c : Z) :
  GRM.configureDescriptor p = Ok d ->
  GRM.nComp d * GRM.nParType d < UInt.modulus ->
  0 <= t < GRM.nParType d -> 0 <= c < GRM.nComp d ->
  GRM.nParCell d t
  = UInt.wrap (vget 0 (GRM.NPAR p)
                 (if vsize (GRM.NPAR p) <? GRM.nParType d then 0 else t))
  /\ GRM.nBound d (t * GRM.nComp d + c)
     = UInt.wrap (vget 0 (GRM.NBOUND p)
                    (if vsize (GRM.NBOUND p) <? GRM.nComp d * GRM.nParType d
                     then c else t * GRM.nComp d + c)).
Proof.
  intros H Hfit Ht Hc.
  destruct (configured_nParType p d H) as (_ & _ & _ & Hpc & Hnb & _).
  pose proof (f_equal (fun f => f t) Hpc) as E1.
  pose proof (f_equal (fun f => f (t * GRM.nComp d + c)) Hnb) as E2.
  cbv beta in E1, E2. split.
  - rewrite E1. now apply readParCell_get.
  - rewrite E2. apply readBound_get; try assumption. lia.
Qed.

Lemma configured_multiplexing_witness :
  exists d,
    GRM.configureDescriptor (GRM.mkDiscInput 2 3 [4] [1; 2] (Some 3)) = Ok d
    /\ GRM.nParCell d 2 = 4 /\ GRM.nBound d (2 * GRM.nComp d + 1) = 2.
Proof.
  eexists. split; [reflexivity|].
  match goal with
  | |- GRM.nParCell ?d 2 = _ /\ _ =>
      destruct (configured_multiplexing
                  (GRM.mkDiscInput 2 3 [4] [1; 2] (Some 3)) d 2 1)
        as (H1 & H2);
      [ reflexivity | vm_compute; reflexivity
      | vm_compute; split; [discriminate|reflexivity]
      | vm_compute; split; [discriminate|reflexivity] | ]
  end.
  split; [rewrite H1|rewrite H2]; vm_compute; reflexivity.
Defined.

(** X4.  When [NPARTYPE] is absent, [NPAR] has two entries or more and
    [NBOUND] has more than [NCOMP] entries, the configuration of the
    descriptor succeeds exactly when [NBOUND] holds the bound states of as
    many types as [NPAR] has entries, and this is then the number of
    particle types; otherwise it throws, naming [NPAR] when [NBOUND] holds
    more types and [NBOUND] when it holds fewer. *)
Theorem configureDescriptor_inferred_types (p : GRM.DiscretizationInput) :
  GRM.NPARTYPE p = None ->
  1 <= GRM.NCOMP p ->
  2 <= vsize (GRM.NPAR p) ->
  GRM.NCOMP p < vsize (GRM.NBOUND p) < UInt.modulus ->
  GRM.NCOMP p * vsize (GRM.NPAR p) < UInt.modulus ->
  match GRM.configureDescriptor p with
  | Ok d =>
      vsize (GRM.NBOUND p) / GRM.NCOMP p = vsize (GRM.NPAR p)
      /\ GRM.nParType d = vsize (GRM.NPAR p)
  | Throw (InvalidParameterException field) =>
      (vsize (GRM.NPAR p) < vsize (GRM.NBOUND p) / GRM.NCOMP p
       /\ field = "NPAR"%string)
      \/ (vsize (GRM.NBOUND p) / GRM.NCOMP p < vsize (GRM.NPAR p)
          /\ field = "NBOUND"%string)
  end.
Proof.
  intros Hnone Hnc Hnpar Hnb Hfit. unfold GRM.configureDescriptor.
  rewrite Hnone.
  set (nc := GRM.NCOMP p) in *. set (k := vsize (GRM.NPAR p)) in *.
  set (sz := vsize (GRM.NBOUND p)) in *.
  assert (Hwnc : UInt.wrap nc = nc) by (apply wrap_small; lia).
  rewrite Hwnc. unfold UInt.div.
  set (q := sz / nc).
  assert (Hq : 0 <= q <= sz).
  { unfold q. split; [apply Z.div_pos; lia|]. apply Z.div_le_upper_bound; nia. }
  assert (Hqlo : nc * q <= sz) by (unfold q; apply Z.mul_div_le; lia).
  assert (Hqhi : sz < nc * (q + 1)).
  { unfold q. pose proof (Z.mul_succ_div_gt sz nc ltac:(lia)). lia. }
  assert (Hk : k < UInt.modulus) by nia.
  assert (Hmax : UInt.wrap (Z.max q k) = Z.max q k) by (apply wrap_small; lia).
  rewrite Hmax.
  destruct (Z.ltb_spec sz nc); [lia|]. cbn [throw_if bindR].
  destruct (Z.ltb_spec 1 k); [|lia]. cbn [andb].
  destruct (Z.ltb_spec k (Z.max q k)) as [Hlt|Hge]; cbn [throw_if bindR].
  - left. split; [lia|reflexivity].
  - assert (Hmk : Z.max q k = k) by lia. rewrite Hmk.
    assert (Hmul : UInt.mul nc k = nc * k) by (apply wrap_small; nia).
    rewrite Hmul.
    destruct (Z.ltb_spec nc sz); [|lia]. cbn [andb].
    destruct (Z.ltb_spec sz (nc * k)) as [Hlt|Hge']; cbn [throw_if bindR].
    + right. split; [|reflexivity].
      destruct (Z_lt_ge_dec q k); [assumption|]. nia.
    + cbn [GRM.nParType]. split; [|reflexivity].
      assert (k <= q); [|lia].
      destruct (Z_le_gt_dec k q); [assumption|]. nia.
Qed.

Lemma configureDescriptor_inferred_types_witness :
  match GRM.configureDescriptor (GRM.mkDiscInput 2 3 [4; 5] [1; 2; 3; 4; 5; 6] None) with
  | Ok _ => False
  | Throw (InvalidParameterException field) => field = "NPAR"%string
  end.
Proof.
  pose proof (configureDescriptor_inferred_types
                (GRM.mkDiscInput 2 3 [4; 5] [1; 2; 3; 4; 5; 6] None)
                eq_refl ltac:(vm_compute; discriminate)
                ltac:(vm_compute; discriminate)
                ltac:(vm_compute; split; reflexivity)
                ltac:(vm_compute; reflexivity)) as H.
  destruct (GRM.configureDescriptor _) as [d|[field]].
  - destruct H as [H _]. vm_compute in H. discriminate H.
  - destruct H as [[_ H]|[H _]]; [exact H|].
    vm_compute in H. discriminate H.
Defined.

(** ** Radial discretization of every particle type *)

Lemma rsum_ext_eq (f g : Z -> R) (n : Z) :
  (forall i, 0 <= i < n -> f i = g i) -> rsum f n = rsum g n.
Proof. apply rsum_ext. Qed.

(** The three properties of the shells of a type look at the entries of the
    type only. *)
Lemma geometry_ok_ext (g g' : GRM.Geometry) (off n : Z) (Rc Rp : R) :
  1 <= n ->
  (forall s, 0 <= s < n ->
     GRM.parCellSize g' (off + s) = GRM.parCellSize g (off + s)
     /\ GRM.parCenterRadius g' (off + s) = GRM.parCenterRadius g (off + s)) ->
  geometry_ok g off n Rc Rp -> geometry_ok g' off n Rc Rp.
Proof.
  intros Hn Heq (Hsum & Hdec & [H1 H2 H3 H4]).
  assert (Ho : forall s, 0 <= s < n ->
            outerRadius g' (off + s) = outerRadius g (off + s)).
  { intros s Hs. unfold outerRadius. destruct (Heq s Hs) as [-> ->]. reflexivity. }
  assert (Hi : forall s, 0 <= s < n ->
            innerRadius g' (off + s) = innerRadius g (off + s)).
  { intros s Hs. unfold innerRadius. destruct (Heq s Hs) as [-> ->]. reflexivity. }
  split; [|split].
  - rewrite <- Hsum. apply rsum_ext. intros s Hs. apply Heq. exact Hs.
  - intros s Hs Hs'.
    destruct (Heq s ltac:(lia)) as [_ ->].
    destruct (Heq (s + 1) ltac:(lia)) as [_ ->]. now apply Hdec.
  - split.
    + replace off with (off + 0) by lia. rewrite Ho by lia.
      replace (off + 0) with off by lia. exact H1.
    + replace (off + n - 1) with (off + (n - 1)) in * by lia.
      rewrite Hi by lia. exact H2.
    + intros s Hs. rewrite Ho, Hi by lia. now apply H3.
    + intros s Hs Hs'. rewrite Ho, Hi by lia. now apply H4.
Qed.

(** Each of the three discretizations writes the entries of its own type
    only. *)
Lemma setEquidistantRadialDisc_frame (d : GRM.Discretization)
    (parRadius parCoreRadius : Z -> R) (t : Z) (g : GRM.Geometry) (j : Z) :
  ~ (GRM.nParCellsBeforeType d t <= j
     < GRM.nParCellsBeforeType d t + GRM.nParCell d t) ->
  let g' := GRM.setEquidistantRadialDisc d parRadius parCoreRadius t g in
  GRM.parCellSize g' j = GRM.parCellSize g j
  /\ GRM.parCenterRadius g' j = GRM.parCenterRadius g j.
Proof.
  intros Hj. cbv zeta. unfold GRM.setEquidistantRadialDisc.
  apply (for_range_preserves
           (fun st => GRM.parCellSize st j = GRM.parCellSize g j
                      /\ GRM.parCenterRadius st j = GRM.parCenterRadius g j)).
  - cbn [GRM.parCellSize GRM.parCenterRadius]. split; [|reflexivity].
    rewrite fill_get.
    destruct (Z.leb_spec (GRM.nParCellsBeforeType d t) j),
             (Z.ltb_spec j (GRM.nParCellsBeforeType d t + GRM.nParCell d t));
      try reflexivity; lia.
  - intros i st Hi [H1 H2]. cbn [GRM.parCellSize GRM.parCenterRadius].
    split; [exact H1|]. rewrite upd_other by lia. exact H2.
Qed.

Lemma setEquivolumeRadialDisc_frame (d : GRM.Discretization)
    (parRadius parCoreRadius : Z -> R) (t : Z) (g : GRM.Geometry) (j : Z) :
  ~ (GRM.nParCellsBeforeType d t <= j
     < GRM.nParCellsBeforeType d t + GRM.nParCell d t) ->
  let g' := GRM.setEquivolumeRadialDisc d parRadius parCoreRadius t g in
  GRM.parCellSize g' j = GRM.parCellSize g j
  /\ GRM.parCenterRadius g' j = GRM.parCenterRadius g j.
Proof.
  intros Hj. cbv zeta. unfold GRM.setEquivolumeRadialDisc.
  apply (for_range_preserves
           (fun st =>
              GRM.parCellSize (GRM.ev_geometry st) j = GRM.parCellSize g j
              /\ GRM.parCenterRadius (GRM.ev_geometry st) j
                 = GRM.parCenterRadius g j)).
  - split; reflexivity.
  - intros i st Hi [H1 H2].
    cbn [GRM.ev_geometry GRM.parCellSize GRM.parCenterRadius].
    rewrite !upd_other by lia. split; assumption.
Qed.

Lemma setUserdefinedRadialDisc_frame (d : GRM.Discretization)
    (parRadius parCoreRadius : Z -> R) (parDiscVector : list R) (t : Z)
    (g : GRM.Geometry) (j : Z) :
  ~ (GRM.nParCellsBeforeType d t <= j
     < GRM.nParCellsBeforeType d t + GRM.nParCell d t) ->
  let g' :=
    GRM.setUserdefinedRadialDisc d parRadius parCoreRadius parDiscVector t g in
  GRM.parCellSize g' j = GRM.parCellSize g j
  /\ GRM.parCenterRadius g' j = GRM.parCenterRadius g j.
Proof.
  intros Hj. cbv zeta. unfold GRM.setUserdefinedRadialDisc.
  apply (for_range_preserves
           (fun st => GRM.parCellSize st j = GRM.parCellSize g j
                      /\ GRM.parCenterRadius st j = GRM.parCenterRadius g j)).
  - split; reflexivity.
  - intros i st Hi [H1 H2]. cbn [GRM.parCellSize GRM.parCenterRadius].
    rewrite !upd_other by lia. split; assumption.
Qed.

(** X5.  The equidistant discretization of a particle type with at least
    one shell and a radius above the core radius yields shells of the
    size [(R - R_core) / nParCell] that add up to [R - R_core], have
    strictly decreasing centres and cover [[R_core, R]] without overlap,
    from the outside to the inside. *)
Theorem setEquidistantRadialDisc_geometry (d : GRM.Discretization)
    (parRadius parCoreRadius : Z -> R) (t : Z) (g : GRM.Geometry) :
  1 <= GRM.nParCell d t ->
  (parCoreRadius t < parRadius t)%R ->
  let g' := GRM.setEquidistantRadialDisc d parRadius parCoreRadius t g in
  (forall s, 0 <= s < GRM.nParCell d t ->
     GRM.parCellSize g' (GRM.nParCellsBeforeType d t + s)
     = ((parRadius t - parCoreRadius t) / IZR (GRM.nParCell d t))%R)
  /\ geometry_ok g' (GRM.nParCellsBeforeType d t) (GRM.nParCell d t)
       (parCoreRadius t) (parRadius t).
Proof.
  intros Hn Hr. cbv zeta. split.
  - intros s Hs. now apply equidistant_parCellSize.
  - now apply equidistant_geometry_ok.
Qed.

Lemma setEquidistantRadialDisc_geometry_witness :
  let d := GRM.mkDisc 1 1 1 (fun _ => 2) (fun _ => 0) (fun _ => 0)
             (fun _ => 0) (fun _ => 0) (fun _ => 0) (fun _ => 0) in
  let g := GRM.mkGeometry (fun _ => 0%R) (fun _ => 0%R) (fun _ => 0%R)
             (fun _ => 0%R) in
  geometry_ok
    (GRM.setEquidistantRadialDisc d (fun _ => 2%R) (fun _ => 1%R) 0 g)
    0 2 1%R 2%R.
Proof.
  intros d g.
  exact (proj2 (setEquidistantRadialDisc_geometry d (fun _ => 2%R)
                  (fun _ => 1%R) 0 g ltac:(cbn; lia) ltac:(lra))).
Defined.

(** X6.  The equivolume discretization of a particle type with at least
    one shell and [0 <= R_core < R] yields shells that add up to
    [R - R_core], have strictly decreasing centres, cover [[R_core, R]]
    without overlap, and all have the same volume: the cubes of the two
    faces of every shell differ by [(R^3 - R_core^3) / nParCell]. *)
Theorem setEquivolumeRadialDisc_geometry (d : GRM.Discretization)
    (parRadius parCoreRadius : Z -> R) (t : Z) (g : GRM.Geometry) :
  1 <= GRM.nParCell d t < UInt.modulus ->
  (0 <= parCoreRadius t)%R ->
  (parCoreRadius t < parRadius t)%R ->
  let g' := GRM.setEquivolumeRadialDisc d parRadius parCoreRadius t g in
  let off := GRM.nParCellsBeforeType d t in
  geometry_ok g' off (GRM.nParCell d t) (parCoreRadius t) (parRadius t)
  /\ (forall s, 0 <= s < GRM.nParCell d t ->
        (GRM.cube (outerRadius g' (off + s)) - GRM.cube (innerRadius g' (off + s))
         = (GRM.cube (parRadius t) - GRM.cube (parCoreRadius t))
           / IZR (GRM.nParCell d t))%R).
Proof.
  intros Hn Hc Hr. cbv zeta. split.
  - now apply equivolume_geometry_ok.
  - intros s Hs. unfold outerRadius, innerRadius.
    destruct (equivolume_loop d parRadius parCoreRadius t g s Hs) as [-> ->].
    set (V := ((GRM.cube (parRadius t) - GRM.cube (parCoreRadius t))
               / IZR (GRM.nParCell d t))%R).
    set (rho := fun s : Z =>
                  equivolume_radius (parRadius t) (parCoreRadius t) V
                    (GRM.nParCell d t) (Z.to_nat s)).
    change ((GRM.cube ((rho s + rho (s + 1)%Z) * 0.5
                       + (rho s - rho (s + 1)%Z) / 2)
             - GRM.cube ((rho s + rho (s + 1)%Z) * 0.5
                         - (rho s - rho (s + 1)%Z) / 2)
             = V)%R).
    replace ((rho s + rho (s + 1)%Z) * 0.5 + (rho s - rho (s + 1)%Z) / 2)%R
      with (rho s) by lra.
    replace ((rho s + rho (s + 1)%Z) * 0.5 - (rho s - rho (s + 1)%Z) / 2)%R
      with (rho (s + 1)) by lra.
    destruct (rho_cube d parRadius parCoreRadius t Hn Hc Hr s Hs) as [_ E].
    fold V in E. fold (rho s) in E. rewrite E.
    destruct (Z.eq_dec (s + 1) (GRM.nParCell d t)) as [En|Hne].
    + assert (En' : rho (s + 1) = parCoreRadius t).
      { unfold rho. rewrite En. exact (rho_n d parRadius parCoreRadius t Hn). }
      rewrite En'.
      pose proof (equivolume_nV d parRadius parCoreRadius t Hn) as HnV.
      fold V in HnV. rewrite <- En in HnV. rewrite plus_IZR in HnV. lra.
    + destruct (rho_cube d parRadius parCoreRadius t Hn Hc Hr (s + 1)
                  ltac:(lia)) as [_ E'].
      fold V in E'. fold (rho (s + 1)) in E'. rewrite E', plus_IZR. lra.
Qed.

Lemma setEquivolumeRadialDisc_geometry_witness :
  let d := GRM.mkDisc 1 1 1 (fun _ => 2) (fun _ => 0) (fun _ => 0)
             (fun _ => 0) (fun _ => 0) (fun _ => 0) (fun _ => 0) in
  let g := GRM.mkGeometry (fun _ => 0%R) (fun _ => 0%R) (fun _ => 0%R)
             (fun _ => 0%R) in
  geometry_ok
    (GRM.setEquivolumeRadialDisc d (fun _ => 2%R) (fun _ => 1%R) 0 g)
    0 2 1%R 2%R.
Proof.
  intros d g.
  exact (proj1 (setEquivolumeRadialDisc_geometry d (fun _ => 2%R)
                  (fun _ => 1%R) 0 g
                  ltac:(cbn; unfold UInt.modulus; lia) ltac:(lra) ltac:(lra))).
Defined.

Lemma sort_desc_sorted (l : list R) :
  (forall i, (Datatypes.S i < List.length l)%nat ->
     (nth (Datatypes.S i) l 0 < nth i l 0)%R) ->
  GRM.sort_desc l = l.
Proof.
  induction l as [|x l IH]; intros H; [reflexivity|].
  unfold GRM.sort_desc in *. cbn [fold_right].
  rewrite IH.
  - destruct l as [|y tl]; [reflexivity|]. cbn [GRM.insert_desc].
    specialize (H O ltac:(simpl; lia)). cbn [nth] in H.
    destruct (Rlt_dec x y); [lra|reflexivity].
  - intros i Hi. apply (H (Datatypes.S i)). simpl. lia.
Qed.

Section UserdefinedInterfaces.
Variable d : GRM.Discretization.
Variables parRadius parCoreRadius : Z -> R.
Variable parDiscVector : list R.
Variable t : Z.

Local Abbreviation n := (GRM.nParCell d t).
Local Abbreviation sl :=
  (GRM.slice parDiscVector (UInt.add (GRM.nParCellsBeforeType d t) t) (n + 1)).
Local Abbreviation oi :=
  (GRM.orderedInterfaces d parRadius parCoreRadius parDiscVector t).

Hypothesis Hn : 1 <= n.
Hypothesis Hvector : vsize sl = n + 1.
Hypothesis Hdecreasing :
  forall i, 0 <= i < n -> (vget 0 sl (i + 1) < vget 0 sl i)%R.

(** Interfaces that are handed over in decreasing order are kept in their
    places; the first one becomes the particle radius and the last one
    [0]. *)
Lemma orderedInterfaces_sorted_input (i : Z) :
  0 <= i <= n ->
  vget 0%R oi i
  = if i =? n then 0%R
    else ((if i =? 0 then 1 else vget 0 sl i)
          * (parRadius t - parCoreRadius t) + parCoreRadius t)%R.
Proof.
  intros Hi. unfold GRM.orderedInterfaces.
  assert (Hsort : GRM.sort_desc sl = sl).
  { apply sort_desc_sorted. intros k Hk.
    assert (Hlen : Z.of_nat (List.length sl) = n + 1) by exact Hvector.
    specialize (Hdecreasing (Z.of_nat k) ltac:(lia)).
    unfold vget in Hdecreasing.
    replace (Z.to_nat (Z.of_nat k + 1)) with (Datatypes.S k) in Hdecreasing by lia.
    now rewrite Nat2Z.id in Hdecreasing. }
  rewrite Hsort.
  set (o1 := vset (vset sl 0 1%R) _ 0%R).
  assert (Hlen : vsize o1 = n + 1) by (unfold o1; now rewrite !vsize_vset).
  assert (Ho1 : forall k, 0 <= k <= n ->
            vget 0%R o1 k
            = if k =? n then 0%R else if k =? 0 then 1%R else vget 0%R sl k).
  { intros k Hk. unfold o1. rewrite vsize_vset, Hvector.
    replace (n + 1 - 1) with n by lia.
    destruct (Z.eqb_spec k n) as [->|Hne].
    - apply vget_vset_same. rewrite vsize_vset. lia.
    - rewrite vget_vset_other by lia.
      destruct (Z.eqb_spec k 0) as [->|Hne0].
      + apply vget_vset_same. lia.
      + apply vget_vset_other; lia. }
  cut (forall k, 0 <= k <= n ->
         vget 0%R (for_range 0 n
            (fun cell oi' =>
               vset oi' cell
                 (vget 0 oi' cell * (parRadius t - parCoreRadius t)
                  + parCoreRadius t)%R) o1) k
         = if k <? n
           then (vget 0 o1 k * (parRadius t - parCoreRadius t)
                 + parCoreRadius t)%R
           else vget 0%R o1 k).
  { intros H. rewrite H by exact Hi. rewrite Ho1 by exact Hi.
    destruct (Z.eqb_spec i n) as [->|Hne].
    - destruct (Z.ltb_spec n n); [lia|reflexivity].
    - destruct (Z.ltb_spec i n); [reflexivity|lia]. }
  cut (vsize (for_range 0 n
                (fun cell oi' =>
                   vset oi' cell
                     (vget 0 oi' cell * (parRadius t - parCoreRadius t)
                      + parCoreRadius t)%R) o1) = n + 1
       /\ forall k, 0 <= k <= n ->
            vget 0%R (for_range 0 n
               (fun cell oi' =>
                  vset oi' cell
                    (vget 0 oi' cell * (parRadius t - parCoreRadius t)
                     + parCoreRadius t)%R) o1) k
            = if k <? n
              then (vget 0 o1 k * (parRadius t - parCoreRadius t)
                    + parCoreRadius t)%R
              else vget 0%R o1 k).
  { intros [_ H]. exact H. }
  apply (for_range_inv
           (fun j o =>
              vsize o = n + 1
              /\ forall k, 0 <= k <= n ->
                   vget 0%R o k
                   = if k <? j
                     then (vget 0 o1 k * (parRadius t - parCoreRadius t)
                           + parCoreRadius t)%R
                     else vget 0%R o1 k)).
  - lia.
  - split; [exact Hlen|]. intros k Hk.
    destruct (Z.ltb_spec k 0); [lia|reflexivity].
  - intros j o Hj [Hl IH]. split; [now rewrite vsize_vset|].
    intros k Hk. destruct (Z.eq_dec k j) as [->|Hne].
    + rewrite vget_vset_same by lia. rewrite IH by lia.
      destruct (Z.ltb_spec j j); [lia|].
      destruct (Z.ltb_spec j (j + 1)); [reflexivity|lia].
    + rewrite vget_vset_other by lia. rewrite IH by lia.
      destruct (Z.ltb_spec k j), (Z.ltb_spec k (j + 1)); try reflexivity; lia.
Qed.

End UserdefinedInterfaces.

(** X7.  In the user-defined discretization of a particle type with at
    least one shell whose [nParCell + 1] interfaces are present in
    [PAR_DISC_VECTOR], the sizes of the shells add up to the particle
    radius and the inner face of the innermost shell is at the radius
    [0], whatever the core radius is. *)
Theorem setUserdefinedRadialDisc_reaches_centre (d : GRM.Discretization)
    (parRadius parCoreRadius : Z -> R) (parDiscVector : list R) (t : Z)
    (g : GRM.Geometry) :
  1 <= GRM.nParCell d t ->
  vsize (GRM.slice parDiscVector (UInt.add (GRM.nParCellsBeforeType d t) t)
           (GRM.nParCell d t + 1)) = GRM.nParCell d t + 1 ->
  let g' :=
    GRM.setUserdefinedRadialDisc d parRadius parCoreRadius parDiscVector t g in
  let off := GRM.nParCellsBeforeType d t in
  rsum (fun s => GRM.parCellSize g' (off + s)) (GRM.nParCell d t) = parRadius t
  /\ outerRadius g' off = parRadius t
  /\ innerRadius g' (off + GRM.nParCell d t - 1) = 0%R.
Proof.
  intros Hn Hv. cbv zeta. repeat split.
  - now apply userdefined_parCellSize_sum.
  - unfold outerRadius.
    replace (GRM.nParCellsBeforeType d t)
      with (GRM.nParCellsBeforeType d t + 0) by lia.
    destruct (userdefined_loop d parRadius parCoreRadius parDiscVector t g 0
                ltac:(lia)) as [-> ->].
    destruct (orderedInterfaces_ends d parRadius parCoreRadius parDiscVector t
                Hn Hv) as [E _].
    rewrite E. lra.
  - now apply userdefined_innermost_face.
Qed.

Lemma setUserdefinedRadialDisc_reaches_centre_witness :
  let d := GRM.mkDisc 1 1 1 (fun _ => 2) (fun _ => 0) (fun _ => 0)
             (fun _ => 0) (fun _ => 0) (fun _ => 0) (fun _ => 0) in
  let g := GRM.mkGeometry (fun _ => 0%R) (fun _ => 0%R) (fun _ => 0%R)
             (fun _ => 0%R) in
  let g' :=
    GRM.setUserdefinedRadialDisc d (fun _ => 2%R) (fun _ => 1%R)
      [1%R; (1 / 2)%R; 0%R] 0 g in
  rsum (fun s => GRM.parCellSize g' (0 + s)) 2 = 2%R.
Proof.
  intros d g.
  exact (proj1 (setUserdefinedRadialDisc_reaches_centre d (fun _ => 2%R)
                  (fun _ => 1%R) [1%R; (1 / 2)%R; 0%R] 0 g
                  ltac:(cbn; lia) ltac:(vm_compute; reflexivity))).
Defined.

(** X8.  In the user-defined discretization of a particle type without
    core, interfaces that are handed over in strictly decreasing order with
    all inner interfaces strictly between [0] and [1] yield shells that add
    up to the particle radius, with strictly decreasing centres, covering
    [[0, R]] without overlap; shell [s] lies between the interfaces [s] and
    [s + 1] scaled by the radius. *)
Theorem setUserdefinedRadialDisc_without_core (d : GRM.Discretization)
    (parRadius parCoreRadius : Z -> R) (parDiscVector : list R) (t : Z)
    (g : GRM.Geometry) :
  let n := GRM.nParCell d t in
  let off := GRM.nParCellsBeforeType d t in
  let sl := GRM.slice parDiscVector (UInt.add off t) (n + 1) in
  1 <= n ->
  vsize sl = n + 1 ->
  (forall i, 0 <= i < n -> (vget 0 sl (i + 1) < vget 0 sl i)%R) ->
  (forall i, 0 < i < n -> (0 < vget 0 sl i < 1)%R) ->
  parCoreRadius t = 0%R ->
  (0 < parRadius t)%R ->
  geometry_ok
    (GRM.setUserdefinedRadialDisc d parRadius parCoreRadius parDiscVector t g)
    off n 0%R (parRadius t).
Proof.
  intros n off sl Hn Hv Hdec Hin Hcore Hr.
  set (g' := GRM.setUserdefinedRadialDisc d parRadius parCoreRadius
               parDiscVector t g).
  set (x := fun i : Z =>
              if i =? n then 0%R
              else if i =? 0 then parRadius t
              else (vget 0 sl i * parRadius t)%R).
  assert (Hoi : forall i, 0 <= i <= n ->
            vget 0%R (GRM.orderedInterfaces d parRadius parCoreRadius
                        parDiscVector t) i = x i).
  { intros i Hi.
    rewrite (orderedInterfaces_sorted_input d parRadius parCoreRadius
               parDiscVector t Hn Hv Hdec i Hi).
    unfold x, sl, off, n. rewrite Hcore.
    destruct (i =? GRM.nParCell d t); [reflexivity|]. destruct (i =? 0); lra. }
  assert (Hx : forall i, 0 <= i < n -> (x (i + 1)%Z < x i)%R).
  { intros i Hi. unfold x.
    destruct (Z.eqb_spec (i + 1) n) as [E1|E1],
             (Z.eqb_spec i n) as [E2|E2],
             (Z.eqb_spec (i + 1) 0) as [E3|E3],
             (Z.eqb_spec i 0) as [E4|E4]; try lia.
    - exact Hr.
    - pose proof (Hin i ltac:(lia)). nra.
    - pose proof (Hin (i + 1) ltac:(lia)). nra.
    - pose proof (Hdec i ltac:(lia)). nra. }
  assert (Hsize : forall s, 0 <= s < n ->
            GRM.parCellSize g' (off + s) = (x s - x (s + 1)%Z)%R).
  { intros s Hs.
    destruct (userdefined_loop d parRadius parCoreRadius parDiscVector t g s Hs)
      as [E _].
    unfold g', off. rewrite E. now rewrite !Hoi by lia. }
  assert (Hcen : forall s, 0 <= s < n ->
            GRM.parCenterRadius g' (off + s) = ((x s + x (s + 1)%Z) * 0.5)%R).
  { intros s Hs.
    destruct (userdefined_loop d parRadius parCoreRadius parDiscVector t g s Hs)
      as [_ E].
    unfold g', off. rewrite E. now rewrite !Hoi by lia. }
  assert (H0 : x 0 = parRadius t).
  { unfold x. destruct (Z.eqb_spec 0 n); [lia|reflexivity]. }
  assert (Hlast : x n = 0%R) by (unfold x; now rewrite Z.eqb_refl).
  split; [|split].
  - rewrite (rsum_ext _ (fun s => (x s - x (s + 1)%Z)%R)) by exact Hsize.
    rewrite rsum_telescope by lia. rewrite H0, Hlast. lra.
  - intros s Hs Hs'. rewrite !Hcen by lia.
    pose proof (Hx s ltac:(lia)). pose proof (Hx (s + 1) ltac:(lia)). lra.
  - split.
    + unfold outerRadius. replace off with (off + 0) by lia.
      rewrite Hsize, Hcen by lia. rewrite H0. lra.
    + unfold innerRadius. replace (off + n - 1) with (off + (n - 1)) by lia.
      rewrite Hsize, Hcen by lia.
      replace (n - 1 + 1) with n by lia. rewrite Hlast. lra.
    + intros s Hs. unfold innerRadius, outerRadius.
      rewrite Hsize, Hcen by lia. pose proof (Hx s Hs). lra.
    + intros s Hs Hs'. unfold innerRadius, outerRadius.
      rewrite !Hsize, !Hcen by lia. lra.
Qed.

Lemma setUserdefinedRadialDisc_without_core_witness :
  let d := GRM.mkDisc 1 1 1 (fun _ => 2) (fun _ => 0) (fun _ => 0)
             (fun _ => 0) (fun _ => 0) (fun _ => 0) (fun _ => 0) in
  let g := GRM.mkGeometry (fun _ => 0%R) (fun _ => 0%R) (fun _ => 0%R)
             (fun _ => 0%R) in
  geometry_ok
    (GRM.setUserdefinedRadialDisc d (fun _ => 2%R) (fun _ => 0%R)
       [1%R; (1 / 2)%R; 0%R] 0 g)
    0 2 0%R 2%R.
Proof.
  intros d g.
  assert (Hdec : forall i, 0 <= i < 2 ->
            (vget 0 [1; 1 / 2; 0] (i + 1) < vget 0 [1; 1 / 2; 0] i)%R).
  { intros i Hi. assert (i = 0 \/ i = 1) as [-> | ->] by lia; unfold vget.
    - change (Z.to_nat (0 + 1)) with 1%nat. change (Z.to_nat 0) with 0%nat.
      cbn [nth]. lra.
    - change (Z.to_nat (1 + 1)) with 2%nat. change (Z.to_nat 1) with 1%nat.
      cbn [nth]. lra. }
  assert (Hin : forall i, 0 < i < 2 -> (0 < vget 0 [1; 1 / 2; 0] i < 1)%R).
  { intros i Hi. assert (i = 1) as -> by lia. unfold vget.
    change (Z.to_nat 1) with 1%nat. cbn [nth]. lra. }
  exact (setUserdefinedRadialDisc_without_core d (fun _ => 2%R) (fun _ => 0%R)
           [1%R; (1 / 2)%R; 0%R] 0 g ltac:(cbn; lia) eq_refl Hdec Hin
           eq_refl ltac:(lra)).
Defined.

Lemma configured_blocks_disjoint (p : GRM.DiscretizationInput)
    (d : GRM.Discretization) (t t' : Z) :
  GRM.configureDescriptor p = Ok d ->
  GRM.nParType d + 1 < UInt.modulus ->
  zsum (GRM.nParCell d) (GRM.nParType d) < UInt.modulus ->
  0 <= t < t' -> t' <= GRM.nParType d ->
  GRM.nParCellsBeforeType d t + GRM.nParCell d t
  <= GRM.nParCellsBeforeType d t'.
Proof.
  intros H Hfit Htot Ht Ht'.
  destruct (configured_ranges p d H) as (_ & _ & _ & Hpc & _ & _).
  assert (E : forall k, 0 <= k <= GRM.nParType d ->
            GRM.nParCellsBeforeType d k = zsum (GRM.nParCell d) k).
  { intros k Hk. rewrite (configured_nParCellsBeforeType p d H Hfit k Hk).
    apply wrap_small. split.
    - apply zsum_nonneg. intros i _. apply Hpc.
    - pose proof (zsum_mono (GRM.nParCell d) k (GRM.nParType d)
                    ltac:(intros; apply Hpc) ltac:(lia)). lia. }
  rewrite !E by lia. rewrite <- zsum_succ by lia.
  apply zsum_mono; [intros; apply Hpc|lia].
Qed.

(** X9.  After [updateRadialDisc] on a configured descriptor, every
    particle type with an equidistant or equivolume discretization, at least
    one shell and [0 <= R_core < R] has shells that add up to
    [R - R_core], with strictly decreasing centres, covering
    [[R_core, R]] without overlap, whatever the discretizations and radii of
    the other types are. *)
Theorem updateRadialDisc_geometry (p : GRM.DiscretizationInput)
    (d : GRM.Discretization) (parDiscType : list GRM.ParticleDiscretizationMode)
    (parRadius parCoreRadius : Z -> R) (parDiscVector : list R)
    (g : GRM.Geometry) (t : Z) :
  GRM.configureDescriptor p = Ok d ->
  GRM.nParType d + 1 < UInt.modulus ->
  zsum (GRM.nParCell d) (GRM.nParType d) < UInt.modulus ->
  0 <= t < GRM.nParType d ->
  1 <= GRM.nParCell d t ->
  (0 <= parCoreRadius t < parRadius t)%R ->
  vget GRM.Equidistant parDiscType t <> GRM.UserDefined ->
  geometry_ok
    (GRM.updateRadialDisc d parDiscType parRadius parCoreRadius parDiscVector g)
    (GRM.nParCellsBeforeType d t) (GRM.nParCell d t)
    (parCoreRadius t) (parRadius t).
Proof.
  intros H Hfit Htot Ht Hn [Hc Hr] Hmode.
  destruct (configured_ranges p d H) as (_ & _ & _ & Hpc & _ & _).
  unfold GRM.updateRadialDisc.
  cut (t < GRM.nParType d ->
       geometry_ok
         (for_range 0 (GRM.nParType d)
            (fun i g' =>
               match vget GRM.Equidistant parDiscType i with
               | GRM.Equidistant =>
                   GRM.setEquidistantRadialDisc d parRadius parCoreRadius i g'
               | GRM.Equivolume =>
                   GRM.setEquivolumeRadialDisc d parRadius parCoreRadius i g'
               | GRM.UserDefined =>
                   GRM.setUserdefinedRadialDisc d parRadius parCoreRadius
                     parDiscVector i g'
               end) g)
         (GRM.nParCellsBeforeType d t) (GRM.nParCell d t)
         (parCoreRadius t) (parRadius t)).
  { intros G. apply G. lia. }
  apply (for_range_inv
           (fun k st =>
              t < k ->
              geometry_ok st (GRM.nParCellsBeforeType d t) (GRM.nParCell d t)
                (parCoreRadius t) (parRadius t))).
  - lia.
  - lia.
  - intros i st Hi IH Hlt. destruct (Z.eq_dec i t) as [->|Hne].
    + destruct (vget GRM.Equidistant parDiscType t).
      * now apply equidistant_geometry_ok.
      * apply equivolume_geometry_ok; try assumption.
        specialize (Hpc t). lia.
      * now contradiction Hmode.
    + specialize (IH ltac:(lia)).
      pose proof (configured_blocks_disjoint p d t i H Hfit Htot
                    ltac:(lia) ltac:(lia)) as Hdis.
      refine (geometry_ok_ext st _ _ _ _ _ Hn _ IH).
      intros s Hs.
      destruct (vget GRM.Equidistant parDiscType i).
      * apply setEquidistantRadialDisc_frame. lia.
      * apply setEquivolumeRadialDisc_frame. lia.
      * apply setUserdefinedRadialDisc_frame. lia.
Qed.

Lemma updateRadialDisc_geometry_witness :
  exists d,
    GRM.configureDescriptor (GRM.mkDiscInput 1 1 [2; 3] [0] None) = Ok d
    /\ geometry_ok
         (GRM.updateRadialDisc d [GRM.UserDefined; GRM.Equivolume]
            (fun _ => 2%R) (fun _ => 1%R) [1%R; (1 / 2)%R; 0%R]
            (GRM.mkGeometry (fun _ => 0%R) (fun _ => 0%R) (fun _ => 0%R)
               (fun _ => 0%R)))
         (GRM.nParCellsBeforeType d 1) (GRM.nParCell d 1) 1%R 2%R.
Proof.
  eexists. split; [reflexivity|].
  match goal with
  | |- geometry_ok (GRM.updateRadialDisc ?d _ _ _ _ ?g) _ _ _ _ =>
      apply (updateRadialDisc_geometry (GRM.mkDiscInput 1 1 [2; 3] [0] None)
               d [GRM.UserDefined; GRM.Equivolume] (fun _ => 2%R)
               (fun _ => 1%R) [1%R; (1 / 2)%R; 0%R] g 1)
  end.
  - reflexivity.
  - vm_compute. reflexivity.
  - vm_compute. reflexivity.
  - vm_compute. split; [discriminate|reflexivity].
  - vm_compute. discriminate.
  - lra.
  - unfold vget. change (Z.to_nat 1) with 1%nat. cbn [nth]. discriminate.
Defined.

(** ** Detection of surface diffusion *)

Lemma for_count_break_scan {S : Type} (c : Z -> R) (f : S -> S) (k : nat) :
  forall (i : Z) (s : S),
    let out :=
      for_count_break k i
        (fun j s' => if Req_dec_T (c j) 0%R then (s', false) else (f s', true))
        s in
    ((forall j, i <= j < i + Z.of_nat k -> c j = 0%R) -> out = s)
    /\ ((exists j, i <= j < i + Z.of_nat k /\ c j <> 0%R) -> out = f s).
Proof.
  induction k as [|k IH]; intros i s; cbv zeta.
  - split; [reflexivity|]. intros (j & Hj & _). lia.
  - cbn [for_count_break]. destruct (Req_dec_T (c i) 0%R) as [E|E].
    + destruct (IH (i + 1) s) as [IH1 IH2]. cbv zeta in IH1, IH2. split.
      * intros H. apply IH1. intros j Hj. apply H. lia.
      * intros (j & Hj & Hc). apply IH2. exists j. split; [|exact Hc].
        destruct (Z.eq_dec j i) as [->|Hne]; [contradiction|lia].
    + split; [|reflexivity].
      intros H. exfalso. apply E, H. lia.
Qed.

Lemma resize_length {A : Type} (v : list A) (n : Z) (x : A) :
  0 <= n -> vsize (GRM.resize v n x) = n.
Proof.
  intros Hn. unfold vsize, GRM.resize.
  rewrite length_app, length_firstn, repeat_length. lia.
Qed.

Lemma resize_get {A : Type} (dflt : A) (v : list A) (n : Z) (x : A) (t : Z) :
  0 <= t < n ->
  vget dflt (GRM.resize v n x) t = if t <? vsize v then vget dflt v t else x.
Proof.
  intros Ht. unfold vget, GRM.resize, vsize.
  destruct (Z.ltb_spec t (Z.of_nat (List.length v))) as [Hlt|Hge].
  - rewrite app_nth1 by (rewrite length_firstn; lia).
    rewrite nth_firstn.
    destruct (Nat.ltb_spec (Z.to_nat t) (Z.to_nat n)); [reflexivity|lia].
  - rewrite app_nth2 by (rewrite length_firstn; lia).
    rewrite length_firstn.
    apply nth_repeat_lt. lia.
Qed.

Lemma scan_cases (c : Z -> R) (n : Z) :
  (forall j, 0 <= j < n -> c j = 0%R)
  \/ (exists j, 0 <= j < n /\ c j <> 0%R).
Proof.
  destruct (Z_le_gt_dec 0 n) as [Hn|Hn]; [|left; intros; lia].
  pattern n. apply natlike_ind; [left; intros; lia| |exact Hn].
  intros k Hk [IH|(j & Hj & Hc)].
  - destruct (Req_dec_T (c k) 0%R) as [E|E].
    + left. intros j Hj. destruct (Z.eq_dec j k) as [->|Hne]; [exact E|].
      apply IH. lia.
    + right. exists k. split; [lia|exact E].
  - right. exists j. split; [lia|exact Hc].
Qed.

Lemma for_range_break_scan {S : Type} (c : Z -> R) (f : S -> S) (n : Z) (s : S) :
  let out :=
    for_range_break 0 n
      (fun j s' => if Req_dec_T (c j) 0%R then (s', false) else (f s', true))
      s in
  ((forall j, 0 <= j < n -> c j = 0%R) -> out = s)
  /\ ((exists j, 0 <= j < n /\ c j <> 0%R) -> out = f s).
Proof.
  cbv zeta. unfold for_range_break.
  destruct (for_count_break_scan c f (Z.to_nat (n - 0)) 0 s) as [H1 H2].
  cbv zeta in H1, H2. split.
  - intros H. apply H1. intros j Hj. apply H. lia.
  - intros (j & Hj & Hc). apply H2. exists j. split; [lia|exact Hc].
Qed.

(** X10.  The flags that [configureModelDiscretization] computes: there is
    one per particle type; flags that the vector already holds are kept;
    without [FIX_ZERO_SURFACE_DIFFUSION] every new flag is set; with it, the
    flag of the type [t] is set exactly when one of the [nBound[t]]
    coefficients of [PAR_SURFDIFFUSION] from the index
    [nBoundBeforeType[t]] on is not zero. *)
Theorem detectSurfaceDiffusion_flags (d : GRM.Discretization)
    (FIX_ZERO_SURFACE_DIFFUSION : option bool)
    (PAR_SURFDIFFUSION : option (list R)) (has0 : list bool) (t : Z) :
  0 <= t < GRM.nParType d ->
  let has :=
    GRM.detectSurfaceDiffusion d FIX_ZERO_SURFACE_DIFFUSION PAR_SURFDIFFUSION
      has0 in
  vsize has = GRM.nParType d
  /\ (vget false has t = true <->
      (t < vsize has0 /\ vget false has0 t = true)
      \/ match FIX_ZERO_SURFACE_DIFFUSION, PAR_SURFDIFFUSION with
         | Some true, Some surfDiff => scannedCoefficientNonzero d surfDiff t
         | Some true, None => False
         | _, _ => vsize has0 <= t
         end).
Proof.
  intros Ht. cbv zeta. unfold GRM.detectSurfaceDiffusion.
  assert (Hnpt : 0 <= GRM.nParType d) by lia.
  assert (Htrue : vsize (GRM.resize has0 (GRM.nParType d) true) = GRM.nParType d
                  /\ (vget false (GRM.resize has0 (GRM.nParType d) true) t = true
                      <-> (t < vsize has0 /\ vget false has0 t = true)
                          \/ vsize has0 <= t)).
  { split; [now apply resize_length|]. rewrite resize_get by exact Ht.
    destruct (Z.ltb_spec t (vsize has0)).
    - split; [intros H'; left; split; assumption|].
      intros [[_ H']|H']; [exact H'|lia].
    - split; [intros _; right; assumption|reflexivity]. }
  assert (Hfalse : vget false (GRM.resize has0 (GRM.nParType d) false) t = true
                   <-> (t < vsize has0 /\ vget false has0 t = true)).
  { rewrite resize_get by exact Ht.
    destruct (Z.ltb_spec t (vsize has0)).
    - split; [intros H'; split; assumption|intros [_ H']; exact H'].
    - split; [discriminate|intros [H' _]; lia]. }
  destruct FIX_ZERO_SURFACE_DIFFUSION as [[|]|]; try exact Htrue.
  destruct PAR_SURFDIFFUSION as [surfDiff|].
  2:{ split; [now apply resize_length|]. rewrite Hfalse. tauto. }
  set (has1 := GRM.resize has0 (GRM.nParType d) false) in *.
  cut (vsize (for_range 0 (GRM.nParType d)
          (fun i has' =>
             for_range_break 0 (GRM.nBound d i)
               (fun j has'' =>
                  if Req_dec_T
                       (vget 0%R surfDiff (UInt.add (GRM.nBoundBeforeType d i) j))
                       0%R
                  then (has'', false)
                  else (vset has'' i true, true))
               has')
          has1) = GRM.nParType d
       /\ forall t', 0 <= t' < GRM.nParType d ->
            (vget false (for_range 0 (GRM.nParType d)
          (fun i has' =>
             for_range_break 0 (GRM.nBound d i)
               (fun j has'' =>
                  if Req_dec_T
                       (vget 0%R surfDiff (UInt.add (GRM.nBoundBeforeType d i) j))
                       0%R
                  then (has'', false)
                  else (vset has'' i true, true))
               has')
          has1) t' = true
             <-> vget false has1 t' = true
                 \/ (t' < GRM.nParType d
                     /\ scannedCoefficientNonzero d surfDiff t'))).
  { intros [H1 H2]. split; [exact H1|]. rewrite (H2 t Ht), Hfalse.
    split; intros [H'|H']; auto; try tauto. }
  apply (for_range_inv
           (fun k st =>
              vsize st = GRM.nParType d
              /\ forall t', 0 <= t' < GRM.nParType d ->
                   (vget false st t' = true
                    <-> vget false has1 t' = true
                        \/ (t' < k /\ scannedCoefficientNonzero d surfDiff t')))).
  - exact Hnpt.
  - split; [now apply resize_length|]. intros t' Ht'. split; [auto|].
    intros [H'|[H' _]]; [exact H'|lia].
  - intros i st Hi [Hlen IH].
    destruct (for_range_break_scan
                (fun j => vget 0%R surfDiff (UInt.add (GRM.nBoundBeforeType d i) j))
                (fun h => vset h i true) (GRM.nBound d i) st) as [S1 S2].
    cbv zeta in S1, S2.
    destruct (scan_cases
                (fun j => vget 0%R surfDiff (UInt.add (GRM.nBoundBeforeType d i) j))
                (GRM.nBound d i)) as [Hzero|Hnz].
    + rewrite (S1 Hzero). split; [exact Hlen|].
      intros t' Ht'. rewrite (IH t' Ht'). split.
      * intros [H'|[H' H'']]; [now left|]. right. split; [lia|exact H''].
      * intros [H'|[H' H'']]; [now left|].
        destruct (Z.eq_dec t' i) as [->|Hne].
        -- exfalso. destruct H'' as (j & Hj & Hc). apply Hc, Hzero. exact Hj.
        -- right. split; [lia|exact H''].
    + rewrite (S2 Hnz). split; [now rewrite vsize_vset|].
      intros t' Ht'. destruct (Z.eq_dec t' i) as [->|Hne].
      * rewrite vget_vset_same by lia. split; [|reflexivity].
        intros _. right. split; [lia|exact Hnz].
      * rewrite vget_vset_other by lia. rewrite (IH t' Ht'). split.
        -- intros [H'|[H' H'']]; [now left|]. right. split; [lia|exact H''].
        -- intros [H'|[H' H'']]; [now left|]. right. split; [lia|exact H''].
Qed.

Lemma detectSurfaceDiffusion_flags_witness :
  let d := GRM.mkDisc 2 1 1 (fun _ => 1) (fun _ => 0) (fun _ => 0)
             (fun _ => 1) (fun _ => 0) (fun _ => 2) (fun _ => 0) in
  vget false (GRM.detectSurfaceDiffusion d (Some true) (Some [5%R; 0%R]) []) 0
  = true.
Proof.
  intros d.
  apply (proj2 (detectSurfaceDiffusion_flags d (Some true) (Some [5%R; 0%R])
                  [] 0 ltac:(cbn; lia))).
  right. exists 0. split; [cbn; lia|].
  unfold vget. cbn [GRM.nBoundBeforeType d].
  change (Z.to_nat (UInt.add 0 0)) with 0%nat. cbn [nth]. lra.
Defined.

(** ** The flux residual in the bulk rows *)

Section FluxResidualBulk.
Variable m : GRM.Model.
Variable secIdx : Z.
Variable y : GRM.vec.

Local Abbreviation d := (GRM.disc m).
Local Abbreviation nc := (GRM.nComp d).
Local Abbreviation ncol := (GRM.nCol d).
Local Abbreviation npt := (GRM.nParType d).

Hypothesis L : layout_ok d.

(** The factor of the flux of the particle type [t] in the bulk equation of
    the axial cell [k]. *)
Let bulkFactor (t k : Z) : R :=
  ((1 / GRM.colPorosity m - 1) * (3 / GRM.parRadius m t)
   * GRM.parTypeVolFrac m (t + k * npt))%R.

Lemma layout_volFracIdx (t k : Z) :
  0 <= t < npt -> 0 <= k < ncol ->
  UInt.add t (UInt.mul k npt) = t + k * npt.
Proof.
  intros Ht Hk.
  pose proof (lo_fits d L) as F.
  pose proof (layout_pto_nonneg d L npt ltac:(lia)).
  pose proof (lo_nCol d L). pose proof (lo_nComp d L).
  assert (0 <= k * npt) by nia.
  assert (t + k * npt < ncol * npt) by nia.
  assert (ncol * npt <= ncol * nc * npt) by nia.
  unfold UInt.add, UInt.mul.
  rewrite (wrap_small (k * npt)) by nia.
  apply wrap_small. nia.
Qed.

Lemma residualFluxType_bulk (t : Z) (res : GRM.vec) (k c : Z) :
  0 <= t < npt -> 0 <= k < ncol -> 0 <= c < nc ->
  GRM.residualFluxType m secIdx y t res (bulkIndex d k c)
  = (res (bulkIndex d k c) + bulkFactor t k * y (fluxIndex d t k c))%R.
Proof.
  intros Ht Hk Hc. unfold GRM.residualFluxType. cbv zeta.
  rewrite (layout_bulk_size m L).
  set (kf := GRM.discretizedFilmDiffusion m secIdx t).
  set (jacPF_val := (- GRM.parOuterSurfAreaPerVolume _ _ / GRM.parPorosity m t)%R).
  set (rA := for_range 0 (ncol * nc) _ res).
  set (rB := for_range 0 ncol _ rA).
  set (rC := for_range 0 ncol _ rB).
  pose proof (lo_nComp d L) as Hnc. pose proof (lo_nCol d L) as Hncol.
  assert (Hi : 0 <= k * nc + c < ncol * nc) by nia.
  assert (Hflux : forall k' c', 0 <= k' < ncol -> 0 <= c' < nc ->
            GRM.Indexer.offsetJfType d t + GRM.fluxEq d k' c'
            <> bulkIndex d k c).
  { intros k' c' Hk' Hc'. rewrite (layout_fluxEq d L) by assumption.
    pose proof (fluxIndex_not_bulk m L t k' c' ltac:(lia) ltac:(lia)
                  ltac:(lia)) as Hnb.
    unfold fluxIndex in Hnb. unfold bulkIndex. lia. }
  assert (Hpar : forall k' c', 0 <= k' < ncol -> 0 <= c' < nc ->
            GRM.Indexer.offsetCpType d t
            + UInt.add (UInt.mul k' (GRM.Indexer.strideParBlock d t)) c'
            <> bulkIndex d k c).
  { intros k' c' Hk' Hc'.
    destruct (layout_parIdx d L t k' c' Ht Hk' Hc') as (-> & _ & _).
    pose proof (bulk_below_particles m L (k * nc + c) t k' c' Hi Ht Hk' Hc')
      as Hlt.
    unfold outerShellIndex in Hlt. unfold bulkIndex. lia. }
  rewrite (scatter2_frame
             (fun k' c' => GRM.Indexer.offsetJfType d t + GRM.fluxEq d k' c')
             (fun k' c' =>
                (kf c' * y (GRM.Indexer.offsetCpType d t
                            + UInt.add c'
                                (UInt.mul k' (GRM.Indexer.strideParBlock d t)))%Z)%R)
             ncol nc rC (bulkIndex d k c) Hflux).
  assert (HC : rC (bulkIndex d k c) = rB (bulkIndex d k c)).
  { unfold rC.
    apply (scatter2_frame
             (fun k' c' =>
                GRM.Indexer.offsetCpType d t
                + UInt.add (UInt.mul k' (GRM.Indexer.strideParBlock d t)) c')
             (fun k' c' =>
                (jacPF_val
                 / GRM.poreAccessFactor m (UInt.add (UInt.mul t nc) c')
                 * y (GRM.Indexer.offsetJfType d t + GRM.fluxEq d k' c')%Z)%R)
             ncol nc rB (bulkIndex d k c) Hpar). }
  assert (HB : rB (bulkIndex d k c) = rA (bulkIndex d k c)).
  { unfold rB.
    apply (scatter2_frame
             (fun k' c' => GRM.Indexer.offsetJfType d t + GRM.fluxEq d k' c')
             (fun k' c' =>
                (- (kf c' * y (GRM.Indexer.offsetC d + GRM.fluxEq d k' c')%Z))%R)
             ncol nc rA (bulkIndex d k c) Hflux). }
  rewrite HC, HB.
  unfold rA, bulkIndex.
  rewrite (scatter_hit (fun i => GRM.Indexer.offsetC d + i)
             (fun i =>
                ((1 / GRM.colPorosity m - 1) * (3 / GRM.parRadius m t)
                 * GRM.parTypeVolFrac m
                     (UInt.add t (UInt.mul (UInt.div i nc) npt))
                 * y (GRM.Indexer.offsetJfType d t + i)%Z)%R)
             (ncol * nc) res ltac:(cbv beta; intros; lia) (k * nc + c) Hi).
  assert (Ediv : UInt.div (k * nc + c) nc = k).
  { unfold UInt.div. rewrite Z.div_add_l by lia.
    rewrite Z.div_small by lia. lia. }
  rewrite Ediv, (layout_volFracIdx t k Ht Hk). reflexivity.
Qed.

Variable time : R.
Variable yDot : option GRM.vec.
Variable resBase : GRM.vec.

Lemma residualFlux_bulk (k c : Z) :
  0 <= k < ncol -> 0 <= c < nc ->
  snd (GRM.residualFlux m time secIdx y yDot resBase) (bulkIndex d k c)
  = (resBase (bulkIndex d k c)
     + rsum (fun t => (bulkFactor t k * y (fluxIndex d t k c))%R) npt)%R.
Proof.
  intros Hk Hc. unfold GRM.residualFlux. cbv zeta. cbn [snd].
  rewrite (layout_flux_size m L).
  pose proof (lo_nComp d L) as Hnc. pose proof (lo_nCol d L) as Hncol.
  pose proof (lo_nParType d L) as Hnpt.
  pose proof (layout_pto_nonneg d L npt ltac:(lia)) as Hpto.
  assert (Hi : 0 <= k * nc + c < ncol * nc) by nia.
  set (r1 := for_range 0 (nc * ncol * npt)
               (fun (i : Z) (res' : Z -> R) =>
                  upd res' (GRM.Indexer.offsetJf d + i)
                    (y (GRM.Indexer.offsetJf d + i)))
               resBase).
  assert (H1 : r1 (bulkIndex d k c) = resBase (bulkIndex d k c)).
  { unfold r1.
    change (for_range 0 (nc * ncol * npt)
              (fun i res' =>
                 upd res' (GRM.Indexer.offsetJf d + i)
                   (y (GRM.Indexer.offsetJf d + i))) resBase)
      with (GRM.write_window resBase (GRM.Indexer.offsetJf d) (nc * ncol * npt)
              (GRM.window y (GRM.Indexer.offsetJf d))).
    rewrite write_window_get.
    destruct (Z.leb_spec (GRM.Indexer.offsetJf d) (bulkIndex d k c)) as [Hle|];
      [|reflexivity].
    exfalso. unfold bulkIndex, GRM.Indexer.offsetJf, GRM.Indexer.offsetCp,
      GRM.Indexer.offsetC in Hle. lia. }
  cut (forall j, 0 <= j <= npt ->
         for_range 0 j (GRM.residualFluxType m secIdx y) r1 (bulkIndex d k c)
         = (resBase (bulkIndex d k c)
            + rsum (fun t => (bulkFactor t k * y (fluxIndex d t k c))%R) j)%R).
  { intros G. apply G. lia. }
  intros j Hj.
  apply (for_range_inv
           (fun j r =>
              r (bulkIndex d k c)
              = (resBase (bulkIndex d k c)
                 + rsum (fun t => (bulkFactor t k * y (fluxIndex d t k c))%R)
                     j)%R)).
  - lia.
  - rewrite H1. unfold rsum. rewrite for_range_nil by lia. lra.
  - intros i r Hi' IH.
    rewrite residualFluxType_bulk by (assumption || lia).
    rewrite IH, rsum_succ by lia. lra.
Qed.

End FluxResidualBulk.

(** ** The residual as a whole *)

Lemma residualParticle_frame (m : GRM.Model) (t : R)
    (parType colCell secIdx : Z) (y : GRM.vec) (yDot : option GRM.vec)
    (resBase : GRM.vec) (j : Z) :
  1 <= GRM.nParCell (GRM.disc m) parType < UInt.modulus ->
  0 <= GRM.nComp (GRM.disc m) ->
  0 <= GRM.strideBound (GRM.disc m) parType ->
  ~ (GRM.Indexer.offsetCpBlock (GRM.disc m) parType colCell <= j
     < GRM.Indexer.offsetCpBlock (GRM.disc m) parType colCell
       + GRM.Indexer.strideParBlock (GRM.disc m) parType) ->
  snd (GRM.residualParticle m t parType colCell secIdx y yDot resBase) j
  = resBase j.
Proof.
  intros Hn Hnc Hsb Hj. unfold GRM.residualParticle. cbv zeta. cbn [snd].
  set (base := GRM.Indexer.offsetCpBlock (GRM.disc m) parType colCell) in *.
  set (stride := GRM.Indexer.strideParShell (GRM.disc m) parType).
  set (n := GRM.nParCell (GRM.disc m) parType) in *.
  assert (Hstride : 0 <= stride).
  { unfold stride, GRM.Indexer.strideParShell, GRM.Indexer.strideParLiquid,
      GRM.Indexer.strideParBound. lia. }
  assert (Hblock : GRM.Indexer.strideParBlock (GRM.disc m) parType = n * stride)
    by reflexivity.
  rewrite Hblock in Hj.
  cut (let cur := for_range 0 n
                    (GRM.residualShell m t parType colCell secIdx y yDot)
                    (GRM.mkParticleCursor resBase base base) in
       GRM.pc_pos cur = base + n * stride
       /\ forall j', ~ (base <= j' < base + n * stride) ->
            GRM.pc_res cur j' = resBase j').
  { cbv zeta. intros [_ H]. apply H. exact Hj. }
  cbv zeta.
  apply (for_range_inv
           (fun s cur =>
              GRM.pc_pos cur = base + s * stride
              /\ forall j', ~ (base <= j' < base + s * stride) ->
                   GRM.pc_res cur j' = resBase j')).
  - lia.
  - split; [cbn; lia|]. intros j' _. reflexivity.
  - intros s cur Hs [Hpos Hout].
    destruct (residualShell_spec m t parType colCell secIdx y yDot Hn Hnc Hsb
                s cur Hs) as (Hp & _ & _ & Hframe).
    fold stride in Hp, Hframe. split; [rewrite Hp, Hpos; lia|].
    intros j' Hj'. rewrite Hframe by (rewrite Hpos; nia).
    apply Hout. nia.
Qed.

Lemma tabulate_frame (f : Z -> R) (n : Z) (a0 : GRM.vec) (j : Z) :
  ~ 0 <= j < n -> for_range 0 n (fun i a => upd a i (f i)) a0 j = a0 j.
Proof.
  intros Hj. apply (for_range_preserves (fun a => a j = a0 j)); [reflexivity|].
  intros i a Hi Ha. rewrite upd_other by lia. exact Ha.
Qed.

Section ResidualImpl.
Variable m : GRM.Model.
Variable time : R.
Variable secIdx : Z.
Variable y : GRM.vec.
Variable yDot : option GRM.vec.
Variable res : GRM.vec.

Local Abbreviation d := (GRM.disc m).
Local Abbreviation nc := (GRM.nComp d).
Local Abbreviation ncol := (GRM.nCol d).
Local Abbreviation npt := (GRM.nParType d).

Hypothesis L : layout_ok d.

(** The residual after the loop over the bulk block and the particle
    blocks. *)
Let blocks : GRM.vec :=
  for_range 0 (UInt.add (UInt.mul ncol npt) 1)
    (fun pblk res' =>
       if pblk =? 0
       then snd (GRM.residualBulk m time secIdx y yDot res')
       else
         let type := UInt.div (UInt.sub pblk 1) ncol in
         let par := UInt.rem (UInt.sub pblk 1) ncol in
         snd (GRM.residualParticle m time type par secIdx y yDot res'))
    res.

Lemma layout_nParCell_fits (t : Z) :
  0 <= t < npt -> 1 <= GRM.nParCell d t < UInt.modulus.
Proof.
  intros Ht. pose proof (lo_nParCell d L t Ht) as H1. split; [exact H1|].
  pose proof (lo_fits d L) as F. pose proof (lo_nComp d L).
  pose proof (lo_nCol d L). pose proof (lo_strideBound d L t).
  pose proof (layout_pto_block d L t npt ltac:(lia) ltac:(lia) ltac:(lia)).
  pose proof (layout_pto_nonneg d L t ltac:(lia)).
  unfold GRM.Indexer.strideParBlock, GRM.Indexer.strideParShell,
    GRM.Indexer.strideParLiquid, GRM.Indexer.strideParBound in *.
  assert (0 <= ncol * nc) by nia. assert (0 <= ncol * nc * npt) by nia.
  assert (GRM.nParCell d t
          <= GRM.nParCell d t * (nc + GRM.strideBound d t) * ncol) by nia.
  lia.
Qed.

Lemma blocks_frame (j : Z) :
  ~ (GRM.Indexer.offsetCp d <= j < GRM.Indexer.offsetJf d) ->
  blocks j = snd (GRM.residualBulk m time secIdx y yDot res) j.
Proof.
  intros Hj. unfold blocks.
  pose proof (lo_fits d L) as F. pose proof (lo_nComp d L) as Hnc.
  pose proof (lo_nCol d L) as Hncol. pose proof (lo_nParType d L) as Hnpt.
  pose proof (layout_pto_nonneg d L npt ltac:(lia)) as Hpto.
  assert (HN : 0 <= ncol * npt) by nia.
  assert (HN' : ncol * npt <= ncol * nc * npt) by nia.
  assert (Hsize : UInt.add (UInt.mul ncol npt) 1 = ncol * npt + 1).
  { unfold UInt.add, UInt.mul. rewrite (wrap_small (ncol * npt)) by nia.
    apply wrap_small. nia. }
  rewrite Hsize.
  set (rb := snd (GRM.residualBulk m time secIdx y yDot res)).
  cut (forall r, r = for_range 0 (ncol * npt + 1)
         (fun pblk res' =>
            if pblk =? 0
            then snd (GRM.residualBulk m time secIdx y yDot res')
            else
              snd (GRM.residualParticle m time
                     (UInt.div (UInt.sub pblk 1) ncol)
                     (UInt.rem (UInt.sub pblk 1) ncol) secIdx y yDot res'))
         res ->
       (ncol * npt + 1 = 0 /\ r = res)
       \/ (1 <= ncol * npt + 1
           /\ forall j', ~ (GRM.Indexer.offsetCp d <= j' < GRM.Indexer.offsetJf d) ->
                r j' = rb j')).
  { intros G. destruct (G _ eq_refl) as [[E _]|[_ G']]; [lia|].
    apply G'. exact Hj. }
  intros r ->.
  apply (for_range_inv
           (fun k r =>
              (k = 0 /\ r = res)
              \/ (1 <= k
                  /\ forall j', ~ (GRM.Indexer.offsetCp d <= j'
                                   < GRM.Indexer.offsetJf d) ->
                       r j' = rb j'))).
  - lia.
  - left. split; reflexivity.
  - intros i r Hi [[-> ->]|[Hk IH]].
    + right. split; [lia|]. intros j' _. reflexivity.
    + right. split; [lia|]. intros j' Hj'.
      destruct (Z.eqb_spec i 0) as [E|_]; [lia|].
      assert (Hsub : UInt.sub i 1 = i - 1).
      { unfold UInt.sub. apply wrap_small. nia. }
      rewrite Hsub. unfold UInt.div, UInt.rem.
      set (type := (i - 1) / ncol). set (par := (i - 1) mod ncol).
      assert (Hpar : 0 <= par < ncol) by (apply Z.mod_pos_bound; lia).
      assert (Htype : 0 <= type < npt).
      { unfold type. split; [apply Z.div_pos; lia|].
        apply Z.div_lt_upper_bound; nia. }
      pose proof (layout_pto_block d L type npt ltac:(lia) ltac:(lia)
                    ltac:(lia)) as Hblk.
      pose proof (layout_pto_nonneg d L type ltac:(lia)) as Hpt.
      pose proof (layout_spb d L type Htype) as Hspb.
      rewrite residualParticle_frame.
      * apply IH. exact Hj'.
      * apply layout_nParCell_fits. exact Htype.
      * lia.
      * apply (lo_strideBound d L).
      * unfold GRM.Indexer.offsetCpBlock, GRM.Indexer.offsetJf in *.
        assert (0 <= GRM.Indexer.strideParBlock d type * par) by nia.
        assert (GRM.Indexer.strideParBlock d type * par
                + GRM.Indexer.strideParBlock d type
                <= GRM.Indexer.strideParBlock d type * ncol) by nia.
        lia.
Qed.

Lemma residualImpl_unfold :
  snd (GRM.residualImpl m time secIdx y yDot res)
  = for_range 0 nc (fun i res' => upd res' i (y i))
      (snd (GRM.residualFlux m time secIdx y yDot blocks)).
Proof. reflexivity. Qed.

Lemma residualImpl_inlet (i : Z) :
  0 <= i < nc -> snd (GRM.residualImpl m time secIdx y yDot res) i = y i.
Proof. intros Hi. rewrite residualImpl_unfold. now apply tabulate_get. Qed.

Lemma residualImpl_flux (t k c : Z) :
  0 <= t < npt -> 0 <= k < ncol -> 0 <= c < nc ->
  snd (GRM.residualImpl m time secIdx y yDot res) (fluxIndex d t k c)
  = (y (fluxIndex d t k c)
     - filmCoefficientFV m secIdx t c * y (bulkIndex d k c)
     + filmCoefficientFV m secIdx t c * y (outerShellIndex d t k c))%R.
Proof.
  intros Ht Hk Hc. rewrite residualImpl_unfold.
  rewrite tabulate_frame.
  - now apply (residualFlux_rows m secIdx y L time yDot blocks).
  - pose proof (fluxIndex_not_bulk m L t k c ltac:(lia) ltac:(lia) ltac:(lia)).
    pose proof (particles_below_flux m L 0 0 0 t k c) as Hp.
    pose proof (lo_nComp d L). pose proof (lo_nCol d L).
    pose proof (layout_pto_nonneg d L npt ltac:(lia)).
    unfold fluxIndex, GRM.Indexer.offsetJfType, GRM.Indexer.offsetJf,
      GRM.Indexer.offsetCp, GRM.Indexer.offsetC in *.
    assert (0 <= t * ncol * nc) by nia. assert (0 <= k * nc) by nia.
    assert (0 <= nc * ncol) by nia. lia.
Qed.

Lemma residualImpl_bulk (k c : Z) :
  0 <= k < ncol -> 0 <= c < nc ->
  snd (GRM.residualImpl m time secIdx y yDot res) (bulkIndex d k c)
  = (snd (GRM.residualBulk m time secIdx y yDot res) (bulkIndex d k c)
     + rsum (fun t =>
               ((1 / GRM.colPorosity m - 1) * (3 / GRM.parRadius m t)
                * GRM.parTypeVolFrac m (t + k * npt)
                * y (fluxIndex d t k c))%R) npt)%R.
Proof.
  intros Hk Hc. rewrite residualImpl_unfold.
  pose proof (lo_nComp d L). pose proof (lo_nCol d L).
  pose proof (layout_pto_nonneg d L npt ltac:(pose proof (lo_nParType d L); lia)).
  assert (0 <= k * nc + c < ncol * nc) by nia.
  rewrite tabulate_frame
    by (unfold bulkIndex, GRM.Indexer.offsetC; lia).
  rewrite (residualFlux_bulk m secIdx y L time yDot blocks k c Hk Hc).
  rewrite blocks_frame; [reflexivity|].
  unfold bulkIndex, GRM.Indexer.offsetCp, GRM.Indexer.offsetC. lia.
Qed.

End ResidualImpl.

(** X11.  The inlet rows of the residual are the inlet entries of the
    state: [res[i] = y[i]] for every [i < nComp], whatever the bulk, particle
    and flux parts have written there before. *)
Theorem residual_inlet_rows (m : GRM.Model) (time : R) (secIdx : Z)
    (y : GRM.vec) (yDot : option GRM.vec) (res : GRM.vec) (i : Z) :
  0 <= i < GRM.nComp (GRM.disc m) ->
  snd (GRM.residual m time secIdx y yDot res) i = y i.
Proof. intros Hi. unfold GRM.residual. now apply residualImpl_inlet. Qed.

Lemma residual_inlet_rows_witness :
  exists d,
    GRM.configureDescriptor (GRM.mkDiscInput 2 1 [1] [0; 0] None) = Ok d
    /\ snd (GRM.residual (exampleModel d (fun _ => 1%R) 1%R) 0%R 0
              (fun i => IZR i) None (fun _ => 7%R)) 1 = 1%R.
Proof.
  eexists. split; [reflexivity|].
  match goal with
  | |- snd (GRM.residual ?m _ _ ?y _ ?r) 1 = _ =>
      exact (residual_inlet_rows m 0%R 0 y None r 1
               ltac:(vm_compute; split; [discriminate|reflexivity]))
  end.
Defined.

(** X12.  In the residual of the whole unit operation, the row of the
    flux equation [(t, k, c)] is
    [j_f - k_f_FV * c_bulk + k_f_FV * c_p(s = 0)], whatever the residual
    vector held on entry and whatever the bulk operator and the cell
    kernels compute. *)
Theorem residual_flux_rows
    (p : GRM.DiscretizationInput) (m : GRM.Model) (time : R) (secIdx : Z)
    (y : GRM.vec) (yDot : option GRM.vec) (res : GRM.vec) (t k c : Z) :
  GRM.configureDescriptor p = Ok (GRM.disc m) ->
  closedFormDofs (GRM.disc m) < UInt.modulus ->
  (forall t', 0 <= t' < GRM.nParType (GRM.disc m) ->
     1 <= GRM.nParCell (GRM.disc m) t') ->
  0 <= t < GRM.nParType (GRM.disc m) ->
  0 <= k < GRM.nCol (GRM.disc m) ->
  0 <= c < GRM.nComp (GRM.disc m) ->
  snd (GRM.residual m time secIdx y yDot res) (fluxIndex (GRM.disc m) t k c)
  = (y (fluxIndex (GRM.disc m) t k c)
     - filmCoefficientFV m secIdx t c * y (bulkIndex (GRM.disc m) k c)
     + filmCoefficientFV m secIdx t c * y (outerShellIndex (GRM.disc m) t k c))%R.
Proof.
  intros H Hfit Hshell Ht Hk Hc.
  assert (L : layout_ok (GRM.disc m))
    by (apply (configured_layout_ok p); auto; lia).
  unfold GRM.residual. now apply residualImpl_flux.
Qed.

Lemma residual_flux_rows_witness :
  exists d,
    GRM.configureDescriptor (GRM.mkDiscInput 1 1 [1] [0] None) = Ok d
    /\ let m := exampleModel d (fun _ => 1%R) 1%R in
       let y : GRM.vec := fun i => IZR i in
       snd (GRM.residual m 0%R 0 y None (fun _ => 7%R)) (fluxIndex d 0 0 0)
       = (y (fluxIndex d 0 0 0)
          - filmCoefficientFV m 0 0 0 * y (bulkIndex d 0 0)
          + filmCoefficientFV m 0 0 0 * y (outerShellIndex d 0 0 0))%R.
Proof.
  eexists. split; [reflexivity|]. intros m y.
  assert (Hfit : closedFormDofs (GRM.disc m) < UInt.modulus)
    by (vm_compute; reflexivity).
  assert (Hshell : forall t', 0 <= t' < GRM.nParType (GRM.disc m) ->
            1 <= GRM.nParCell (GRM.disc m) t').
  { intros t' Ht'. change (GRM.nParType (GRM.disc m)) with 1 in Ht'.
    assert (t' = 0) as -> by lia. vm_compute. discriminate. }
  assert (Hr : 0 <= 0 < 1) by lia.
  exact (residual_flux_rows (GRM.mkDiscInput 1 1 [1] [0] None) m 0%R 0 y None
           (fun _ => 7%R) 0 0 0 eq_refl Hfit Hshell Hr Hr Hr).
Defined.

(** X13.  In the residual of the whole unit operation, the row of the
    bulk entry [(k, c)] is what the bulk part (convection, dispersion and
    bulk reactions) computes there, plus the film fluxes of all particle
    types, each with the factor
    [(1 / eps_c - 1) * (3 / R_t) * volFrac[t, k]]. *)
Theorem residual_bulk_rows
    (p : GRM.DiscretizationInput) (m : GRM.Model) (time : R) (secIdx : Z)
    (y : GRM.vec) (yDot : option GRM.vec) (res : GRM.vec) (k c : Z) :
  GRM.configureDescriptor p = Ok (GRM.disc m) ->
  closedFormDofs (GRM.disc m) < UInt.modulus ->
  (forall t', 0 <= t' < GRM.nParType (GRM.disc m) ->
     1 <= GRM.nParCell (GRM.disc m) t') ->
  0 <= k < GRM.nCol (GRM.disc m) ->
  0 <= c < GRM.nComp (GRM.disc m) ->
  snd (GRM.residual m time secIdx y yDot res) (bulkIndex (GRM.disc m) k c)
  = (snd (GRM.residualBulk m time secIdx y yDot res) (bulkIndex (GRM.disc m) k c)
     + rsum (fun t =>
               (bulkFluxFactor m t k * y (fluxIndex (GRM.disc m) t k c))%R)
         (GRM.nParType (GRM.disc m)))%R.
Proof.
  intros H Hfit Hshell Hk Hc.
  assert (L : layout_ok (GRM.disc m))
    by (apply (configured_layout_ok p); auto; lia).
  unfold GRM.residual. now apply residualImpl_bulk.
Qed.

Lemma residual_bulk_rows_witness :
  exists d,
    GRM.configureDescriptor (GRM.mkDiscInput 1 1 [1] [0] None) = Ok d
    /\ let m := exampleModel d (fun _ => 1%R) 1%R in
       let y : GRM.vec := fun i => IZR i in
       snd (GRM.residual m 0%R 0 y None (fun _ => 7%R)) (bulkIndex d 0 0)
       = (snd (GRM.residualBulk m 0%R 0 y None (fun _ => 7%R)) (bulkIndex d 0 0)
          + rsum (fun t => (bulkFluxFactor m t 0 * y (fluxIndex d t 0 0))%R) 1)%R.
Proof.
  eexists. split; [reflexivity|]. intros m y.
  assert (Hfit : closedFormDofs (GRM.disc m) < UInt.modulus)
    by (vm_compute; reflexivity).
  assert (Hshell : forall t', 0 <= t' < GRM.nParType (GRM.disc m) ->
            1 <= GRM.nParCell (GRM.disc m) t').
  { intros t' Ht'. change (GRM.nParType (GRM.disc m)) with 1 in Ht'.
    assert (t' = 0) as -> by lia. vm_compute. discriminate. }
  assert (Hr : 0 <= 0 < 1) by lia.
  exact (residual_bulk_rows (GRM.mkDiscInput 1 1 [1] [0] None) m 0%R 0 y None
           (fun _ => 7%R) 0 0 eq_refl Hfit Hshell Hr Hr).
Defined.

(** X14.  [residualParticle] writes into the block of its own particle
    only: every entry of the residual outside the [strideParBlock] entries
    from [offsetCp(type, cell)] on is left as it was. *)
Theorem residualParticle_own_block (m : GRM.Model) (t : R)
    (parType colCell secIdx : Z) (y : GRM.vec) (yDot : option GRM.vec)
    (resBase : GRM.vec) (j : Z) :
  1 <= GRM.nParCell (GRM.disc m) parType < UInt.modulus ->
  0 <= GRM.nComp (GRM.disc m) ->
  0 <= GRM.strideBound (GRM.disc m) parType ->
  ~ (GRM.Indexer.offsetCpBlock (GRM.disc m) parType colCell <= j
     < GRM.Indexer.offsetCpBlock (GRM.disc m) parType colCell
       + GRM.Indexer.strideParBlock (GRM.disc m) parType) ->
  snd (GRM.residualParticle m t parType colCell secIdx y yDot resBase) j
  = resBase j.
Proof. apply residualParticle_frame. Qed.

Lemma residualParticle_own_block_witness :
  exists d,
    GRM.configureDescriptor (GRM.mkDiscInput 1 1 [2] [0] None) = Ok d
    /\ snd (GRM.residualParticle (exampleModel d (fun _ => 1%R) 1%R) 0%R 0 0 0
              (fun i => IZR i) None (fun _ => 7%R)) 1 = 7%R.
Proof.
  eexists. split; [reflexivity|].
  match goal with
  | |- snd (GRM.residualParticle ?m _ _ _ _ ?y _ ?r) 1 = _ =>
      exact (residualParticle_own_block m 0%R 0 0 0 y None r 1
               ltac:(vm_compute; split; [discriminate|reflexivity])
               ltac:(vm_compute; discriminate)
               ltac:(vm_compute; discriminate)
               ltac:(vm_compute; intros [H _]; apply H; reflexivity))
  end.
Defined.

(** ** The coupling blocks, all of them *)

Section AppendNested.
Variables row col : Z -> Z -> Z.
Variable val : Z -> Z -> R.

Lemma addElement_nested_loop (K C : Z) (M : GRM.SparseMatrix) :
  0 <= K -> 0 <= C ->
  for_range 0 K
    (fun k M' =>
       for_range 0 C
         (fun c M'' => GRM.addElement M'' (row k c) (col k c) (val k c)) M')
    M
  = M ++ List.concat
           (map (fun k =>
                   map (fun c => GRM.mkEntry (row k c) (col k c) (val k c))
                     (zrange C))
                (zrange K)).
Proof.
  intros HK HC.
  apply (for_range_inv
           (fun n M' =>
              M' = M ++ List.concat
                          (map (fun k =>
                                  map (fun c =>
                                         GRM.mkEntry (row k c) (col k c) (val k c))
                                    (zrange C))
                               (zrange n)))).
  - exact HK.
  - cbn. now rewrite app_nil_r.
  - intros k M' Hk ->.
    rewrite (addElement_loop (row k) (col k) (val k)) by exact HC.
    rewrite zrange_succ by lia.
    rewrite map_app, concat_app. cbn [map List.concat].
    now rewrite app_nil_r, app_assoc.
Qed.

Lemma addElement_blocks_loop (K C B : Z) (JP : Z -> GRM.SparseMatrix) (b : Z) :
  0 <= K -> 0 <= C ->
  for_range 0 K
    (fun k JP' =>
       for_range 0 C
         (fun c JP'' =>
            upd JP'' (B + k)
              (GRM.addElement (JP'' (B + k)) (row k c) (col k c) (val k c)))
         JP')
    JP b
  = if (B <=? b) && (b <? B + K)
    then JP b ++ map (fun c => GRM.mkEntry (row (b - B) c) (col (b - B) c)
                                 (val (b - B) c))
                   (zrange C)
    else JP b.
Proof.
  intros HK HC.
  apply (for_range_inv
           (fun n JP' =>
              JP' b
              = if (B <=? b) && (b <? B + n)
                then JP b ++ map (fun c => GRM.mkEntry (row (b - B) c)
                                             (col (b - B) c) (val (b - B) c))
                               (zrange C)
                else JP b)).
  - exact HK.
  - destruct (Z.leb_spec B b), (Z.ltb_spec b (B + 0)); try reflexivity; lia.
  - intros k JP' Hk IH.
    rewrite (addElement_block_loop (row k) (col k) (val k) C (B + k) JP' b)
      by exact HC.
    destruct (Z.eqb_spec b (B + k)) as [->|Hne].
    + assert (E : JP' (B + k) = JP (B + k)).
      { rewrite IH.
        destruct (Z.leb_spec B (B + k)), (Z.ltb_spec (B + k) (B + k));
          try reflexivity; lia. }
      rewrite E.
      destruct (Z.leb_spec B (B + k)), (Z.ltb_spec (B + k) (B + (k + 1)));
        try lia.
      cbn [andb]. replace (B + k - B) with k by lia. reflexivity.
    + rewrite IH.
      destruct (Z.leb_spec B b), (Z.ltb_spec b (B + k)),
               (Z.ltb_spec b (B + (k + 1))); try reflexivity; lia.
Qed.
End AppendNested.

Lemma concat_map_ext_in {A B : Type} (f g : A -> list B) (l : list A) :
  (forall a, In a l -> f a = g a) -> List.concat (map f l) = List.concat (map g l).
Proof. intros H. f_equal. now apply map_ext_in. Qed.

Lemma in_zrange_iff (n c : Z) : In c (zrange n) <-> 0 <= c < n.
Proof.
  split; [apply in_zrange|]. intros Hc. unfold zrange.
  apply in_map_iff. exists (Z.to_nat c). split; [lia|].
  apply in_seq. lia.
Qed.

Section AllCouplingBlocks.
Variable m : GRM.Model.
Variable secIdx : Z.

Local Abbreviation d := (GRM.disc m).
Local Abbreviation nc := (GRM.nComp d).
Local Abbreviation ncol := (GRM.nCol d).
Local Abbreviation npt := (GRM.nParType d).

Hypothesis L : layout_ok d.

Lemma layout_typeOffset (t : Z) :
  0 <= t < npt ->
  UInt.mul (UInt.mul t ncol) nc = t * ncol * nc
  /\ UInt.mul t ncol = t * ncol
  /\ forall e, 0 <= e < ncol * nc ->
       UInt.add e (t * ncol * nc) = e + t * ncol * nc
       /\ UInt.add (t * ncol * nc) e = t * ncol * nc + e.
Proof.
  intros Ht.
  pose proof (lo_fits d L). pose proof (lo_nComp d L). pose proof (lo_nCol d L).
  pose proof (layout_pto_nonneg d L npt ltac:(lia)).
  assert (0 <= t * ncol) by nia.
  assert (t * ncol + ncol <= ncol * npt) by nia.
  assert (ncol * npt <= ncol * nc * npt) by nia.
  assert (t * ncol * nc + ncol * nc <= ncol * nc * npt) by nia.
  assert (0 <= t * ncol * nc) by nia.
  unfold UInt.add, UInt.mul.
  rewrite (wrap_small (t * ncol)) by lia.
  rewrite (wrap_small (t * ncol * nc)) by lia.
  repeat split; try reflexivity; apply wrap_small; lia.
Qed.

Lemma assembleOffdiagJacType_blocks (t : Z) (J : GRM.OffdiagJac) :
  0 <= t < npt ->
  let J' := GRM.assembleOffdiagJacType m secIdx t J in
  GRM.jacCF J' = GRM.jacCF J ++ jacCF_entries m t
  /\ GRM.jacFC J' = GRM.jacFC J ++ jacFC_entries m secIdx t
  /\ (forall b,
        GRM.jacFP J' b
        = if (t * ncol <=? b) && (b <? t * ncol + ncol)
          then GRM.jacFP J b ++ jacFP_entries m secIdx t (b - t * ncol)
          else GRM.jacFP J b).
Proof.
  intros Ht. cbv zeta. unfold GRM.assembleOffdiagJacType. cbv zeta.
  cbn [GRM.jacCF GRM.jacFC GRM.jacFP].
  pose proof (lo_nComp d L) as Hnc. pose proof (lo_nCol d L) as Hncol.
  destruct (layout_typeOffset t Ht) as (E1 & E2 & E3).
  rewrite E1, E2, (layout_bulk_size m L).
  split; [|split].
  - rewrite (addElement_loop (fun eq => eq)
               (fun eq => UInt.add eq (t * ncol * nc))
               (fun eq =>
                  ((1 / GRM.colPorosity m - 1) * (3 / GRM.parRadius m t)
                   * GRM.parTypeVolFrac m
                       (UInt.add t (UInt.mul (UInt.div eq nc) npt)))%R))
      by nia.
    f_equal. unfold jacCF_entries. cbv zeta.
    apply map_ext_in. intros e He. apply in_zrange in He.
    destruct (E3 e He) as [-> _]. f_equal.
    unfold bulkFluxFactor, UInt.div.
    assert (Hk : 0 <= e / nc < ncol).
    { split; [apply Z.div_pos; lia|]. apply Z.div_lt_upper_bound; nia. }
    now rewrite (layout_volFracIdx m L t (e / nc) Ht Hk).
  - rewrite (addElement_nested_loop
               (fun k c => UInt.add (GRM.fluxEq d k c) (t * ncol * nc))
               (fun k c => GRM.fluxEq d k c)
               (fun k c => (- GRM.discretizedFilmDiffusion m secIdx t c)%R))
      by lia.
    f_equal. unfold jacFC_entries. cbv zeta.
    apply concat_map_ext_in. intros k Hk. apply in_zrange in Hk.
    apply map_ext_in. intros c Hc. apply in_zrange in Hc.
    rewrite (layout_fluxEq d L) by assumption.
    assert (He : 0 <= k * nc + c < ncol * nc) by nia.
    destruct (E3 _ He) as [-> _].
    rewrite (discretizedFilmDiffusion_get m secIdx L) by assumption.
    f_equal. lia.
  - intros b.
    rewrite (addElement_blocks_loop
               (fun k c => UInt.add (t * ncol * nc) (GRM.fluxEq d k c))
               (fun k c => c)
               (fun k c => GRM.discretizedFilmDiffusion m secIdx t c))
      by lia.
    destruct ((t * ncol <=? b) && (b <? t * ncol + ncol)) eqn:Eb;
      [|reflexivity].
    f_equal. unfold jacFP_entries. cbv zeta.
    apply map_ext_in. intros c Hc. apply in_zrange in Hc.
    assert (Hk : 0 <= b - t * ncol < ncol) by lia.
    rewrite (layout_fluxEq d L) by assumption.
    assert (He : 0 <= (b - t * ncol) * nc + c < ncol * nc) by nia.
    destruct (E3 _ He) as [_ ->].
    now rewrite (discretizedFilmDiffusion_get m secIdx L) by assumption.
Qed.

End AllCouplingBlocks.

Lemma rsum_single (f : Z -> R) (n t : Z) :
  0 <= t < n ->
  rsum (fun t' => if t' =? t then f t' else 0%R) n = f t.
Proof.
  intros Ht.
  cut (forall k, 0 <= k <= n ->
         rsum (fun t' => if t' =? t then f t' else 0%R) k
         = if t <? k then f t else 0%R).
  { intros G. rewrite (G n) by lia.
    destruct (Z.ltb_spec t n); [reflexivity|lia]. }
  intros k Hk. destruct Hk as [Hk0 Hk]. revert Hk. pattern k.
  apply natlike_ind; [| |exact Hk0].
  - intros _. destruct (Z.ltb_spec t 0); [lia|reflexivity].
  - intros x Hx IH Hx'. unfold Z.succ. rewrite rsum_succ by lia.
    rewrite IH by lia.
    destruct (Z.eqb_spec x t) as [->|Hne].
    + destruct (Z.ltb_spec t t); [lia|].
      destruct (Z.ltb_spec t (t + 1)); [lra|lia].
    + destruct (Z.ltb_spec t x), (Z.ltb_spec t (x + 1)); try lra; lia.
Qed.

Section CouplingDerivatives.
Variable m : GRM.Model.
Variable secIdx : Z.

Local Abbreviation d := (GRM.disc m).
Local Abbreviation nc := (GRM.nComp d).
Local Abbreviation ncol := (GRM.nCol d).
Local Abbreviation npt := (GRM.nParType d).

Hypothesis L : layout_ok d.

Lemma index_parts_distinct (t k c t' k' c' k'' c'' : Z) :
  0 <= t < npt -> 0 <= k < ncol -> 0 <= c < nc ->
  0 <= t' < npt -> 0 <= k' < ncol -> 0 <= c' < nc ->
  0 <= k'' < ncol -> 0 <= c'' < nc ->
  fluxIndex d t k c <> outerShellIndex d t' k' c'
  /\ fluxIndex d t k c <> bulkIndex d k'' c''
  /\ outerShellIndex d t' k' c' <> bulkIndex d k'' c''.
Proof.
  intros Ht Hk Hc Ht' Hk' Hc' Hk'' Hc''.
  pose proof (particles_below_flux m L t' k' c' t k c Ht' Hk' Hc'
                ltac:(lia) ltac:(lia) ltac:(lia)).
  pose proof (lo_nComp d L). pose proof (lo_nCol d L).
  assert (Hi : 0 <= k'' * nc + c'' < ncol * nc) by nia.
  pose proof (bulk_below_particles m L (k'' * nc + c'') t' k' c' Hi Ht' Hk' Hc').
  unfold bulkIndex in *. repeat split; lia.
Qed.

Lemma residualFlux_derivative_flux_row (t k c : Z) :
  0 <= t < npt -> 0 <= k < ncol -> 0 <= c < nc ->
  residualFluxDerivative m secIdx (fluxIndex d t k c) (outerShellIndex d t k c)
  = filmCoefficientFV m secIdx t c
  /\ residualFluxDerivative m secIdx (fluxIndex d t k c) (bulkIndex d k c)
     = (- filmCoefficientFV m secIdx t c)%R.
Proof.
  intros Ht Hk Hc. unfold residualFluxDerivative.
  destruct (index_parts_distinct t k c t k c k c Ht Hk Hc Ht Hk Hc Hk Hc)
    as (N1 & N2 & N3).
  destruct (residualFlux_rows m secIdx (fun _ => 0%R) L 0%R None (fun _ => 0%R))
    as [H0 _].
  split.
  - destruct (residualFlux_rows m secIdx
                (unitVector (outerShellIndex d t k c)) L 0%R None
                (fun _ => 0%R)) as [H1 _].
    rewrite H1, H0 by assumption. unfold unitVector.
    rewrite Z.eqb_refl.
    destruct (Z.eqb_spec (fluxIndex d t k c) (outerShellIndex d t k c));
      [contradiction|].
    destruct (Z.eqb_spec (bulkIndex d k c) (outerShellIndex d t k c));
      [exfalso; apply N3; congruence|].
    lra.
  - destruct (residualFlux_rows m secIdx (unitVector (bulkIndex d k c)) L 0%R
                None (fun _ => 0%R)) as [H1 _].
    rewrite H1, H0 by assumption. unfold unitVector.
    rewrite Z.eqb_refl.
    destruct (Z.eqb_spec (fluxIndex d t k c) (bulkIndex d k c));
      [contradiction|].
    destruct (Z.eqb_spec (outerShellIndex d t k c) (bulkIndex d k c));
      [contradiction|].
    lra.
Qed.

Lemma residualFlux_derivative_bulk_row (t k c : Z) :
  0 <= t < npt -> 0 <= k < ncol -> 0 <= c < nc ->
  residualFluxDerivative m secIdx (bulkIndex d k c) (fluxIndex d t k c)
  = bulkFluxFactor m t k.
Proof.
  intros Ht Hk Hc. unfold residualFluxDerivative.
  rewrite !(residualFlux_bulk m secIdx _ L 0%R None (fun _ => 0%R) k c Hk Hc).
  rewrite (rsum_ext _ (fun t' => if t' =? t then bulkFluxFactor m t' k else 0%R)).
  - rewrite rsum_single by exact Ht.
    rewrite (rsum_ext _ (fun _ => 0%R)) by (intros; lra).
    rewrite rsum_const by apply (lo_nParType d L). lra.
  - intros t' Ht'. unfold unitVector, bulkFluxFactor.
    destruct (Z.eqb_spec t' t) as [->|Hne].
    + rewrite Z.eqb_refl. lra.
    + destruct (Z.eqb_spec (fluxIndex d t' k c) (fluxIndex d t k c)) as [E|_];
        [|lra].
      exfalso. apply Hne.
      apply (fluxIndex_types m t' k c t k c); auto.
Qed.

End CouplingDerivatives.

Section AssembledBlocks.
Variable m : GRM.Model.
Variable secIdx : Z.
Variable time : R.
Variable J : GRM.OffdiagJac.

Local Abbreviation d := (GRM.disc m).
Local Abbreviation nc := (GRM.nComp d).
Local Abbreviation ncol := (GRM.nCol d).
Local Abbreviation npt := (GRM.nParType d).

Hypothesis L : layout_ok d.

Lemma assembleOffdiagJac_cleared_all (n : Z) :
  0 <= n ->
  let cleared :=
    for_range 0 n
      (fun pblk J' =>
         GRM.mkOffdiagJac (GRM.jacCF J') (GRM.jacFC J')
           (upd (GRM.jacPF J') pblk []) (upd (GRM.jacFP J') pblk []))
      (GRM.mkOffdiagJac [] [] (GRM.jacPF J) (GRM.jacFP J)) in
  GRM.jacCF cleared = [] /\ GRM.jacFC cleared = []
  /\ forall b, GRM.jacFP cleared b
               = if (0 <=? b) && (b <? n) then [] else GRM.jacFP J b.
Proof.
  intros Hn. cbv zeta.
  apply (for_range_inv
           (fun k J' =>
              GRM.jacCF J' = [] /\ GRM.jacFC J' = []
              /\ forall b, GRM.jacFP J' b
                           = if (0 <=? b) && (b <? k) then []
                             else GRM.jacFP J b)).
  - exact Hn.
  - cbn. repeat split. intros b.
    destruct (Z.leb_spec 0 b), (Z.ltb_spec b 0); try reflexivity; lia.
  - intros k J' Hk (H1 & H2 & H3). cbn [GRM.jacCF GRM.jacFC GRM.jacFP].
    repeat split; try assumption. intros b. unfold upd.
    destruct (Z.eqb_spec b k) as [->|Hne].
    + destruct (Z.leb_spec 0 k), (Z.ltb_spec k (k + 1)); try reflexivity; lia.
    + rewrite H3.
      destruct (Z.leb_spec 0 b), (Z.ltb_spec b k), (Z.ltb_spec b (k + 1));
        try reflexivity; lia.
Qed.

Lemma assembleOffdiagJac_all :
  let J' := GRM.assembleOffdiagJac m time secIdx J in
  GRM.jacCF J' = List.concat (map (jacCF_entries m) (zrange npt))
  /\ GRM.jacFC J' = List.concat (map (jacFC_entries m secIdx) (zrange npt))
  /\ (forall t k, 0 <= t < npt -> 0 <= k < ncol ->
        GRM.jacFP J' (t * ncol + k) = jacFP_entries m secIdx t k)
  /\ (forall b, ~ 0 <= b < ncol * npt ->
        GRM.jacFP J' b = GRM.jacFP J b /\ GRM.jacPF J' b = GRM.jacPF J b).
Proof.
  cbv zeta. unfold GRM.assembleOffdiagJac. cbv zeta.
  pose proof (lo_nComp d L) as Hnc. pose proof (lo_nCol d L) as Hncol.
  pose proof (lo_nParType d L) as Hnpt.
  assert (Hsize : UInt.mul ncol npt = ncol * npt).
  { destruct (Z.eq_dec npt 0) as [E|E].
    - rewrite E. unfold UInt.mul. now rewrite Z.mul_0_r.
    - now destruct (layout_blocks m L 0 0 0 ltac:(lia) ltac:(lia) ltac:(lia))
        as (_ & -> & _). }
  rewrite Hsize.
  destruct (assembleOffdiagJac_cleared_all (ncol * npt) ltac:(nia))
    as (C1 & C2 & C3).
  cbv zeta in C1, C2, C3.
  pose proof (assembleOffdiagJac_cleared J (ncol * npt)) as C4.
  set (cleared := for_range 0 (ncol * npt) _ _) in *.
  cut (forall j, 0 <= j <= npt ->
         let J' := for_range 0 j (GRM.assembleOffdiagJacType m secIdx) cleared in
         GRM.jacCF J' = List.concat (map (jacCF_entries m) (zrange j))
         /\ GRM.jacFC J' = List.concat (map (jacFC_entries m secIdx) (zrange j))
         /\ (forall t k, 0 <= t < npt -> 0 <= k < ncol ->
               GRM.jacFP J' (t * ncol + k)
               = if t <? j then jacFP_entries m secIdx t k else [])
         /\ (forall b, ~ 0 <= b < ncol * npt ->
               GRM.jacFP J' b = GRM.jacFP J b /\ GRM.jacPF J' b = GRM.jacPF J b)).
  { intros G. destruct (G npt ltac:(lia)) as (G1 & G2 & G3 & G4).
    repeat split; try assumption; try (now apply G4).
    intros t k Ht Hk. rewrite G3 by assumption.
    destruct (Z.ltb_spec t npt); [reflexivity|lia]. }
  intros j Hj. cbv zeta.
  apply (for_range_inv
           (fun j J' =>
              GRM.jacCF J' = List.concat (map (jacCF_entries m) (zrange j))
              /\ GRM.jacFC J'
                 = List.concat (map (jacFC_entries m secIdx) (zrange j))
              /\ (forall t k, 0 <= t < npt -> 0 <= k < ncol ->
                    GRM.jacFP J' (t * ncol + k)
                    = if t <? j then jacFP_entries m secIdx t k else [])
              /\ (forall b, ~ 0 <= b < ncol * npt ->
                    GRM.jacFP J' b = GRM.jacFP J b
                    /\ GRM.jacPF J' b = GRM.jacPF J b))).
  - lia.
  - split; [exact C1|]. split; [exact C2|]. split.
    + intros t k Ht Hk. rewrite C3.
      assert (0 <= t * ncol) by nia.
      assert (t * ncol + ncol <= ncol * npt) by nia.
      destruct (Z.leb_spec 0 (t * ncol + k)),
               (Z.ltb_spec (t * ncol + k) (ncol * npt)); try lia.
      destruct (Z.ltb_spec t 0); [lia|reflexivity].
    + intros b Hb. rewrite C3, C4 by nia.
      destruct (Z.leb_spec 0 b), (Z.ltb_spec b (ncol * npt));
        try (split; reflexivity); lia.
  - intros i J' Hi (I1 & I2 & I3 & I4).
    destruct (assembleOffdiagJacType_blocks m secIdx L i J' ltac:(lia))
      as (B1 & B2 & B3).
    cbv zeta in B1, B2, B3.
    rewrite zrange_succ by lia. rewrite !map_app, !concat_app.
    cbn [map List.concat]. rewrite !app_nil_r.
    split; [now rewrite B1, I1|]. split; [now rewrite B2, I2|]. split.
    + intros t k Ht Hk. rewrite B3, I3 by assumption.
      destruct (Z.eq_dec t i) as [->|Hne].
      * destruct (Z.leb_spec (i * ncol) (i * ncol + k)),
                 (Z.ltb_spec (i * ncol + k) (i * ncol + ncol)); try lia.
        cbn [andb].
        destruct (Z.ltb_spec i i); [lia|].
        destruct (Z.ltb_spec i (i + 1)); [|lia].
        replace (i * ncol + k - i * ncol) with k by lia. reflexivity.
      * assert (~ (i * ncol <= t * ncol + k < i * ncol + ncol)) by nia.
        destruct (Z.leb_spec (i * ncol) (t * ncol + k)),
                 (Z.ltb_spec (t * ncol + k) (i * ncol + ncol));
          cbn [andb]; try lia;
          destruct (Z.ltb_spec t i), (Z.ltb_spec t (i + 1));
          try reflexivity; lia.
    + intros b Hb. destruct (I4 b Hb) as [I5 I6].
      rewrite B3, (assembleOffdiagJacType_jacPF m secIdx L i J' b) by lia.
      assert (~ (i * ncol <= b < i * ncol + ncol)) by nia.
      destruct (Z.leb_spec (i * ncol) b), (Z.ltb_spec b (i * ncol + ncol));
        cbn [andb]; try lia; split; assumption.
Qed.

End AssembledBlocks.

(** X15.  What [assembleOffdiagJac] leaves behind does not depend on what
    the blocks held before: [_jacCF] and [_jacFC] hold the entries of the
    particle types in the order of the types, the blocks of [_jacFP] and
    [_jacPF] of the particle [(t, k)] hold one entry per component, and
    the blocks past [nCol * nParType] are not touched. *)
Theorem assembleOffdiagJac_blocks (p : GRM.DiscretizationInput) (m : GRM.Model)
    (time : R) (secIdx : Z) (J : GRM.OffdiagJac) :
  GRM.configureDescriptor p = Ok (GRM.disc m) ->
  1 <= GRM.nComp (GRM.disc m) -> 1 <= GRM.nCol (GRM.disc m) ->
  closedFormDofs (GRM.disc m) < UInt.modulus ->
  (forall t', 0 <= t' < GRM.nParType (GRM.disc m) ->
     1 <= GRM.nParCell (GRM.disc m) t') ->
  let d := GRM.disc m in
  let J' := GRM.assembleOffdiagJac m time secIdx J in
  GRM.jacCF J' = List.concat (map (jacCF_entries m) (zrange (GRM.nParType d)))
  /\ GRM.jacFC J'
     = List.concat (map (jacFC_entries m secIdx) (zrange (GRM.nParType d)))
  /\ (forall t k, 0 <= t < GRM.nParType d -> 0 <= k < GRM.nCol d ->
        GRM.jacFP J' (t * GRM.nCol d + k) = jacFP_entries m secIdx t k
        /\ GRM.jacPF J' (t * GRM.nCol d + k) = jacPF_entries m t k)
  /\ (forall b, ~ 0 <= b < GRM.nCol d * GRM.nParType d ->
        GRM.jacFP J' b = GRM.jacFP J b /\ GRM.jacPF J' b = GRM.jacPF J b).
Proof.
  intros H Hnc Hncol Hfit Hshell. cbv zeta.
  assert (L : layout_ok (GRM.disc m))
    by (apply (configured_layout_ok p); auto).
  destruct (assembleOffdiagJac_all m secIdx time J L) as (A1 & A2 & A3 & A4).
  cbv zeta in A1, A2, A3, A4.
  repeat split; try assumption; try (now apply A4).
  - now apply A3.
  - now apply assembleOffdiagJac_jacPF.
Qed.

Lemma assembleOffdiagJac_blocks_witness :
  exists d,
    GRM.configureDescriptor (GRM.mkDiscInput 1 1 [1] [0] None) = Ok d
    /\ let m := exampleModel d (fun _ => 1%R) 1%R in
       GRM.jacFC
         (GRM.assembleOffdiagJac m 0%R 0
            (GRM.mkOffdiagJac [GRM.mkEntry 5 5 5%R] [GRM.mkEntry 5 5 5%R]
               (fun _ => []) (fun _ => [])))
       = List.concat (map (jacFC_entries m 0) (zrange 1)).
Proof.
  eexists. split; [reflexivity|]. intros m.
  assert (Hfit : closedFormDofs (GRM.disc m) < UInt.modulus)
    by (vm_compute; reflexivity).
  assert (Hshell : forall t', 0 <= t' < GRM.nParType (GRM.disc m) ->
            1 <= GRM.nParCell (GRM.disc m) t').
  { intros t' Ht'. change (GRM.nParType (GRM.disc m)) with 1 in Ht'.
    assert (t' = 0) as -> by lia. vm_compute. discriminate. }
  exact (proj1 (proj2 (assembleOffdiagJac_blocks
                         (GRM.mkDiscInput 1 1 [1] [0] None) m 0%R 0
                         (GRM.mkOffdiagJac [GRM.mkEntry 5 5 5%R]
                            [GRM.mkEntry 5 5 5%R] (fun _ => []) (fun _ => []))
                         eq_refl ltac:(vm_compute; discriminate)
                         ltac:(vm_compute; discriminate) Hfit Hshell))).
Defined.

(** X16.  The assembled coupling blocks carry the derivatives of the
    flux coupling residual: for every particle type, axial cell and
    component, [_jacFP] carries at (flux equation, outer shell
    concentration), [_jacFC] at (flux equation, bulk concentration) and
    [_jacCF] at (bulk equation, flux) the derivative of that row of
    [residualFlux] with respect to that entry of the state; [_jacPF] does so
    at (outer shell equation, flux) when the pore accessibility factor of
    the component is the same for the particle type as for the first
    type. *)
Theorem coupling_blocks_carry_derivatives (p : GRM.DiscretizationInput)
    (m : GRM.Model) (time : R) (secIdx : Z) (J : GRM.OffdiagJac) (t k c : Z) :
  GRM.configureDescriptor p = Ok (GRM.disc m) ->
  closedFormDofs (GRM.disc m) < UInt.modulus ->
  (forall t', 0 <= t' < GRM.nParType (GRM.disc m) ->
     1 <= GRM.nParCell (GRM.disc m) t') ->
  0 <= t < GRM.nParType (GRM.disc m) ->
  0 <= k < GRM.nCol (GRM.disc m) ->
  0 <= c < GRM.nComp (GRM.disc m) ->
  let d := GRM.disc m in
  let J' := GRM.assembleOffdiagJac m time secIdx J in
  let flux := fluxIndex d t k c in
  let bulk := bulkIndex d k c in
  let shell := outerShellIndex d t k c in
  In (GRM.mkEntry (flux - GRM.Indexer.offsetJf d) c
        (residualFluxDerivative m secIdx flux shell))
     (GRM.jacFP J' (t * GRM.nCol d + k))
  /\ In (GRM.mkEntry (flux - GRM.Indexer.offsetJf d)
           (bulk - GRM.Indexer.offsetC d)
           (residualFluxDerivative m secIdx flux bulk))
        (GRM.jacFC J')
  /\ In (GRM.mkEntry (bulk - GRM.Indexer.offsetC d)
           (flux - GRM.Indexer.offsetJf d)
           (residualFluxDerivative m secIdx bulk flux))
        (GRM.jacCF J')
  /\ (GRM.poreAccessFactor m c = GRM.poreAccessFactor m (t * GRM.nComp d + c) ->
      In (GRM.mkEntry c (flux - GRM.Indexer.offsetJf d)
            (residualFluxDerivative m secIdx shell flux))
         (GRM.jacPF J' (t * GRM.nCol d + k))).
Proof.
  intros H Hfit Hshell Ht Hk Hc. cbv zeta.
  assert (L : layout_ok (GRM.disc m))
    by (apply (configured_layout_ok p); auto; lia).
  destruct (assembleOffdiagJac_all m secIdx time J L) as (A1 & A2 & A3 & _).
  cbv zeta in A1, A2, A3.
  destruct (residualFlux_derivative_flux_row m secIdx L t k c Ht Hk Hc)
    as [D1 D2].
  pose proof (residualFlux_derivative_bulk_row m secIdx L t k c Ht Hk Hc) as D3.
  pose proof (residualFlux_coupling_derivative m secIdx t k c L Ht Hk Hc) as D4.
  cbv zeta in D4.
  assert (Ef : fluxIndex (GRM.disc m) t k c - GRM.Indexer.offsetJf (GRM.disc m)
               = t * GRM.nCol (GRM.disc m) * GRM.nComp (GRM.disc m)
                 + (k * GRM.nComp (GRM.disc m) + c)).
  { unfold fluxIndex, GRM.Indexer.offsetJfType. lia. }
  assert (Eb : bulkIndex (GRM.disc m) k c - GRM.Indexer.offsetC (GRM.disc m)
               = k * GRM.nComp (GRM.disc m) + c).
  { unfold bulkIndex. lia. }
  rewrite Ef, Eb, D1, D2, D3, D4.
  split; [|split; [|split]].
  - rewrite A3 by assumption. unfold jacFP_entries. cbv zeta.
    apply in_map_iff. exists c. split; [reflexivity|now apply in_zrange_iff].
  - rewrite A2. apply in_concat.
    exists (jacFC_entries m secIdx t). split.
    + apply in_map. now apply in_zrange_iff.
    + unfold jacFC_entries. cbv zeta. apply in_concat.
      eexists. split.
      * apply in_map_iff. exists k. split; [reflexivity|now apply in_zrange_iff].
      * apply in_map_iff. exists c. split; [reflexivity|now apply in_zrange_iff].
  - rewrite A1. apply in_concat.
    exists (jacCF_entries m t). split.
    + apply in_map. now apply in_zrange_iff.
    + unfold jacCF_entries. cbv zeta.
      assert (Ek : (k * GRM.nComp (GRM.disc m) + c) / GRM.nComp (GRM.disc m) = k).
      { rewrite Z.div_add_l by lia. rewrite Z.div_small by lia. lia. }
      apply in_map_iff. exists (k * GRM.nComp (GRM.disc m) + c). split.
      * rewrite Ek. f_equal. lia.
      * apply in_zrange_iff. nia.
  - intros Hacc.
    rewrite (assembleOffdiagJac_jacPF m secIdx L time J t k Ht Hk).
    unfold jacPF_entries. cbv zeta. rewrite <- Hacc.
    apply in_map_iff. exists c. split; [reflexivity|now apply in_zrange_iff].
Qed.

Lemma coupling_blocks_carry_derivatives_witness :
  exists d,
    GRM.configureDescriptor (GRM.mkDiscInput 1 1 [1] [0] None) = Ok d
    /\ let m := exampleModel d (fun _ => 1%R) 1%R in
       In (GRM.mkEntry (fluxIndex d 0 0 0 - GRM.Indexer.offsetJf d) 0
             (residualFluxDerivative m 0 (fluxIndex d 0 0 0)
                (outerShellIndex d 0 0 0)))
          (GRM.jacFP (GRM.assembleOffdiagJac m 0%R 0 emptyOffdiagJac)
             (0 * GRM.nCol d + 0)).
Proof.
  eexists. split; [reflexivity|]. intros m.
  assert (Hfit : closedFormDofs (GRM.disc m) < UInt.modulus)
    by (vm_compute; reflexivity).
  assert (Hshell : forall t', 0 <= t' < GRM.nParType (GRM.disc m) ->
            1 <= GRM.nParCell (GRM.disc m) t').
  { intros t' Ht'. change (GRM.nParType (GRM.disc m)) with 1 in Ht'.
    assert (t' = 0) as -> by lia. vm_compute. discriminate. }
  assert (Hr : 0 <= 0 < 1) by lia.
  exact (proj1 (coupling_blocks_carry_derivatives
                  (GRM.mkDiscInput 1 1 [1] [0] None) m 0%R 0 emptyOffdiagJac
                  0 0 0 eq_refl Hfit Hshell Hr Hr Hr)).
Defined.

(** ** Inlet and outlet after a change of the flow direction *)

(** X17.  After a transition at which the flow direction changes, the
    outlet of the unit operation and the entries of [_jacInlet] are at
    opposite ends of the column: with a velocity [u >= 0] the outlet is
    the first component of the last bulk cell and [_jacInlet] maps the
    inlet into the rows of the first bulk cell; with [u < 0] the outlet is
    the first component of the first bulk cell and [_jacInlet] maps the
    inlet into the rows of the last bulk cell. *)
Theorem outlet_opposite_to_inlet
    (p : GRM.DiscretizationInput) (m m' : GRM.Model) (filmDep parDep : bool)
    (t : R) (secIdx : Z) (J : GRM.OffdiagJac) (jacInlet0 : GRM.SparseMatrix)
    (port : Z) :
  GRM.configureDescriptor p = Ok (GRM.disc m) ->
  1 <= GRM.nCol (GRM.disc m) ->
  GRM.nComp (GRM.disc m) + GRM.nCol (GRM.disc m) * GRM.nComp (GRM.disc m)
  < UInt.modulus ->
  GRM.cdo_flowDirectionChanges (GRM.convDispOp m) t secIdx = true ->
  let d := GRM.disc m in
  let after :=
    GRM.notifyDiscontinuousSectionTransition m filmDep parDep t secIdx J jacInlet0 in
  let u := GRM.cdo_currentVelocity (GRM.ts_convDispOp after) in
  GRM.disc m' = d ->
  GRM.convDispOp m' = GRM.ts_convDispOp after ->
  ((u >= 0)%R ->
   GRM.localOutletComponentIndex m' port = bulkIndex d (GRM.nCol d - 1) 0
   /\ forall e, In e (GRM.ts_jacInlet after) ->
        0 <= GRM.se_row e < GRM.nComp d)
  /\ ((u < 0)%R ->
      GRM.localOutletComponentIndex m' port = bulkIndex d 0 0
      /\ forall e, In e (GRM.ts_jacInlet after) ->
           (GRM.nCol d - 1) * GRM.nComp d <= GRM.se_row e
           < GRM.nCol d * GRM.nComp d).
Proof.
  intros H Hncol Hfit Hchanged. cbv zeta. intros Hd Hop.
  pose proof (configured_nComp_nonneg p _ H) as Hnc.
  assert (Hfit' : GRM.nCol (GRM.disc m) * GRM.nComp (GRM.disc m) < UInt.modulus)
    by lia.
  rewrite (notify_velocity m filmDep parDep t secIdx J jacInlet0 Hchanged).
  unfold GRM.localOutletComponentIndex. cbv zeta. rewrite Hd, Hop.
  rewrite (notify_velocity m filmDep parDep t secIdx J jacInlet0 Hchanged).
  set (u := GRM.cdo_velocityAfter (GRM.convDispOp m) t secIdx).
  split; intros Hu.
  - destruct (Rge_dec u 0) as [_|Hn]; [|contradiction]. split.
    + assert (Hs : UInt.sub (GRM.nCol (GRM.disc m)) 1
                   = GRM.nCol (GRM.disc m) - 1)
        by (unfold UInt.sub; apply wrap_small;
            destruct (configured_ranges p _ H) as (_ & Hr & _); lia).
      rewrite Hs. unfold bulkIndex, GRM.Indexer.offsetC, UInt.add, UInt.mul.
      assert (0 <= (GRM.nCol (GRM.disc m) - 1) * GRM.nComp (GRM.disc m)) by nia.
      assert ((GRM.nCol (GRM.disc m) - 1) * GRM.nComp (GRM.disc m)
              = GRM.nCol (GRM.disc m) * GRM.nComp (GRM.disc m)
                - GRM.nComp (GRM.disc m)) by ring.
      rewrite (wrap_small ((GRM.nCol (GRM.disc m) - 1) * GRM.nComp (GRM.disc m)))
        by lia.
      rewrite wrap_small by lia. lia.
    + intros e He.
      rewrite (notify_forwards_entries m filmDep parDep t secIdx J jacInlet0
                 Hchanged Hnc Hncol Hfit' Hu) in He.
      apply in_map_iff in He. destruct He as (c & <- & Hc).
      apply in_zrange in Hc. cbn [GRM.se_row]. exact Hc.
  - destruct (Rge_dec u 0) as [Hn|_]; [lra|]. split.
    + unfold bulkIndex, GRM.Indexer.offsetC. lia.
    + intros e He.
      rewrite (notify_backwards_entries m filmDep parDep t secIdx J jacInlet0
                 Hchanged Hnc Hncol Hfit' Hu) in He.
      apply in_map_iff in He. destruct He as (c & <- & Hc).
      apply in_zrange in Hc. cbn [GRM.se_row]. nia.
Qed.

Lemma outlet_opposite_to_inlet_witness :
  exists d,
    GRM.configureDescriptor (GRM.mkDiscInput 1 2 [1] [0] None) = Ok d
    /\ let m := exampleModel d (fun _ => 1%R) (-1)%R in
       let after :=
         GRM.notifyDiscontinuousSectionTransition m false false 0%R 1
           emptyOffdiagJac [] in
       let m' :=
         GRM.mkModel d (GRM.colPorosity m) (GRM.parRadius m)
           (GRM.parCoreRadius m) (GRM.parPorosity m) (GRM.parTypeVolFrac m)
           (GRM.filmDiffusion m) (GRM.parDiffusion m) (GRM.parSurfDiffusion m)
           (GRM.poreAccessFactor m) (GRM.hasSurfaceDiffusion m) (GRM.geometry m)
           (GRM.binding m) (GRM.dynReactionBulk m) (GRM.ts_convDispOp after)
           (GRM.kernels m) in
       GRM.localOutletComponentIndex m' 0 = bulkIndex d 0 0.
Proof.
  eexists. split; [reflexivity|]. intros m after m'.
  assert (Hchanged : GRM.cdo_flowDirectionChanges (GRM.convDispOp m) 0%R 1 = true)
    by reflexivity.
  destruct (outlet_opposite_to_inlet (GRM.mkDiscInput 1 2 [1] [0] None) m m'
              false false 0%R 1 emptyOffdiagJac [] 0 eq_refl
              ltac:(vm_compute; discriminate) ltac:(vm_compute; reflexivity)
              Hchanged eq_refl eq_refl) as [_ T].
  apply T.
  rewrite (notify_velocity m false false 0%R 1 emptyOffdiagJac [] Hchanged).
  cbn. lra.
Defined.

(** ** The consistent initialization with either tag *)











Section SolveCouplingDOF.

Variable sys : ModelSystem.System.
Variable v1 : GRM.vec.

Hypothesis HF : 0 <= last (ModelSystem.dofOffset sys) 0.
Hypothesis Hcount : forall i, 0 <= i < vsize (ModelSystem.models sys) ->
  0 <= ModelSystem.numInletPorts
         (vget ModelSystem.noUnit (ModelSystem.models sys) i)
  /\ 0 <= ModelSystem.numComponents
            (vget ModelSystem.noUnit (ModelSystem.models sys) i).
Hypothesis Hfit :
  last (ModelSystem.dofOffset sys) 0
  + zsum (inletDofs sys) (vsize (ModelSystem.models sys)) < UInt.modulus.
Hypothesis Hbelow : forall i p c, isInletDof sys i p c ->
  inletIndex sys i p c < last (ModelSystem.dofOffset sys) 0.
Hypothesis Hinj : forall i p c i' p' c',
  isInletDof sys i p c -> isInletDof sys i' p' c' ->
  inletIndex sys i p c = inletIndex sys i' p' c' ->
  i = i' /\ p = p' /\ c = c'.

Lemma coupled_ext (D D' : Z -> Z -> Z -> Prop) (k k' : Z)
    (cur : ModelSystem.CouplingCursor) :
  (forall i p c, isInletDof sys i p c -> (D i p c <-> D' i p c)) ->
  k = k' -> coupled sys v1 D k cur -> coupled sys v1 D' k' cur.
Proof.
  intros HD <- (Hk & Hfr & Hin). split; [exact Hk|]. split.
  - intros j Hj. apply Hfr. intros i p c Hv Hd. apply Hj; [exact Hv|].
    now apply HD.
  - intros i p c Hv Hd. apply Hin; [exact Hv|]. now apply HD.
Qed.

Lemma inletDofs_nonneg (i : Z) :
  0 <= i < vsize (ModelSystem.models sys) -> 0 <= inletDofs sys i.
Proof.
  intros Hi. unfold inletDofs. destruct (Hcount i Hi) as [Hp Hc].
  destruct (ModelSystem.hasInlet _); [nia|lia].
Qed.

Lemma couplingIndex_range (i p c : Z) :
  isInletDof sys i p c ->
  last (ModelSystem.dofOffset sys) 0 <= couplingIndex sys i p c
  /\ couplingIndex sys i p c + 1 < UInt.modulus.
Proof.
  intros (Hi & Hin & Hp & Hc).
  assert (Hb : 0 <= zsum (inletDofs sys) i).
  { apply zsum_nonneg. intros j Hj. apply inletDofs_nonneg. lia. }
  assert (Hs : zsum (inletDofs sys) (i + 1)
               <= zsum (inletDofs sys) (vsize (ModelSystem.models sys))).
  { apply zsum_mono; [|lia]. intros j Hj. now apply inletDofs_nonneg. }
  rewrite zsum_succ in Hs by lia.
  unfold inletDofs at 2 in Hs. rewrite Hin in Hs.
  assert (Hm : (p + 1) * ModelSystem.numComponents
                            (vget ModelSystem.noUnit (ModelSystem.models sys) i)
               <= ModelSystem.numInletPorts
                    (vget ModelSystem.noUnit (ModelSystem.models sys) i)
                  * ModelSystem.numComponents
                      (vget ModelSystem.noUnit (ModelSystem.models sys) i))
    by (apply Z.mul_le_mono_nonneg_r; lia).
  assert (H0 : 0 <= p * ModelSystem.numComponents
                        (vget ModelSystem.noUnit (ModelSystem.models sys) i))
    by (apply Z.mul_nonneg_nonneg; lia).
  unfold couplingIndex. cbv zeta. split; lia.
Qed.

Lemma coupled_component (i p c : Z) (cur : ModelSystem.CouplingCursor) :
  isInletDof sys i p c ->
  coupled sys v1 (writtenBefore i p c) (couplingIndex sys i p c) cur ->
  coupled sys v1 (writtenBefore i p (c + 1)) (couplingIndex sys i p (c + 1))
    (ModelSystem.mkCouplingCursor
       (upd (ModelSystem.cc_vec cur) (inletIndex sys i p c)
          (ModelSystem.cc_vec cur (ModelSystem.cc_idxCoupling cur)))
       (UInt.add (ModelSystem.cc_idxCoupling cur) 1)).
Proof.
  intros Hv (Hk & Hfr & Hin).
  destruct (couplingIndex_range i p c Hv) as [Hlo Hhi].
  assert (Hread : ModelSystem.cc_vec cur (ModelSystem.cc_idxCoupling cur)
                  = v1 (couplingIndex sys i p c)).
  { rewrite Hk. apply Hfr. intros i' p' c' Hv' _.
    specialize (Hbelow i' p' c' Hv'). lia. }
  split; [|split]; cbn [ModelSystem.cc_idxCoupling ModelSystem.cc_vec].
  - rewrite Hk. unfold UInt.add. rewrite wrap_small by lia.
    unfold couplingIndex. lia.
  - intros j Hj. rewrite upd_other.
    + apply Hfr. intros i' p' c' Hv' Hd. apply Hj; [exact Hv'|].
      unfold writtenBefore in *. lia.
    + intros E. apply (Hj i p c Hv); [|symmetry; exact E].
      unfold writtenBefore. lia.
  - intros i' p' c' Hv' Hd.
    destruct (Z.eq_dec (inletIndex sys i' p' c') (inletIndex sys i p c))
      as [E|E].
    + destruct (Hinj _ _ _ _ _ _ Hv' Hv E) as (-> & -> & ->).
      rewrite upd_same. exact Hread.
    + rewrite upd_other by exact E. apply Hin; [exact Hv'|].
      unfold writtenBefore in *.
      destruct Hd as [Hd|[-> [Hd|[-> Hd]]]]; [lia|lia|].
      assert (c' <> c) by (intros ->; now apply E). lia.
Qed.

Lemma coupled_port (i p : Z) (cur : ModelSystem.CouplingCursor) :
  0 <= i < vsize (ModelSystem.models sys) ->
  ModelSystem.hasInlet
    (vget ModelSystem.noUnit (ModelSystem.models sys) i) = true ->
  0 <= p < ModelSystem.numInletPorts
             (vget ModelSystem.noUnit (ModelSystem.models sys) i) ->
  coupled sys v1 (writtenBefore i p 0) (couplingIndex sys i p 0) cur ->
  coupled sys v1 (writtenBefore i (p + 1) 0) (couplingIndex sys i (p + 1) 0)
    (for_range 0
       (ModelSystem.numComponents
          (vget ModelSystem.noUnit (ModelSystem.models sys) i))
       (fun comp c3 =>
          ModelSystem.mkCouplingCursor
            (upd (ModelSystem.cc_vec c3)
               (UInt.add
                  (UInt.add (vget 0 (ModelSystem.dofOffset sys) i)
                     (ModelSystem.localInletComponentIndex
                        (vget ModelSystem.noUnit (ModelSystem.models sys) i) p))
                  (UInt.mul comp
                     (ModelSystem.localInletComponentStride
                        (vget ModelSystem.noUnit (ModelSystem.models sys) i) p)))
               (ModelSystem.cc_vec c3 (ModelSystem.cc_idxCoupling c3)))
            (UInt.add (ModelSystem.cc_idxCoupling c3) 1))
       cur).
Proof.
  intros Hi Hin Hp H0.
  destruct (Hcount i Hi) as [_ Hnc].
  apply (coupled_ext
           (writtenBefore i p
              (ModelSystem.numComponents
                 (vget ModelSystem.noUnit (ModelSystem.models sys) i)))
           _
           (couplingIndex sys i p
              (ModelSystem.numComponents
                 (vget ModelSystem.noUnit (ModelSystem.models sys) i)))).
  - intros i' p' c' (Hi' & Hin' & Hp' & Hc'). unfold writtenBefore.
    split; intros [H|[-> H]]; try lia.
  - unfold couplingIndex. lia.
  - apply (for_range_inv
             (fun c cur' => coupled sys v1 (writtenBefore i p c)
                              (couplingIndex sys i p c) cur'));
      [exact Hnc|exact H0|].
    intros c cur' Hc Hcur.
    apply (coupled_component i p c cur'); [|exact Hcur].
    unfold isInletDof. auto.
Qed.

Lemma coupled_unit (i : Z) (cur : ModelSystem.CouplingCursor) :
  0 <= i < vsize (ModelSystem.models sys) ->
  coupled sys v1 (writtenBefore i 0 0) (couplingIndex sys i 0 0) cur ->
  coupled sys v1 (writtenBefore (i + 1) 0 0) (couplingIndex sys (i + 1) 0 0)
    (let m := vget ModelSystem.noUnit (ModelSystem.models sys) i in
     let offset := vget 0 (ModelSystem.dofOffset sys) i in
     if negb (ModelSystem.hasInlet m)
     then cur
     else
       for_range 0 (ModelSystem.numInletPorts m)
         (fun port c'' =>
            let localIndex := ModelSystem.localInletComponentIndex m port in
            let localStride := ModelSystem.localInletComponentStride m port in
            for_range 0 (ModelSystem.numComponents m)
              (fun comp c3 =>
                 ModelSystem.mkCouplingCursor
                   (upd (ModelSystem.cc_vec c3)
                      (UInt.add (UInt.add offset localIndex)
                         (UInt.mul comp localStride))
                      (ModelSystem.cc_vec c3 (ModelSystem.cc_idxCoupling c3)))
                   (UInt.add (ModelSystem.cc_idxCoupling c3) 1))
              c'')
         cur).
Proof.
  intros Hi H0. cbv zeta.
  destruct (Hcount i Hi) as [Hnp Hnc].
  destruct (ModelSystem.hasInlet
              (vget ModelSystem.noUnit (ModelSystem.models sys) i)) eqn:Hin;
    cbn [negb].
  - apply (coupled_ext
             (writtenBefore i
                (ModelSystem.numInletPorts
                   (vget ModelSystem.noUnit (ModelSystem.models sys) i)) 0)
             _
             (couplingIndex sys i
                (ModelSystem.numInletPorts
                   (vget ModelSystem.noUnit (ModelSystem.models sys) i)) 0)).
    + intros i' p' c' (Hi' & Hin' & Hp' & Hc'). unfold writtenBefore.
      split; intros [H|[E H]]; try lia.
      destruct (Z.eq_dec i' i) as [->|]; lia.
    + assert (Ei : inletDofs sys i
                   = ModelSystem.numInletPorts
                       (vget ModelSystem.noUnit (ModelSystem.models sys) i)
                     * ModelSystem.numComponents
                         (vget ModelSystem.noUnit (ModelSystem.models sys) i))
        by (unfold inletDofs; cbv zeta; now rewrite Hin).
      unfold couplingIndex. cbv zeta. rewrite zsum_succ by lia. lia.
    + apply (for_range_inv
               (fun p cur' => coupled sys v1 (writtenBefore i p 0)
                                (couplingIndex sys i p 0) cur'));
        [exact Hnp|exact H0|].
      intros p cur' Hp Hcur.
      apply (coupled_port i p cur' Hi Hin Hp Hcur).
  - revert H0. apply coupled_ext.
    + intros i' p' c' (Hi' & Hin' & Hp' & Hc'). unfold writtenBefore.
      split; intros [H|[E H]]; try lia.
      destruct (Z.eq_dec i' i) as [->|]; [congruence|lia].
    + assert (Ei : inletDofs sys i = 0)
        by (unfold inletDofs; cbv zeta; now rewrite Hin).
      unfold couplingIndex. cbv zeta. rewrite zsum_succ by lia. lia.
Qed.

End SolveCouplingDOF.

Lemma exampleSystem_inletDof (i p c : Z) :
  isInletDof exampleSystem i p c -> i = 1 /\ p = 0 /\ (c = 0 \/ c = 1).
Proof.
  unfold isInletDof. cbv zeta. intros (Hi & Hin & Hp & Hc).
  change (vsize (ModelSystem.models exampleSystem)) with 2 in Hi.
  assert (Ei : i = 0 \/ i = 1) by lia.
  destruct Ei as [->| ->]; [discriminate Hin|].
  change (ModelSystem.numInletPorts
            (vget ModelSystem.noUnit (ModelSystem.models exampleSystem) 1))
    with 1 in Hp.
  change (ModelSystem.numComponents
            (vget ModelSystem.noUnit (ModelSystem.models exampleSystem) 1))
    with 2 in Hc.
  lia.
Qed.

Lemma solveCouplingDOF_vec_spec (sys : ModelSystem.System)
    (v : GRM.vec) :
  0 <= last (ModelSystem.dofOffset sys) 0 ->
  (forall i, 0 <= i < vsize (ModelSystem.models sys) ->
     0 <= ModelSystem.numInletPorts
            (vget ModelSystem.noUnit (ModelSystem.models sys) i)
     /\ 0 <= ModelSystem.numComponents
               (vget ModelSystem.noUnit (ModelSystem.models sys) i)) ->
  last (ModelSystem.dofOffset sys) 0
  + zsum (inletDofs sys) (vsize (ModelSystem.models sys)) < UInt.modulus ->
  (forall i p c, isInletDof sys i p c ->
     inletIndex sys i p c < last (ModelSystem.dofOffset sys) 0) ->
  (forall i p c i' p' c',
     isInletDof sys i p c -> isInletDof sys i' p' c' ->
     inletIndex sys i p c = inletIndex sys i' p' c' ->
     i = i' /\ p = p' /\ c = c') ->
  (forall i p c, isInletDof sys i p c ->
     ModelSystem.solveCouplingDOF_vec sys v (inletIndex sys i p c)
     = subtractOutlets sys v (couplingIndex sys i p c))
  /\ (forall j,
        (forall i p c, isInletDof sys i p c -> inletIndex sys i p c <> j) ->
        ModelSystem.solveCouplingDOF_vec sys v j = subtractOutlets sys v j).
Proof.
  intros HF Hcount Hfit Hbelow Hinj.
  assert (Hn : 0 <= vsize (ModelSystem.models sys)) by (unfold vsize; lia).
  unfold ModelSystem.solveCouplingDOF_vec. cbv zeta.
  fold (subtractOutlets sys v).
  match goal with
  | |- context [ModelSystem.cc_vec ?r] =>
      assert (Hmain : coupled sys (subtractOutlets sys v)
                        (writtenBefore (vsize (ModelSystem.models sys)) 0 0)
                        (couplingIndex sys (vsize (ModelSystem.models sys)) 0 0)
                        r)
  end.
  { apply (for_range_inv
             (fun i cur => coupled sys (subtractOutlets sys v)
                             (writtenBefore i 0 0)
                             (couplingIndex sys i 0 0) cur));
      [exact Hn| |].
    - split; [|split]; cbn [ModelSystem.cc_idxCoupling ModelSystem.cc_vec].
      + unfold couplingIndex. cbv zeta. rewrite zsum_0. lia.
      + reflexivity.
      + intros i p c (Hi & _ & Hp & Hc) Hw. unfold writtenBefore in Hw. lia.
    - intros i cur Hi Hcur.
      apply (coupled_unit sys (subtractOutlets sys v)
               HF Hcount Hfit Hbelow Hinj i cur Hi Hcur). }
  destruct Hmain as (_ & Hfr & Hin). split.
  - intros i p c Hv. apply Hin; [exact Hv|].
    destruct Hv as (Hi & _). unfold writtenBefore. lia.
  - intros j Hj. apply Hfr. intros i p c Hv _. now apply Hj.
Qed.

(** X20.  After [solveCouplingDOF], every inlet DOF of every unit
    operation holds the value that its coupling DOF has after the products
    with [_jacFN] were subtracted, and every other entry of the vector is
    as the subtraction left it; this holds when the inlet DOFs lie before
    the coupling DOFs, no two of them share an index, and the coupling
    DOFs end before [2^32]. *)
Theorem solveCouplingDOF_inlet_equals_coupling (sys : ModelSystem.System)
    (v : GRM.vec) :
  0 <= last (ModelSystem.dofOffset sys) 0 ->
  (forall i, 0 <= i < vsize (ModelSystem.models sys) ->
     0 <= ModelSystem.numInletPorts
            (vget ModelSystem.noUnit (ModelSystem.models sys) i)
     /\ 0 <= ModelSystem.numComponents
               (vget ModelSystem.noUnit (ModelSystem.models sys) i)) ->
  last (ModelSystem.dofOffset sys) 0
  + zsum (inletDofs sys) (vsize (ModelSystem.models sys)) < UInt.modulus ->
  (forall i p c, isInletDof sys i p c ->
     inletIndex sys i p c < last (ModelSystem.dofOffset sys) 0) ->
  (forall i p c i' p' c',
     isInletDof sys i p c -> isInletDof sys i' p' c' ->
     inletIndex sys i p c = inletIndex sys i' p' c' ->
     i = i' /\ p = p' /\ c = c') ->
  (forall i p c, isInletDof sys i p c ->
     ModelSystem.solveCouplingDOF_vec sys v (inletIndex sys i p c)
     = subtractOutlets sys v (couplingIndex sys i p c))
  /\ (forall j,
        (forall i p c, isInletDof sys i p c -> inletIndex sys i p c <> j) ->
        ModelSystem.solveCouplingDOF_vec sys v j = subtractOutlets sys v j).
Proof. apply solveCouplingDOF_vec_spec. Qed.

Lemma solveCouplingDOF_inlet_equals_coupling_witness :
  ModelSystem.solveCouplingDOF_vec exampleSystem (fun i => IZR i)
    (inletIndex exampleSystem 1 0 1)
  = subtractOutlets exampleSystem (fun i => IZR i)
      (couplingIndex exampleSystem 1 0 1).
Proof.
  destruct (solveCouplingDOF_inlet_equals_coupling exampleSystem
              (fun i => IZR i)) as [H _].
  - vm_compute. discriminate.
  - intros i Hi.
    change (vsize (ModelSystem.models exampleSystem)) with 2 in Hi.
    assert (Ei : i = 0 \/ i = 1) by lia.
    destruct Ei as [->| ->]; vm_compute; split; discriminate.
  - vm_compute. reflexivity.
  - intros i p c Hv.
    destruct (exampleSystem_inletDof i p c Hv) as (-> & -> & [->| ->]);
      vm_compute; reflexivity.
  - intros i p c i' p' c' Hv Hv'.
    destruct (exampleSystem_inletDof i p c Hv) as (-> & -> & [->| ->]);
      destruct (exampleSystem_inletDof i' p' c' Hv') as (-> & -> & [->| ->]);
      vm_compute; intros E; try discriminate E; auto.
  - apply H. unfold isInletDof. cbv zeta.
    change (vsize (ModelSystem.models exampleSystem)) with 2.
    change (ModelSystem.numInletPorts
              (vget ModelSystem.noUnit (ModelSystem.models exampleSystem) 1))
      with 1.
    change (ModelSystem.numComponents
              (vget ModelSystem.noUnit (ModelSystem.models exampleSystem) 1))
      with 2.
    repeat split; try lia.
Defined.

(** ** The particle rows of the residual *)

Lemma for_range_rel {S : Type} (Q : Z -> S -> S -> Prop) (body : Z -> S -> S)
    (lo hi : Z) (s1 s2 : S) :
  lo <= hi ->
  Q lo s1 s2 ->
  (forall i a b, lo <= i < hi -> Q i a b -> Q (i + 1) (body i a) (body i b)) ->
  Q hi (for_range lo hi body s1) (for_range lo hi body s2).
Proof.
  intros Hle H0 Hstep.
  assert (G : forall n : nat, lo + Z.of_nat n <= hi ->
                Q (lo + Z.of_nat n) (for_range lo (lo + Z.of_nat n) body s1)
                  (for_range lo (lo + Z.of_nat n) body s2)).
  { induction n as [|n IH]; intros Hn.
    - rewrite Z.add_0_r, !for_range_nil by lia. exact H0.
    - replace (lo + Z.of_nat (Datatypes.S n)) with (lo + Z.of_nat n + 1) by lia.
      rewrite !for_range_succ_r by lia.
      apply Hstep; [lia|]. apply IH. lia. }
  specialize (G (Z.to_nat (hi - lo))).
  replace (lo + Z.of_nat (Z.to_nat (hi - lo))) with hi in G by lia.
  apply G. lia.
Qed.

Lemma mobilePhaseTransport_pointwise (m : GRM.Model) (secIdx parType par comp : Z)
    (y : GRM.vec) (pos : Z) (r1 r2 : GRM.vec) (j : Z) :
  r1 j = r2 j ->
  GRM.mobilePhaseTransport m secIdx parType par comp y pos r1 j
  = GRM.mobilePhaseTransport m secIdx parType par comp y pos r2 j.
Proof.
  intros E. destruct (Z.eq_dec j pos) as [->|Hne].
  - unfold GRM.mobilePhaseTransport. cbv zeta.
    destruct (negb (par =? UInt.sub _ 1)), (negb (par =? 0)),
             (vget false (GRM.hasSurfaceDiffusion m) parType).
    all: rewrite ?accumulate_get, ?accumulate_sub_get, ?Z.eqb_refl, ?upd_same.
    all: rewrite ?accumulate_get, ?accumulate_sub_get, ?Z.eqb_refl, ?upd_same.
    all: rewrite ?E; reflexivity.
  - rewrite !mobilePhaseTransport_other by exact Hne. exact E.
Qed.

Lemma solidPhaseTransport_pointwise (m : GRM.Model) (secIdx parType par bnd : Z)
    (y : GRM.vec) (pos : Z) (r1 r2 : GRM.vec) (j : Z) :
  r1 j = r2 j ->
  GRM.solidPhaseTransport m secIdx parType par bnd y pos r1 j
  = GRM.solidPhaseTransport m secIdx parType par bnd y pos r2 j.
Proof.
  intros E. destruct (Z.eq_dec j pos) as [->|Hne].
  - unfold GRM.solidPhaseTransport. cbv zeta.
    destruct (negb (GRM.reactionQuasiStationarity _ bnd =? 0)); [exact E|].
    destruct (negb (par =? UInt.sub _ 1)), (negb (par =? 0)).
    all: rewrite ?upd_same; rewrite ?E; reflexivity.
  - rewrite !solidPhaseTransport_other by exact Hne. exact E.
Qed.

Lemma residualShell_agree (m : GRM.Model) (t : R) (parType colCell secIdx : Z)
    (y : GRM.vec) (yDot : option GRM.vec) (par : Z) (W : Z -> Prop)
    (c1 c2 : GRM.ParticleCursor) :
  0 <= GRM.nComp (GRM.disc m) ->
  0 <= GRM.strideBound (GRM.disc m) parType ->
  (forall j, GRM.pc_pos c1 <= j
             < GRM.pc_pos c1 + GRM.Indexer.strideParShell (GRM.disc m) parType ->
             W j) ->
  cursorsAgree W c1 c2 ->
  cursorsAgree W
    (GRM.residualShell m t parType colCell secIdx y yDot par c1)
    (GRM.residualShell m t parType colCell secIdx y yDot par c2).
Proof.
  intros Hnc Hsb HW (Hpos & Hdot & Hres).
  unfold GRM.residualShell. cbv zeta.
  rewrite <- Hpos, <- Hdot.
  set (stride := GRM.Indexer.strideParShell (GRM.disc m) parType) in *.
  assert (Hclip : GRM.clip (GRM.window (GRM.pc_res c1) (GRM.pc_pos c1)) stride
                  = GRM.clip (GRM.window (GRM.pc_res c2) (GRM.pc_pos c1)) stride).
  { apply functional_extensionality. intros i. unfold GRM.clip, GRM.window.
    destruct (Z.leb_spec 0 i), (Z.ltb_spec i stride); cbn [andb];
      try reflexivity.
    apply Hres, HW. lia. }
  rewrite <- Hclip.
  set (K := GRM.residualKernel _ _ _ _ _ _ _ _).
  assert (H0 : cursorsAgree W
                 (GRM.mkParticleCursor
                    (GRM.write_window (GRM.pc_res c1) (GRM.pc_pos c1) stride K)
                    (GRM.pc_pos c1) (GRM.pc_posDot c1))
                 (GRM.mkParticleCursor
                    (GRM.write_window (GRM.pc_res c2) (GRM.pc_pos c1) stride K)
                    (GRM.pc_pos c1) (GRM.pc_posDot c1))).
  { split; [reflexivity|]. split; [reflexivity|].
    cbn [GRM.pc_res]. intros j Hj. rewrite !write_window_get.
    destruct ((GRM.pc_pos c1 <=? j) && (j <? GRM.pc_pos c1 + stride));
      [reflexivity|]. now apply Hres. }
  assert (H1 : cursorsAgree W
                 (for_range 0 (GRM.nComp (GRM.disc m))
                    (fun comp c' =>
                       GRM.mkParticleCursor
                         (GRM.mobilePhaseTransport m secIdx parType par comp y
                            (GRM.pc_pos c') (GRM.pc_res c'))
                         (GRM.pc_pos c' + 1) (GRM.pc_posDot c'))
                    (GRM.mkParticleCursor
                       (GRM.write_window (GRM.pc_res c1) (GRM.pc_pos c1) stride K)
                       (GRM.pc_pos c1) (GRM.pc_posDot c1)))
                 (for_range 0 (GRM.nComp (GRM.disc m))
                    (fun comp c' =>
                       GRM.mkParticleCursor
                         (GRM.mobilePhaseTransport m secIdx parType par comp y
                            (GRM.pc_pos c') (GRM.pc_res c'))
                         (GRM.pc_pos c' + 1) (GRM.pc_posDot c'))
                    (GRM.mkParticleCursor
                       (GRM.write_window (GRM.pc_res c2) (GRM.pc_pos c1) stride K)
                       (GRM.pc_pos c1) (GRM.pc_posDot c1)))).
  { apply (for_range_rel (fun _ a b => cursorsAgree W a b));
      [exact Hnc|exact H0|].
    intros i a b _ (Hp & Hd & Hr).
    split; [|split]; cbn [GRM.pc_pos GRM.pc_posDot GRM.pc_res].
    - now rewrite Hp.
    - exact Hd.
    - intros j Hj. rewrite <- Hp.
      apply mobilePhaseTransport_pointwise. now apply Hr. }
  revert H1.
  set (a1 := for_range 0 (GRM.nComp (GRM.disc m)) _ _).
  set (b1 := for_range 0 (GRM.nComp (GRM.disc m)) _ _).
  intros H1.
  destruct (vget false (GRM.hasSurfaceDiffusion m) parType
            && GRM.hasDynamicReactions (GRM.binding m parType)).
  - assert (H2 : cursorsAgree W
                   (for_range 0 (GRM.strideBound (GRM.disc m) parType)
                      (fun bnd c' =>
                         GRM.mkParticleCursor
                           (GRM.solidPhaseTransport m secIdx parType par bnd y
                              (GRM.pc_pos c') (GRM.pc_res c'))
                           (GRM.pc_pos c' + 1) (GRM.pc_posDot c'))
                      a1)
                   (for_range 0 (GRM.strideBound (GRM.disc m) parType)
                      (fun bnd c' =>
                         GRM.mkParticleCursor
                           (GRM.solidPhaseTransport m secIdx parType par bnd y
                              (GRM.pc_pos c') (GRM.pc_res c'))
                           (GRM.pc_pos c' + 1) (GRM.pc_posDot c'))
                      b1)).
    { apply (for_range_rel (fun _ a b => cursorsAgree W a b));
        [exact Hsb|exact H1|].
      intros i a b _ (Hp & Hd & Hr).
      split; [|split]; cbn [GRM.pc_pos GRM.pc_posDot GRM.pc_res].
      - now rewrite Hp.
      - exact Hd.
      - intros j Hj. rewrite <- Hp.
        apply solidPhaseTransport_pointwise. now apply Hr. }
    destruct H2 as (Hp & Hd & Hr).
    split; [|split]; cbn [GRM.pc_pos GRM.pc_posDot GRM.pc_res].
    + exact Hp.
    + now rewrite Hd.
    + exact Hr.
  - destruct H1 as (Hp & Hd & Hr).
    split; [|split]; cbn [GRM.pc_pos GRM.pc_posDot GRM.pc_res].
    + now rewrite Hp.
    + now rewrite Hd.
    + exact Hr.
Qed.

Lemma residualParticle_agree (m : GRM.Model) (t : R)
    (parType colCell secIdx : Z) (y : GRM.vec) (yDot : option GRM.vec)
    (r1 r2 : GRM.vec) :
  1 <= GRM.nParCell (GRM.disc m) parType < UInt.modulus ->
  0 <= GRM.nComp (GRM.disc m) ->
  0 <= GRM.strideBound (GRM.disc m) parType ->
  (forall j,
     GRM.Indexer.offsetCpBlock (GRM.disc m) parType colCell <= j
     < GRM.Indexer.offsetCpBlock (GRM.disc m) parType colCell
       + GRM.Indexer.strideParBlock (GRM.disc m) parType ->
     r1 j = r2 j) ->
  forall j,
    GRM.Indexer.offsetCpBlock (GRM.disc m) parType colCell <= j
    < GRM.Indexer.offsetCpBlock (GRM.disc m) parType colCell
      + GRM.Indexer.strideParBlock (GRM.disc m) parType ->
    snd (GRM.residualParticle m t parType colCell secIdx y yDot r1) j
    = snd (GRM.residualParticle m t parType colCell secIdx y yDot r2) j.
Proof.
  intros Hn Hnc Hsb Hagree. unfold GRM.residualParticle. cbv zeta. cbn [snd].
  set (base := GRM.Indexer.offsetCpBlock (GRM.disc m) parType colCell) in *.
  set (stride := GRM.Indexer.strideParShell (GRM.disc m) parType).
  set (n := GRM.nParCell (GRM.disc m) parType) in *.
  assert (Hstride : 0 <= stride).
  { unfold stride, GRM.Indexer.strideParShell, GRM.Indexer.strideParLiquid,
      GRM.Indexer.strideParBound. lia. }
  assert (Hblock : GRM.Indexer.strideParBlock (GRM.disc m) parType = n * stride)
    by reflexivity.
  rewrite Hblock in *.
  cut (GRM.pc_pos
         (for_range 0 n (GRM.residualShell m t parType colCell secIdx y yDot)
            (GRM.mkParticleCursor r1 base base)) = base + n * stride
       /\ cursorsAgree (fun j => base <= j < base + n * stride)
            (for_range 0 n (GRM.residualShell m t parType colCell secIdx y yDot)
               (GRM.mkParticleCursor r1 base base))
            (for_range 0 n (GRM.residualShell m t parType colCell secIdx y yDot)
               (GRM.mkParticleCursor r2 base base))).
  { intros (_ & _ & _ & H). exact H. }
  apply (for_range_rel
           (fun s a b =>
              GRM.pc_pos a = base + s * stride
              /\ cursorsAgree (fun j => base <= j < base + n * stride) a b)).
  - lia.
  - split; [cbn; lia|]. split; [reflexivity|]. split; [reflexivity|].
    exact Hagree.
  - intros s a b Hs (Hp & Hab).
    destruct (residualShell_spec m t parType colCell secIdx y yDot Hn Hnc Hsb
                s a Hs) as (Hp' & _).
    fold stride in Hp'. split; [rewrite Hp', Hp; lia|].
    apply residualShell_agree; [exact Hnc|exact Hsb| |exact Hab].
    fold stride. intros j Hj. rewrite Hp in Hj. nia.
Qed.
Section ParticleRows.
Variable m : GRM.Model.
Variable time : R.
Variable secIdx : Z.
Variable y : GRM.vec.
Variable yDot : option GRM.vec.
Variable res : GRM.vec.

Local Abbreviation d := (GRM.disc m).
Local Abbreviation nc := (GRM.nComp d).
Local Abbreviation ncol := (GRM.nCol d).
Local Abbreviation npt := (GRM.nParType d).
Local Abbreviation spb := (GRM.Indexer.strideParBlock d).
Local Abbreviation pto := (GRM.parTypeOffset d).
Local Abbreviation blockAt := (GRM.Indexer.offsetCpBlock d).

Hypothesis L : layout_ok d.

Lemma particleIndex_inj (t k r t' k' r' : Z) :
  0 <= t < npt -> 0 <= k < ncol -> 0 <= r < spb t ->
  0 <= t' < npt -> 0 <= k' < ncol -> 0 <= r' < spb t' ->
  blockAt t k + r = blockAt t' k' + r' -> t = t' /\ k = k' /\ r = r'.
Proof.
  intros Ht Hk Hr Ht' Hk' Hr'. unfold GRM.Indexer.offsetCpBlock. intros E.
  assert (Hb : 0 <= spb t * k /\ spb t * k + r < spb t * ncol) by nia.
  assert (Hb' : 0 <= spb t' * k' /\ spb t' * k' + r' < spb t' * ncol) by nia.
  destruct (Z.lt_trichotomy t t') as [Hlt|[<-|Hgt]].
  - pose proof (layout_pto_block d L t t' ltac:(lia) Hlt ltac:(lia)). lia.
  - split; [reflexivity|].
    apply (divmod_unique (spb t)); [exact Hr|exact Hr'|lia].
  - pose proof (layout_pto_block d L t' t ltac:(lia) ltac:(lia) ltac:(lia)). lia.
Qed.

Lemma particleIndex_range (t k r : Z) :
  0 <= t < npt -> 0 <= k < ncol -> 0 <= r < spb t ->
  GRM.Indexer.offsetCp d <= blockAt t k + r < GRM.Indexer.offsetJf d.
Proof.
  intros Ht Hk Hr. unfold GRM.Indexer.offsetCpBlock, GRM.Indexer.offsetJf.
  pose proof (layout_pto_block d L t npt ltac:(lia) ltac:(lia) ltac:(lia)).
  pose proof (layout_pto_nonneg d L t ltac:(lia)).
  assert (0 <= spb t * k /\ spb t * k + r < spb t * ncol) by nia.
  lia.
Qed.

Lemma outerShellIndex_block (t k c : Z) :
  outerShellIndex d t k c = blockAt t k + c.
Proof.
  unfold outerShellIndex, GRM.Indexer.offsetCpBlock, GRM.Indexer.offsetCpType.
  lia.
Qed.

(** The residual after the loop over the bulk block and the particle
    blocks. *)
Let blocks : GRM.vec :=
  for_range 0 (UInt.add (UInt.mul ncol npt) 1)
    (fun pblk res' =>
       if pblk =? 0
       then snd (GRM.residualBulk m time secIdx y yDot res')
       else
         let type := UInt.div (UInt.sub pblk 1) ncol in
         let par := UInt.rem (UInt.sub pblk 1) ncol in
         snd (GRM.residualParticle m time type par secIdx y yDot res'))
    res.

Lemma nParCell_fits (t : Z) :
  0 <= t < npt -> 1 <= GRM.nParCell d t < UInt.modulus.
Proof.
  intros Ht. pose proof (lo_nParCell d L t Ht) as H1. split; [exact H1|].
  pose proof (lo_fits d L) as F. pose proof (lo_nComp d L).
  pose proof (lo_nCol d L). pose proof (lo_strideBound d L t).
  pose proof (layout_pto_block d L t npt ltac:(lia) ltac:(lia) ltac:(lia)).
  pose proof (layout_pto_nonneg d L t ltac:(lia)).
  unfold GRM.Indexer.strideParBlock, GRM.Indexer.strideParShell,
    GRM.Indexer.strideParLiquid, GRM.Indexer.strideParBound in *.
  assert (0 <= ncol * nc) by nia. assert (0 <= ncol * nc * npt) by nia.
  assert (GRM.nParCell d t
          <= GRM.nParCell d t * (nc + GRM.strideBound d t) * ncol) by nia.
  lia.
Qed.

Lemma blocks_particle (t k r : Z) :
  0 <= t < npt -> 0 <= k < ncol -> 0 <= r < spb t ->
  blocks (blockAt t k + r)
  = snd (GRM.residualParticle m time t k secIdx y yDot
           (snd (GRM.residualBulk m time secIdx y yDot res)))
      (blockAt t k + r).
Proof.
  intros Ht Hk Hr. unfold blocks.
  pose proof (lo_fits d L) as F. pose proof (lo_nComp d L) as Hnc.
  pose proof (lo_nCol d L) as Hncol. pose proof (lo_nParType d L) as Hnpt.
  pose proof (layout_pto_nonneg d L npt ltac:(lia)) as Hpto.
  assert (HN : 0 <= ncol * npt) by nia.
  assert (HN' : ncol * npt <= ncol * nc * npt) by nia.
  assert (Hsize : UInt.add (UInt.mul ncol npt) 1 = ncol * npt + 1).
  { unfold UInt.add, UInt.mul. rewrite (wrap_small (ncol * npt)) by nia.
    apply wrap_small. nia. }
  rewrite Hsize.
  set (rb := snd (GRM.residualBulk m time secIdx y yDot res)).
  set (rp := snd (GRM.residualParticle m time t k secIdx y yDot rb)).
  set (p0 := 1 + (t * ncol + k)).
  assert (Hp0 : 1 <= p0 < ncol * npt + 1) by (unfold p0; nia).
  cut (forall r0, r0 = for_range 0 (ncol * npt + 1)
         (fun pblk res' =>
            if pblk =? 0
            then snd (GRM.residualBulk m time secIdx y yDot res')
            else
              snd (GRM.residualParticle m time
                     (UInt.div (UInt.sub pblk 1) ncol)
                     (UInt.rem (UInt.sub pblk 1) ncol) secIdx y yDot res'))
         res ->
       (ncol * npt + 1 = 0 /\ r0 = res)
       \/ (1 <= ncol * npt + 1
           /\ (ncol * npt + 1 <= p0 ->
               forall r', 0 <= r' < spb t ->
                 r0 (blockAt t k + r') = rb (blockAt t k + r'))
           /\ (p0 < ncol * npt + 1 ->
               forall r', 0 <= r' < spb t ->
                 r0 (blockAt t k + r') = rp (blockAt t k + r')))).
  { intros G. destruct (G _ eq_refl) as [[E _]|(_ & _ & G')]; [lia|].
    apply G'; [lia|exact Hr]. }
  intros r0 ->.
  apply (for_range_inv
           (fun i r0 =>
              (i = 0 /\ r0 = res)
              \/ (1 <= i
                  /\ (i <= p0 ->
                      forall r', 0 <= r' < spb t ->
                        r0 (blockAt t k + r') = rb (blockAt t k + r'))
                  /\ (p0 < i ->
                      forall r', 0 <= r' < spb t ->
                        r0 (blockAt t k + r') = rp (blockAt t k + r'))))).
  - lia.
  - left. split; reflexivity.
  - intros i r0 Hi [[-> ->]|(Hi1 & Hbefore & Hafter)].
    + right. split; [lia|]. split; [|lia]. intros _ r' _. reflexivity.
    + right. split; [lia|].
      destruct (Z.eqb_spec i 0) as [E|_]; [lia|].
      assert (Hsub : UInt.sub i 1 = i - 1).
      { unfold UInt.sub. apply wrap_small. nia. }
      rewrite Hsub. unfold UInt.div, UInt.rem.
      set (type := (i - 1) / ncol). set (par := (i - 1) mod ncol).
      assert (Hpar : 0 <= par < ncol) by (apply Z.mod_pos_bound; lia).
      assert (Htype : 0 <= type < npt).
      { unfold type. split; [apply Z.div_pos; lia|].
        apply Z.div_lt_upper_bound; nia. }
      assert (Hdec : i - 1 = type * ncol + par).
      { unfold type, par. rewrite Z.mul_comm. apply Z.div_mod. lia. }
      pose proof (nParCell_fits type Htype) as Hfits.
      pose proof (lo_strideBound d L type) as Hsb.
      assert (Hother : i <> p0 ->
                forall r', 0 <= r' < spb t ->
                  snd (GRM.residualParticle m time type par secIdx y yDot r0)
                    (blockAt t k + r')
                  = r0 (blockAt t k + r')).
      { intros Hne r' Hr'. apply residualParticle_frame;
          [exact Hfits|lia|exact Hsb|].
        intros Hin.
        destruct (particleIndex_inj t k r' type par
                    (blockAt t k + r' - blockAt type par)
                    Ht Hk Hr' Htype Hpar ltac:(lia) ltac:(lia))
          as (Et & Ek & _).
        apply Hne. unfold p0. rewrite Et, Ek. lia. }
      split.
      * intros Hle r' Hr'. rewrite Hother by (assumption || lia).
        apply Hbefore; [lia|exact Hr'].
      * intros Hlt r' Hr'.
        destruct (Z.eq_dec i p0) as [E|Hne].
        -- assert (Et : type = t /\ par = k).
           { apply (divmod_unique ncol); [exact Hpar|exact Hk|].
             unfold p0 in E. lia. }
           destruct Et as [Et Ek]. rewrite Et, Ek.
           unfold rp.
           apply residualParticle_agree;
             [apply nParCell_fits; exact Ht|lia|apply (lo_strideBound d L)| |lia].
           intros j Hj.
           replace j with (blockAt t k + (j - blockAt t k)) by lia.
           apply Hbefore; lia.
        -- rewrite Hother by (assumption || lia).
           apply Hafter; [lia|exact Hr'].
Qed.

Lemma residualFlux_particle_frame (resBase : GRM.vec) (t k r : Z) :
  0 <= t < npt -> 0 <= k < ncol -> nc <= r < spb t ->
  snd (GRM.residualFlux m time secIdx y yDot resBase) (blockAt t k + r)
  = resBase (blockAt t k + r).
Proof.
  intros Ht Hk Hr. unfold GRM.residualFlux. cbv zeta. cbn [snd].
  rewrite (layout_flux_size m L).
  pose proof (lo_nComp d L) as Hnc. pose proof (lo_nCol d L) as Hncol.
  pose proof (lo_nParType d L) as Hnpt.
  pose proof (particleIndex_range t k r Ht Hk ltac:(lia)) as Hrange.
  set (j := blockAt t k + r) in *.
  set (r1 := for_range 0 (nc * ncol * npt)
               (fun (i : Z) (res' : Z -> R) =>
                  upd res' (GRM.Indexer.offsetJf d + i)
                    (y (GRM.Indexer.offsetJf d + i)))
               resBase).
  assert (H1 : r1 j = resBase j).
  { unfold r1.
    change (for_range 0 (nc * ncol * npt)
              (fun i res' =>
                 upd res' (GRM.Indexer.offsetJf d + i)
                   (y (GRM.Indexer.offsetJf d + i))) resBase)
      with (GRM.write_window resBase (GRM.Indexer.offsetJf d) (nc * ncol * npt)
              (GRM.window y (GRM.Indexer.offsetJf d))).
    rewrite write_window_get.
    destruct (Z.leb_spec (GRM.Indexer.offsetJf d) j) as [Hle|];
      [lia|reflexivity]. }
  rewrite <- H1.
  apply (for_range_preserves (fun r' => r' j = r1 j)); [reflexivity|].
  intros t' r' Ht' IH.
  destruct (residualFluxType_effect m secIdx y L t' r' Ht') as (_ & _ & Hframe).
  rewrite Hframe; [exact IH| | |].
  - unfold GRM.Indexer.offsetCp, GRM.Indexer.offsetC in *. lia.
  - intros k' c' Hk' Hc'.
    unfold fluxIndex, GRM.Indexer.offsetJfType.
    assert (0 <= t' * ncol * nc) by nia. assert (0 <= k' * nc) by nia. lia.
  - intros k' c' Hk' Hc' E. rewrite outerShellIndex_block in E.
    pose proof (layout_spb d L t' Ht') as Hspb.
    destruct (particleIndex_inj t' k' c' t k r Ht' Hk' ltac:(lia) Ht Hk
                ltac:(lia) E) as (_ & _ & Ec).
    lia.
Qed.

Lemma residualImpl_particle (t k r : Z) :
  0 <= t < npt -> 0 <= k < ncol -> 0 <= r < spb t ->
  snd (GRM.residualImpl m time secIdx y yDot res) (blockAt t k + r)
  = (snd (GRM.residualParticle m time t k secIdx y yDot
            (snd (GRM.residualBulk m time secIdx y yDot res)))
       (blockAt t k + r)%Z
     + (if r <? nc
        then particleFluxFactor m t r * y (fluxIndex d t k r)
        else 0))%R.
Proof.
  intros Ht Hk Hr.
  change (snd (GRM.residualImpl m time secIdx y yDot res))
    with (for_range 0 nc (fun i res' => upd res' i (y i))
            (snd (GRM.residualFlux m time secIdx y yDot blocks))).
  pose proof (particleIndex_range t k r Ht Hk Hr) as Hrange.
  pose proof (lo_nComp d L) as Hnc. pose proof (lo_nCol d L) as Hncol.
  rewrite tabulate_frame
    by (unfold GRM.Indexer.offsetCp, GRM.Indexer.offsetC in Hrange; nia).
  destruct (Z.ltb_spec r nc) as [Hlt|Hge].
  - destruct (residualFlux_rows m secIdx y L time yDot blocks) as (_ & Hhit).
    specialize (Hhit t k r Ht Hk ltac:(lia)).
    rewrite outerShellIndex_block in Hhit. rewrite Hhit.
    rewrite blocks_particle by assumption.
    unfold particleFluxFactor. reflexivity.
  - rewrite residualFlux_particle_frame by (assumption || lia).
    rewrite blocks_particle by assumption. lra.
Qed.

End ParticleRows.

(** X21.  In the residual of the whole unit operation, the row [r] of the
    block of the particle [(t, k)] is what [residualParticle] computes
    there on top of the bulk part; a mobile phase row of the outermost
    shell ([r < nComp]) gets in addition the film flux [j_f[t, k, r]] with
    the factor [- a_out / eps_p / F_acc].  No other particle, and no other
    part of the flux coupling, contributes to the row. *)
Theorem residual_particle_rows
    (p : GRM.DiscretizationInput) (m : GRM.Model) (time : R) (secIdx : Z)
    (y : GRM.vec) (yDot : option GRM.vec) (res : GRM.vec) (t k r : Z) :
  GRM.configureDescriptor p = Ok (GRM.disc m) ->
  closedFormDofs (GRM.disc m) < UInt.modulus ->
  1 <= GRM.nComp (GRM.disc m) ->
  (forall t', 0 <= t' < GRM.nParType (GRM.disc m) ->
     1 <= GRM.nParCell (GRM.disc m) t') ->
  0 <= t < GRM.nParType (GRM.disc m) ->
  0 <= k < GRM.nCol (GRM.disc m) ->
  0 <= r < GRM.Indexer.strideParBlock (GRM.disc m) t ->
  snd (GRM.residual m time secIdx y yDot res)
    (GRM.Indexer.offsetCpBlock (GRM.disc m) t k + r)
  = (snd (GRM.residualParticle m time t k secIdx y yDot
            (snd (GRM.residualBulk m time secIdx y yDot res)))
       (GRM.Indexer.offsetCpBlock (GRM.disc m) t k + r)%Z
     + (if r <? GRM.nComp (GRM.disc m)
        then particleFluxFactor m t r * y (fluxIndex (GRM.disc m) t k r)
        else 0))%R.
Proof.
  intros H Hfit Hcomp Hshell Ht Hk Hr.
  assert (L : layout_ok (GRM.disc m))
    by (apply (configured_layout_ok p); auto; lia).
  unfold GRM.residual. now apply residualImpl_particle.
Qed.

Lemma residual_particle_rows_witness :
  exists d,
    GRM.configureDescriptor (GRM.mkDiscInput 1 1 [2] [1] None) = Ok d
    /\ let m := exampleModel d (fun _ => 1%R) 1%R in
       let y : GRM.vec := fun i => IZR i in
       snd (GRM.residual m 0%R 0 y None (fun _ => 7%R))
         (GRM.Indexer.offsetCpBlock d 0 0 + 3)
       = (snd (GRM.residualParticle m 0%R 0 0 0 y None
                 (snd (GRM.residualBulk m 0%R 0 y None (fun _ => 7%R))))
            (GRM.Indexer.offsetCpBlock d 0 0 + 3)%Z
          + (if 3 <? GRM.nComp d
             then particleFluxFactor m 0 3 * y (fluxIndex d 0 0 3)
             else 0))%R.
Proof.
  eexists. split; [reflexivity|]. intros m y.
  assert (Hfit : closedFormDofs (GRM.disc m) < UInt.modulus)
    by (vm_compute; reflexivity).
  assert (Hshell : forall t', 0 <= t' < GRM.nParType (GRM.disc m) ->
            1 <= GRM.nParCell (GRM.disc m) t').
  { intros t' Ht'. change (GRM.nParType (GRM.disc m)) with 1 in Ht'.
    assert (t' = 0) as -> by lia. vm_compute. discriminate. }
  assert (Hr : 0 <= 0 < 1) by lia.
  assert (Hrow : 0 <= 3 < GRM.Indexer.strideParBlock (GRM.disc m) 0)
    by (vm_compute; split; [discriminate|reflexivity]).
  exact (residual_particle_rows (GRM.mkDiscInput 1 1 [2] [1] None) m 0%R 0 y
           None (fun _ => 7%R) 0 0 3 eq_refl Hfit ltac:(vm_compute; discriminate)
           Hshell Hr Hr Hrow).
Defined.

(** ** The initial condition of the system *)

Lemma copy_get (src : list R) (n : Z) (dst : GRM.vec) (j : Z) :
  ModelSystem.copy src n dst j
  = if (0 <=? j) && (j <? n) then vget 0%R src j else dst j.
Proof.
  unfold ModelSystem.copy.
  destruct (Z.leb_spec 0 j), (Z.ltb_spec j n); cbn [andb].
  - apply (tabulate_get (fun i => vget 0%R src i)). lia.
  - apply (tabulate_frame (fun i => vget 0%R src i)). lia.
  - apply (tabulate_frame (fun i => vget 0%R src i)). lia.
  - apply (tabulate_frame (fun i => vget 0%R src i)). lia.
Qed.

(** X22.  When [_initState] holds at least [numDofs()] values,
    [applyInitialCondition] copies the first [numDofs()] of them into the
    state vector and leaves the rest of it alone; the time derivative is
    taken from [_initStateDot] only if that holds [numDofs()] values too,
    and is left untouched otherwise.  No unit operation is asked for its
    initial condition. *)
Theorem applyInitialCondition_full_state (sys : ModelSystem.System)
    (ic : ModelSystem.InitialCondition) (y yDot : GRM.vec) :
  ModelSystem.numDofs sys <= vsize (ModelSystem.initState ic) ->
  (forall j,
     fst (ModelSystem.applyInitialCondition sys ic y yDot) j
     = if (0 <=? j) && (j <? ModelSystem.numDofs sys)
       then vget 0%R (ModelSystem.initState ic) j else y j)
  /\ (forall j,
        snd (ModelSystem.applyInitialCondition sys ic y yDot) j
        = if (ModelSystem.numDofs sys <=? vsize (ModelSystem.initStateDot ic))
             && ((0 <=? j) && (j <? ModelSystem.numDofs sys))
          then vget 0%R (ModelSystem.initStateDot ic) j else yDot j)
  /\ (forall u,
        ModelSystem.applyInitialCondition sys
          (ModelSystem.mkInitialCondition (ModelSystem.initState ic)
             (ModelSystem.initStateDot ic) u) y yDot
        = ModelSystem.applyInitialCondition sys ic y yDot).
Proof.
  intros Hfull. unfold ModelSystem.applyInitialCondition.
  cbn [ModelSystem.initState ModelSystem.initStateDot].
  destruct (Z.leb_spec (ModelSystem.numDofs sys)
              (vsize (ModelSystem.initState ic))) as [_|Hlt]; [|lia].
  cbv zeta. cbn [fst snd]. split; [|split].
  - intros j. apply copy_get.
  - intros j.
    destruct (ModelSystem.numDofs sys <=? vsize (ModelSystem.initStateDot ic));
      cbn [andb]; [apply copy_get|reflexivity].
  - intros u. reflexivity.
Qed.

Lemma applyInitialCondition_full_state_witness :
  fst (ModelSystem.applyInitialCondition exampleSystem exampleInitialCondition
         (fun _ => 0%R) (fun _ => 9%R)) 5 = 6%R
  /\ snd (ModelSystem.applyInitialCondition exampleSystem
            exampleInitialCondition (fun _ => 0%R) (fun _ => 9%R)) 0 = 9%R.
Proof.
  destruct (applyInitialCondition_full_state exampleSystem
              exampleInitialCondition (fun _ => 0%R) (fun _ => 9%R))
    as (Hy & Hd & _).
  - vm_compute. discriminate.
  - split; [rewrite Hy|rewrite Hd]; reflexivity.
Defined.

(** ** The volume fractions of the particle types *)

Lemma copy_within_spec (l : list R) (n at_ : Z) :
  0 <= n <= at_ -> at_ + n <= vsize l ->
  vsize (GRM.copy_within l n at_) = vsize l
  /\ forall j, 0 <= j ->
       vget 0%R (GRM.copy_within l n at_) j
       = if (at_ <=? j) && (j <? at_ + n)
         then vget 0%R l (j - at_) else vget 0%R l j.
Proof.
  intros Hn Hfit. unfold GRM.copy_within.
  apply (for_range_inv
           (fun k l' =>
              vsize l' = vsize l
              /\ forall j, 0 <= j ->
                   vget 0%R l' j
                   = if (at_ <=? j) && (j <? at_ + k)
                     then vget 0%R l (j - at_) else vget 0%R l j)).
  - lia.
  - split; [reflexivity|]. intros j Hj.
    destruct (Z.leb_spec at_ j), (Z.ltb_spec j (at_ + 0)); cbn [andb];
      try reflexivity; lia.
  - intros k l' Hk (Hsize & Hget). split; [now rewrite vsize_vset|].
    intros j Hj.
    assert (Hread : vget 0%R l' k = vget 0%R l k).
    { rewrite Hget by lia.
      destruct (Z.leb_spec at_ k); cbn [andb]; [lia|reflexivity]. }
    destruct (Z.eq_dec j (at_ + k)) as [->|Hne].
    + rewrite vget_vset_same by lia. rewrite Hread.
      replace (at_ + k - at_) with k by lia.
      destruct (Z.leb_spec at_ (at_ + k)), (Z.ltb_spec (at_ + k) (at_ + (k + 1)));
        cbn [andb]; try reflexivity; lia.
    + rewrite vget_vset_other by lia. rewrite Hget by exact Hj.
      destruct (Z.leb_spec at_ j), (Z.ltb_spec j (at_ + k)),
               (Z.ltb_spec j (at_ + (k + 1))); cbn [andb];
        try reflexivity; lia.
Qed.

Lemma expand_spec (v : list R) (np ncol : Z) :
  1 <= np -> 1 <= ncol -> ncol * np < UInt.modulus -> vsize v = np ->
  let w :=
    for_range 1 ncol
      (fun i v' => GRM.copy_within v' np (UInt.mul np i))
      (GRM.resize v (UInt.mul ncol np) 1%R) in
  vsize w = ncol * np
  /\ forall k t, 0 <= k < ncol -> 0 <= t < np ->
       vget 0%R w (k * np + t) = vget 0%R v t.
Proof.
  intros Hnp Hncol Hfit Hv. cbv zeta.
  assert (HN : UInt.mul ncol np = ncol * np)
    by (unfold UInt.mul; apply wrap_small; nia).
  rewrite HN.
  apply (for_range_inv
           (fun i w =>
              vsize w = ncol * np
              /\ forall k t, 0 <= k < i -> 0 <= t < np ->
                   vget 0%R w (k * np + t) = vget 0%R v t)).
  - exact Hncol.
  - split; [apply resize_length; nia|].
    intros k t Hk Ht. assert (k = 0) as -> by lia.
    rewrite resize_get by nia.
    destruct (Z.ltb_spec (0 * np + t) (vsize v)) as [_|Hge]; [|lia].
    f_equal; lia.
  - intros i w Hi (Hsize & Hget).
    assert (Hi' : UInt.mul np i = np * i)
      by (unfold UInt.mul; apply wrap_small; nia).
    rewrite Hi'.
    destruct (copy_within_spec w np (np * i)) as (Hsize' & Hget');
      [nia|nia|].
    split; [now rewrite Hsize'|].
    intros k t Hk Ht. rewrite Hget' by nia.
    destruct (Z.eq_dec k i) as [->|Hne].
    + destruct (Z.leb_spec (np * i) (i * np + t)),
               (Z.ltb_spec (i * np + t) (np * i + np)); cbn [andb]; try lia.
      replace (i * np + t - np * i) with (0 * np + t) by lia.
      apply Hget; lia.
    + destruct (Z.leb_spec (np * i) (k * np + t)); cbn [andb]; [nia|].
      apply Hget; lia.
Qed.

Lemma accumulate_shift (w : list R) (lo n : Z) :
  0 <= n ->
  GRM.accumulate w lo (lo + n) = rsum (fun t => vget 0%R w (lo + t)) n.
Proof.
  intros Hn. pattern n. apply natlike_ind; [| |exact Hn].
  - unfold GRM.accumulate, rsum. now rewrite !for_range_nil by lia.
  - intros k Hk IH. unfold Z.succ. rewrite rsum_succ by exact Hk.
    rewrite <- IH. unfold GRM.accumulate.
    replace (lo + (k + 1)) with (lo + k + 1) by lia.
    now rewrite for_range_succ_r by lia.
Qed.

Lemma check_loop_ok (n : Z) (c : Z -> bool) (field : string) :
  (forall i, 0 <= i < n -> c i = false) ->
  for_range 0 n (fun i r => _ <- r ;; throw_if (c i) field) (Ok tt) = Ok tt.
Proof.
  intros Hc. apply (for_range_preserves (fun r => r = Ok tt)); [reflexivity|].
  intros i r Hi ->. cbn [bindR]. now rewrite Hc.
Qed.

Lemma check_loop_throw (n : Z) (c : Z -> bool) (field : string) :
  1 <= n -> (forall i, 0 <= i < n -> c i = true) ->
  for_range 0 n (fun i r => _ <- r ;; throw_if (c i) field) (Ok tt)
  = Throw (InvalidParameterException field).
Proof.
  intros Hn Hc.
  cut (forall r, r = for_range 0 n
                       (fun i r => _ <- r ;; throw_if (c i) field) (Ok tt) ->
         (n = 0 /\ r = Ok tt)
         \/ (1 <= n /\ r = Throw (InvalidParameterException field))).
  { intros G. destruct (G _ eq_refl) as [[E _]|[_ E]]; [lia|exact E]. }
  intros r ->.
  apply (for_range_inv
           (fun k r =>
              (k = 0 /\ r = Ok tt)
              \/ (1 <= k /\ r = Throw (InvalidParameterException field)))).
  - lia.
  - left. split; reflexivity.
  - intros i r Hi [[-> ->]|[Hk ->]]; right; (split; [lia|]); cbn [bindR].
    + now rewrite Hc by lia.
    + reflexivity.
Qed.

(** X23.  [configure] with one volume fraction per particle type in
    [PAR_TYPE_VOLFRAC]: if the fractions sum to [1] up to [1e-10], they are
    copied to every axial cell, [_parTypeVolFrac[t + k * nParType]] being
    the fraction of type [t] for every cell [k], and the fractions are
    marked as axially constant; otherwise an [InvalidParameterException]
    on [PAR_TYPE_VOLFRAC] is thrown. *)
Theorem configureParTypeVolFrac_per_type (d : GRM.Discretization)
    (v v0 : list R) :
  1 <= GRM.nParType d -> 1 <= GRM.nCol d ->
  GRM.nCol d * GRM.nParType d < UInt.modulus ->
  vsize v = GRM.nParType d ->
  ((Rabs (1 - rsum (vget 0%R v) (GRM.nParType d)) <= / 10 ^ 10)%R ->
   exists w,
     GRM.configureParTypeVolFrac d (Some v) v0 (GRM.nParType d)
       (GRM.nParType d) (GRM.nParType d)
     = Ok (GRM.mkVolFracState w true)
     /\ vsize w = GRM.nCol d * GRM.nParType d
     /\ forall k t, 0 <= k < GRM.nCol d -> 0 <= t < GRM.nParType d ->
          vget 0%R w (t + k * GRM.nParType d) = vget 0%R v t)
  /\ ((Rabs (1 - rsum (vget 0%R v) (GRM.nParType d)) > / 10 ^ 10)%R ->
      GRM.configureParTypeVolFrac d (Some v) v0 (GRM.nParType d)
        (GRM.nParType d) (GRM.nParType d)
      = Throw (InvalidParameterException "PAR_TYPE_VOLFRAC")).
Proof.
  intros Hnp Hncol Hfit Hv.
  destruct (expand_spec v (GRM.nParType d) (GRM.nCol d) Hnp Hncol Hfit Hv)
    as (Hsize & Hget).
  unfold GRM.configureParTypeVolFrac.
  rewrite andb_false_r. cbn [throw_if bindR].
  rewrite Hv, !Z.eqb_refl. cbn [negb throw_if bindR GRM.vf_parTypeVolFrac].
  set (w := for_range 1 (GRM.nCol d) _ _) in *.
  assert (HN : UInt.mul (GRM.nParType d) (GRM.nCol d)
               = GRM.nCol d * GRM.nParType d)
    by (unfold UInt.mul; rewrite wrap_small by nia; lia).
  rewrite HN, Hsize, Z.eqb_refl. cbn [negb throw_if bindR].
  assert (Hsum : forall i, 0 <= i < GRM.nCol d ->
            GRM.accumulate w (UInt.mul i (GRM.nParType d))
              (UInt.mul (UInt.add i 1) (GRM.nParType d))
            = rsum (vget 0%R v) (GRM.nParType d)).
  { intros i Hi.
    assert (E1 : UInt.mul i (GRM.nParType d) = i * GRM.nParType d)
      by (unfold UInt.mul; apply wrap_small; nia).
    assert (E2 : UInt.mul (UInt.add i 1) (GRM.nParType d)
                 = i * GRM.nParType d + GRM.nParType d).
    { unfold UInt.mul, UInt.add. rewrite (wrap_small (i + 1)) by nia.
      rewrite wrap_small by nia. lia. }
    rewrite E1, E2, accumulate_shift by lia.
    apply rsum_ext. intros t Ht. now apply Hget. }
  split.
  - intros Hok. exists w. split; [|split].
    + match goal with
      | |- bindR (for_range 0 ?n ?body (Ok tt)) _ = _ =>
          assert (Hloop : for_range 0 n body (Ok tt) = Ok tt)
      end.
      { apply (check_loop_ok (GRM.nCol d)
                 (fun i =>
                    if Rgt_dec
                         (Rabs (1 - GRM.accumulate w
                                      (UInt.mul i (GRM.nParType d))
                                      (UInt.mul (UInt.add i 1) (GRM.nParType d))))
                         (/ 10 ^ 10)
                    then true else false)).
        intros i Hi. rewrite Hsum by exact Hi.
        destruct (Rgt_dec _ _) as [Hgt|_]; [lra|reflexivity]. }
      rewrite Hloop. reflexivity.
    + exact Hsize.
    + intros k t Hk Ht. rewrite Z.add_comm. now apply Hget.
  - intros Hbad.
    match goal with
    | |- bindR (for_range 0 ?n ?body (Ok tt)) _ = _ =>
        assert (Hloop : for_range 0 n body (Ok tt)
                        = Throw (InvalidParameterException "PAR_TYPE_VOLFRAC"))
    end.
    { apply (check_loop_throw (GRM.nCol d)
               (fun i =>
                  if Rgt_dec
                       (Rabs (1 - GRM.accumulate w
                                    (UInt.mul i (GRM.nParType d))
                                    (UInt.mul (UInt.add i 1) (GRM.nParType d))))
                       (/ 10 ^ 10)
                  then true else false)); [exact Hncol|].
      intros i Hi. rewrite Hsum by exact Hi.
      destruct (Rgt_dec _ _) as [_|Hle]; [reflexivity|contradiction]. }
    rewrite Hloop. reflexivity.
Qed.
Lemma configureParTypeVolFrac_per_type_witness :
  exists d,
    GRM.configureDescriptor (GRM.mkDiscInput 1 2 [1; 1] [0; 0] None) = Ok d
    /\ exists w,
         GRM.configureParTypeVolFrac d (Some [(1 / 4)%R; (3 / 4)%R]) [] 2 2 2
         = Ok (GRM.mkVolFracState w true)
         /\ vget 0%R w (1 + 1 * 2) = (3 / 4)%R.
Proof.
  eexists. split; [reflexivity|].
  match goal with
  | |- exists w, GRM.configureParTypeVolFrac ?d _ _ _ _ _ = _ /\ _ =>
      destruct (configureParTypeVolFrac_per_type d [(1 / 4)%R; (3 / 4)%R] [])
        as [Hok _];
        [vm_compute; discriminate | vm_compute; discriminate
        | vm_compute; reflexivity | reflexivity |]
  end.
  destruct Hok as (w & Hw & _ & Hget).
  - match goal with
    | |- (Rabs (1 - rsum ?f ?n) <= _)%R =>
        replace (rsum f n) with 1%R
    end.
    + replace (1 - 1)%R with 0%R by lra. rewrite Rabs_R0.
      apply Rlt_le, Rinv_0_lt_compat, pow_lt. lra.
    + unfold rsum, for_range. cbn.
      change (Pos.to_nat 2) with 2%nat. cbn.
      change (Pos.to_nat 1) with 1%nat. cbn. lra.
  - exists w. split; [exact Hw|].
    apply (Hget 1 1); vm_compute; split; (discriminate || reflexivity).
Defined.

(** X24.  [configure] without [PAR_TYPE_VOLFRAC]: with more than one
    particle type an [InvalidParameterException] on [PAR_TYPE_VOLFRAC] is
    thrown before anything else is checked; with a single particle type
    every axial cell gets the volume fraction [1], and the fractions are
    not marked as axially constant. *)
Theorem configureParTypeVolFrac_absent (d : GRM.Discretization)
    (nRadius nPorosity nCoreRadius : Z) :
  0 <= GRM.nCol d < UInt.modulus ->
  (1 < GRM.nParType d ->
   forall v0,
     GRM.configureParTypeVolFrac d None v0 nRadius nPorosity nCoreRadius
     = Throw (InvalidParameterException "PAR_TYPE_VOLFRAC"))
  /\ (GRM.nParType d = 1 ->
      exists w,
        GRM.configureParTypeVolFrac d None [] 1 1 1
        = Ok (GRM.mkVolFracState w false)
        /\ vsize w = GRM.nCol d
        /\ forall k, 0 <= k < GRM.nCol d -> vget 0%R w k = 1%R).
Proof.
  intros Hncol. split.
  - intros Hnp v0. unfold GRM.configureParTypeVolFrac.
    destruct (Z.ltb_spec 1 (GRM.nParType d)) as [_|Hle]; [|lia].
    reflexivity.
  - intros Hnp. exists (GRM.resize [] (GRM.nCol d) 1%R).
    assert (Hsize : vsize (GRM.resize (@nil R) (GRM.nCol d) 1%R) = GRM.nCol d)
      by (apply resize_length; lia).
    assert (Hget : forall k, 0 <= k < GRM.nCol d ->
              vget 0%R (GRM.resize [] (GRM.nCol d) 1%R) k = 1%R).
    { intros k Hk. rewrite resize_get by exact Hk.
      destruct (Z.ltb_spec k (vsize (@nil R))) as [Hlt|_]; [|reflexivity].
      unfold vsize in Hlt. cbn in Hlt. lia. }
    split; [|split; [exact Hsize|exact Hget]].
    unfold GRM.configureParTypeVolFrac. rewrite Hnp.
    cbn [Z.ltb Z.compare Pos.compare andb throw_if bindR Z.eqb Pos.eqb negb
         GRM.vf_parTypeVolFrac].
    assert (HN : UInt.mul 1 (GRM.nCol d) = GRM.nCol d)
      by (unfold UInt.mul; rewrite Z.mul_1_l; now apply wrap_small).
    rewrite HN, Hsize, Z.eqb_refl. cbn [negb throw_if bindR].
    change (1 <? 1) with false. cbn [andb throw_if bindR].
    match goal with
    | |- bindR (for_range 0 ?n ?body (Ok tt)) _ = _ =>
        assert (Hloop : for_range 0 n body (Ok tt) = Ok tt)
    end.
    { apply (check_loop_ok (GRM.nCol d)
               (fun i =>
                  if Rgt_dec
                       (Rabs (1 - GRM.accumulate
                                    (GRM.resize [] (GRM.nCol d) 1%R)
                                    (UInt.mul i 1) (UInt.mul (UInt.add i 1) 1)))
                       (/ 10 ^ 10)
                  then true else false)).
      intros i Hi. cbv beta.
      assert (E1 : UInt.mul i 1 = i)
        by (unfold UInt.mul; rewrite Z.mul_1_r; apply wrap_small; lia).
      assert (E2 : UInt.mul (UInt.add i 1) 1 = i + 1).
      { unfold UInt.mul, UInt.add. rewrite Z.mul_1_r, wrap_wrap.
        apply wrap_small. lia. }
      rewrite E1, E2, (accumulate_shift _ i 1) by lia.
      unfold rsum. rewrite for_range_one.
      rewrite Z.add_0_r, Hget by exact Hi.
      replace (1 - (0 + 1))%R with 0%R by lra. rewrite Rabs_R0.
      destruct (Rgt_dec 0 (/ 10 ^ 10)) as [Hgt|_]; [|reflexivity].
      assert (0 < / 10 ^ 10)%R by (apply Rinv_0_lt_compat, pow_lt; lra).
      lra. }
    rewrite Hloop. reflexivity.
Qed.

Lemma configureParTypeVolFrac_absent_witness :
  exists d,
    GRM.configureDescriptor (GRM.mkDiscInput 1 2 [1; 1] [0; 0] None) = Ok d
    /\ GRM.configureParTypeVolFrac d None [] 2 2 2
       = Throw (InvalidParameterException "PAR_TYPE_VOLFRAC").
Proof.
  eexists. split; [reflexivity|].
  match goal with
  | |- GRM.configureParTypeVolFrac ?d _ _ _ _ _ = _ =>
      destruct (configureParTypeVolFrac_absent d 2 2 2) as [H _];
        [vm_compute; split; [discriminate|reflexivity]|]
  end.
  apply H. vm_compute. reflexivity.
Defined.

(** X25.  The consistent initialization, full or lean, ends with the
    coupling conditions solved for the time derivative: in the
    [vecStateYdot] it leaves, every inlet DOF of every unit operation
    equals its coupling DOF; this holds when the inlet DOFs lie before the
    coupling DOFs, no two of them share an index, and the coupling DOFs end
    before [2^32]. *)
Theorem consistentInitialization_yDot_coupled (tag : ModelSystem.Tag)
    (sys : ModelSystem.System) (t : R) (secIdx : Z) (errorTol : R)
    (s : ModelSystem.State) (i p c : Z) :
  0 <= last (ModelSystem.dofOffset sys) 0 ->
  (forall i, 0 <= i < vsize (ModelSystem.models sys) ->
     0 <= ModelSystem.numInletPorts
            (vget ModelSystem.noUnit (ModelSystem.models sys) i)
     /\ 0 <= ModelSystem.numComponents
               (vget ModelSystem.noUnit (ModelSystem.models sys) i)) ->
  last (ModelSystem.dofOffset sys) 0
  + zsum (inletDofs sys) (vsize (ModelSystem.models sys)) < UInt.modulus ->
  (forall i p c, isInletDof sys i p c ->
     inletIndex sys i p c < last (ModelSystem.dofOffset sys) 0) ->
  (forall i p c i' p' c',
     isInletDof sys i p c -> isInletDof sys i' p' c' ->
     inletIndex sys i p c = inletIndex sys i' p' c' ->
     i = i' /\ p = p' /\ c = c') ->
  isInletDof sys i p c ->
  ModelSystem.vecStateYdot
    (ModelSystem.consistentInitialConditionAlgorithm tag sys t secIdx errorTol s)
    (inletIndex sys i p c)
  = ModelSystem.vecStateYdot
      (ModelSystem.consistentInitialConditionAlgorithm tag sys t secIdx errorTol s)
      (couplingIndex sys i p c).
Proof.
  intros HF Hcount Hfit Hbelow Hinj Hv.
  unfold ModelSystem.consistentInitialConditionAlgorithm. cbv zeta.
  set (s' := ModelSystem.zeroCouplingDOFs sys ModelSystem.VecStateYdot _).
  unfold ModelSystem.solveCouplingDOF. cbv zeta.
  cbn [ModelSystem.setVector ModelSystem.vecStateYdot ModelSystem.getVector
       ModelSystem.emit].
  destruct (solveCouplingDOF_vec_spec sys (ModelSystem.vecStateYdot s')
              HF Hcount Hfit Hbelow Hinj) as [Hin Hfr].
  rewrite Hin by exact Hv. symmetry. apply Hfr.
  intros i' p' c' Hv' E.
  pose proof (Hbelow i' p' c' Hv').
  destruct (couplingIndex_range sys Hcount Hfit i p c Hv) as [Hlo _]. lia.
Qed.

Lemma consistentInitialization_yDot_coupled_witness :
  let s := ModelSystem.consistentInitialConditionAlgorithm ModelSystem.FullTag
             exampleSystem 0%R 0 1%R
             (ModelSystem.mkState (fun i => IZR i) (fun i => IZR i)
                (fun _ => 0%R) []) in
  ModelSystem.vecStateYdot s (inletIndex exampleSystem 1 0 1)
  = ModelSystem.vecStateYdot s (couplingIndex exampleSystem 1 0 1).
Proof.
  intros s. unfold s.
  apply (consistentInitialization_yDot_coupled ModelSystem.FullTag
           exampleSystem 0%R 0 1%R _ 1 0 1).
  - vm_compute. discriminate.
  - intros i Hi.
    change (vsize (ModelSystem.models exampleSystem)) with 2 in Hi.
    assert (Ei : i = 0 \/ i = 1) by lia.
    destruct Ei as [->| ->]; vm_compute; split; discriminate.
  - vm_compute. reflexivity.
  - intros i p c Hv.
    destruct (exampleSystem_inletDof i p c Hv) as (-> & -> & [->| ->]);
      vm_compute; reflexivity.
  - intros i p c i' p' c' Hv Hv'.
    destruct (exampleSystem_inletDof i p c Hv) as (-> & -> & [->| ->]);
      destruct (exampleSystem_inletDof i' p' c' Hv') as (-> & -> & [->| ->]);
      vm_compute; intros E; try discriminate E; auto.
  - unfold isInletDof. cbv zeta.
    change (vsize (ModelSystem.models exampleSystem)) with 2.
    change (ModelSystem.numInletPorts
              (vget ModelSystem.noUnit (ModelSystem.models exampleSystem) 1))
      with 1.
    change (ModelSystem.numComponents
              (vget ModelSystem.noUnit (ModelSystem.models exampleSystem) 1))
      with 2.
    repeat split; try lia.
Defined.
